(** * A verification development for the malloc challenge allocators

    The development embeds the two allocators of the repository
    ([first_fit_malloc.c] and the best-fit allocator with its balanced tree)
    and the workload harness of [main.c].

    Memory is modelled as a finite map from header addresses to header
    records; pointers are integers, [NULL] is [0].  The C functions become
    functions over that store.  Loops and recursion take a [fuel] argument and
    answer [Timeout] when it is exhausted; a failed [assert] is [Abort]; a
    dereference of [NULL] or of an address that holds no header is [Crash].

    [size_t] values wrap at 64 bits.  Addresses and the [int] heights of the
    tree are unbounded integers: the model has no overflow of a pointer or of
    a height.  [mmap] always succeeds and answers the region that starts at
    [brk], above everything mapped before; the trace file of [main.c] is
    left out. *)

From Stdlib Require Import ZArith Lia List Sorting.Sorted Permutation.
From stdpp Require Import base option list gmap sorting.

Local Open Scope Z_scope.

(** ** Outcomes of a run *)

Inductive outcome (A : Type) : Type :=
| Done (x : A)
| Abort
| Crash
| Timeout.

Arguments Done {A} x.
Arguments Abort {A}.
Arguments Crash {A}.
Arguments Timeout {A}.

Definition obind {A B : Type} (c : outcome A) (k : A -> outcome B) : outcome B :=
  match c with
  | Done x => k x
  | Abort => Abort
  | Crash => Crash
  | Timeout => Timeout
  end.

#[export] Instance outcome_bind : MBind outcome := fun A B k c => obind c k.
#[export] Instance outcome_ret : MRet outcome := fun A x => Done x.

(** ** Machine arithmetic and the page provider *)

(** [size_t] is 64 bits wide (the LP64 platforms the challenge targets). *)
Definition size_max : Z := 2 ^ 64.
Definition wrap (x : Z) : Z := x mod size_max.

Definition NULL : Z := 0.

(** Modelled from the spec: [max] is declared in the allocator file
    ([int max(int a, int b);]) but defined in [common.c], which is not among
    the sources; the tree maintenance rule of the specification,
    [height = 1 + max(height(left), height(right))], fixes it as the larger of
    its two arguments. *)
Definition max (a b : Z) : Z := Z.max a b.

(** The operating system hands out fresh, page aligned regions.  [brk] is the
    address of the next region; [mmap_size] is [stats.mmap_size] of
    [main.c]. *)
Record system : Type := {
  brk : Z;
  mmap_size : Z
}.

(** [mmap_from_system] of [main.c]: the two [assert]s, the statistics update
    and the address of the mapped region. *)
Definition mmap_from_system (sys : system) (size : Z) : outcome (system * Z) :=
  if negb (size mod 4096 =? 0) then Abort
  else
    let ptr := brk sys in
    if ptr =? NULL then Abort
    else Done ({| brk := brk sys + size;
                  mmap_size := wrap (mmap_size sys + size) |}, ptr).

(** ** Blocks and their extents

    A block is the pair of its header address and its size; with headers of
    [hdr] bytes it occupies [hdr + size] bytes from its address on. *)

Section Blocks.
Variable hdr : Z.

Definition block_end (b : Z * Z) : Z := b.1 + hdr + b.2.

Definition disjoint_blocks (b1 b2 : Z * Z) : Prop :=
  block_end b1 <= b2.1 \/ block_end b2 <= b1.1.

(** Blocks at distinct positive addresses, none larger than what a page can
    hold, all below [top], no two overlapping. *)
Definition blocks_ok (top : Z) (bs : list (Z * Z)) : Prop :=
  NoDup bs.*1 /\
  (forall b, b ∈ bs -> 0 < b.1 /\ 0 <= b.2 <= 4096 - hdr /\ block_end b <= top) /\
  (forall b1 b2, b1 ∈ bs -> b2 ∈ bs -> b1.1 <> b2.1 -> disjoint_blocks b1 b2).

(** The same, as functions that can be run on a given list. *)
Definition disjoint_blocksb (b1 b2 : Z * Z) : bool :=
  (block_end b1 <=? b2.1) || (block_end b2 <=? b1.1).

Fixpoint nodupb (l : list Z) : bool :=
  match l with
  | [] => true
  | x :: l' => negb (existsb (Z.eqb x) l') && nodupb l'
  end.

Definition blocks_okb (top : Z) (bs : list (Z * Z)) : bool :=
  nodupb bs.*1 &&
  forallb (fun b => (0 <? b.1) && (0 <=? b.2) && (b.2 <=? 4096 - hdr)
                    && (block_end b <=? top)) bs &&
  forallb (fun b1 => forallb (fun b2 => (b1.1 =? b2.1) || disjoint_blocksb b1 b2) bs) bs.
End Blocks.

(** ** The best-fit allocator *)

Module BestFit.

(** [best_fit_metadata_t]; [left], [right] are addresses. *)
Record best_fit_metadata_t : Type := {
  size : Z;
  left : Z;
  right : Z;
  height : Z
}.

(** [sizeof(best_fit_metadata_t)]: three 8-byte fields, an [int] and its
    padding. *)
Definition header_size : Z := 32.

Definition set_size (t : best_fit_metadata_t) (v : Z) : best_fit_metadata_t :=
  {| size := v; left := left t; right := right t; height := height t |}.
Definition set_left (t : best_fit_metadata_t) (v : Z) : best_fit_metadata_t :=
  {| size := size t; left := v; right := right t; height := height t |}.
Definition set_right (t : best_fit_metadata_t) (v : Z) : best_fit_metadata_t :=
  {| size := size t; left := left t; right := v; height := height t |}.
Definition set_height (t : best_fit_metadata_t) (v : Z) : best_fit_metadata_t :=
  {| size := size t; left := left t; right := right t; height := v |}.

Abbreviation mem := (gmap Z best_fit_metadata_t).

(** Reading a header through a pointer. *)
Definition load (m : mem) (p : Z) : outcome best_fit_metadata_t :=
  if p =? NULL then Crash
  else match m !! p with
       | Some t => Done t
       | None => Crash
       end.

(** Writing one field through a pointer: [p->left = v] and so on. *)
Definition store_size (m : mem) (p v : Z) : outcome mem :=
  t ← load m p; Done (<[p := set_size t v]> m).
Definition store_left (m : mem) (p v : Z) : outcome mem :=
  t ← load m p; Done (<[p := set_left t v]> m).
Definition store_right (m : mem) (p v : Z) : outcome mem :=
  t ← load m p; Done (<[p := set_right t v]> m).
Definition store_height (m : mem) (p v : Z) : outcome mem :=
  t ← load m p; Done (<[p := set_height t v]> m).

(** [p ? p->height : 0] *)
Definition height_or_zero (m : mem) (p : Z) : outcome Z :=
  if p =? NULL then Done 0 else t ← load m p; Done (height t).

Definition best_fit_balance_tree (m : mem) (tree : Z) : outcome (mem * Z) :=
  t ← load m tree;
  left_height ← height_or_zero m (left t);
  right_height ← height_or_zero m (right t);
  m ← store_height m tree (1 + max left_height right_height);
  if left_height + 1 <? right_height then
    t ← load m tree;
    let right_ := right t in
    r ← load m right_;
    let right_left := left r in
    m ← store_left m right_ tree;
    m ← store_right m tree right_left;
    Done (m, right_)
  else if right_height + 1 <? left_height then
    t ← load m tree;
    let left_ := left t in
    l ← load m left_;
    let left_right := right l in
    m ← store_right m left_ tree;
    m ← store_left m tree left_right;
    Done (m, left_)
  else Done (m, tree).

Fixpoint best_fit_insert_recursive (fuel : nat) (m : mem) (metadata tree : Z)
  : outcome (mem * Z) :=
  match fuel with
  | O => Timeout
  | S fuel =>
    if tree =? NULL then Done (m, metadata)
    else
      md ← load m metadata;
      t ← load m tree;
      if size md <? size t then
        '(m, l) ← best_fit_insert_recursive fuel m metadata (left t);
        m ← store_left m tree l;
        best_fit_balance_tree m tree
      else
        '(m, r) ← best_fit_insert_recursive fuel m metadata (right t);
        m ← store_right m tree r;
        best_fit_balance_tree m tree
  end.

(** [while (root->left) root = root->left;] *)
Fixpoint leftmost (fuel : nat) (m : mem) (root : Z) : outcome Z :=
  match fuel with
  | O => Timeout
  | S fuel =>
    t ← load m root;
    if left t =? NULL then Done root else leftmost fuel m (left t)
  end.

Fixpoint best_fit_remove_recursive (fuel : nat) (m : mem) (metadata tree : Z)
  : outcome (mem * Z) :=
  match fuel with
  | O => Timeout
  | S fuel =>
    if metadata =? tree then
      t ← load m tree;
      if left t =? NULL then Done (m, right t)
      else if right t =? NULL then Done (m, left t)
      else
        root ← leftmost fuel m (right t);
        '(m, r) ← best_fit_remove_recursive fuel m root (right t);
        m ← store_right m root r;
        t ← load m tree;
        m ← store_left m root (left t);
        Done (m, root)
    else
      t ← load m tree;
      md ← load m metadata;
      if size t <? size md then
        '(m, r) ← best_fit_remove_recursive fuel m metadata (right t);
        m ← store_right m tree r;
        best_fit_balance_tree m tree
      else
        '(m, l) ← best_fit_remove_recursive fuel m metadata (left t);
        m ← store_left m tree l;
        best_fit_balance_tree m tree
  end.

(** The global [best_fit_tree] ([free_head], and the address of its [dummy]
    member), the headers in memory, and the page provider. *)
Record state : Type := {
  free_head : Z;
  dummy : Z;
  heap : mem;
  sys : system
}.

Definition with_heap (st : state) (m : mem) : state :=
  {| free_head := free_head st; dummy := dummy st; heap := m; sys := sys st |}.
Definition with_tree (st : state) (m : mem) (p : Z) : state :=
  {| free_head := p; dummy := dummy st; heap := m; sys := sys st |}.
Definition with_sys (st : state) (s : system) : state :=
  {| free_head := free_head st; dummy := dummy st; heap := heap st; sys := s |}.

Definition best_fit_insert_to_tree (fuel : nat) (st : state) (metadata : Z)
  : outcome state :=
  '(m, p) ← best_fit_insert_recursive fuel (heap st) metadata (free_head st);
  Done (with_tree st m p).

Definition best_fit_remove_from_tree (fuel : nat) (st : state) (metadata : Z)
  : outcome state :=
  '(m, p) ← best_fit_remove_recursive fuel (heap st) metadata (free_head st);
  Done (with_tree st m p).

Definition best_fit_initialize (st : state) : state :=
  {| free_head := dummy st;
     dummy := dummy st;
     heap := <[dummy st := {| size := 0; left := NULL; right := NULL; height := 1 |}]> (heap st);
     sys := sys st |}.

(** The search loop of [best_fit_malloc]; it answers the final [best]. *)
Fixpoint best_fit_search (fuel : nat) (m : mem) (sz : Z) (metadata best : Z)
  : outcome Z :=
  match fuel with
  | O => Timeout
  | S fuel =>
    if metadata =? NULL then Done best
    else
      t ← load m metadata;
      if size t <? sz then best_fit_search fuel m sz (right t) best
      else best_fit_search fuel m sz (left t) metadata
  end.

(** A header written field by field on memory that held none. *)
Definition fresh_header (sz : Z) : best_fit_metadata_t :=
  {| size := sz; left := NULL; right := NULL; height := 1 |}.

Fixpoint best_fit_malloc (fuel : nat) (st : state) (sz : Z) : outcome (state * Z) :=
  match fuel with
  | O => Timeout
  | S fuel =>
    best ← best_fit_search fuel (heap st) sz (free_head st) NULL;
    if best =? NULL then
      let buffer_size := 4096 in
      '(s, metadata) ← mmap_from_system (sys st) buffer_size;
      let st := with_sys st s in
      let st := with_heap st
                  (<[metadata := fresh_header (wrap (buffer_size - header_size))]> (heap st)) in
      st ← best_fit_insert_to_tree fuel st metadata;
      best_fit_malloc fuel st sz
    else
      let ptr := best + header_size in
      b ← load (heap st) best;
      let remaining_size := wrap (size b - sz) in
      st ← best_fit_remove_from_tree fuel st best;
      m ← store_left (heap st) best NULL;
      m ← store_right m best NULL;
      m ← store_height m best 1;
      let st := with_heap st m in
      if header_size <? remaining_size then
        m ← store_size (heap st) best sz;
        let new_metadata := ptr + sz in
        let m := <[new_metadata := fresh_header (wrap (remaining_size - header_size))]> m in
        st ← best_fit_insert_to_tree fuel (with_heap st m) new_metadata;
        Done (st, ptr)
      else Done (st, ptr)
  end.

Definition best_fit_free (fuel : nat) (st : state) (ptr : Z) : outcome state :=
  let metadata := ptr - header_size in
  best_fit_insert_to_tree fuel st metadata.

(** A machine whose [best_fit_tree.dummy] lives at address 64 and whose first
    mapped page will be at 4096. *)
Definition boot : state :=
  {| free_head := NULL; dummy := 64; heap := ∅;
     sys := {| brk := 4096; mmap_size := 0 |} |}.


(** *** The tree a store represents

    [tree_rep m p t]: following [left] and [right] from [p] in [m] reads the
    tree [t], whose nodes carry their address, size and stored height. *)

Inductive tree : Type :=
| E
| T (a sz : Z) (l r : tree) (h : Z).

Fixpoint tree_rep (m : mem) (p : Z) (t : tree) : Prop :=
  match t with
  | E => p = NULL
  | T a sz l r h =>
    p = a /\ a <> NULL /\
    exists lp rp,
      m !! a = Some {| size := sz; left := lp; right := rp; height := h |} /\
      tree_rep m lp l /\ tree_rep m rp r
  end.

(** In-order list of (address, size). *)
Fixpoint elems (t : tree) : list (Z * Z) :=
  match t with
  | E => []
  | T a sz l r _ => elems l ++ (a, sz) :: elems r
  end.

Definition addrs (t : tree) : list Z := (elems t).*1.
Definition sizes (t : tree) : list Z := (elems t).*2.

(** The stored height field, [0] for the empty tree. *)
Definition hgt (t : tree) : Z :=
  match t with
  | E => 0
  | T _ _ _ _ h => h
  end.

(** The height the tree really has. *)
Fixpoint depth (t : tree) : nat :=
  match t with
  | E => O
  | T _ _ l r _ => S (Nat.max (depth l) (depth r))
  end.

(** Every stored height is at least 1. *)
Fixpoint heights_pos (t : tree) : Prop :=
  match t with
  | E => True
  | T _ _ l r h => 1 <= h /\ heights_pos l /\ heights_pos r
  end.

(** Binary search tree keyed by size, duplicates on either side: the
    in-order sequence of sizes never decreases. *)
Definition le_size (x y : Z * Z) : Prop := x.2 <= y.2.
Definition bst (t : tree) : Prop := StronglySorted le_size (elems t).

(** The address of the root of a tree. *)
Definition root_of (t : tree) : Z :=
  match t with
  | E => NULL
  | T a _ _ _ _ => a
  end.

(** The pure counterparts of the tree functions. *)
Definition balance_t (a sz : Z) (l r : tree) : tree :=
  let lh := hgt l in
  let rh := hgt r in
  let h := 1 + max lh rh in
  if lh + 1 <? rh then
    match r with
    | T ra rsz rl rr rh0 => T ra rsz (T a sz l rl h) rr rh0
    | E => T a sz l r h
    end
  else if rh + 1 <? lh then
    match l with
    | T la lsz ll lr lh0 => T la lsz ll (T a sz lr r h) lh0
    | E => T a sz l r h
    end
  else T a sz l r h.

Fixpoint insert_t (a0 sz0 h0 : Z) (t : tree) : tree :=
  match t with
  | E => T a0 sz0 E E h0
  | T a sz l r _ =>
    if sz0 <? sz then balance_t a sz (insert_t a0 sz0 h0 l) r
    else balance_t a sz l (insert_t a0 sz0 h0 r)
  end.

(** Address, size and stored height of the leftmost node. *)
Fixpoint leftmost_t (a sz : Z) (l : tree) (h : Z) : Z * Z * Z :=
  match l with
  | E => (a, sz, h)
  | T la lsz ll _ lh => leftmost_t la lsz ll lh
  end.

Fixpoint remove_t (a0 sz0 : Z) (t : tree) : option tree :=
  match t with
  | E => None
  | T a sz l r h =>
    if a0 =? a then
      match l with
      | E => Some r
      | T _ _ _ _ _ =>
        match r with
        | E => Some l
        | T ra rsz rl _ rh =>
          let '(xa, xsz, xh) := leftmost_t ra rsz rl rh in
          r' ← remove_t xa xsz r;
          Some (T xa xsz l r' xh)
        end
      end
    else if sz <? sz0 then
      r' ← remove_t a0 sz0 r; Some (balance_t a sz l r')
    else
      l' ← remove_t a0 sz0 l; Some (balance_t a sz l' r)
  end.

(** The candidate the search loop ends with, if any. *)
Fixpoint search_t (req : Z) (t : tree) : option (Z * Z) :=
  match t with
  | E => None
  | T a sz l r _ =>
    if sz <? req then search_t req r
    else match search_t req l with
         | Some b => Some b
         | None => Some (a, sz)
         end
  end.

(** What a call may change: headers outside [S] are untouched, and no size
    field changes anywhere. *)
Definition unchanged_outside (S : list Z) (m m' : mem) : Prop :=
  forall x, x ∉ S -> m' !! x = m !! x.
Definition same_sizes (m m' : mem) : Prop :=
  forall x, size <$> (m' !! x) = size <$> (m !! x).

(** The pure counterpart of [best_fit_malloc] once the search has chosen the
    block at [b] of size [s]: the new tree and the block handed out. *)
Definition take_t (req b s : Z) (t : tree) : option (tree * (Z * Z)) :=
  t1 ← remove_t b s t;
  Some (if header_size <? s - req
        then (insert_t (b + header_size + req) (s - req - header_size) 1 t1, (b, req))
        else (t1, (b, s))).

(** The pure counterpart of [best_fit_malloc]; [top] is the address of the
    next page, and the third component is what it becomes. *)
Definition malloc_t (top req : Z) (t : tree) : option (tree * (Z * Z) * Z) :=
  match search_t req t with
  | Some (b, s) => r ← take_t req b s t; Some (r, top)
  | None =>
    let t1 := insert_t top (4096 - header_size) 1 t in
    match search_t req t1 with
    | Some (b, s) => r ← take_t req b s t1; Some (r, top + 4096)
    | None => None
    end
  end.

(** AVL balance, on the heights the subtrees really have and on the stored
    [height] fields. *)
Fixpoint real_height (t : tree) : Z :=
  match t with
  | E => 0
  | T _ _ l r _ => 1 + Z.max (real_height l) (real_height r)
  end.

Fixpoint avl (t : tree) : Prop :=
  match t with
  | E => True
  | T _ _ l r _ => Z.abs (real_height l - real_height r) <= 1 /\ avl l /\ avl r
  end.

Fixpoint avl_stored (t : tree) : Prop :=
  match t with
  | E => True
  | T _ _ l r _ => Z.abs (hgt l - hgt r) <= 1 /\ avl_stored l /\ avl_stored r
  end.

(** *** The invariant of the allocator *)

(** [heap_inv st t live]: the free collection of [st] is the search tree [t];
    [live] are the blocks handed out and not yet released, each with a
    detached header. *)
Record heap_inv (st : state) (t : tree) (live : list (Z * Z)) : Prop := {
  inv_rep : tree_rep (heap st) (free_head st) t;
  inv_bst : bst t;
  inv_heights : heights_pos t;
  inv_blocks : blocks_ok header_size (brk (sys st)) (elems t ++ live);
  inv_live : forall b, b ∈ live -> heap st !! b.1 = Some (fresh_header b.2);
  inv_brk : 0 < brk (sys st)
}.

(** The states the allocator reaches when it is used by its contract, with
    the pointers handed out and not yet released. *)
Inductive reachable : state -> list Z -> Prop :=
| reachable_initialize (st : state) :
    0 < dummy st -> dummy st + header_size <= brk (sys st) ->
    reachable (best_fit_initialize st) []
| reachable_malloc (st : state) (ps : list Z) (f : nat) (sz : Z) (st' : state) (p : Z) :
    reachable st ps -> 0 <= sz ->
    best_fit_malloc f st sz = Done (st', p) ->
    reachable st' (p :: ps)
| reachable_free (st : state) (ps1 ps2 : list Z) (p : Z) (f : nat) (st' : state) :
    reachable st (ps1 ++ p :: ps2) ->
    best_fit_free f st p = Done st' ->
    reachable st' (ps1 ++ ps2).

(** The payload pointer of a block. *)
Definition payload (b : Z * Z) : Z := b.1 + header_size.

(** The invariant as a function that can be run on a given state. *)
Fixpoint tree_repb (m : mem) (p : Z) (t : tree) : bool :=
  match t with
  | E => p =? NULL
  | T a sz l r h =>
    (p =? a) && negb (a =? NULL) &&
    match m !! a with
    | Some md =>
      (size md =? sz) && (height md =? h) &&
      tree_repb m (left md) l && tree_repb m (right md) r
    | None => false
    end
  end.

Fixpoint heights_posb (t : tree) : bool :=
  match t with
  | E => true
  | T _ _ l r h => (1 <=? h) && heights_posb l && heights_posb r
  end.

Fixpoint sortedb (l : list Z) : bool :=
  match l with
  | [] => true
  | x :: l' => forallb (fun y => x <=? y) l' && sortedb l'
  end.

Definition is_fresh_header (o : option best_fit_metadata_t) (sz : Z) : bool :=
  match o with
  | Some md => (size md =? sz) && (left md =? NULL) && (right md =? NULL) && (height md =? 1)
  | None => false
  end.

Definition heap_invb (st : state) (t : tree) (live : list (Z * Z)) : bool :=
  tree_repb (heap st) (free_head st) t &&
  sortedb (sizes t) &&
  heights_posb t &&
  blocks_okb header_size (brk (sys st)) (elems t ++ live) &&
  forallb (fun b => is_fresh_header (heap st !! b.1) b.2) live &&
  (0 <? brk (sys st)).

End BestFit.

(** ** The first-fit allocator *)

Module FirstFit.

(** [first_fit_metadata_t]; [next] is an address. *)
Record first_fit_metadata_t : Type := {
  size : Z;
  next : Z
}.

(** [sizeof(first_fit_metadata_t)]: two 8-byte fields. *)
Definition header_size : Z := 16.

Definition set_size (t : first_fit_metadata_t) (v : Z) : first_fit_metadata_t :=
  {| size := v; next := next t |}.
Definition set_next (t : first_fit_metadata_t) (v : Z) : first_fit_metadata_t :=
  {| size := size t; next := v |}.

Abbreviation mem := (gmap Z first_fit_metadata_t).

Definition load (m : mem) (p : Z) : outcome first_fit_metadata_t :=
  if p =? NULL then Crash
  else match m !! p with
       | Some t => Done t
       | None => Crash
       end.

Definition store_size (m : mem) (p v : Z) : outcome mem :=
  t ← load m p; Done (<[p := set_size t v]> m).
Definition store_next (m : mem) (p v : Z) : outcome mem :=
  t ← load m p; Done (<[p := set_next t v]> m).

(** The global [first_fit_heap] ([free_head], and the address of its [dummy]
    member), the headers in memory, and the page provider. *)
Record state : Type := {
  free_head : Z;
  dummy : Z;
  heap : mem;
  sys : system
}.

Definition with_heap (st : state) (m : mem) : state :=
  {| free_head := free_head st; dummy := dummy st; heap := m; sys := sys st |}.
Definition with_head (st : state) (p : Z) : state :=
  {| free_head := p; dummy := dummy st; heap := heap st; sys := sys st |}.
Definition with_sys (st : state) (s : system) : state :=
  {| free_head := free_head st; dummy := dummy st; heap := heap st; sys := s |}.

Definition first_fit_add_to_free_list (st : state) (metadata : Z) : outcome state :=
  md ← load (heap st) metadata;
  if negb (next md =? NULL) then Abort
  else
    m ← store_next (heap st) metadata (free_head st);
    Done (with_head (with_heap st m) metadata).

Definition first_fit_remove_from_free_list (st : state) (metadata prev : Z)
  : outcome state :=
  md ← load (heap st) metadata;
  st ← (if negb (prev =? NULL) then
          m ← store_next (heap st) prev (next md);
          Done (with_heap st m)
        else Done (with_head st (next md)));
  m ← store_next (heap st) metadata NULL;
  Done (with_heap st m).

Definition first_fit_initialize (st : state) : state :=
  {| free_head := dummy st;
     dummy := dummy st;
     heap := <[dummy st := {| size := 0; next := NULL |}]> (heap st);
     sys := sys st |}.

(** The scan loop of [first_fit_malloc]; it answers the final [metadata] and
    [prev]. *)
Fixpoint first_fit_scan (fuel : nat) (m : mem) (sz : Z) (metadata prev : Z)
  : outcome (Z * Z) :=
  match fuel with
  | O => Timeout
  | S fuel =>
    if metadata =? NULL then Done (metadata, prev)
    else
      t ← load m metadata;
      if size t <? sz then first_fit_scan fuel m sz (next t) metadata
      else Done (metadata, prev)
  end.

(** A header written field by field on memory that held none. *)
Definition fresh_header (sz : Z) : first_fit_metadata_t :=
  {| size := sz; next := NULL |}.

Fixpoint first_fit_malloc (fuel : nat) (st : state) (sz : Z) : outcome (state * Z) :=
  match fuel with
  | O => Timeout
  | S fuel =>
    '(metadata, prev) ← first_fit_scan fuel (heap st) sz (free_head st) NULL;
    if metadata =? NULL then
      let buffer_size := 4096 in
      '(s, metadata) ← mmap_from_system (sys st) buffer_size;
      let st := with_sys st s in
      let st := with_heap st
                  (<[metadata := fresh_header (wrap (buffer_size - header_size))]> (heap st)) in
      st ← first_fit_add_to_free_list st metadata;
      first_fit_malloc fuel st sz
    else
      let ptr := metadata + header_size in
      md ← load (heap st) metadata;
      let remaining_size := wrap (size md - sz) in
      st ← first_fit_remove_from_free_list st metadata prev;
      if header_size <? remaining_size then
        m ← store_size (heap st) metadata sz;
        let new_metadata := ptr + sz in
        let m := <[new_metadata := fresh_header (wrap (remaining_size - header_size))]> m in
        st ← first_fit_add_to_free_list (with_heap st m) new_metadata;
        Done (st, ptr)
      else Done (st, ptr)
  end.

Definition first_fit_free (st : state) (ptr : Z) : outcome state :=
  let metadata := ptr - header_size in
  first_fit_add_to_free_list st metadata.

(** A machine whose [first_fit_heap.dummy] lives at address 64 and whose
    first mapped page will be at 4096. *)
Definition boot : state :=
  {| free_head := NULL; dummy := 64; heap := ∅;
     sys := {| brk := 4096; mmap_size := 0 |} |}.

(** *** The list a store represents *)

(** [list_rep m p l]: following [next] from [p] in [m] reads the blocks
    [l], each an (address, size) pair, and ends in [NULL]. *)
Fixpoint list_rep (m : mem) (p : Z) (l : list (Z * Z)) : Prop :=
  match l with
  | [] => p = NULL
  | b :: l' =>
    p = b.1 /\ b.1 <> NULL /\
    exists nx, m !! b.1 = Some {| size := b.2; next := nx |} /\ list_rep m nx l'
  end.

(** The pure counterpart of the scan: the blocks skipped, the block the scan
    stops at, and the blocks after it. *)
Fixpoint split_first (req : Z) (l : list (Z * Z))
  : option (list (Z * Z) * (Z * Z) * list (Z * Z)) :=
  match l with
  | [] => None
  | b :: l' =>
    if b.2 <? req then
      match split_first req l' with
      | Some (l1, y, l2) => Some (b :: l1, y, l2)
      | None => None
      end
    else Some ([], b, l')
  end.

(** The address of the last block of [l], or [d]. *)
Fixpoint last_addr (l : list (Z * Z)) (d : Z) : Z :=
  match l with
  | [] => d
  | b :: l' => last_addr l' b.1
  end.

(** The pure counterpart of [first_fit_malloc] once the scan stopped at the
    block [b] of size [s], the other free blocks being [rest]. *)
Definition take_l (req b s : Z) (rest : list (Z * Z)) : list (Z * Z) * (Z * Z) :=
  if header_size <? s - req
  then ((b + header_size + req, s - req - header_size) :: rest, (b, req))
  else (rest, (b, s)).

(** The pure counterpart of [first_fit_malloc]; [top] is the address of the
    next page, and the third component is what it becomes. *)
Definition malloc_l (top req : Z) (l : list (Z * Z))
  : option (list (Z * Z) * (Z * Z) * Z) :=
  match split_first req l with
  | Some (l1, b, l2) => Some (take_l req b.1 b.2 (l1 ++ l2), top)
  | None =>
    if 4096 - header_size <? req then None
    else Some (take_l req top (4096 - header_size) l, top + 4096)
  end.

(** [heap_inv st l live]: the free list of [st] is [l], in list order; [live]
    are the blocks handed out and not yet released, each with [next] reset. *)
Record heap_inv (st : state) (l : list (Z * Z)) (live : list (Z * Z)) : Prop := {
  inv_rep : list_rep (heap st) (free_head st) l;
  inv_blocks : blocks_ok header_size (brk (sys st)) (l ++ live);
  inv_live : forall b, b ∈ live -> heap st !! b.1 = Some (fresh_header b.2);
  inv_brk : 0 < brk (sys st)
}.

Definition unchanged_outside (S : list Z) (m m' : mem) : Prop :=
  forall x, x ∉ S -> m' !! x = m !! x.
Definition same_sizes (m m' : mem) : Prop :=
  forall x, size <$> (m' !! x) = size <$> (m !! x).

(** The states the allocator reaches when it is used by its contract, with
    the pointers handed out and not yet released. *)
Inductive reachable : state -> list Z -> Prop :=
| reachable_initialize (st : state) :
    0 < dummy st -> dummy st + header_size <= brk (sys st) ->
    reachable (first_fit_initialize st) []
| reachable_malloc (st : state) (ps : list Z) (f : nat) (sz : Z) (st' : state) (p : Z) :
    reachable st ps -> 0 <= sz ->
    first_fit_malloc f st sz = Done (st', p) ->
    reachable st' (p :: ps)
| reachable_free (st : state) (ps1 ps2 : list Z) (p : Z) (st' : state) :
    reachable st (ps1 ++ p :: ps2) ->
    first_fit_free st p = Done st' ->
    reachable st' (ps1 ++ ps2).

(** The payload pointer of a block. *)
Definition payload (b : Z * Z) : Z := b.1 + header_size.

(** The invariant as a function that can be run on a given state. *)
Fixpoint list_repb (m : mem) (p : Z) (l : list (Z * Z)) : bool :=
  match l with
  | [] => p =? NULL
  | b :: l' =>
    (p =? b.1) && negb (b.1 =? NULL) &&
    match m !! b.1 with
    | Some md => (size md =? b.2) && list_repb m (next md) l'
    | None => false
    end
  end.

Definition is_fresh_header (o : option first_fit_metadata_t) (sz : Z) : bool :=
  match o with
  | Some md => (size md =? sz) && (next md =? NULL)
  | None => false
  end.

Definition heap_invb (st : state) (l live : list (Z * Z)) : bool :=
  list_repb (heap st) (free_head st) l &&
  blocks_okb header_size (brk (sys st)) (l ++ live) &&
  forallb (fun b => is_fresh_header (heap st !! b.1) b.2) live &&
  (0 <? brk (sys st)).

End FirstFit.

(** ** The workload harness of [main.c] *)

Module Harness.

(** [object_t] *)
Record object_t : Type := {
  ptr : Z;
  size : Z;
  tag : Z
}.

(** [char] is a signed byte (gcc on x86-64): [tag++] wraps from 127 to -128. *)
Definition char_wrap (x : Z) : Z := (x + 128) mod 256 - 128.

(** [tag++; if (tag == 0) tag++;] *)
Definition next_tag (t : Z) : Z :=
  let t := char_wrap (t + 1) in
  if t =? 0 then char_wrap (t + 1) else t.

(** The payload bytes, as [char] values by address. *)
Abbreviation memory := (gmap Z Z).

(** [memset(ptr, c, n)] *)
Definition memset (m : memory) (p c : Z) (n : Z) : memory :=
  foldr (fun i m => <[p + i := c]> m) m (seqZ 0 n).

(** [((char * )object.ptr)[i]]; memory never written reads as fresh mapped
    memory does, [0]. *)
Definition byte_at (m : memory) (p : Z) : Z := default 0 (m !! p).

(** The corruption check of the release loop: it answers [true] when the
    [assert(0)] is reached. *)
Definition tag_broken (m : memory) (o : object_t) : bool :=
  negb (byte_at m (ptr o) =? tag o) || negb (byte_at m (ptr o + wrap (size o - 1)) =? tag o).

(** What one random draw decides for an object: [get_object_size],
    [get_object_lifetime] and the comparison [urand() < 0.04]. *)
Record draw : Type := {
  d_size : Z;
  d_lifetime : Z;
  d_permanent : bool
}.

(** The constants of the build without [ENABLE_MALLOC_TRACE]. *)
Definition epochs_per_cycle : nat := 100.
Definition objects_per_epoch_small : nat := 100.
Definition objects_per_epoch_large : nat := 2000.
Definition cycles : nat := 10.

Section Challenge.
(** The allocator under test: its state and the function pointers
    [initialize_func], [malloc_func], [free_func] and [finalize_func]. *)
Variable A : Type.
Variable initialize_func : A -> A.
Variable malloc_func : A -> Z -> outcome (A * Z).
Variable free_func : A -> Z -> outcome A.
Variable finalize_func : A -> A.
(** The random draws, by cycle, epoch and object index. *)
Variable draws : nat -> nat -> nat -> draw.

(** The locals and globals of [run_challenge].  [created] logs the objects
    in the order they are made. *)
Record harness : Type := {
  alloc : A;
  bytes : memory;
  cur_tag : Z;
  objects : list (list object_t);
  allocated_size : Z;
  freed_size : Z;
  created : list object_t
}.

(** [vector_push(objects[i], object)] *)
Definition vector_push (vs : list (list object_t)) (i : nat) (o : object_t)
  : list (list object_t) :=
  match vs !! i with
  | Some v => <[i := v ++ [o]]> vs
  | None => vs
  end.

(** One iteration of the allocation loop. *)
Definition allocate_object (h : harness) (epoch : nat) (d : draw) : outcome harness :=
  let size := d_size d in
  let lifetime := d_lifetime d in
  let allocated := wrap (allocated_size h + size) in
  '(a, p) ← malloc_func (alloc h) size;
  let m := memset (bytes h) p (cur_tag h) size in
  let object := {| ptr := p; size := size; tag := cur_tag h |} in
  let t := next_tag (cur_tag h) in
  let i := if d_permanent d then epochs_per_cycle
           else Z.to_nat ((Z.of_nat epoch + lifetime) mod Z.of_nat epochs_per_cycle) in
  Done {| alloc := a; bytes := m; cur_tag := t;
          objects := vector_push (objects h) i object;
          allocated_size := allocated; freed_size := freed_size h;
          created := created h ++ [object] |}.

(** [for (int i = 0; i < objects_per_epoch; i++)], from index [i] on. *)
Fixpoint allocate_objects (h : harness) (cycle epoch : nat) (i n : nat)
  : outcome harness :=
  match n with
  | O => Done h
  | S n =>
    h ← allocate_object h epoch (draws cycle epoch i);
    allocate_objects h cycle epoch (S i) n
  end.

(** The release loop over one vector.  The first component lists the
    pointers handed to [free_func], in order. *)
Fixpoint release_objects (h : harness) (v : list object_t) : list Z * outcome harness :=
  match v with
  | [] => ([], Done h)
  | object :: v =>
    let freed := wrap (freed_size h + size object) in
    if tag_broken (bytes h) object then ([], Abort)
    else
      match free_func (alloc h) (ptr object) with
      | Done a =>
        let h := {| alloc := a; bytes := bytes h; cur_tag := cur_tag h;
                    objects := objects h; allocated_size := allocated_size h;
                    freed_size := freed; created := created h |} in
        let '(tr, r) := release_objects h v in
        (ptr object :: tr, r)
      | Abort => ([ptr object], Abort)
      | Crash => ([ptr object], Crash)
      | Timeout => ([ptr object], Timeout)
      end
  end.

(** One epoch: the allocation burst, the release of [objects[epoch]] and
    [vector_clear]. *)
Definition run_epoch (h : harness) (cycle epoch : nat) : outcome harness :=
  let objects_per_epoch :=
    if (epoch =? 0)%nat then objects_per_epoch_large else objects_per_epoch_small in
  h ← allocate_objects h cycle epoch 0 objects_per_epoch;
  h ← (release_objects h (default [] (objects h !! epoch))).2;
  Done {| alloc := alloc h; bytes := bytes h; cur_tag := cur_tag h;
          objects := <[epoch := []]> (objects h);
          allocated_size := allocated_size h; freed_size := freed_size h;
          created := created h |}.

Fixpoint run_epochs (h : harness) (cycle epoch n : nat) : outcome harness :=
  match n with
  | O => Done h
  | S n => h ← run_epoch h cycle epoch; run_epochs h cycle (S epoch) n
  end.

Fixpoint run_cycles (h : harness) (cycle n : nat) : outcome harness :=
  match n with
  | O => Done h
  | S n => h ← run_epochs h cycle 0 epochs_per_cycle; run_cycles h (S cycle) n
  end.

(** The state [run_challenge] starts its loops in: [char tag = 0], empty
    vectors, the allocator initialized, the statistics reset. *)
Definition start (a : A) (m : memory) : harness :=
  {| alloc := initialize_func a; bytes := m; cur_tag := 0;
     objects := replicate (S epochs_per_cycle) [];
     allocated_size := 0; freed_size := 0; created := [] |}.

Definition run_challenge (a : A) (m : memory) : outcome harness :=
  h ← run_cycles (start a m) 0 cycles;
  Done {| alloc := finalize_func (alloc h); bytes := bytes h; cur_tag := cur_tag h;
          objects := objects h; allocated_size := allocated_size h;
          freed_size := freed_size h; created := created h |}.
End Challenge.

End Harness.

(** ** Concrete runs *)

Module Scenarios.

(** *** Best fit *)

Definition bf_init : BestFit.state := BestFit.best_fit_initialize BestFit.boot.

(** [best_fit_initialize(); p = best_fit_malloc(8); best_fit_free(p);] *)
Definition bf_malloc_free : outcome BestFit.state :=
  '(st, p) ← BestFit.best_fit_malloc 8 bf_init 8;
  BestFit.best_fit_free 8 st p.

(** The free blocks of sizes 24 and 40: three allocations use up a page, the
    40-sized and the 24-sized blocks are released. *)
Definition bf_24_40 : outcome BestFit.state :=
  '(st, p1) ← BestFit.best_fit_malloc 8 bf_init 24;
  '(st, p2) ← BestFit.best_fit_malloc 8 st 40;
  '(st, p3) ← BestFit.best_fit_malloc 8 st 3936;
  st ← BestFit.best_fit_free 8 st p2;
  BestFit.best_fit_free 8 st p1.

Definition state_of (o : outcome BestFit.state) : BestFit.state :=
  match o with
  | Done st => st
  | _ => bf_init
  end.

(** The tree [bf_malloc_free] ends with: the root is the remainder of the
    page, the dummy its left child, the released block the right child of
    the dummy. *)
Definition unbalanced_tree : BestFit.tree :=
  BestFit.T 4136 4024
    (BestFit.T 64 0 BestFit.E (BestFit.T 4096 8 BestFit.E BestFit.E 1) 3)
    BestFit.E 2.

(** The tree [bf_24_40] ends with. *)
Definition tree_24_40 : BestFit.tree :=
  BestFit.T 4152 40
    (BestFit.T 64 0 BestFit.E (BestFit.T 4096 24 BestFit.E BestFit.E 1) 3)
    BestFit.E 2.

(** The state after [best_fit_initialize(); best_fit_malloc(8);]. *)
Definition bf_after_malloc : BestFit.state :=
  match BestFit.best_fit_malloc 8 bf_init 8 with
  | Done (st, _) => st
  | _ => bf_init
  end.

(** *** First fit *)

Definition ff_init : FirstFit.state := FirstFit.first_fit_initialize FirstFit.boot.

(** The 40-sized block before the 24-sized block in the free list: three
    allocations use up a page, the 24-sized block is released first. *)
Definition ff_40_24 : outcome FirstFit.state :=
  '(st, p1) ← FirstFit.first_fit_malloc 4 ff_init 24;
  '(st, p2) ← FirstFit.first_fit_malloc 4 st 40;
  '(st, p3) ← FirstFit.first_fit_malloc 4 st 3984;
  st ← FirstFit.first_fit_free st p1;
  FirstFit.first_fit_free st p2.

Definition ff_state_of (o : outcome FirstFit.state) : FirstFit.state :=
  match o with
  | Done st => st
  | _ => ff_init
  end.

(** The free list [ff_40_24] ends with. *)
Definition list_40_24 : list (Z * Z) := [(4136, 40); (4096, 24); (64, 0)].

(** *** The harness on the first-fit allocator, every draw asking for 128
    bytes that live one epoch *)

Definition steady (cycle epoch i : nat) : Harness.draw :=
  {| Harness.d_size := 128; Harness.d_lifetime := 1; Harness.d_permanent := false |}.

Definition ff_malloc_func (st : FirstFit.state) (sz : Z) : outcome (FirstFit.state * Z) :=
  FirstFit.first_fit_malloc 4 st sz.

(** The first iteration of the allocation loop of [run_challenge]. *)
Definition first_object : outcome (Harness.harness FirstFit.state) :=
  Harness.allocate_object FirstFit.state ff_malloc_func
    (Harness.start FirstFit.state FirstFit.first_fit_initialize FirstFit.boot ∅)
    0 (steady 0 0 0).


(** A harness over an allocator without state whose [free_func] always
    succeeds, with one object whose payload was never stamped. *)
Definition idle : Harness.harness unit :=
  {| Harness.alloc := tt; Harness.bytes := ∅; Harness.cur_tag := 1;
     Harness.objects := []; Harness.allocated_size := 0; Harness.freed_size := 0;
     Harness.created := [] |}.

Definition idle_free (a : unit) (p : Z) : outcome unit := Done a.

Definition stale_object : Harness.object_t :=
  {| Harness.ptr := 4112; Harness.size := 128; Harness.tag := 5 |}.

End Scenarios.

(** ** The rest of the allocator files *)

(** [best_fit_finalize], [first_fit_finalize]: empty bodies. *)
Definition best_fit_finalize (st : BestFit.state) : BestFit.state := st.
Definition first_fit_finalize (st : FirstFit.state) : FirstFit.state := st.

(** Blocks whose header address and size are multiples of 8. *)
Definition aligned (bs : list (Z * Z)) : Prop :=
  forall b, b ∈ bs -> b.1 mod 8 = 0 /\ b.2 mod 8 = 0.

(** The bytes a list of blocks occupies, headers included. *)
Definition footprint (hdr : Z) (bs : list (Z * Z)) : Z :=
  foldr (fun b acc => hdr + b.2 + acc) 0 bs.

(** With [top0] the end of the mapped pages at [initialize] and [d] the
    address of the dummy: the blocks [bs] take as many bytes as were mapped
    since, the header of the dummy apart, and every block but the dummy lies
    at or above the first page mapped since. *)
Definition tiles (hdr top0 d : Z) (top : Z) (bs : list (Z * Z)) : Prop :=
  footprint hdr bs = hdr + (top - top0) /\
  forall b, b ∈ bs -> b = (d, 0) \/ top0 <= b.1.

(** The block [b] lies in one of the pages of 4096 bytes that follow
    [base], the end of the mapped pages at [initialize]. *)
Definition in_one_page (hdr base : Z) (b : Z * Z) : Prop :=
  exists k, 0 <= k /\ base + 4096 * k <= b.1 /\ b.1 + hdr + b.2 <= base + 4096 * (k + 1).

(** Whole pages were mapped since, and every block but the dummy lies in
    one of them. *)
Definition paged (hdr base d : Z) (top : Z) (bs : list (Z * Z)) : Prop :=
  (exists n, 0 <= n /\ top = base + 4096 * n) /\
  forall b, b ∈ bs -> b = (d, 0) \/ in_one_page hdr base b.

(** The states an allocator reaches from [initialize] on the machine [st0],
    every request size satisfying [ok], with the pointers handed out and not
    yet released. *)
Inductive bf_reachable_from (ok : Z -> Prop) (st0 : BestFit.state)
  : BestFit.state -> list Z -> Prop :=
| bf_from_initialize :
    0 < BestFit.dummy st0 ->
    BestFit.dummy st0 + BestFit.header_size <= brk (BestFit.sys st0) ->
    bf_reachable_from ok st0 (BestFit.best_fit_initialize st0) []
| bf_from_malloc (st : BestFit.state) (ps : list Z) (f : nat) (sz : Z)
    (st' : BestFit.state) (p : Z) :
    bf_reachable_from ok st0 st ps -> 0 <= sz -> ok sz ->
    BestFit.best_fit_malloc f st sz = Done (st', p) ->
    bf_reachable_from ok st0 st' (p :: ps)
| bf_from_free (st : BestFit.state) (ps1 ps2 : list Z) (p : Z) (f : nat)
    (st' : BestFit.state) :
    bf_reachable_from ok st0 st (ps1 ++ p :: ps2) ->
    BestFit.best_fit_free f st p = Done st' ->
    bf_reachable_from ok st0 st' (ps1 ++ ps2).

Inductive ff_reachable_from (ok : Z -> Prop) (st0 : FirstFit.state)
  : FirstFit.state -> list Z -> Prop :=
| ff_from_initialize :
    0 < FirstFit.dummy st0 ->
    FirstFit.dummy st0 + FirstFit.header_size <= brk (FirstFit.sys st0) ->
    ff_reachable_from ok st0 (FirstFit.first_fit_initialize st0) []
| ff_from_malloc (st : FirstFit.state) (ps : list Z) (f : nat) (sz : Z)
    (st' : FirstFit.state) (p : Z) :
    ff_reachable_from ok st0 st ps -> 0 <= sz -> ok sz ->
    FirstFit.first_fit_malloc f st sz = Done (st', p) ->
    ff_reachable_from ok st0 st' (p :: ps)
| ff_from_free (st : FirstFit.state) (ps1 ps2 : list Z) (p : Z)
    (st' : FirstFit.state) :
    ff_reachable_from ok st0 st (ps1 ++ p :: ps2) ->
    FirstFit.first_fit_free st p = Done st' ->
    ff_reachable_from ok st0 st' (ps1 ++ ps2).

(** Request sizes that are multiples of 8, as [main.c] produces them. *)
Definition multiple_of_8 (sz : Z) : Prop := sz mod 8 = 0.

(** ** The vector of [main.c] *)

Module Vector.

(** [sizeof(object_t)]: a pointer, a [size_t], and a [char] with its
    padding. *)
Definition object_size : Z := 24.

(** [vector_t].  [buffer] lists the slots of the block the vector owns, a
    slot that was never written being [None]; a vector without a block
    ([buffer == NULL]) has no slots. *)
Record vector_t : Type := {
  size : Z;
  capacity : Z;
  buffer : list (option Harness.object_t)
}.

(** [vector_create]; the [malloc] of the C library is taken to succeed. *)
Definition vector_create : vector_t :=
  {| size := 0; capacity := 0; buffer := [] |}.

(** [realloc(buffer, n)], taken to succeed: a block of [n] bytes, that is
    [n / sizeof(object_t)] whole slots, with the old contents as far as they
    fit. *)
Definition realloc (buffer : list (option Harness.object_t)) (n : Z)
  : list (option Harness.object_t) :=
  resize (Z.to_nat (n / object_size)) None buffer.

(** [vector_push]; a write past the end of the block is [Crash]. *)
Definition vector_push (vector : vector_t) (object : Harness.object_t)
  : outcome vector_t :=
  let vector :=
    if capacity vector <=? size vector then
      let c := wrap (capacity vector * 2 + 128) in
      {| size := size vector; capacity := c;
         buffer := realloc (buffer vector) (wrap (c * object_size)) |}
    else vector in
  if (Z.to_nat (size vector) <? length (buffer vector))%nat then
    Done {| size := wrap (size vector + 1); capacity := capacity vector;
            buffer := <[Z.to_nat (size vector) := Some object]> (buffer vector) |}
  else Crash.

Definition vector_size (vector : vector_t) : Z := size vector.

(** [vector_at]; [i] is a [size_t].  Reading a slot outside the block or
    one never written is [Crash]. *)
Definition vector_at (vector : vector_t) (i : Z) : outcome Harness.object_t :=
  if negb (i <? size vector) then Abort
  else match buffer vector !! Z.to_nat i with
       | Some (Some o) => Done o
       | _ => Crash
       end.

Definition vector_clear (vector : vector_t) : vector_t :=
  {| size := 0; capacity := 0; buffer := [] |}.

(** [vector_push] of the objects of a list, in order. *)
Fixpoint push_all (vector : vector_t) (l : list Harness.object_t) : outcome vector_t :=
  match l with
  | [] => Done vector
  | o :: l => vector ← vector_push vector o; push_all vector l
  end.

(** The vector holds the objects [l], in order, in the first slots of a
    block that has room for [capacity] objects. *)
Definition vector_rep (vector : vector_t) (l : list Harness.object_t) : Prop :=
  size vector = Z.of_nat (length l) /\
  size vector <= capacity vector /\
  capacity vector <= Z.of_nat (length (buffer vector)) /\
  forall (i : nat) (o : Harness.object_t), l !! i = Some o -> buffer vector !! i = Some (Some o).

(** The capacity after [k] growths: 0, 128, 384, 896, ... *)
Definition capacity_after (k : nat) : Z := 128 * (2 ^ Z.of_nat k - 1).

End Vector.

(** ** The sizes and lifetimes of the objects *)

(** [get_object_size].  [scaled] is the value of
    [(size_t)((max_size - min_size) * tau / threshold)], the part of the
    function that is computed in floating point from the random draw; with
    [tau] between 0 and [threshold] it lies between 0 and
    [max_size - min_size]. *)
Definition get_object_size (min_size max_size : Z) (scaled : Z) : outcome Z :=
  let alignment := 8 in
  if negb (min_size <=? max_size) then Abort
  else if negb (min_size mod alignment =? 0) then Abort
  else
    let result := wrap (scaled + min_size) in
    let result := wrap (result / alignment * alignment) in
    if negb (min_size <=? result) then Abort
    else if negb (result <=? max_size) then Abort
    else Done result.

(** [get_object_lifetime].  [value] is the value of
    [(unsigned)((max_epoch - min_epoch) * tau / threshold + min_epoch)]. *)
Definition get_object_lifetime (min_epoch max_epoch : Z) (value : Z) : outcome Z :=
  let result := value in
  if negb (min_epoch <=? result) then Abort
  else if negb (result <=? max_epoch) then Abort
  else Done result.

(** The [min_size] and [max_size] of the calls of [run_challenge] in
    [run_challenges]: the warm-up run and the challenges 1 to 5. *)
Definition challenge_sizes : list (Z * Z) :=
  [(128, 128); (128, 128); (16, 16); (16, 128); (256, 4000); (8, 4000)].

(** ** Running the harness on an allocator *)

(** The number of objects one epoch allocates. *)
Definition epoch_objects (epoch : nat) : nat :=
  if (epoch =? 0)%nat then Harness.objects_per_epoch_large
  else Harness.objects_per_epoch_small.

(** The sum of the sizes of a list of objects. *)
Definition total_size (l : list Harness.object_t) : Z :=
  foldr (fun o acc => Harness.size o + acc) 0 l.

(** The payload of an object holds its tag in every byte. *)
Definition stamped (m : Harness.memory) (o : Harness.object_t) : Prop :=
  forall x, Harness.ptr o <= x < Harness.ptr o + Harness.size o ->
            m !! x = Some (Harness.tag o).

(** The object lies in the block [b], given as pointer and usable size. *)
Definition owns (o : Harness.object_t) (b : Z * Z) : Prop :=
  Harness.ptr o = b.1 /\ 1 <= Harness.size o <= b.2 /\ Harness.size o < size_max.

(** What the harness needs of functions that write no payload byte, as
    those of [Harness] with the payload bytes kept apart from the state of
    the allocator: [inv a live] relates a state of the allocator to the
    blocks handed out and not yet released, each the pair of its pointer and
    its usable size.  A request of 1 to [max_request] bytes is served by a
    block that overlaps none of them, and each of them can be released.
    [shared_contract] below is the contract for functions that may write
    to the memory of the harness. *)
Record allocator_contract {A : Type}
    (malloc_func : A -> Z -> outcome (A * Z)) (free_func : A -> Z -> outcome A)
    (max_request : Z) (inv : A -> list (Z * Z) -> Prop) : Prop := {
  contract_max : max_request < size_max;
  contract_malloc :
    forall a live sz, inv a live -> 1 <= sz <= max_request ->
      exists a' p s,
        malloc_func a sz = Done (a', p) /\ sz <= s /\ inv a' ((p, s) :: live) /\
        forall b, b ∈ live -> p + s <= b.1 \/ b.1 + b.2 <= p;
  contract_free :
    forall a l1 l2 b, inv a (l1 ++ b :: l2) ->
      exists a', free_func a b.1 = Done a' /\ inv a' (l1 ++ l2)
}.

(** The objects [objs] are, in some order, the blocks in use, and each is
    stamped. *)
Definition harness_inv {A : Type} (inv : A -> list (Z * Z) -> Prop)
    (h : Harness.harness A) (objs : list Harness.object_t) : Prop :=
  exists objs' live,
    objs' ≡ₚ objs /\ Forall2 owns objs' live /\ inv (Harness.alloc A h) live /\
    Forall (stamped (Harness.bytes A h)) objs.

(** ** The harness and an allocator in one memory

    In [main.c] the functions under test write to the memory the harness
    stamps and checks.  [Shared] is [run_challenge] with function pointers
    that take the bytes of that memory and hand them back: an allocator may
    write any byte, a payload in use included.  The record of the locals and
    the helpers are those of [Harness]. *)
Module Shared.

Section Challenge.
Variable A : Type.
Variable initialize_func : A -> Harness.memory -> A * Harness.memory.
Variable malloc_func : A -> Harness.memory -> Z -> outcome (A * Harness.memory * Z).
Variable free_func : A -> Harness.memory -> Z -> outcome (A * Harness.memory).
Variable finalize_func : A -> Harness.memory -> A * Harness.memory.
Variable draws : nat -> nat -> nat -> Harness.draw.

(** One iteration of the allocation loop. *)
Definition allocate_object (h : Harness.harness A) (epoch : nat) (d : Harness.draw)
  : outcome (Harness.harness A) :=
  let size := Harness.d_size d in
  let lifetime := Harness.d_lifetime d in
  let allocated := wrap (Harness.allocated_size A h + size) in
  '(a, m, p) ← malloc_func (Harness.alloc A h) (Harness.bytes A h) size;
  let m := Harness.memset m p (Harness.cur_tag A h) size in
  let object := {| Harness.ptr := p; Harness.size := size;
                   Harness.tag := Harness.cur_tag A h |} in
  let t := Harness.next_tag (Harness.cur_tag A h) in
  let i := if Harness.d_permanent d then Harness.epochs_per_cycle
           else Z.to_nat ((Z.of_nat epoch + lifetime)
                          mod Z.of_nat Harness.epochs_per_cycle) in
  Done {| Harness.alloc := a; Harness.bytes := m; Harness.cur_tag := t;
          Harness.objects := Harness.vector_push (Harness.objects A h) i object;
          Harness.allocated_size := allocated;
          Harness.freed_size := Harness.freed_size A h;
          Harness.created := Harness.created A h ++ [object] |}.

(** [for (int i = 0; i < objects_per_epoch; i++)], from index [i] on. *)
Fixpoint allocate_objects (h : Harness.harness A) (cycle epoch : nat) (i n : nat)
  : outcome (Harness.harness A) :=
  match n with
  | O => Done h
  | S n =>
    h ← allocate_object h epoch (draws cycle epoch i);
    allocate_objects h cycle epoch (S i) n
  end.

(** The release loop over one vector. *)
Fixpoint release_objects (h : Harness.harness A) (v : list Harness.object_t)
  : outcome (Harness.harness A) :=
  match v with
  | [] => Done h
  | object :: v =>
    let freed := wrap (Harness.freed_size A h + Harness.size object) in
    if Harness.tag_broken (Harness.bytes A h) object then Abort
    else
      '(a, m) ← free_func (Harness.alloc A h) (Harness.bytes A h) (Harness.ptr object);
      release_objects
        {| Harness.alloc := a; Harness.bytes := m;
           Harness.cur_tag := Harness.cur_tag A h;
           Harness.objects := Harness.objects A h;
           Harness.allocated_size := Harness.allocated_size A h;
           Harness.freed_size := freed;
           Harness.created := Harness.created A h |} v
  end.

(** One epoch: the allocation burst, the release of [objects[epoch]] and
    [vector_clear]. *)
Definition run_epoch (h : Harness.harness A) (cycle epoch : nat)
  : outcome (Harness.harness A) :=
  let objects_per_epoch :=
    if (epoch =? 0)%nat then Harness.objects_per_epoch_large
    else Harness.objects_per_epoch_small in
  h ← allocate_objects h cycle epoch 0 objects_per_epoch;
  h ← release_objects h (default [] (Harness.objects A h !! epoch));
  Done {| Harness.alloc := Harness.alloc A h; Harness.bytes := Harness.bytes A h;
          Harness.cur_tag := Harness.cur_tag A h;
          Harness.objects := <[epoch := []]> (Harness.objects A h);
          Harness.allocated_size := Harness.allocated_size A h;
          Harness.freed_size := Harness.freed_size A h;
          Harness.created := Harness.created A h |}.

Fixpoint run_epochs (h : Harness.harness A) (cycle epoch n : nat)
  : outcome (Harness.harness A) :=
  match n with
  | O => Done h
  | S n => h ← run_epoch h cycle epoch; run_epochs h cycle (S epoch) n
  end.

Fixpoint run_cycles (h : Harness.harness A) (cycle n : nat)
  : outcome (Harness.harness A) :=
  match n with
  | O => Done h
  | S n => h ← run_epochs h cycle 0 Harness.epochs_per_cycle; run_cycles h (S cycle) n
  end.

(** The state [run_challenge] starts its loops in. *)
Definition start (a : A) (m : Harness.memory) : Harness.harness A :=
  let '(a, m) := initialize_func a m in
  {| Harness.alloc := a; Harness.bytes := m; Harness.cur_tag := 0;
     Harness.objects := replicate (S Harness.epochs_per_cycle) [];
     Harness.allocated_size := 0; Harness.freed_size := 0; Harness.created := [] |}.

Definition run_challenge (a : A) (m : Harness.memory) : outcome (Harness.harness A) :=
  h ← run_cycles (start a m) 0 Harness.cycles;
  let '(a, m) := finalize_func (Harness.alloc A h) (Harness.bytes A h) in
  Done {| Harness.alloc := a; Harness.bytes := m;
          Harness.cur_tag := Harness.cur_tag A h;
          Harness.objects := Harness.objects A h;
          Harness.allocated_size := Harness.allocated_size A h;
          Harness.freed_size := Harness.freed_size A h;
          Harness.created := Harness.created A h |}.
End Challenge.

(** Functions that keep their headers in a store of their own, as the two
    allocators are modelled, write no byte of the shared memory. *)
Definition apart_step {A : Type} (f : A -> A)
  : A -> Harness.memory -> A * Harness.memory :=
  fun a m => (f a, m).
Definition apart_malloc {A : Type} (malloc_func : A -> Z -> outcome (A * Z))
  : A -> Harness.memory -> Z -> outcome (A * Harness.memory * Z) :=
  fun a m sz => '(a, p) ← malloc_func a sz; Done (a, m, p).
Definition apart_free {A : Type} (free_func : A -> Z -> outcome A)
  : A -> Harness.memory -> Z -> outcome (A * Harness.memory) :=
  fun a m p => a ← free_func a p; Done (a, m).

End Shared.

(** What the harness needs of functions that share its memory.
    [inv a m live] relates the state of the allocator, globals [a] and memory
    [m], to the blocks handed out and not yet released, each the pair of its
    pointer and its usable size.  A request of 1 to [max_request] bytes is
    served by a block that overlaps none of them; [malloc] and [free] leave
    the bytes of the blocks that stay in use as they are; and the allocator
    does not depend on the bytes of a block in use, which the harness
    writes. *)
Record shared_contract {A : Type}
    (malloc_func : A -> Harness.memory -> Z -> outcome (A * Harness.memory * Z))
    (free_func : A -> Harness.memory -> Z -> outcome (A * Harness.memory))
    (max_request : Z) (inv : A -> Harness.memory -> list (Z * Z) -> Prop) : Prop := {
  shared_max : max_request < size_max;
  shared_malloc :
    forall a m live sz, inv a m live -> 1 <= sz <= max_request ->
      exists a' m' p s,
        malloc_func a m sz = Done (a', m', p) /\ sz <= s /\
        inv a' m' ((p, s) :: live) /\
        (forall b, b ∈ live -> p + s <= b.1 \/ b.1 + b.2 <= p) /\
        (forall b x, b ∈ live -> b.1 <= x < b.1 + b.2 -> m' !! x = m !! x);
  shared_free :
    forall a m l1 l2 b, inv a m (l1 ++ b :: l2) ->
      exists a' m',
        free_func a m b.1 = Done (a', m') /\ inv a' m' (l1 ++ l2) /\
        (forall c x, c ∈ l1 ++ l2 -> c.1 <= x < c.1 + c.2 -> m' !! x = m !! x);
  shared_write :
    forall a m live b x c, inv a m live -> b ∈ live -> b.1 <= x < b.1 + b.2 ->
      inv a (<[x := c]> m) live
}.

(** The objects [objs] are, in some order, the blocks in use, and each is
    stamped. *)
Definition shared_inv {A : Type} (inv : A -> Harness.memory -> list (Z * Z) -> Prop)
    (h : Harness.harness A) (objs : list Harness.object_t) : Prop :=
  exists objs' live,
    objs' ≡ₚ objs /\ Forall2 owns objs' live /\
    inv (Harness.alloc A h) (Harness.bytes A h) live /\
    Forall (stamped (Harness.bytes A h)) objs.

Definition shared_ok {A : Type} (inv : A -> Harness.memory -> list (Z * Z) -> Prop)
    (h : Harness.harness A) : Prop :=
  length (Harness.objects A h) = S Harness.epochs_per_cycle /\
  shared_inv inv h (concat (Harness.objects A h)).

(** The tags of the objects in the order they were made: 0 for the first,
    never 0 afterwards. *)
Definition tags_ok (l : list Harness.object_t) : Prop :=
  match l with
  | [] => True
  | o :: rest => Harness.tag o = 0 /\ Forall (fun x => Harness.tag x <> 0) rest
  end.

(** The harness holds its [epochs_per_cycle + 1] vectors, and their objects
    are the blocks in use. *)
Definition harness_ok {A : Type} (inv : A -> list (Z * Z) -> Prop)
    (h : Harness.harness A) : Prop :=
  length (Harness.objects A h) = S Harness.epochs_per_cycle /\
  harness_inv inv h (concat (Harness.objects A h)).

(** The vector an object is pushed on in the epoch [epoch]. *)
Definition slot_of (epoch : nat) (d : Harness.draw) : nat :=
  if Harness.d_permanent d then Harness.epochs_per_cycle
  else Z.to_nat ((Z.of_nat epoch + Harness.d_lifetime d)
                 mod Z.of_nat Harness.epochs_per_cycle).

(** The statistics of the harness agree with its vectors: the bytes counted
    as allocated are those of the objects made, and the bytes allocated and
    not freed are those of the objects in the vectors, modulo 2^64. *)
Definition stats_ok {A : Type} (h : Harness.harness A) : Prop :=
  length (Harness.objects A h) = S Harness.epochs_per_cycle /\
  wrap (Harness.allocated_size A h) = wrap (total_size (Harness.created A h)) /\
  wrap (Harness.allocated_size A h - Harness.freed_size A h)
    = wrap (total_size (concat (Harness.objects A h))).

(** The current tag is 0 before the first object and never afterwards. *)
Definition tag_state {A : Type} (h : Harness.harness A) : Prop :=
  tags_ok (Harness.created A h) /\
  (Harness.created A h = [] -> Harness.cur_tag A h = 0) /\
  (Harness.created A h <> [] -> Harness.cur_tag A h <> 0).

(** The objects one cycle makes. *)
Fixpoint epochs_total (epoch n : nat) : nat :=
  match n with
  | O => O
  | S n => (epoch_objects epoch + epochs_total (S epoch) n)%nat
  end.

(** The allocators as the harness calls them.  The fuel is the number of
    headers in memory and four more: a walk over the free blocks visits a
    header at most once. *)
Definition ff_fuel (st : FirstFit.state) : nat := size (FirstFit.heap st) + 4.
Definition first_fit_run (st : FirstFit.state) (sz : Z) : outcome (FirstFit.state * Z) :=
  FirstFit.first_fit_malloc (ff_fuel st) st sz.

Definition bf_fuel (st : BestFit.state) : nat := size (BestFit.heap st) + 4.
Definition best_fit_run (st : BestFit.state) (sz : Z) : outcome (BestFit.state * Z) :=
  BestFit.best_fit_malloc (bf_fuel st) st sz.
Definition best_fit_release (st : BestFit.state) (p : Z) : outcome BestFit.state :=
  BestFit.best_fit_free (bf_fuel st) st p.

(** The blocks in use as the harness sees them: pointer and usable size. *)
Definition bf_inv (st : BestFit.state) (live : list (Z * Z)) : Prop :=
  exists t blocks,
    BestFit.heap_inv st t blocks /\
    live = (fun b => (b.1 + BestFit.header_size, b.2)) <$> blocks.
Definition ff_inv (st : FirstFit.state) (live : list (Z * Z)) : Prop :=
  exists l blocks,
    FirstFit.heap_inv st l blocks /\
    live = (fun b => (b.1 + FirstFit.header_size, b.2)) <$> blocks.

Module MoreScenarios.
Import Scenarios.

(** [best_fit_initialize(); best_fit_malloc(8); best_fit_malloc(8);] *)
Definition bf_after_two : BestFit.state :=
  match BestFit.best_fit_malloc 8 bf_after_malloc 8 with
  | Done (st, _) => st
  | _ => bf_init
  end.

(** [first_fit_initialize(); first_fit_malloc(8);] and a second
    [first_fit_malloc(8);]. *)
Definition ff_after_malloc : FirstFit.state :=
  match FirstFit.first_fit_malloc 8 ff_init 8 with
  | Done (st, _) => st
  | _ => ff_init
  end.

Definition ff_after_two : FirstFit.state :=
  match FirstFit.first_fit_malloc 8 ff_after_malloc 8 with
  | Done (st, _) => st
  | _ => ff_init
  end.

(** Two blocks of 8 bytes handed out and released in the same order: the
    tree then has the first at its root and the second in the right
    subtree. *)
Definition bf_two_equal : outcome BestFit.state :=
  '(st, p1) ← BestFit.best_fit_malloc 8 bf_init 8;
  '(st, p2) ← BestFit.best_fit_malloc 8 st 8;
  st ← BestFit.best_fit_free 8 st p1;
  BestFit.best_fit_free 8 st p2.

Definition tree_two_equal : BestFit.tree :=
  BestFit.T 4096 8
    (BestFit.T 64 0 BestFit.E BestFit.E 3)
    (BestFit.T 4176 3984 (BestFit.T 4136 8 BestFit.E BestFit.E 1) BestFit.E 3)
    2.

(** The tree after [best_fit_initialize(); best_fit_malloc(8);]. *)
Definition tree_after_malloc : BestFit.tree :=
  BestFit.T 64 0 BestFit.E (BestFit.T 4136 4024 BestFit.E BestFit.E 1) 2.

(** Three headers: 100 with the right child 200, which has the right child
    300. *)
Definition three_headers : BestFit.mem :=
  <[100 := {| BestFit.size := 10; BestFit.left := NULL; BestFit.right := 200;
              BestFit.height := 3 |}]>
  (<[200 := {| BestFit.size := 20; BestFit.left := NULL; BestFit.right := 300;
               BestFit.height := 2 |}]>
   (<[300 := BestFit.fresh_header 30]> ∅)).

Definition tree_200 : BestFit.tree :=
  BestFit.T 200 20 BestFit.E (BestFit.T 300 30 BestFit.E BestFit.E 1) 2.

(** Draws of 64 bytes that live three epochs, the first object of every
    epoch being marked as never freed. *)
Definition mixed (cycle epoch i : nat) : Harness.draw :=
  {| Harness.d_size := 64; Harness.d_lifetime := 3;
     Harness.d_permanent := (i =? 0)%nat |}.

(** An object of the longest lifetime [get_object_lifetime(1,
    epochs_per_cycle)] can draw, allocated in epoch 5 of a fresh harness. *)
Definition longest : Harness.draw :=
  {| Harness.d_size := 128; Harness.d_lifetime := 100; Harness.d_permanent := false |}.

Definition fresh_harness : Harness.harness FirstFit.state :=
  Harness.start FirstFit.state FirstFit.first_fit_initialize FirstFit.boot ∅.

Definition after_longest : Harness.harness FirstFit.state :=
  match Harness.allocate_object FirstFit.state ff_malloc_func fresh_harness 5 longest with
  | Done h => h
  | _ => fresh_harness
  end.

(** Three objects. *)
Definition obj (p t : Z) : Harness.object_t :=
  {| Harness.ptr := p; Harness.size := 8; Harness.tag := t |}.
Definition three_objects : list Harness.object_t := [obj 4112 0; obj 4136 1; obj 4160 2].

End MoreScenarios.

(** * Theory of the best-fit allocator *)


(** * Blocks and their extents *)

Lemma wrap_small (x : Z) : 0 <= x < size_max -> wrap x = x.
Proof. intros H. unfold wrap. by apply Z.mod_small. Qed.

Section BlockFacts.
Variable hdr : Z.
Hypothesis hdr_pos : 0 < hdr.
Hypothesis hdr_page : hdr <= 4096.


Lemma blocks_ok_perm (top : Z) (bs bs' : list (Z * Z)) :
bs ≡ₚ bs' -> blocks_ok hdr top bs -> blocks_ok hdr top bs'.
Proof.
intros Hp (Hnd & Hb & Hd). split; [|split].
- by rewrite <- Hp.
- intros b Hin. apply Hb. by rewrite Hp.
- intros b1 b2 H1 H2. apply Hd; by rewrite Hp.
Qed.

Lemma blocks_ok_tail (top : Z) (b : Z * Z) (bs : list (Z * Z)) :
blocks_ok hdr top (b :: bs) -> blocks_ok hdr top bs.
Proof.
intros (Hnd & Hb & Hd). split; [|split].
- simpl in Hnd. by apply NoDup_cons in Hnd as (_ & Hnd).
- intros x Hin. apply Hb. apply elem_of_cons. auto.
- intros b1 b2 H1 H2. apply Hd; apply elem_of_cons; auto.
Qed.

Lemma blocks_ok_other (top : Z) (b x : Z * Z) (bs : list (Z * Z)) :
blocks_ok hdr top (b :: bs) -> x ∈ bs -> x.1 <> b.1 /\ disjoint_blocks hdr b x.
Proof.
intros (Hnd & Hb & Hd) Hx.
assert (Hne : x.1 <> b.1).
{ simpl in Hnd. apply NoDup_cons in Hnd as (Hnin & _). intros Heq. apply Hnin.
  rewrite <- Heq. by apply list_elem_of_fmap_2. }
split; [done|]. apply Hd; [apply elem_of_cons; auto|apply elem_of_cons; auto|congruence].
Qed.

(** The address of the header carved out of a block is not the address of any
  other block. *)
Lemma carve_fresh (top b S R : Z) (bs : list (Z * Z)) (x : Z * Z) :
blocks_ok hdr top ((b, S) :: bs) -> 0 <= R -> hdr < S - R ->
x ∈ bs -> x.1 <> b + hdr + R.
Proof.
intros Hok HR Hrem Hx.
destruct (blocks_ok_other _ _ _ _ Hok Hx) as (Hne & Hdis).
destruct Hok as (_ & Hb & _).
assert (Hxb : 0 <= x.2). { apply Hb. apply elem_of_cons. auto. }
unfold disjoint_blocks, block_end in *. simpl in *. lia.
Qed.

Lemma blocks_ok_split (top b S R : Z) (bs : list (Z * Z)) :
blocks_ok hdr top ((b, S) :: bs) -> 0 <= R -> hdr < S - R ->
blocks_ok hdr top ((b + hdr + R, S - R - hdr) :: (b, R) :: bs).
Proof.
intros Hok HR Hrem. pose proof Hok as (Hnd & Hb & Hd).
assert (Hbb := Hb (b, S) ltac:(apply elem_of_cons; auto)).
unfold block_end in *. simpl in Hbb.
split; [|split].
- simpl in *. apply NoDup_cons in Hnd as (Hnin & Hnd).
  apply NoDup_cons. split; [|by apply NoDup_cons].
  rewrite elem_of_cons. intros [Heq|Hin]; [lia|].
  apply list_elem_of_fmap in Hin as (x & Hx1 & Hx).
  by apply (carve_fresh top b S R bs x Hok).
- intros x Hx. apply elem_of_cons in Hx as [->|Hx]; [unfold block_end; simpl; lia|].
  apply elem_of_cons in Hx as [->|Hx]; [unfold block_end; simpl; lia|].
  apply Hb. apply elem_of_cons. auto.
- assert (Hoth : forall x, x ∈ bs ->
    disjoint_blocks hdr (b + hdr + R, S - R - hdr) x /\ disjoint_blocks hdr (b, R) x).
  { intros x Hx. destruct (blocks_ok_other _ _ _ _ Hok Hx) as (Hne & Hdis).
    assert (Hxb : 0 <= x.2). { apply Hb. apply elem_of_cons. auto. }
    unfold disjoint_blocks, block_end in *. simpl in *. lia. }
  intros b1 b2 H1 H2 Hne.
  apply elem_of_cons in H1 as [->|H1]; [|apply elem_of_cons in H1 as [->|H1]];
    (apply elem_of_cons in H2 as [->|H2]; [|apply elem_of_cons in H2 as [->|H2]]);
    try done;
    try (unfold disjoint_blocks, block_end; simpl; lia);
    try (by apply Hoth);
    try (destruct (Hoth _ H1) as [Ha Hb']; unfold disjoint_blocks in *; tauto).
  apply Hd; try (apply elem_of_cons; auto); done.
Qed.

Lemma blocks_ok_page (top : Z) (bs : list (Z * Z)) :
blocks_ok hdr top bs -> 0 < top ->
blocks_ok hdr (top + 4096) ((top, 4096 - hdr) :: bs).
Proof.
intros (Hnd & Hb & Hd) Htop.
unfold block_end in *.
split; [|split].
- simpl. apply NoDup_cons. split; [|done].
  intros Hin. apply list_elem_of_fmap in Hin as (x & Hx1 & Hx).
  destruct (Hb x Hx) as (? & ? & ?). lia.
- intros x Hx. apply elem_of_cons in Hx as [->|Hx]; [unfold block_end; simpl; lia|].
  destruct (Hb x Hx) as (? & ? & ?). unfold block_end in *. lia.
- intros b1 b2 H1 H2 Hne.
  apply elem_of_cons in H1 as [->|H1]; apply elem_of_cons in H2 as [->|H2];
    try done.
  + destruct (Hb _ H2) as (? & ? & ?).
    unfold disjoint_blocks, block_end. simpl. lia.
  + destruct (Hb _ H1) as (? & ? & ?).
    unfold disjoint_blocks, block_end. simpl. lia.
  + by apply Hd.
Qed.


End BlockFacts.

(** The checker [blocks_okb] is sound. *)
Lemma nodupb_sound (l : list Z) : nodupb l = true -> NoDup l.
Proof.
  induction l as [|x l IH]; simpl; intros H; [constructor|].
  apply andb_true_iff in H as (Hx & Hl). apply NoDup_cons. split; [|auto].
  intros Hin. apply negb_true_iff in Hx.
  assert (existsb (Z.eqb x) l = true); [|congruence].
  apply existsb_exists. exists x. split; [by apply list_elem_of_In|apply Z.eqb_refl].
Qed.

Lemma forallb_elem_of {A : Type} (f : A -> bool) (l : list A) (x : A) :
  forallb f l = true -> x ∈ l -> f x = true.
Proof.
  intros H Hx. rewrite forallb_forall in H. apply H. by apply list_elem_of_In.
Qed.

Lemma blocks_okb_sound (hdr top : Z) (bs : list (Z * Z)) :
  blocks_okb hdr top bs = true -> blocks_ok hdr top bs.
Proof.
  unfold blocks_okb. intros H.
  apply andb_true_iff in H as (H & Hdis). apply andb_true_iff in H as (Hnd & Hbd).
  split; [by apply nodupb_sound|]. split.
  - intros b Hb. pose proof (forallb_elem_of _ _ _ Hbd Hb) as Hb'. simpl in Hb'.
    apply andb_true_iff in Hb' as (Hb' & H4). apply andb_true_iff in Hb' as (Hb' & H3).
    apply andb_true_iff in Hb' as (H1 & H2).
    apply Z.ltb_lt in H1. apply Z.leb_le in H2, H3, H4. lia.
  - intros b1 b2 H1 H2 Hne.
    pose proof (forallb_elem_of _ _ _ (forallb_elem_of _ _ _ Hdis H1) H2) as Hb.
    simpl in Hb. apply orb_true_iff in Hb as [Hb|Hb].
    + apply Z.eqb_eq in Hb. done.
    + unfold disjoint_blocksb in Hb. apply orb_true_iff in Hb as [Hb|Hb];
        apply Z.leb_le in Hb; [by left|by right].
Qed.

(** ** Running with more fuel *)

Ltac ounfold := unfold mbind, outcome_bind, obind.

Lemma bind_Done {A B : Type} (k : A -> outcome B) (x : A) :
  (Done x ≫= k) = k x.
Proof. reflexivity. Qed.

Lemma bind_Done_inv {A B : Type} (c : outcome A) (k : A -> outcome B) (y : B) :
  (c ≫= k) = Done y -> exists x, c = Done x /\ k x = Done y.
Proof. destruct c; ounfold; intros H; try discriminate. eauto. Qed.

Lemma bind_inv {A B : Type} (c : outcome A) (k : A -> outcome B) (r : outcome B) :
  (c ≫= k) = r -> r <> Timeout ->
  (exists x, c = Done x /\ k x = r) \/
  (c = Abort /\ r = Abort) \/ (c = Crash /\ r = Crash).
Proof. destruct c; ounfold; intros H Hr; subst; eauto. done. Qed.

(** One step of a run that did not time out: name the intermediate result
    and replay it in the goal, by [IH] when it is a call that takes fuel. *)
Ltac replay H Hr IH :=
  let x := fresh "x" in
  let E := fresh "E" in
  let Er := fresh "Er" in
  let H' := fresh "H" in
  destruct (bind_inv _ _ _ H Hr) as [(x & E & H')|[(E & Er)|(E & Er)]];
  clear H;
  [ rename H' into H | subst | subst ];
  (first [ rewrite E | (eapply IH in E; [rewrite E | done | lia]) ]);
  [ rewrite bind_Done;
    try (lazymatch type of x with prod _ _ => destruct x end)
  | done | done ].

(** With less fuel a call that finishes can only time out. *)
Lemma finished_or_timeout {A : Type} (c : nat -> outcome A) :
  (forall f f' r, c f = r -> r <> Timeout -> (f <= f')%nat -> c f' = r) ->
  forall F x, c F = Done x -> forall f, c f = Timeout \/ c f = Done x.
Proof.
  intros Hmono F x HF f. destruct (c f) as [y| | |] eqn:Hf; [right| | |by left].
  - apply (Hmono _ (Nat.max f F)) in Hf; [|done|lia].
    apply (Hmono _ (Nat.max f F)) in HF; [|done|lia]. congruence.
  - apply (Hmono _ (Nat.max f F)) in Hf; [|done|lia].
    apply (Hmono _ (Nat.max f F)) in HF; [|done|lia]. congruence.
  - apply (Hmono _ (Nat.max f F)) in Hf; [|done|lia].
    apply (Hmono _ (Nat.max f F)) in HF; [|done|lia]. congruence.
Qed.

Module BestFitTheory.
Import BestFit.

Lemma header_pos : 0 < header_size.
Proof. done. Qed.

Lemma header_page : header_size <= 4096.
Proof. done. Qed.

Lemma load_Some (m : mem) (p : Z) (t : best_fit_metadata_t) :
  p <> NULL -> m !! p = Some t -> load m p = Done t.
Proof.
  intros Hp Hm. unfold load.
  destruct (Z.eqb_spec p NULL) as [->|_]; [done|]. by rewrite Hm.
Qed.

Lemma load_Done (m : mem) (p : Z) (t : best_fit_metadata_t) :
  load m p = Done t -> p <> NULL /\ m !! p = Some t.
Proof.
  unfold load. destruct (Z.eqb_spec p NULL) as [->|Hp]; [done|].
  destruct (m !! p) eqn:Hm; [|done]. intros [= ->]. done.
Qed.

(** *** Basic facts on [tree_rep] *)

Lemma elem_of_addrs_T (x a sz : Z) (l r : tree) (h : Z) :
  x ∈ addrs (T a sz l r h) <-> x ∈ addrs l \/ x = a \/ x ∈ addrs r.
Proof.
  unfold addrs. simpl. rewrite fmap_app, elem_of_app. simpl.
  rewrite elem_of_cons. tauto.
Qed.

Lemma addrs_T (a sz : Z) (l r : tree) (h : Z) :
  addrs (T a sz l r h) = addrs l ++ a :: addrs r.
Proof. unfold addrs. simpl. by rewrite fmap_app. Qed.

Lemma tree_rep_frame (m m' : mem) (p : Z) (t : tree) :
  tree_rep m p t ->
  (forall x, x ∈ addrs t -> m' !! x = m !! x) ->
  tree_rep m' p t.
Proof.
  revert p. induction t as [|a sz l IHl r IHr h]; simpl; intros p Hrep Hsame; [done|].
  destruct Hrep as (-> & Ha & lp & rp & Hm & Hl & Hr).
  split; [done|]. split; [done|]. exists lp, rp. split.
  - rewrite Hsame; [done|]. apply elem_of_addrs_T. auto.
  - split; [apply IHl | apply IHr]; try done;
      intros x Hx; apply Hsame, elem_of_addrs_T; auto.
Qed.

Lemma tree_rep_nonnull (m : mem) (p : Z) (t : tree) :
  tree_rep m p t -> NULL ∉ addrs t.
Proof.
  revert p. induction t as [|a sz l IHl r IHr h]; simpl; intros p Hrep.
  - unfold addrs. simpl. apply not_elem_of_nil.
  - destruct Hrep as (-> & Ha & lp & rp & Hm & Hl & Hr).
    rewrite elem_of_addrs_T. intros [H|[H|H]].
    + by eapply IHl.
    + done.
    + by eapply IHr.
Qed.

Lemma tree_rep_null (m : mem) (t : tree) : tree_rep m NULL t -> t = E.
Proof. destruct t; simpl; [done|]. intros (<- & Ha & _). done. Qed.

Lemma tree_rep_hgt (m : mem) (p : Z) (t : tree) :
  tree_rep m p t -> height_or_zero m p = Done (hgt t).
Proof.
  destruct t as [|a sz l r h]; simpl.
  - intros ->. done.
  - intros (-> & Ha & lp & rp & Hm & _). unfold height_or_zero.
    destruct (Z.eqb_spec a NULL); [done|].
    rewrite (load_Some _ _ _ Ha Hm). done.
Qed.

Lemma tree_rep_dom (m : mem) (p : Z) (t : tree) (x : Z) :
  tree_rep m p t -> x ∈ addrs t -> exists md, m !! x = Some md.
Proof.
  revert p. induction t as [|a sz l IHl r IHr h]; simpl; intros p Hrep Hx.
  - unfold addrs in Hx. simpl in Hx. by apply elem_of_nil in Hx.
  - destruct Hrep as (-> & Ha & lp & rp & Hm & Hl & Hr).
    apply elem_of_addrs_T in Hx as [Hx|[->|Hx]]; eauto.
Qed.

Lemma tree_rep_size (m : mem) (p : Z) (t : tree) (x s : Z) :
  tree_rep m p t -> (x, s) ∈ elems t ->
  exists md, m !! x = Some md /\ size md = s.
Proof.
  revert p. induction t as [|a sz l IHl r IHr h]; simpl; intros p Hrep Hx.
  - by apply elem_of_nil in Hx.
  - destruct Hrep as (-> & Ha & lp & rp & Hm & Hl & Hr).
    apply elem_of_app in Hx as [Hx|Hx]; [eauto|].
    apply elem_of_cons in Hx as [[= -> ->]|Hx]; eauto.
Qed.

(** *** Frames *)

Lemma unchanged_outside_refl (S : list Z) (m : mem) : unchanged_outside S m m.
Proof. by intros x _. Qed.

Lemma unchanged_outside_trans (S1 S2 S : list Z) (m1 m2 m3 : mem) :
  unchanged_outside S1 m1 m2 -> unchanged_outside S2 m2 m3 ->
  (forall x, x ∈ S1 \/ x ∈ S2 -> x ∈ S) ->
  unchanged_outside S m1 m3.
Proof.
  intros H1 H2 Hsub x Hx. rewrite H2, H1; [done| |]; intros Hin; apply Hx, Hsub; auto.
Qed.

Lemma same_sizes_refl (m : mem) : same_sizes m m.
Proof. by intros x. Qed.

Lemma same_sizes_trans (m1 m2 m3 : mem) :
  same_sizes m1 m2 -> same_sizes m2 m3 -> same_sizes m1 m3.
Proof. intros H1 H2 x. by rewrite H2, H1. Qed.

Lemma same_sizes_insert (m : mem) (p : Z) (t t' : best_fit_metadata_t) :
  m !! p = Some t -> size t' = size t -> same_sizes m (<[p := t']> m).
Proof.
  intros Hm Hs x. destruct (decide (p = x)) as [->|Hne].
  - rewrite lookup_insert_eq, Hm. simpl. by rewrite Hs.
  - by rewrite lookup_insert_ne.
Qed.

Lemma unchanged_outside_insert (S : list Z) (m : mem) (p : Z) (t : best_fit_metadata_t) :
  p ∈ S -> unchanged_outside S m (<[p := t]> m).
Proof.
  intros Hp x Hx. rewrite lookup_insert_ne; [done|]. intros ->. done.
Qed.

Lemma tree_rep_root (m : mem) (p : Z) (t : tree) :
  tree_rep m p t -> p = root_of t.
Proof. destruct t; simpl; [done|]. by intros (-> & _). Qed.

(** *** [best_fit_balance_tree] computes [balance_t] *)

Lemma balance_refines (m : mem) (a sz lp rp h : Z) (l r : tree) :
  a <> NULL ->
  m !! a = Some {| size := sz; left := lp; right := rp; height := h |} ->
  tree_rep m lp l -> tree_rep m rp r ->
  NoDup (addrs (T a sz l r h)) ->
  0 <= hgt l -> 0 <= hgt r ->
  exists m',
    best_fit_balance_tree m a = Done (m', root_of (balance_t a sz l r)) /\
    tree_rep m' (root_of (balance_t a sz l r)) (balance_t a sz l r) /\
    unchanged_outside (addrs (T a sz l r h)) m m' /\
    same_sizes m m'.
Proof.
  intros Ha Hm Hl Hr Hnd Hlh Hrh.
  rewrite addrs_T in Hnd. apply NoDup_app in Hnd as (Hndl & Hal & Hnd).
  apply NoDup_cons in Hnd as (Har & Hndr).
  assert (Hal' : a ∉ addrs l).
  { intros Hin. apply (Hal a Hin). apply elem_of_cons. auto. }
  assert (Hlr : forall x, x ∈ addrs l -> x ∉ addrs r).
  { intros x Hx Hx'. apply (Hal x Hx). apply elem_of_cons. auto. }
  unfold best_fit_balance_tree, balance_t.
  rewrite (load_Some _ _ _ Ha Hm). ounfold. simpl.
  rewrite (tree_rep_hgt _ _ _ Hl), (tree_rep_hgt _ _ _ Hr).
  unfold store_height. rewrite (load_Some _ _ _ Ha Hm). ounfold.
  set (h' := 1 + max (hgt l) (hgt r)).
  set (m1 := <[a := set_height _ h']> m).
  assert (Hm1 : m1 !! a = Some {| size := sz; left := lp; right := rp; height := h' |}).
  { unfold m1. by rewrite lookup_insert_eq. }
  assert (Hm1o : forall x, x <> a -> m1 !! x = m !! x).
  { intros x Hx. unfold m1. by rewrite lookup_insert_ne. }
  destruct (Z.ltb_spec (hgt l + 1) (hgt r)) as [Hlt|Hge].
  - (* rotate left *)
    destruct r as [|ra rsz rl rr rh0]; [simpl in Hlt; lia|].
    simpl in Hr. destruct Hr as (-> & Hra & rlp & rrp & Hmr & Hrl & Hrr).
    assert (Hne : ra <> a).
    { intros ->. apply Har, elem_of_addrs_T. auto. }
    rewrite (load_Some _ _ _ Ha Hm1). simpl.
    assert (Hm1r : m1 !! ra = Some {| size := rsz; left := rlp; right := rrp; height := rh0 |}).
    { by rewrite Hm1o. }
    rewrite (load_Some _ _ _ Hra Hm1r). unfold store_left.
    rewrite (load_Some _ _ _ Hra Hm1r). simpl.
    set (m2 := <[ra := _]> m1).
    assert (Hm2 : m2 !! a = Some {| size := sz; left := lp; right := ra; height := h' |}).
    { unfold m2. by rewrite lookup_insert_ne. }
    unfold store_right. rewrite (load_Some _ _ _ Ha Hm2). simpl.
    set (m3 := <[a := _]> m2).
    exists m3. split; [done|].
    assert (Hm3o : forall x, x <> a -> x <> ra -> m3 !! x = m !! x).
    { intros x Hx1 Hx2. unfold m3, m2, m1. by rewrite !lookup_insert_ne. }
    rewrite addrs_T in Hndr. apply NoDup_app in Hndr as (Hndrl & Hrarl & Hndrr).
    apply NoDup_cons in Hndrr as (Hrarr & Hndrr).
    assert (Hsub : forall x, x ∈ addrs rl \/ x ∈ addrs rr -> x ∈ addrs (T ra rsz rl rr rh0)).
    { intros x Hx. apply elem_of_addrs_T. tauto. }
    split; [|split].
    + simpl. split; [done|]. split; [done|]. exists a, rrp. split.
      { unfold m3, m2. rewrite lookup_insert_ne by done. by rewrite lookup_insert_eq. }
      split.
      * split; [done|]. split; [done|]. exists lp, rlp. split.
        { unfold m3. by rewrite lookup_insert_eq. }
        split.
        -- eapply tree_rep_frame; [exact Hl|]. intros x Hx. apply Hm3o.
           ++ intros ->. done.
           ++ intros ->. apply (Hlr ra Hx). apply elem_of_addrs_T. auto.
        -- eapply tree_rep_frame; [exact Hrl|]. intros x Hx. apply Hm3o.
           ++ intros ->. apply Har, Hsub. auto.
           ++ intros ->. apply (Hrarl ra Hx). apply elem_of_cons. auto.
      * eapply tree_rep_frame; [exact Hrr|]. intros x Hx. apply Hm3o.
        -- intros ->. apply Har, Hsub. auto.
        -- intros ->. done.
    + intros x Hx. apply Hm3o.
      * intros ->. apply Hx. rewrite addrs_T. apply elem_of_app. right. apply elem_of_cons. auto.
      * intros ->. apply Hx. rewrite addrs_T. apply elem_of_app. right. apply elem_of_cons. right.
        apply elem_of_addrs_T. auto.
    + eapply same_sizes_trans; [|eapply same_sizes_insert; [exact Hm2|done]].
      eapply same_sizes_trans; [|eapply same_sizes_insert; [exact Hm1r|done]].
      eapply same_sizes_insert; [exact Hm|done].
  - destruct (Z.ltb_spec (hgt r + 1) (hgt l)) as [Hlt|Hge'].
    + (* rotate right *)
      destruct l as [|la lsz ll lr lh0]; [simpl in Hlt; lia|].
      simpl in Hl. destruct Hl as (-> & Hla & llp & lrp & Hml & Hll & Hlr').
      assert (Hne : la <> a).
      { intros ->. apply Hal', elem_of_addrs_T. auto. }
      rewrite (load_Some _ _ _ Ha Hm1). simpl.
      assert (Hm1l : m1 !! la = Some {| size := lsz; left := llp; right := lrp; height := lh0 |}).
      { by rewrite Hm1o. }
      rewrite (load_Some _ _ _ Hla Hm1l). unfold store_right.
      rewrite (load_Some _ _ _ Hla Hm1l). simpl.
      set (m2 := <[la := _]> m1).
      assert (Hm2 : m2 !! a = Some {| size := sz; left := la; right := rp; height := h' |}).
      { unfold m2. by rewrite lookup_insert_ne. }
      unfold store_left. rewrite (load_Some _ _ _ Ha Hm2). simpl.
      set (m3 := <[a := _]> m2).
      exists m3. split; [done|].
      assert (Hm3o : forall x, x <> a -> x <> la -> m3 !! x = m !! x).
      { intros x Hx1 Hx2. unfold m3, m2, m1. by rewrite !lookup_insert_ne. }
      rewrite addrs_T in Hndl. apply NoDup_app in Hndl as (Hndll & Hlall & Hndlr).
      apply NoDup_cons in Hndlr as (Hlalr & Hndlr).
      assert (Hsub : forall x, x ∈ addrs ll \/ x ∈ addrs lr -> x ∈ addrs (T la lsz ll lr lh0)).
      { intros x Hx. apply elem_of_addrs_T. tauto. }
      split; [|split].
      * simpl. split; [done|]. split; [done|]. exists llp, a. split.
        { unfold m3, m2. rewrite lookup_insert_ne by done. by rewrite lookup_insert_eq. }
        split.
        -- eapply tree_rep_frame; [exact Hll|]. intros x Hx. apply Hm3o.
           ++ intros ->. apply Hal', Hsub. auto.
           ++ intros ->. apply (Hlall la Hx). apply elem_of_cons. auto.
        -- split; [done|]. split; [done|]. exists lrp, rp. split.
           { unfold m3. by rewrite lookup_insert_eq. }
           split.
           ++ eapply tree_rep_frame; [exact Hlr'|]. intros x Hx. apply Hm3o.
              ** intros ->. apply Hal', Hsub. auto.
              ** intros ->. done.
           ++ eapply tree_rep_frame; [exact Hr|]. intros x Hx. apply Hm3o.
              ** intros ->. done.
              ** intros ->. apply (Hlr la); [|done]. apply elem_of_addrs_T. auto.
      * intros x Hx. apply Hm3o.
        -- intros ->. apply Hx. rewrite addrs_T. apply elem_of_app. right. apply elem_of_cons. auto.
        -- intros ->. apply Hx. rewrite addrs_T. apply elem_of_app. left.
           apply elem_of_addrs_T. auto.
      * eapply same_sizes_trans; [|eapply same_sizes_insert; [exact Hm2|done]].
        eapply same_sizes_trans; [|eapply same_sizes_insert; [exact Hm1l|done]].
        eapply same_sizes_insert; [exact Hm|done].
    + (* no rotation *)
      exists m1. split; [done|]. split; [|split].
      * simpl. split; [done|]. split; [done|]. exists lp, rp. split; [done|].
        split; (eapply tree_rep_frame; [eassumption|]); intros x Hx; apply Hm1o.
        -- intros ->. done.
        -- intros ->. done.
      * intros x Hx. apply Hm1o. intros ->. apply Hx.
        rewrite addrs_T. apply elem_of_app. right. apply elem_of_cons. auto.
      * eapply same_sizes_insert; [exact Hm|done].
Qed.

(** *** Properties of the pure functions *)

Lemma elems_balance (a sz : Z) (l r : tree) :
  elems (balance_t a sz l r) = elems l ++ (a, sz) :: elems r.
Proof.
  unfold balance_t.
  destruct (hgt l + 1 <? hgt r).
  - destruct r; simpl; [done|]. by rewrite <- app_assoc.
  - destruct (hgt r + 1 <? hgt l); [|done].
    destruct l; simpl; [done|]. by rewrite <- app_assoc.
Qed.

Lemma hgt_nonneg (t : tree) : heights_pos t -> 0 <= hgt t.
Proof. destruct t; simpl; [lia|]. intros (H & _). lia. Qed.

Lemma heights_pos_balance (a sz : Z) (l r : tree) :
  heights_pos l -> heights_pos r -> heights_pos (balance_t a sz l r).
Proof.
  intros Hl Hr. pose proof (hgt_nonneg _ Hl). pose proof (hgt_nonneg _ Hr).
  unfold balance_t, max.
  destruct (hgt l + 1 <? hgt r).
  - destruct r; simpl in *; repeat split; try tauto; lia.
  - destruct (hgt r + 1 <? hgt l).
    + destruct l; simpl in *; repeat split; try tauto; lia.
    + simpl. repeat split; try tauto; lia.
Qed.

Lemma balance_not_E (a sz : Z) (l r : tree) : balance_t a sz l r <> E.
Proof.
  unfold balance_t.
  destruct (hgt l + 1 <? hgt r); [by destruct r|].
  destruct (hgt r + 1 <? hgt l); [by destruct l|done].
Qed.

Lemma bst_T (a sz : Z) (l r : tree) (h : Z) :
  bst (T a sz l r h) <->
  bst l /\ bst r /\
  (forall x, x ∈ elems l -> x.2 <= sz) /\ (forall x, x ∈ elems r -> sz <= x.2).
Proof.
  unfold bst. simpl.
  rewrite StronglySorted_app, StronglySorted_cons, Forall_forall.
  unfold le_size. split.
  - intros (H1 & H2 & H3 & H4). repeat split; try done.
    intros x Hx. apply (H1 x (a, sz)); [done|]. apply elem_of_cons. auto.
  - intros (H1 & H2 & H3 & H4). repeat split; try done.
    intros x1 x2 Hx1 Hx2. apply elem_of_cons in Hx2 as [->|Hx2].
    + simpl. auto.
    + specialize (H3 x1 Hx1). specialize (H4 x2 Hx2). lia.
Qed.

Lemma bst_balance (a sz : Z) (l r : tree) (h : Z) :
  bst (balance_t a sz l r) <-> bst (T a sz l r h).
Proof. unfold bst. by rewrite elems_balance. Qed.

Lemma elems_insert (a0 sz0 h0 : Z) (t : tree) :
  elems (insert_t a0 sz0 h0 t) ≡ₚ (a0, sz0) :: elems t.
Proof.
  induction t as [|a sz l IHl r IHr h]; simpl; [done|].
  destruct (sz0 <? sz); rewrite elems_balance.
  - by rewrite IHl.
  - rewrite IHr, <- !Permutation_middle. apply Permutation_swap.
Qed.

Lemma elem_of_insert (a0 sz0 h0 : Z) (t : tree) (x : Z * Z) :
  x ∈ elems (insert_t a0 sz0 h0 t) <-> x = (a0, sz0) \/ x ∈ elems t.
Proof. rewrite elems_insert. apply elem_of_cons. Qed.

Lemma addrs_insert (a0 sz0 h0 : Z) (t : tree) :
  addrs (insert_t a0 sz0 h0 t) ≡ₚ a0 :: addrs t.
Proof. unfold addrs. by rewrite elems_insert. Qed.

Lemma bst_insert (a0 sz0 h0 : Z) (t : tree) :
  bst t -> bst (insert_t a0 sz0 h0 t).
Proof.
  induction t as [|a sz l IHl r IHr h]; simpl; intros Hb.
  - unfold bst. simpl. repeat constructor.
  - apply bst_T in Hb as (Hl & Hr & Hlo & Hhi).
    destruct (Z.ltb_spec sz0 sz); apply (bst_balance _ _ _ _ h), bst_T;
      repeat split; auto.
    + intros x Hx. apply elem_of_insert in Hx as [->|Hx]; simpl; [lia|auto].
    + intros x Hx. apply elem_of_insert in Hx as [->|Hx]; simpl; [lia|auto].
Qed.

Lemma heights_pos_insert (a0 sz0 h0 : Z) (t : tree) :
  1 <= h0 -> heights_pos t -> heights_pos (insert_t a0 sz0 h0 t).
Proof.
  intros Hh. induction t as [|a sz l IHl r IHr h]; simpl; [tauto|].
  intros (_ & Hl & Hr). destruct (sz0 <? sz); apply heights_pos_balance; auto.
Qed.

Lemma insert_not_E (a0 sz0 h0 : Z) (t : tree) : insert_t a0 sz0 h0 t <> E.
Proof. destruct t; simpl; [done|]. destruct (sz0 <? sz); apply balance_not_E. Qed.

Lemma elem_of_addrs_insert (a0 sz0 h0 : Z) (t : tree) (x : Z) :
  x ∈ addrs (insert_t a0 sz0 h0 t) <-> x = a0 \/ x ∈ addrs t.
Proof. rewrite addrs_insert. apply elem_of_cons. Qed.

(** *** [best_fit_insert_recursive] computes [insert_t] *)

Lemma insert_refines (fuel : nat) (m : mem) (meta : Z) (md : best_fit_metadata_t)
    (p : Z) (t : tree) :
  tree_rep m p t -> NoDup (addrs t) -> heights_pos t ->
  meta <> NULL -> meta ∉ addrs t -> m !! meta = Some md ->
  left md = NULL -> right md = NULL -> 1 <= height md ->
  (depth t < fuel)%nat ->
  exists m',
    best_fit_insert_recursive fuel m meta p
      = Done (m', root_of (insert_t meta (size md) (height md) t)) /\
    tree_rep m' (root_of (insert_t meta (size md) (height md) t))
             (insert_t meta (size md) (height md) t) /\
    unchanged_outside (meta :: addrs t) m m' /\
    same_sizes m m'.
Proof.
  revert fuel m p.
  induction t as [|a sz l IHl r IHr h];
    intros fuel m p Hrep Hnd Hhp Hmeta Hfresh Hmd Hl0 Hr0 Hh Hfuel.
  - simpl in Hrep. subst p. destruct fuel as [|fuel]; [simpl in Hfuel; lia|].
    exists m. split; [done|]. split; [|split].
    + simpl. split; [done|]. split; [done|]. exists NULL, NULL.
      split; [|done]. rewrite Hmd. f_equal. destruct md; simpl in *; congruence.
    + apply unchanged_outside_refl.
    + apply same_sizes_refl.
  - simpl in Hrep. destruct Hrep as (-> & Ha & lp & rp & Hm & Hl & Hr).
    destruct fuel as [|fuel]; [simpl in Hfuel; lia|]. simpl in Hfuel.
    destruct Hhp as (Hh1 & Hhl & Hhr).
    pose proof Hnd as Hnd0.
    rewrite addrs_T in Hnd. apply NoDup_app in Hnd as (Hndl & Hal & Hnd).
    apply NoDup_cons in Hnd as (Har & Hndr).
    assert (Hal' : a ∉ addrs l).
    { intros Hin. apply (Hal a Hin). apply elem_of_cons. auto. }
    assert (Hlr : forall x, x ∈ addrs l -> x ∉ addrs r).
    { intros x Hx Hx'. apply (Hal x Hx). apply elem_of_cons. auto. }
    rewrite elem_of_addrs_T in Hfresh.
    assert (Hma : meta <> a) by intuition congruence.
    cbn [best_fit_insert_recursive insert_t].
    destruct (Z.eqb_spec a NULL) as [|_]; [done|].
    rewrite (load_Some _ _ _ Hmeta Hmd). ounfold.
    rewrite (load_Some _ _ _ Ha Hm). cbn [size BestFit.left BestFit.right].
    destruct (Z.ltb_spec (size md) sz) as [Hlt|Hge].
    + destruct (IHl fuel m lp Hl Hndl Hhl Hmeta) as (m1 & Hrun & Hrep1 & Hout1 & Hsz1);
        try done; [intuition congruence|lia|].
      rewrite Hrun.
      set (l' := insert_t meta (size md) (height md) l) in *.
      assert (Hm1a : m1 !! a = Some {| size := sz; left := lp; right := rp; height := h |}).
      { rewrite Hout1; [done|]. rewrite elem_of_cons. intuition congruence. }
      unfold store_left. rewrite (load_Some _ _ _ Ha Hm1a). ounfold.
      set (m2 := <[a := _]> m1).
      assert (Hnd' : NoDup (addrs (T a sz l' r h))).
      { rewrite addrs_T. unfold l'. rewrite addrs_insert. simpl.
        apply NoDup_cons. split; [|by rewrite <- (addrs_T a sz l r h)].
        rewrite elem_of_app, elem_of_cons. intuition congruence. }
      destruct (balance_refines m2 a sz (root_of l') rp h l' r) as (m3 & Hbal & Hrep3 & Hout3 & Hsz3);
        try done.
      { unfold m2. by rewrite lookup_insert_eq. }
      { eapply tree_rep_frame; [exact Hrep1|]. intros x Hx.
        unfold m2. rewrite lookup_insert_ne; [done|]. intros ->.
        apply elem_of_addrs_insert in Hx. intuition congruence. }
      { eapply tree_rep_frame; [exact Hr|]. intros x Hx.
        unfold m2. rewrite lookup_insert_ne by (by intros ->).
        apply Hout1. rewrite elem_of_cons. intros [->|Hx']; [intuition congruence|].
        by apply (Hlr x). }
      { apply hgt_nonneg, heights_pos_insert; done. }
      { by apply hgt_nonneg. }
      exists m3. split; [exact Hbal|]. split; [exact Hrep3|]. split.
      * intros x Hx. rewrite elem_of_cons, elem_of_addrs_T in Hx.
        rewrite Hout3.
        -- unfold m2. rewrite lookup_insert_ne by (intros ->; intuition congruence).
           apply Hout1. rewrite elem_of_cons. intuition congruence.
        -- rewrite elem_of_addrs_T. unfold l'. rewrite elem_of_addrs_insert. intuition congruence.
      * eapply same_sizes_trans; [exact Hsz1|].
        eapply same_sizes_trans; [|exact Hsz3].
        eapply same_sizes_insert; [exact Hm1a|done].
    + destruct (IHr fuel m rp Hr Hndr Hhr Hmeta) as (m1 & Hrun & Hrep1 & Hout1 & Hsz1);
        try done; [intuition congruence|lia|].
      rewrite Hrun.
      set (r' := insert_t meta (size md) (height md) r) in *.
      assert (Hm1a : m1 !! a = Some {| size := sz; left := lp; right := rp; height := h |}).
      { rewrite Hout1; [done|]. rewrite elem_of_cons. intuition congruence. }
      unfold store_right. rewrite (load_Some _ _ _ Ha Hm1a). ounfold.
      set (m2 := <[a := _]> m1).
      assert (Hnd' : NoDup (addrs (T a sz l r' h))).
      { rewrite addrs_T. unfold r'. rewrite addrs_insert.
        rewrite (Permutation_swap meta a), <- Permutation_middle.
        apply NoDup_cons. split; [|by rewrite <- (addrs_T a sz l r h)].
        rewrite elem_of_app, elem_of_cons. intuition congruence. }
      destruct (balance_refines m2 a sz lp (root_of r') h l r') as (m3 & Hbal & Hrep3 & Hout3 & Hsz3);
        try done.
      { unfold m2. by rewrite lookup_insert_eq. }
      { eapply tree_rep_frame; [exact Hl|]. intros x Hx.
        unfold m2. rewrite lookup_insert_ne by (by intros ->).
        apply Hout1. rewrite elem_of_cons. intros [->|Hx']; [intuition congruence|].
        by apply (Hlr x). }
      { eapply tree_rep_frame; [exact Hrep1|]. intros x Hx.
        unfold m2. rewrite lookup_insert_ne; [done|]. intros ->.
        apply elem_of_addrs_insert in Hx. intuition congruence. }
      { by apply hgt_nonneg. }
      { apply hgt_nonneg, heights_pos_insert; done. }
      exists m3. split; [exact Hbal|]. split; [exact Hrep3|]. split.
      * intros x Hx. rewrite elem_of_cons, elem_of_addrs_T in Hx.
        rewrite Hout3.
        -- unfold m2. rewrite lookup_insert_ne by (intros ->; intuition congruence).
           apply Hout1. rewrite elem_of_cons. intuition congruence.
        -- rewrite elem_of_addrs_T. unfold r'. rewrite elem_of_addrs_insert. intuition congruence.
      * eapply same_sizes_trans; [exact Hsz1|].
        eapply same_sizes_trans; [|exact Hsz3].
        eapply same_sizes_insert; [exact Hm1a|done].
Qed.

(** *** Removal on the pure tree *)

Lemma leftmost_head (a sz : Z) (l r : tree) (h : Z) (xa xsz xh : Z) :
  leftmost_t a sz l h = (xa, xsz, xh) ->
  exists rest, elems (T a sz l r h) = (xa, xsz) :: rest.
Proof.
  revert a sz r h. induction l as [|la lsz ll IHll lr _ lh]; intros a sz r h Hlm.
  - simpl in Hlm. injection Hlm as -> -> ->. simpl. eauto.
  - simpl in Hlm. destruct (IHll la lsz lr lh Hlm) as (rest & Hrest).
    simpl in *. rewrite Hrest. simpl. eauto.
Qed.

Lemma leftmost_heights (a sz : Z) (l : tree) (h : Z) (xa xsz xh : Z) :
  leftmost_t a sz l h = (xa, xsz, xh) -> 1 <= h -> heights_pos l -> 1 <= xh.
Proof.
  revert a sz h. induction l as [|la lsz ll IHll lr _ lh]; intros a sz h Hlm Hh Hhp.
  - simpl in Hlm. by injection Hlm as -> -> ->.
  - simpl in Hlm, Hhp. eapply IHll; [exact Hlm| |]; tauto.
Qed.

Lemma head_unique (xa s1 s2 : Z) (rest k1 k2 : list (Z * Z)) :
  NoDup (((xa, s1) :: rest).*1) ->
  (xa, s1) :: rest = k1 ++ (xa, s2) :: k2 ->
  k1 = [] /\ s1 = s2 /\ rest = k2.
Proof.
  intros Hnd Heq. destruct k1 as [|y k1]; simpl in Heq.
  - by injection Heq as -> ->.
  - injection Heq as <- ->. simpl in Hnd. apply NoDup_cons in Hnd as (Hnin & _).
    exfalso. apply Hnin. rewrite fmap_app, elem_of_app. right. simpl.
    apply elem_of_cons. auto.
Qed.

Lemma NoDup_addrs_T (a sz : Z) (l r : tree) (h : Z) :
  NoDup (addrs (T a sz l r h)) ->
  NoDup (addrs l) /\ NoDup (addrs r) /\ (a ∉ addrs l) /\ (a ∉ addrs r) /\
  (forall x, x ∈ addrs l -> x ∉ addrs r).
Proof.
  rewrite addrs_T. intros Hnd. apply NoDup_app in Hnd as (Hndl & Hal & Hnd).
  apply NoDup_cons in Hnd as (Har & Hndr). repeat split; try done.
  - intros Hin. apply (Hal a Hin). apply elem_of_cons. auto.
  - intros x Hx Hx'. apply (Hal x Hx). apply elem_of_cons. auto.
Qed.

Lemma remove_elems (a0 sz0 : Z) (t t' : tree) :
  NoDup (addrs t) -> remove_t a0 sz0 t = Some t' ->
  exists l1 s l2, elems t = l1 ++ (a0, s) :: l2 /\ elems t' = l1 ++ l2.
Proof.
  revert a0 sz0 t'. induction t as [|a sz l IHl r IHr h]; intros a0 sz0 t' Hnd Hrm;
    [done|].
  apply NoDup_addrs_T in Hnd as (Hndl & Hndr & Hal & Har & Hlr).
  cbn [remove_t] in Hrm. destruct (Z.eqb_spec a0 a) as [->|Hne].
  - destruct l as [|la lsz ll lr lh].
    + injection Hrm as <-. exists [], sz, (elems r). done.
    + destruct r as [|ra rsz rl rr rh].
      * injection Hrm as <-. exists (elems (T la lsz ll lr lh)), sz, []. split; [done|].
        by rewrite app_nil_r.
      * destruct (leftmost_t ra rsz rl rh) as [[xa xsz] xh] eqn:Hlm.
        destruct (remove_t xa xsz (T ra rsz rl rr rh)) as [r'|] eqn:Hrm'; [|done].
        simpl in Hrm. injection Hrm as <-.
        destruct (IHr _ _ _ Hndr Hrm') as (k1 & s' & k2 & Hk & Hk').
        destruct (leftmost_head _ _ _ rr _ _ _ _ Hlm) as (rest & Hrest).
        rewrite Hrest in Hk.
        apply head_unique in Hk as (-> & -> & ->).
        2:{ rewrite <- Hrest. exact Hndr. }
        exists (elems (T la lsz ll lr lh)), sz, (elems (T ra rsz rl rr rh)).
        split; [done|]. cbn [elems] in *. rewrite Hrest, Hk'. done.
  - destruct (sz <? sz0).
    + destruct (remove_t a0 sz0 r) as [r'|] eqn:Hrm'; [|done].
      simpl in Hrm. injection Hrm as <-.
      destruct (IHr _ _ _ Hndr Hrm') as (k1 & s' & k2 & Hk & Hk').
      exists (elems l ++ (a, sz) :: k1), s', k2.
      rewrite elems_balance. simpl. rewrite Hk, Hk'.
      by rewrite <- !app_assoc.
    + destruct (remove_t a0 sz0 l) as [l'|] eqn:Hrm'; [|done].
      simpl in Hrm. injection Hrm as <-.
      destruct (IHl _ _ _ Hndl Hrm') as (k1 & s' & k2 & Hk & Hk').
      exists k1, s', (k2 ++ (a, sz) :: elems r).
      rewrite elems_balance. simpl. rewrite Hk, Hk'.
      by rewrite <- !app_assoc.
Qed.

Lemma remove_perm (a0 sz0 : Z) (t t' : tree) :
  NoDup (addrs t) -> remove_t a0 sz0 t = Some t' ->
  exists s, elems t ≡ₚ (a0, s) :: elems t'.
Proof.
  intros Hnd Hrm. destruct (remove_elems _ _ _ _ Hnd Hrm) as (l1 & s & l2 & -> & ->).
  exists s. by rewrite <- Permutation_middle.
Qed.

Lemma remove_addrs (a0 sz0 : Z) (t t' : tree) :
  NoDup (addrs t) -> remove_t a0 sz0 t = Some t' ->
  addrs t ≡ₚ a0 :: addrs t'.
Proof.
  intros Hnd Hrm. destruct (remove_perm _ _ _ _ Hnd Hrm) as (s & Hp).
  unfold addrs. by rewrite Hp.
Qed.

Lemma remove_NoDup (a0 sz0 : Z) (t t' : tree) :
  NoDup (addrs t) -> remove_t a0 sz0 t = Some t' ->
  NoDup (addrs t') /\ a0 ∉ addrs t'.
Proof.
  intros Hnd Hrm. pose proof (remove_addrs _ _ _ _ Hnd Hrm) as Hp.
  rewrite Hp in Hnd. apply NoDup_cons in Hnd. tauto.
Qed.

Lemma remove_bst (a0 sz0 : Z) (t t' : tree) :
  NoDup (addrs t) -> remove_t a0 sz0 t = Some t' -> bst t -> bst t'.
Proof.
  intros Hnd Hrm. destruct (remove_elems _ _ _ _ Hnd Hrm) as (l1 & s & l2 & H1 & H2).
  unfold bst. rewrite H1, H2, !StronglySorted_app, StronglySorted_cons.
  intros (Hc & Hs1 & _ & Hs2). repeat split; try done.
  intros x1 x2 Hx1 Hx2. apply Hc; [done|]. apply elem_of_cons. auto.
Qed.

Lemma remove_heights_pos (a0 sz0 : Z) (t t' : tree) :
  remove_t a0 sz0 t = Some t' -> heights_pos t -> heights_pos t'.
Proof.
  revert a0 sz0 t'. induction t as [|a sz l IHl r IHr h]; intros a0 sz0 t' Hrm Hhp;
    [done|].
  destruct Hhp as (Hh & Hhl & Hhr).
  cbn [remove_t] in Hrm. destruct (a0 =? a).
  - destruct l as [|la lsz ll lr lh]; [by injection Hrm as <-|].
    destruct r as [|ra rsz rl rr rh]; [by injection Hrm as <-|].
    destruct (leftmost_t ra rsz rl rh) as [[xa xsz] xh] eqn:Hlm.
    destruct (remove_t xa xsz (T ra rsz rl rr rh)) as [r'|] eqn:Hrm'; [|done].
    simpl in Hrm. injection Hrm as <-.
    split; [|split; [done|by eapply IHr]].
    simpl in Hhr. eapply leftmost_heights; [exact Hlm| |]; tauto.
  - destruct (sz <? sz0).
    + destruct (remove_t a0 sz0 r) as [r'|] eqn:Hrm'; [|done].
      simpl in Hrm. injection Hrm as <-. apply heights_pos_balance; eauto.
    + destruct (remove_t a0 sz0 l) as [l'|] eqn:Hrm'; [|done].
      simpl in Hrm. injection Hrm as <-. apply heights_pos_balance; eauto.
Qed.

(** *** The search of [best_fit_malloc] on the pure tree *)

Lemma elem_of_elems_addrs (x s : Z) (t : tree) : (x, s) ∈ elems t -> x ∈ addrs t.
Proof. intros H. unfold addrs. apply list_elem_of_fmap. by exists (x, s). Qed.

Lemma search_in (req : Z) (t : tree) (b : Z * Z) :
  search_t req t = Some b -> b ∈ elems t /\ req <= b.2.
Proof.
  induction t as [|a sz l IHl r IHr h]; simpl; [done|].
  destruct (Z.ltb_spec sz req) as [Hlt|Hge].
  - intros H. destruct (IHr H). split; [|done].
    apply elem_of_app. right. apply elem_of_cons. auto.
  - destruct (search_t req l) as [b'|].
    + intros [= ->]. destruct IHl as [Hin Hle]; [done|]. split; [|done].
      apply elem_of_app. auto.
    + intros [= <-]. split; [|done]. apply elem_of_app. right. apply elem_of_cons. auto.
Qed.

Lemma search_none (req : Z) (t : tree) :
  bst t -> search_t req t = None -> forall x, x ∈ elems t -> x.2 < req.
Proof.
  induction t as [|a sz l IHl r IHr h]; simpl; intros Hb Hs x Hx.
  - by apply elem_of_nil in Hx.
  - apply bst_T in Hb as (Hbl & Hbr & Hlo & Hhi).
    destruct (Z.ltb_spec sz req) as [Hlt|Hge].
    + apply elem_of_app in Hx as [Hx|Hx].
      * specialize (Hlo x Hx). lia.
      * apply elem_of_cons in Hx as [->|Hx]; [done|]. by apply IHr.
    + by destruct (search_t req l).
Qed.

(** Best-fit minimality on a binary search tree. *)
Lemma search_min (req : Z) (t : tree) (b : Z * Z) :
  bst t -> search_t req t = Some b ->
  forall x, x ∈ elems t -> req <= x.2 -> b.2 <= x.2.
Proof.
  induction t as [|a sz l IHl r IHr h]; simpl; intros Hb Hs x Hx Hreq; [done|].
  apply bst_T in Hb as (Hbl & Hbr & Hlo & Hhi).
  destruct (Z.ltb_spec sz req) as [Hlt|Hge].
  - apply elem_of_app in Hx as [Hx|Hx].
    + specialize (Hlo x Hx). lia.
    + apply elem_of_cons in Hx as [->|Hx]; [simpl in Hreq; lia|]. by apply IHr.
  - destruct (search_t req l) as [b'|] eqn:Hsl.
    + injection Hs as ->.
      apply elem_of_app in Hx as [Hx|Hx]; [by apply IHl|].
      destruct (search_in _ _ _ Hsl) as [Hin _]. specialize (Hlo b Hin).
      apply elem_of_cons in Hx as [->|Hx]; [done|].
      specialize (Hhi x Hx). lia.
    + injection Hs as <-. simpl.
      apply elem_of_app in Hx as [Hx|Hx].
      * pose proof (search_none _ _ Hbl Hsl x Hx). lia.
      * apply elem_of_cons in Hx as [->|Hx]; [done|]. by apply Hhi.
Qed.

(** A sufficient block is found whenever the tree holds one. *)
Lemma search_some (req : Z) (t : tree) (x : Z * Z) :
  bst t -> x ∈ elems t -> req <= x.2 -> is_Some (search_t req t).
Proof.
  intros Hb Hx Hreq. destruct (search_t req t) eqn:Hs; [eauto|].
  pose proof (search_none _ _ Hb Hs x Hx). lia.
Qed.

(** The leftmost node of a search tree can be removed: the descent compares
    sizes and always turns left. *)
Lemma remove_leftmost_some (a sz : Z) (l r : tree) (h : Z) (xa xsz xh : Z) :
  bst (T a sz l r h) -> NoDup (addrs (T a sz l r h)) ->
  leftmost_t a sz l h = (xa, xsz, xh) ->
  is_Some (remove_t xa xsz (T a sz l r h)).
Proof.
  revert a sz r h. induction l as [|la lsz ll IHll lr _ lh]; intros a sz r h Hb Hnd Hlm.
  - simpl in Hlm. injection Hlm as -> -> ->. cbn [remove_t].
    rewrite Z.eqb_refl. eauto.
  - cbn [leftmost_t] in Hlm.
    apply bst_T in Hb as (Hbl & Hbr & Hlo & Hhi).
    apply NoDup_addrs_T in Hnd as (Hndl & Hndr & Hal & Har & Hlr).
    destruct (leftmost_head _ _ _ lr _ _ _ _ Hlm) as (rest & Hrest).
    assert (Hin : (xa, xsz) ∈ elems (T la lsz ll lr lh)).
    { rewrite Hrest. apply elem_of_cons. auto. }
    destruct (IHll la lsz lr lh Hbl Hndl Hlm) as (l' & Hl').
    remember (T la lsz ll lr lh) as lt eqn:Hlt.
    cbn [remove_t]. destruct (Z.eqb_spec xa a) as [->|Hne].
    { exfalso. apply Hal. by eapply elem_of_elems_addrs. }
    specialize (Hlo _ Hin). simpl in Hlo.
    destruct (Z.ltb_spec sz xsz) as [|_]; [lia|].
    rewrite Hl'. simpl. eauto.
Qed.

(** The block chosen by the search can be removed: the descent of
    [best_fit_remove_recursive] follows the path the search took. *)
Lemma remove_search_some (req : Z) (t : tree) (a0 sz0 : Z) :
  bst t -> NoDup (addrs t) -> search_t req t = Some (a0, sz0) ->
  is_Some (remove_t a0 sz0 t).
Proof.
  induction t as [|a sz l IHl r IHr h]; intros Hb Hnd Hs; [done|].
  pose proof Hb as Hb0. pose proof Hnd as Hnd0.
  apply bst_T in Hb as (Hbl & Hbr & Hlo & Hhi).
  apply NoDup_addrs_T in Hnd as (Hndl & Hndr & Hal & Har & Hlr).
  cbn [search_t] in Hs. cbn [remove_t].
  destruct (Z.ltb_spec sz req) as [Hlt|Hge].
  - destruct (search_in _ _ _ Hs) as [Hin Hle]. simpl in Hle.
    destruct (Z.eqb_spec a0 a) as [->|Hne].
    { exfalso. apply Har. by eapply elem_of_elems_addrs. }
    destruct (Z.ltb_spec sz sz0) as [_|]; [|lia].
    destruct (IHr Hbr Hndr Hs) as (r' & ->). simpl. eauto.
  - destruct (search_t req l) as [b'|] eqn:Hsl.
    + injection Hs as ->.
      destruct (search_in _ _ _ Hsl) as [Hin Hle]. simpl in Hle.
      destruct (Z.eqb_spec a0 a) as [->|Hne].
      { exfalso. apply Hal. by eapply elem_of_elems_addrs. }
      specialize (Hlo _ Hin). simpl in Hlo.
      destruct (Z.ltb_spec sz sz0) as [|_]; [lia|].
      destruct (IHl Hbl Hndl eq_refl) as (l' & ->). simpl. eauto.
    + injection Hs as <- <-. rewrite Z.eqb_refl.
      destruct l as [|la lsz ll lr lh]; [eauto|].
      destruct r as [|ra rsz rl rr rh]; [eauto|].
      destruct (leftmost_t ra rsz rl rh) as [[xa xsz] xh] eqn:Hlm.
      destruct (remove_leftmost_some _ _ _ _ _ _ _ _ Hbr Hndr Hlm) as (r' & ->).
      simpl. eauto.
Qed.

(** *** The loops and [best_fit_remove_recursive] on the store *)

Lemma search_refines (fuel : nat) (m : mem) (req p best : Z) (t : tree) :
  tree_rep m p t -> (depth t < fuel)%nat ->
  best_fit_search fuel m req p best
    = Done (match search_t req t with Some b => b.1 | None => best end).
Proof.
  revert fuel p best. induction t as [|a sz l IHl r IHr h]; intros fuel p best Hrep Hfuel.
  - simpl in Hrep. subst p. destruct fuel; [simpl in Hfuel; lia|]. done.
  - simpl in Hrep. destruct Hrep as (-> & Ha & lp & rp & Hm & Hl & Hr).
    destruct fuel as [|fuel]; [simpl in Hfuel; lia|]. simpl in Hfuel.
    cbn [best_fit_search search_t].
    destruct (Z.eqb_spec a NULL) as [|_]; [done|].
    rewrite (load_Some _ _ _ Ha Hm). ounfold. cbn [size BestFit.left BestFit.right].
    destruct (sz <? req).
    + apply IHr; [done|lia].
    + rewrite (IHl fuel lp a Hl); [|lia]. by destruct (search_t req l).
Qed.

Lemma leftmost_refines (fuel : nat) (m : mem) (a sz : Z) (l r : tree) (h : Z)
    (xa xsz xh : Z) :
  tree_rep m a (T a sz l r h) -> (depth l < fuel)%nat ->
  leftmost_t a sz l h = (xa, xsz, xh) ->
  leftmost fuel m a = Done xa /\ xa <> NULL /\
  exists xrp, m !! xa = Some {| size := xsz; left := NULL; right := xrp; height := xh |}.
Proof.
  revert fuel a sz r h. induction l as [|la lsz ll IHll lr _ lh];
    intros fuel a sz r h Hrep Hfuel Hlm.
  - simpl in Hlm. injection Hlm as -> -> ->.
    simpl in Hrep. destruct Hrep as (_ & Ha & lp & rp & Hm & -> & Hr).
    destruct fuel as [|fuel]; [lia|]. cbn [leftmost].
    rewrite (load_Some _ _ _ Ha Hm). ounfold. simpl. eauto.
  - cbn [leftmost_t] in Hlm.
    cbn [tree_rep] in Hrep. destruct Hrep as (_ & Ha & lp & rp & Hm & Hl & Hr).
    pose proof Hl as Hl0. destruct Hl as (-> & Hla & _).
    destruct fuel as [|fuel]; [lia|]. simpl in Hfuel. cbn [leftmost].
    rewrite (load_Some _ _ _ Ha Hm). ounfold. cbn [BestFit.left].
    destruct (Z.eqb_spec la NULL) as [|_]; [done|].
    eapply IHll; [exact Hl0|lia|exact Hlm].
Qed.

Lemma remove_t_eq (a0 sz0 a sz : Z) (l r : tree) (h : Z) :
  remove_t a0 sz0 (T a sz l r h) =
  if a0 =? a then
    match l with
    | E => Some r
    | T _ _ _ _ _ =>
      match r with
      | E => Some l
      | T ra rsz rl _ rh =>
        let '(xa, xsz, xh) := leftmost_t ra rsz rl rh in
        r' ← remove_t xa xsz r;
        Some (T xa xsz l r' xh)
      end
    end
  else if sz <? sz0 then
    r' ← remove_t a0 sz0 r; Some (balance_t a sz l r')
  else
    l' ← remove_t a0 sz0 l; Some (balance_t a sz l' r).
Proof. reflexivity. Qed.

Lemma elem_of_addrs_balance (a sz : Z) (l r : tree) (x : Z) :
  x ∈ addrs (balance_t a sz l r) <-> x ∈ addrs l \/ x = a \/ x ∈ addrs r.
Proof.
  unfold addrs. rewrite elems_balance, fmap_app, elem_of_app. simpl.
  rewrite elem_of_cons. tauto.
Qed.

Lemma elem_of_addrs_remove (a0 sz0 : Z) (t t' : tree) (x : Z) :
  NoDup (addrs t) -> remove_t a0 sz0 t = Some t' ->
  (x ∈ addrs t <-> x = a0 \/ x ∈ addrs t').
Proof.
  intros Hnd Hrm. rewrite (remove_addrs _ _ _ _ Hnd Hrm). apply elem_of_cons.
Qed.

Lemma remove_refines (fuel : nat) (m : mem) (a0 : Z) (md : best_fit_metadata_t)
    (p : Z) (t t' : tree) :
  tree_rep m p t -> NoDup (addrs t) -> heights_pos t ->
  a0 <> NULL -> m !! a0 = Some md ->
  remove_t a0 (size md) t = Some t' ->
  (depth t < fuel)%nat ->
  exists m',
    best_fit_remove_recursive fuel m a0 p = Done (m', root_of t') /\
    tree_rep m' (root_of t') t' /\
    unchanged_outside (addrs t') m m' /\
    same_sizes m m'.
Proof.
  revert fuel m a0 md p t'.
  induction t as [|a sz l IHl r IHr h];
    intros fuel m a0 md p t' Hrep Hnd Hhp Ha0 Hmd Hrm Hfuel; [done|].
  cbn [tree_rep] in Hrep. destruct Hrep as (-> & Ha & lp & rp & Hm & Hl & Hr).
  destruct fuel as [|fuel]; [simpl in Hfuel; lia|]. simpl in Hfuel.
  destruct Hhp as (Hh1 & Hhl & Hhr).
  pose proof Hnd as Hnd0.
  apply NoDup_addrs_T in Hnd as (Hndl & Hndr & Hal & Har & Hlr).
  rewrite remove_t_eq in Hrm. cbn [best_fit_remove_recursive].
  destruct (Z.eqb_spec a0 a) as [->|Hne].
  - (* the node to remove is this one *)
    rewrite (load_Some _ _ _ Ha Hm). ounfold. cbn [BestFit.left BestFit.right].
    destruct l as [|la lsz ll lr lh].
    { simpl in Hl. subst lp. injection Hrm as <-. simpl.
      rewrite <- (tree_rep_root _ _ _ Hr).
      exists m. split; [done|]. split; [done|].
      split; [apply unchanged_outside_refl|apply same_sizes_refl]. }
    pose proof Hl as Hl0. cbn [tree_rep] in Hl. destruct Hl as (-> & Hla & _).
    destruct (Z.eqb_spec la NULL) as [|_]; [done|].
    destruct r as [|ra rsz rl rr rh].
    { simpl in Hr. subst rp. injection Hrm as <-. simpl.
      exists m. split; [done|]. split; [done|].
      split; [apply unchanged_outside_refl|apply same_sizes_refl]. }
    pose proof Hr as Hr0. cbn [tree_rep] in Hr. destruct Hr as (-> & Hra & _).
    destruct (Z.eqb_spec ra NULL) as [|_]; [done|].
    destruct (leftmost_t ra rsz rl rh) as [[xa xsz] xh] eqn:Hlm.
    destruct (remove_t xa xsz (T ra rsz rl rr rh)) as [r'|] eqn:Hrm'; [|done].
    simpl in Hrm. injection Hrm as <-.
    destruct (leftmost_refines fuel m ra rsz rl rr rh xa xsz xh Hr0) as (Hrun & Hxa & xrp & Hmx);
      [simpl in Hfuel; lia|done|].
    rewrite Hrun.
    destruct (IHr fuel m xa _ ra r' Hr0 Hndr Hhr Hxa Hmx Hrm') as (m1 & Hrun1 & Hrep1 & Hout1 & Hsz1);
      [lia|].
    rewrite Hrun1.
    destruct (remove_NoDup _ _ _ _ Hndr Hrm') as (Hndr' & Hxr').
    assert (Hxin : xa ∈ addrs (T ra rsz rl rr rh)).
    { apply (elem_of_addrs_remove _ _ _ _ xa Hndr Hrm'). auto. }
    assert (Hsub : forall x, x ∈ addrs r' -> x ∈ addrs (T ra rsz rl rr rh)).
    { intros x Hx. apply (elem_of_addrs_remove _ _ _ _ x Hndr Hrm'). auto. }
    assert (Hxa_a : xa <> a) by (intros ->; done).
    assert (Hm1x : m1 !! xa = Some {| size := xsz; left := NULL; right := xrp; height := xh |}).
    { by rewrite Hout1. }
    unfold store_right. rewrite (load_Some _ _ _ Hxa Hm1x). ounfold.
    set (m2 := <[xa := _]> m1).
    assert (Hm2a : m2 !! a = Some {| size := sz; left := la; right := ra; height := h |}).
    { unfold m2. rewrite lookup_insert_ne by done. rewrite Hout1; [done|].
      intros Hin. apply Har. by apply Hsub. }
    rewrite (load_Some _ _ _ Ha Hm2a). cbn [BestFit.left].
    unfold store_left.
    assert (Hm2x : m2 !! xa = Some (set_right {| size := xsz; left := NULL; right := xrp; height := xh |} (root_of r'))).
    { unfold m2. by rewrite lookup_insert_eq. }
    rewrite (load_Some _ _ _ Hxa Hm2x). unfold set_right, set_left. simpl.
    set (m3 := <[xa := _]> m2).
    assert (Hm3o : forall x, x <> xa -> m3 !! x = m1 !! x).
    { intros x Hx. unfold m3, m2. by rewrite !lookup_insert_ne. }
    exists m3. split; [done|]. split; [|split].
    + split; [done|]. split; [done|]. exists la, (root_of r'). split.
      { unfold m3. by rewrite lookup_insert_eq. }
      split.
      * refine (tree_rep_frame m m3 la (T la lsz ll lr lh) Hl0 _). intros x Hx.
        rewrite Hm3o.
        -- apply Hout1. intros Hin. apply (Hlr x Hx). by apply Hsub.
        -- intros ->. by apply (Hlr xa).
      * eapply tree_rep_frame; [exact Hrep1|]. intros x Hx.
        apply Hm3o. intros ->. done.
    + intros x Hx. rewrite elem_of_addrs_T in Hx.
      rewrite Hm3o by (intros ->; tauto). apply Hout1. tauto.
    + eapply same_sizes_trans; [exact Hsz1|].
      apply (same_sizes_trans _ m2).
      * unfold m2. eapply same_sizes_insert; [exact Hm1x|done].
      * unfold m3. eapply same_sizes_insert; [exact Hm2x|done].
  - (* descend by size *)
    destruct (Z.eqb_spec a0 a) as [|_]; [done|].
    rewrite (load_Some _ _ _ Ha Hm). ounfold.
    rewrite (load_Some _ _ _ Ha0 Hmd). cbn [size BestFit.left BestFit.right].
    destruct (sz <? size md).
    + destruct (remove_t a0 (size md) r) as [r'|] eqn:Hrm'; [|done].
      simpl in Hrm. injection Hrm as <-.
      destruct (IHr fuel m a0 md rp r' Hr Hndr Hhr Ha0 Hmd Hrm') as (m1 & Hrun1 & Hrep1 & Hout1 & Hsz1);
        [lia|].
      rewrite Hrun1.
      destruct (remove_NoDup _ _ _ _ Hndr Hrm') as (Hndr' & Hxr').
      assert (Hsub : forall x, x ∈ addrs r' -> x ∈ addrs r).
      { intros x Hx. apply (elem_of_addrs_remove _ _ _ _ x Hndr Hrm'). auto. }
      assert (Hm1a : m1 !! a = Some {| size := sz; left := lp; right := rp; height := h |}).
      { rewrite Hout1; [done|]. intros Hin. apply Har. by apply Hsub. }
      unfold store_right. rewrite (load_Some _ _ _ Ha Hm1a). ounfold.
      set (m2 := <[a := _]> m1).
      assert (Hnd' : NoDup (addrs (T a sz l r' h))).
      { rewrite addrs_T. apply NoDup_app. split; [done|]. split.
        - intros x Hx. rewrite elem_of_cons. intros [->|Hx']; [done|].
          apply (Hlr x Hx). by apply Hsub.
        - apply NoDup_cons. split; [|done]. intros Hin. apply Har. by apply Hsub. }
      destruct (balance_refines m2 a sz lp (root_of r') h l r') as (m3 & Hbal & Hrep3 & Hout3 & Hsz3);
        try done.
      { unfold m2. by rewrite lookup_insert_eq. }
      { eapply tree_rep_frame; [exact Hl|]. intros x Hx.
        unfold m2. rewrite lookup_insert_ne by (by intros ->).
        apply Hout1. intros Hin. apply (Hlr x Hx). by apply Hsub. }
      { eapply tree_rep_frame; [exact Hrep1|]. intros x Hx.
        unfold m2. rewrite lookup_insert_ne; [done|]. intros ->.
        apply Har. by apply Hsub. }
      { by apply hgt_nonneg. }
      { eapply hgt_nonneg, remove_heights_pos; eauto. }
      exists m3. split; [exact Hbal|]. split; [exact Hrep3|]. split.
      * intros x Hx. rewrite elem_of_addrs_balance in Hx.
        rewrite Hout3 by (rewrite elem_of_addrs_T; tauto).
        unfold m2. rewrite lookup_insert_ne by (intros ->; tauto).
        apply Hout1. tauto.
      * eapply same_sizes_trans; [exact Hsz1|].
        eapply same_sizes_trans; [|exact Hsz3].
        eapply same_sizes_insert; [exact Hm1a|done].
    + destruct (remove_t a0 (size md) l) as [l'|] eqn:Hrm'; [|done].
      simpl in Hrm. injection Hrm as <-.
      destruct (IHl fuel m a0 md lp l' Hl Hndl Hhl Ha0 Hmd Hrm') as (m1 & Hrun1 & Hrep1 & Hout1 & Hsz1);
        [lia|].
      rewrite Hrun1.
      destruct (remove_NoDup _ _ _ _ Hndl Hrm') as (Hndl' & Hxl').
      assert (Hsub : forall x, x ∈ addrs l' -> x ∈ addrs l).
      { intros x Hx. apply (elem_of_addrs_remove _ _ _ _ x Hndl Hrm'). auto. }
      assert (Hm1a : m1 !! a = Some {| size := sz; left := lp; right := rp; height := h |}).
      { rewrite Hout1; [done|]. intros Hin. apply Hal. by apply Hsub. }
      unfold store_left. rewrite (load_Some _ _ _ Ha Hm1a). ounfold.
      set (m2 := <[a := _]> m1).
      assert (Hnd' : NoDup (addrs (T a sz l' r h))).
      { rewrite addrs_T. apply NoDup_app. split; [done|]. split.
        - intros x Hx. rewrite elem_of_cons. intros [->|Hx'].
          + apply Hal. by apply Hsub.
          + apply (Hlr x); [by apply Hsub|done].
        - apply NoDup_cons. split; done. }
      destruct (balance_refines m2 a sz (root_of l') rp h l' r) as (m3 & Hbal & Hrep3 & Hout3 & Hsz3);
        try done.
      { unfold m2. by rewrite lookup_insert_eq. }
      { eapply tree_rep_frame; [exact Hrep1|]. intros x Hx.
        unfold m2. rewrite lookup_insert_ne; [done|]. intros ->.
        apply Hal. by apply Hsub. }
      { eapply tree_rep_frame; [exact Hr|]. intros x Hx.
        unfold m2. rewrite lookup_insert_ne by (by intros ->).
        apply Hout1. intros Hin. apply (Hlr x); [by apply Hsub|done]. }
      { eapply hgt_nonneg, remove_heights_pos; eauto. }
      { by apply hgt_nonneg. }
      exists m3. split; [exact Hbal|]. split; [exact Hrep3|]. split.
      * intros x Hx. rewrite elem_of_addrs_balance in Hx.
        rewrite Hout3 by (rewrite elem_of_addrs_T; tauto).
        unfold m2. rewrite lookup_insert_ne by (intros ->; tauto).
        apply Hout1. tauto.
      * eapply same_sizes_trans; [exact Hsz1|].
        eapply same_sizes_trans; [|exact Hsz3].
        eapply same_sizes_insert; [exact Hm1a|done].
Qed.

(** *** More fuel never changes a finished run *)

Lemma search_mono (f f' : nat) (m : mem) (req p best : Z) (r : outcome Z) :
  best_fit_search f m req p best = r -> r <> Timeout -> (f <= f')%nat ->
  best_fit_search f' m req p best = r.
Proof.
  revert f' p best. induction f as [|f IH]; intros f' p best H Hr Hle; [by subst|].
  destruct f' as [|f']; [lia|]. cbn [best_fit_search] in *.
  destruct (p =? NULL); [done|].
  replay H Hr IH. destruct (size _ <? req); apply IH; (done || lia).
Qed.

Lemma leftmost_mono (f f' : nat) (m : mem) (p : Z) (r : outcome Z) :
  leftmost f m p = r -> r <> Timeout -> (f <= f')%nat -> leftmost f' m p = r.
Proof.
  revert f' p. induction f as [|f IH]; intros f' p H Hr Hle; [by subst|].
  destruct f' as [|f']; [lia|]. cbn [leftmost] in *.
  replay H Hr IH. destruct (left _ =? NULL); [done|]. apply IH; (done || lia).
Qed.

Lemma insert_mono (f f' : nat) (m : mem) (meta p : Z) (r : outcome (mem * Z)) :
  best_fit_insert_recursive f m meta p = r -> r <> Timeout -> (f <= f')%nat ->
  best_fit_insert_recursive f' m meta p = r.
Proof.
  revert f' m p r. induction f as [|f IH]; intros f' m p r H Hr Hle; [by subst|].
  destruct f' as [|f']; [lia|]. cbn [best_fit_insert_recursive] in *.
  destruct (p =? NULL); [done|].
  replay H Hr IH. replay H Hr IH.
  destruct (size _ <? size _); replay H Hr IH; replay H Hr IH; done.
Qed.

Lemma remove_mono (f f' : nat) (m : mem) (meta p : Z) (r : outcome (mem * Z)) :
  best_fit_remove_recursive f m meta p = r -> r <> Timeout -> (f <= f')%nat ->
  best_fit_remove_recursive f' m meta p = r.
Proof.
  revert f' m meta p r. induction f as [|f IH]; intros f' m meta p r H Hr Hle; [by subst|].
  destruct f' as [|f']; [lia|]. cbn [best_fit_remove_recursive] in *.
  destruct (meta =? p).
  - replay H Hr IH. destruct (left _ =? NULL); [done|].
    destruct (right _ =? NULL); [done|].
    replay H Hr leftmost_mono.
    replay H Hr IH. replay H Hr IH. replay H Hr IH. replay H Hr IH. done.
  - replay H Hr IH. replay H Hr IH.
    destruct (size _ <? size _); replay H Hr IH; replay H Hr IH; done.
Qed.

Lemma insert_to_tree_mono (f f' : nat) (st : state) (meta : Z) (r : outcome state) :
  best_fit_insert_to_tree f st meta = r -> r <> Timeout -> (f <= f')%nat ->
  best_fit_insert_to_tree f' st meta = r.
Proof.
  unfold best_fit_insert_to_tree. intros H Hr Hle.
  replay H Hr insert_mono. done.
Qed.

Lemma remove_from_tree_mono (f f' : nat) (st : state) (meta : Z) (r : outcome state) :
  best_fit_remove_from_tree f st meta = r -> r <> Timeout -> (f <= f')%nat ->
  best_fit_remove_from_tree f' st meta = r.
Proof.
  unfold best_fit_remove_from_tree. intros H Hr Hle.
  replay H Hr remove_mono. done.
Qed.

Lemma malloc_mono (f f' : nat) (st : state) (req : Z) (r : outcome (state * Z)) :
  best_fit_malloc f st req = r -> r <> Timeout -> (f <= f')%nat ->
  best_fit_malloc f' st req = r.
Proof.
  revert f' st r. induction f as [|f IH]; intros f' st r H Hr Hle; [by subst|].
  destruct f' as [|f']; [lia|]. cbn [best_fit_malloc] in *.
  replay H Hr search_mono.
  destruct (_ =? NULL).
  - replay H Hr IH. replay H Hr insert_to_tree_mono.
    apply IH; (done || lia).
  - replay H Hr IH. replay H Hr remove_from_tree_mono.
    replay H Hr IH. replay H Hr IH. replay H Hr IH.
    destruct (header_size <? wrap (size _ - req)); [|done].
    replay H Hr IH. replay H Hr insert_to_tree_mono. done.
Qed.

(** Two finished runs of the same call agree. *)
Lemma malloc_det (f f' : nat) (st : state) (req : Z) (x y : outcome (state * Z)) :
  best_fit_malloc f st req = x -> best_fit_malloc f' st req = y ->
  x <> Timeout -> y <> Timeout -> x = y.
Proof.
  intros Hx Hy Hxt Hyt.
  apply (malloc_mono _ (Nat.max f f')) in Hx; [|done|lia].
  apply (malloc_mono _ (Nat.max f f')) in Hy; [|done|lia]. congruence.
Qed.

(** *** The allocator keeps its invariant *)

Lemma store_left_Some (m : mem) (p v : Z) (md : best_fit_metadata_t) :
  p <> NULL -> m !! p = Some md -> store_left m p v = Done (<[p := set_left md v]> m).
Proof. intros Hp Hm. unfold store_left. by rewrite (load_Some _ _ _ Hp Hm). Qed.

Lemma store_right_Some (m : mem) (p v : Z) (md : best_fit_metadata_t) :
  p <> NULL -> m !! p = Some md -> store_right m p v = Done (<[p := set_right md v]> m).
Proof. intros Hp Hm. unfold store_right. by rewrite (load_Some _ _ _ Hp Hm). Qed.

Lemma store_height_Some (m : mem) (p v : Z) (md : best_fit_metadata_t) :
  p <> NULL -> m !! p = Some md -> store_height m p v = Done (<[p := set_height md v]> m).
Proof. intros Hp Hm. unfold store_height. by rewrite (load_Some _ _ _ Hp Hm). Qed.

Lemma store_size_Some (m : mem) (p v : Z) (md : best_fit_metadata_t) :
  p <> NULL -> m !! p = Some md -> store_size m p v = Done (<[p := set_size md v]> m).
Proof. intros Hp Hm. unfold store_size. by rewrite (load_Some _ _ _ Hp Hm). Qed.

Lemma heap_inv_NoDup (st : state) (t : tree) (live : list (Z * Z)) :
  heap_inv st t live -> NoDup (addrs t).
Proof.
  intros [_ _ _ (Hnd & _) _ _]. rewrite fmap_app in Hnd.
  by apply NoDup_app in Hnd as (Hnd & _).
Qed.

Lemma heap_inv_live_fresh (st : state) (t : tree) (live : list (Z * Z)) (b : Z * Z) :
  heap_inv st t live -> b ∈ live -> b.1 ∉ addrs t.
Proof.
  intros [_ _ _ (Hnd & _) _ _] Hb. rewrite fmap_app in Hnd.
  apply NoDup_app in Hnd as (_ & Hdis & _). intros Hin.
  apply (Hdis _ Hin). by apply list_elem_of_fmap_2.
Qed.

Lemma initialize_inv (st : state) :
  0 < dummy st -> dummy st + header_size <= brk (sys st) ->
  heap_inv (best_fit_initialize st) (T (dummy st) 0 E E 1) [].
Proof.
  intros Hd Hb. unfold header_size in *. split; simpl.
  - split; [done|]. split; [unfold NULL; lia|]. exists NULL, NULL.
    by rewrite lookup_insert_eq.
  - unfold bst. simpl. repeat constructor.
  - repeat split; lia.
  - split; [|split].
    + simpl. apply NoDup_singleton.
    + intros b Hin. apply list_elem_of_singleton in Hin as ->.
      unfold block_end, header_size. simpl. lia.
    + intros b1 b2 H1 H2. apply list_elem_of_singleton in H1 as ->.
      apply list_elem_of_singleton in H2 as ->. done.
  - intros b Hin. by apply elem_of_nil in Hin.
  - lia.
Qed.

(** The state [best_fit_malloc] leaves when the search has chosen the block
    at [b], of size [S]: the tree without that block, and, when the block is
    split, with the carved remainder inserted. *)
Lemma malloc_take (st : state) (t : tree) (live : list (Z * Z)) (req b S : Z) :
  heap_inv st t live -> 0 <= req -> search_t req t = Some (b, S) ->
  exists t1 f st',
    remove_t b S t = Some t1 /\
    best_fit_malloc f st req = Done (st', b + header_size) /\
    sys st' = sys st /\ dummy st' = dummy st /\
    (if header_size <? S - req
     then heap_inv st'
            (insert_t (b + header_size + req) (S - req - header_size) 1 t1)
            ((b, req) :: live)
     else heap_inv st' t1 ((b, S) :: live)).
Proof.
  intros Hinv Hreq Hs.
  pose proof (heap_inv_NoDup _ _ _ Hinv) as Hnd.
  pose proof (fun x Hx => heap_inv_live_fresh _ _ _ x Hinv Hx) as Hlf.
  destruct Hinv as [Hrep Hbst Hhp Hblocks Hlive Hbrk].
  destruct (search_in _ _ _ Hs) as [Hin Hle]. simpl in Hle.
  destruct (remove_search_some req t b S Hbst Hnd Hs) as (t1 & Hrm).
  destruct (tree_rep_size _ _ _ _ _ Hrep Hin) as (md & Hmd & HS).
  assert (Hb : b <> NULL).
  { intros ->. eapply tree_rep_nonnull; [exact Hrep|]. by eapply elem_of_elems_addrs. }
  destruct (remove_perm _ _ _ _ Hnd Hrm) as (s' & Hperm).
  assert (s' = S) as ->.
  { assert (Hin' : (b, s') ∈ elems t) by (rewrite Hperm; apply elem_of_cons; auto).
    apply list_elem_of_lookup in Hin as (i & Hi).
    apply list_elem_of_lookup in Hin' as (j & Hj).
    assert (i = j).
    { eapply NoDup_lookup; [exact Hnd| |]; unfold addrs; rewrite list_lookup_fmap.
      - by rewrite Hi.
      - by rewrite Hj. }
    subst j. congruence. }
  assert (Hblocks1 : blocks_ok header_size (brk (sys st)) ((b, S) :: elems t1 ++ live)).
  { eapply blocks_ok_perm; [|exact Hblocks]. by rewrite Hperm. }
  assert (HSb : 0 <= S <= 4096 - header_size).
  { destruct Hblocks1 as (_ & Hbd & _). apply (Hbd (b, S)). apply elem_of_cons. auto. }
  destruct (remove_NoDup _ _ _ _ Hnd Hrm) as (Hnd1 & Hb1).
  pose proof (remove_bst _ _ _ _ Hnd Hrm Hbst) as Hbst1.
  pose proof (remove_heights_pos _ _ _ _ Hrm Hhp) as Hhp1.
  assert (Hsub : forall x, x ∈ addrs t1 -> x ∈ addrs t).
  { intros x Hx. apply (elem_of_addrs_remove _ _ _ _ x Hnd Hrm). auto. }
  set (new := b + header_size + req).
  set (t2 := insert_t new (S - req - header_size) 1 t1).
  set (F := Datatypes.S (Nat.max (depth t) (depth t1))).
  rewrite <- HS in Hrm.
  destruct (remove_refines F (heap st) b md (free_head st) t t1 Hrep Hnd Hhp Hb Hmd Hrm)
    as (m1 & Hrun1 & Hrep1 & Hout1 & Hsz1); [unfold F; lia|].
  rewrite HS in Hrm.
  assert (Hm1b : m1 !! b = Some md) by (by rewrite Hout1).
  set (m2 := <[b := fresh_header S]> m1).
  assert (Hstores : forall (k : mem -> outcome (state * Z)),
    (m ← store_left m1 b NULL; m ← store_right m b NULL; m ← store_height m b 1; k m)
    = k m2).
  { intros k. rewrite (store_left_Some _ _ _ _ Hb Hm1b), bind_Done.
    rewrite (store_right_Some _ _ _ (set_left md NULL) Hb) by apply lookup_insert_eq.
    rewrite bind_Done.
    rewrite (store_height_Some _ _ _ (set_right (set_left md NULL) NULL) Hb)
      by apply lookup_insert_eq.
    rewrite bind_Done, !insert_insert_eq. unfold m2, fresh_header.
    by rewrite <- HS. }
  assert (Hrep2 : tree_rep m2 (root_of t1) t1).
  { eapply tree_rep_frame; [exact Hrep1|]. intros x Hx. unfold m2.
    rewrite lookup_insert_ne; [done|]. by intros ->. }
  assert (Hlive2 : forall x, x ∈ live -> m2 !! x.1 = Some (fresh_header x.2)).
  { intros x Hx. unfold m2. rewrite lookup_insert_ne.
    - rewrite Hout1; [by apply Hlive|]. intros Hin'. by apply (Hlf x Hx), Hsub.
    - intros Heq. apply (Hlf x Hx). rewrite <- Heq. by eapply elem_of_elems_addrs. }
  exists t1.
  destruct (Z.ltb_spec header_size (S - req)) as [Hsplit|Hwhole].
  - (* the block is split *)
    set (m3 := <[b := fresh_header req]> m2).
    set (m4 := <[new := fresh_header (S - req - header_size)]> m3).
    assert (Hfresh : forall x, x ∈ elems t1 ++ live -> x.1 <> new).
    { intros x Hx. by apply (carve_fresh header_size header_pos _ b S req _ x Hblocks1). }
    assert (Hnewb : new <> b) by (unfold new, header_size; lia).
    assert (Hnew0 : new <> NULL).
    { destruct Hblocks1 as (_ & Hbd & _).
      destruct (Hbd (b, S)) as (? & _); [apply elem_of_cons; auto|].
      unfold new, header_size, NULL. simpl in *. lia. }
    assert (Hnew1 : new ∉ addrs t1).
    { intros Hx. apply list_elem_of_fmap in Hx as (x & Hx1 & Hx).
      apply (Hfresh x); [|done]. apply elem_of_app. auto. }
    assert (Hrep4 : tree_rep m4 (root_of t1) t1).
    { eapply tree_rep_frame; [exact Hrep2|]. intros x Hx. unfold m4, m3.
      rewrite !lookup_insert_ne; [done| |]; by intros ->. }
    destruct (insert_refines F m4 new (fresh_header (S - req - header_size))
                (root_of t1) t1 Hrep4 Hnd1 Hhp1 Hnew0 Hnew1)
      as (m5 & Hrun5 & Hrep5 & Hout5 & Hsz5);
      [by unfold m4; rewrite lookup_insert_eq|done|done|simpl; lia|unfold F; lia|].
    cbn [size height fresh_header] in Hrun5, Hrep5. fold t2 in Hrun5, Hrep5.
    exists (Datatypes.S F), (with_tree st m5 (root_of t2)).
    split; [done|]. split; [|split; [done|split; [done|]]].
    + cbn [best_fit_malloc].
      rewrite (search_refines F _ req _ NULL t Hrep) by (unfold F; lia).
      rewrite Hs. cbn [fst]. rewrite bind_Done.
      destruct (Z.eqb_spec b NULL) as [|_]; [done|].
      rewrite (load_Some _ _ _ Hb Hmd), bind_Done.
      unfold best_fit_remove_from_tree. rewrite Hrun1, !bind_Done.
      cbn [heap with_tree]. rewrite Hstores. rewrite HS, (wrap_small (S - req)).
      2:{ unfold size_max, header_size in *. lia. }
      destruct (Z.ltb_spec header_size (S - req)) as [_|]; [|lia].
      cbn [heap with_heap with_tree].
      rewrite (store_size_Some _ _ _ (fresh_header S) Hb) by apply lookup_insert_eq.
      rewrite bind_Done. rewrite (wrap_small (S - req - header_size)).
      2:{ unfold size_max, header_size in *. lia. }
      change (set_size (fresh_header S) req) with (fresh_header req).
      fold m3. fold new. fold m4.
      unfold best_fit_insert_to_tree. cbn [heap with_heap with_tree free_head].
      rewrite Hrun5, !bind_Done. done.
    + split; cbn [heap with_tree free_head sys].
      * exact Hrep5.
      * unfold t2. by apply bst_insert.
      * unfold t2. by apply heights_pos_insert.
      * eapply blocks_ok_perm; [|apply (blocks_ok_split header_size header_pos _ b S req _ Hblocks1 Hreq Hsplit)].
        fold new. unfold t2. rewrite elems_insert. simpl.
        by rewrite <- Permutation_middle.
      * intros x Hx.
        assert (Hx5 : m5 !! x.1 = m4 !! x.1).
        { apply Hout5. rewrite elem_of_cons. intros [Heq|Hin'].
          - apply elem_of_cons in Hx as [->|Hx]; [simpl in Heq; congruence|].
            apply (Hfresh x); [|done]. apply elem_of_app. auto.
          - apply elem_of_cons in Hx as [->|Hx]; [done|].
            by apply (Hlf x Hx), Hsub. }
        rewrite Hx5. apply elem_of_cons in Hx as [->|Hx].
        -- simpl. unfold m4, m3. rewrite lookup_insert_ne by done.
           by rewrite lookup_insert_eq.
        -- unfold m4, m3. rewrite !lookup_insert_ne.
           ++ by apply Hlive2.
           ++ intros Heq. apply (Hlf x Hx). rewrite <- Heq. by eapply elem_of_elems_addrs.
           ++ intros Heq. apply (Hfresh x); [|done]. apply elem_of_app. auto.
      * done.
  - (* the block is handed out whole *)
    exists (Datatypes.S F), (with_heap (with_tree st m1 (root_of t1)) m2).
    split; [done|]. split; [|split; [done|split; [done|]]].
    + cbn [best_fit_malloc].
      rewrite (search_refines F _ req _ NULL t Hrep) by (unfold F; lia).
      rewrite Hs. cbn [fst]. rewrite bind_Done.
      destruct (Z.eqb_spec b NULL) as [|_]; [done|].
      rewrite (load_Some _ _ _ Hb Hmd), bind_Done.
      unfold best_fit_remove_from_tree. rewrite Hrun1, !bind_Done.
      cbn [heap with_tree]. rewrite Hstores. rewrite HS, (wrap_small (S - req)).
      2:{ unfold size_max, header_size in *. lia. }
      destruct (Z.ltb_spec header_size (S - req)) as [|_]; [lia|]. done.
    + split; cbn [heap with_tree with_heap free_head sys].
      * exact Hrep2.
      * done.
      * done.
      * eapply blocks_ok_perm; [|exact Hblocks1]. by rewrite <- Permutation_middle.
      * intros x Hx. apply elem_of_cons in Hx as [->|Hx].
        -- simpl. unfold m2. by rewrite lookup_insert_eq.
        -- by apply Hlive2.
      * done.
Qed.

(** Mapping a page and inserting it as one free block. *)
Lemma grow_inv (st : state) (t : tree) (live : list (Z * Z)) :
  heap_inv st t live ->
  exists f s' st',
    mmap_from_system (sys st) 4096 = Done (s', brk (sys st)) /\
    brk s' = brk (sys st) + 4096 /\
    mmap_size s' = wrap (mmap_size (sys st) + 4096) /\
    best_fit_insert_to_tree f
      (with_heap (with_sys st s')
         (<[brk (sys st) := fresh_header (wrap (4096 - header_size))]> (heap st)))
      (brk (sys st)) = Done st' /\
    sys st' = s' /\ dummy st' = dummy st /\
    heap_inv st' (insert_t (brk (sys st)) (4096 - header_size) 1 t) live.
Proof.
  intros Hinv.
  pose proof (heap_inv_NoDup _ _ _ Hinv) as Hnd.
  pose proof (fun x Hx => heap_inv_live_fresh _ _ _ x Hinv Hx) as Hlf.
  destruct Hinv as [Hrep Hbst Hhp Hblocks Hlive Hbrk].
  set (top := brk (sys st)) in *.
  assert (Hlow : forall x, x ∈ elems t ++ live -> x.1 < top).
  { intros x Hx. destruct Hblocks as (_ & Hbd & _). destruct (Hbd x Hx) as (? & ? & ?).
    unfold block_end, header_size in *. lia. }
  assert (Htop0 : top <> NULL) by (unfold NULL; lia).
  assert (Htop1 : top ∉ addrs t).
  { intros Hx. apply list_elem_of_fmap in Hx as (x & Hx1 & Hx).
    assert (x.1 < top) by (apply Hlow, elem_of_app; auto). lia. }
  set (s' := {| brk := top + 4096; mmap_size := wrap (mmap_size (sys st) + 4096) |}).
  assert (Hwrap : wrap (4096 - header_size) = 4096 - header_size) by reflexivity.
  rewrite Hwrap.
  set (m1 := <[top := fresh_header (4096 - header_size)]> (heap st)).
  assert (Hrep1 : tree_rep m1 (free_head st) t).
  { eapply tree_rep_frame; [exact Hrep|]. intros x Hx. unfold m1.
    rewrite lookup_insert_ne; [done|]. by intros ->. }
  destruct (insert_refines (Datatypes.S (depth t)) m1 top (fresh_header (4096 - header_size))
              (free_head st) t Hrep1 Hnd Hhp Htop0 Htop1)
    as (m2 & Hrun & Hrep2 & Hout & Hsz);
    [by unfold m1; rewrite lookup_insert_eq|done|done|simpl; lia|lia|].
  cbn [size height fresh_header] in Hrun, Hrep2.
  set (t2 := insert_t top (4096 - header_size) 1 t) in *.
  exists (Datatypes.S (depth t)), s',
    (with_tree (with_heap (with_sys st s') m1) m2 (root_of t2)).
  split; [|split; [done|split; [done|split; [|split; [done|split; [done|]]]]]].
  - unfold mmap_from_system. fold top.
    destruct (Z.eqb_spec top NULL) as [|_]; [done|]. done.
  - unfold best_fit_insert_to_tree. cbn [heap with_heap with_sys free_head].
    by rewrite Hrun, bind_Done.
  - split; cbn [heap with_tree with_heap with_sys free_head sys brk s'].
    + exact Hrep2.
    + by apply bst_insert.
    + by apply heights_pos_insert.
    + eapply blocks_ok_perm; [|apply (blocks_ok_page header_size header_pos header_page _ _ Hblocks Hbrk)].
      unfold t2. by rewrite elems_insert.
    + intros x Hx. rewrite Hout.
      * unfold m1. rewrite lookup_insert_ne; [by apply Hlive|].
        intros Heq. assert (x.1 < top) by (apply Hlow, elem_of_app; auto). lia.
      * rewrite elem_of_cons. intros [Heq|Hin]; [|by apply (Hlf x Hx)].
        assert (x.1 < top) by (apply Hlow, elem_of_app; auto). lia.
    + lia.
Qed.

(** [best_fit_malloc] computes [malloc_t]: it returns the payload of the
    block [malloc_t] hands out and leaves a state whose free collection is the
    tree [malloc_t] answers. *)
Lemma malloc_refines (st : state) (t : tree) (live : list (Z * Z)) (req : Z)
    (t' : tree) (b : Z * Z) (top' : Z) :
  heap_inv st t live -> 0 <= req ->
  malloc_t (brk (sys st)) req t = Some (t', b, top') ->
  exists f st',
    best_fit_malloc f st req = Done (st', b.1 + header_size) /\
    heap_inv st' t' (b :: live) /\
    req <= b.2 /\
    dummy st' = dummy st /\
    brk (sys st') = top' /\
    (sys st' = sys st \/
     (search_t req t = None /\
      brk (sys st') = brk (sys st) + 4096 /\
      mmap_size (sys st') = wrap (mmap_size (sys st) + 4096))).
Proof.
  intros Hinv Hreq Hm.
  assert (Htake : forall st0 t0, heap_inv st0 t0 live -> forall b0 S,
    search_t req t0 = Some (b0, S) -> take_t req b0 S t0 = Some (t', b) ->
    exists f st',
      best_fit_malloc f st0 req = Done (st', b.1 + header_size) /\
      req <= b.2 /\ heap_inv st' t' (b :: live) /\
      dummy st' = dummy st0 /\ sys st' = sys st0).
  { intros st0 t0 Hinv0 b0 S Hs Ht.
    destruct (malloc_take st0 t0 live req b0 S Hinv0 Hreq Hs)
      as (t1 & f & st' & Hrm & Hrun & Hsys & Hdum & Hpost).
    destruct (search_in _ _ _ Hs) as [_ Hle]. simpl in Hle.
    unfold take_t in Ht. rewrite Hrm in Ht. simpl in Ht.
    destruct (header_size <? S - req); injection Ht as <- <-; simpl;
      exists f, st'; (split; [done|split; [lia|split; [exact Hpost|split; done]]]). }
  unfold malloc_t in Hm.
  destruct (search_t req t) as [[b0 S]|] eqn:Hs.
  - destruct (take_t req b0 S t) as [[t0' b0']|] eqn:Ht; [|done].
    simpl in Hm. injection Hm as <- <- <-.
    destruct (Htake st t Hinv b0 S Hs Ht) as (f & st' & Hrun & Hle & Hinv' & Hdum & Hsys).
    exists f, st'.
    split; [done|split; [done|split; [done|split; [done|split; [by rewrite Hsys|by left]]]]].
  - destruct (grow_inv st t live Hinv)
      as (f1 & s' & st1 & Hmap & Hbrk' & Hmm & Hins & Hsys1 & Hdum1 & Hinv1).
    set (t1 := insert_t (brk (sys st)) (4096 - header_size) 1 t) in *.
    destruct (search_t req t1) as [[b0 S]|] eqn:Hs1; [|done].
    destruct (take_t req b0 S t1) as [[t0' b0']|] eqn:Ht; [|done].
    simpl in Hm. injection Hm as <- <- <-.
    destruct (Htake st1 t1 Hinv1 b0 S Hs1 Ht)
      as (f2 & st' & Hrun & Hle & Hinv' & Hdum & Hsys).
    exists (Datatypes.S (Nat.max (Datatypes.S (depth t)) (Nat.max f1 f2))), st'.
    split; [|split; [done|split; [done|split; [congruence|split]]]].
    + cbn [best_fit_malloc].
      rewrite (search_refines _ _ req _ NULL t (inv_rep _ _ _ Hinv)) by lia.
      rewrite Hs, bind_Done. cbn [Z.eqb NULL].
      rewrite Hmap, bind_Done.
      rewrite (insert_to_tree_mono f1 _ _ _ _ Hins ltac:(done)) by lia. rewrite bind_Done.
      apply (malloc_mono f2); [done|done|lia].
    + rewrite Hsys, Hsys1. done.
    + right. rewrite Hsys, Hsys1. done.
Qed.

(** [malloc_t] answers for every size a page can hold. *)
Lemma malloc_t_total (top req : Z) (t : tree) :
  bst t -> NoDup (addrs t) -> top ∉ addrs t -> req <= 4096 - header_size ->
  is_Some (malloc_t top req t).
Proof.
  intros Hbst Hnd Htop Hreq.
  assert (Htake : forall t0 b S, bst t0 -> NoDup (addrs t0) ->
    search_t req t0 = Some (b, S) -> is_Some (take_t req b S t0)).
  { intros t0 b S Hb0 Hnd0 Hs. unfold take_t.
    destruct (remove_search_some req t0 b S Hb0 Hnd0 Hs) as (t1 & ->). simpl. eauto. }
  unfold malloc_t. destruct (search_t req t) as [[b S]|] eqn:Hs.
  - destruct (Htake t b S Hbst Hnd Hs) as (r & ->). simpl. eauto.
  - set (t1 := insert_t top (4096 - header_size) 1 t).
    destruct (search_some req t1 (top, 4096 - header_size)) as ([b S] & Hs1).
    { by apply bst_insert. }
    { unfold t1. apply elem_of_insert. auto. }
    { simpl. lia. }
    rewrite Hs1. destruct (Htake t1 b S) as (r & ->); try done.
    + by apply bst_insert.
    + unfold t1. rewrite addrs_insert. apply NoDup_cons. done.
Qed.

Lemma heap_inv_top_fresh (st : state) (t : tree) (live : list (Z * Z)) :
  heap_inv st t live -> brk (sys st) ∉ addrs t.
Proof.
  intros [_ _ _ (_ & Hbd & _) _ _] Hx.
  apply list_elem_of_fmap in Hx as (x & Hx1 & Hx).
  destruct (Hbd x) as (? & ? & ?); [apply elem_of_app; auto|].
  unfold block_end, header_size in *. lia.
Qed.

(** [best_fit_malloc] returns, maps at most one page, and keeps the
    invariant; the block it hands out joins the live blocks. *)
Lemma malloc_ok (st : state) (t : tree) (live : list (Z * Z)) (req : Z) :
  heap_inv st t live -> 0 <= req <= 4096 - header_size ->
  exists f st' t' b,
    best_fit_malloc f st req = Done (st', b.1 + header_size) /\
    req <= b.2 /\
    heap_inv st' t' (b :: live) /\
    dummy st' = dummy st /\
    (sys st' = sys st \/
     (search_t req t = None /\
      brk (sys st') = brk (sys st) + 4096 /\
      mmap_size (sys st') = wrap (mmap_size (sys st) + 4096))).
Proof.
  intros Hinv Hreq.
  destruct (malloc_t_total (brk (sys st)) req t) as ([[t' b] top'] & Hm).
  { apply (inv_bst _ _ _ Hinv). }
  { by eapply heap_inv_NoDup. }
  { by eapply heap_inv_top_fresh. }
  { lia. }
  destruct (malloc_refines st t live req t' b top' Hinv (proj1 Hreq) Hm)
    as (f & st' & Hrun & Hinv' & Hle & Hdum & _ & Hsys).
  exists f, st', t', b.
  split; [done|split; [done|split; [done|split; done]]].
Qed.

(** [best_fit_free] returns and keeps the invariant; no size field changes,
    and only the released header and headers of the tree are written. *)
Lemma free_ok (st : state) (t : tree) (l1 l2 : list (Z * Z)) (b : Z * Z) :
  heap_inv st t (l1 ++ b :: l2) ->
  exists f st',
    best_fit_free f st (b.1 + header_size) = Done st' /\
    heap_inv st' (insert_t b.1 b.2 1 t) (l1 ++ l2) /\
    same_sizes (heap st) (heap st') /\
    unchanged_outside (b.1 :: addrs t) (heap st) (heap st') /\
    sys st' = sys st /\ dummy st' = dummy st.
Proof.
  intros Hinv.
  pose proof (heap_inv_NoDup _ _ _ Hinv) as Hnd.
  pose proof (fun x Hx => heap_inv_live_fresh _ _ _ x Hinv Hx) as Hlf.
  destruct Hinv as [Hrep Hbst Hhp Hblocks Hlive Hbrk].
  assert (Hbin : b ∈ l1 ++ b :: l2).
  { apply elem_of_app. right. apply elem_of_cons. auto. }
  assert (Hb0 : b.1 <> NULL).
  { destruct Hblocks as (_ & Hbd & _). destruct (Hbd b) as (? & _).
    - apply elem_of_app. auto.
    - unfold NULL. lia. }
  destruct (insert_refines (Datatypes.S (depth t)) (heap st) b.1 (fresh_header b.2)
              (free_head st) t Hrep Hnd Hhp Hb0 (Hlf b Hbin) (Hlive b Hbin))
    as (m1 & Hrun & Hrep1 & Hout & Hsz); [done|done|simpl; lia|lia|].
  cbn [size height fresh_header] in Hrun, Hrep1.
  set (t1 := insert_t b.1 b.2 1 t) in *.
  exists (Datatypes.S (depth t)), (with_tree st m1 (root_of t1)).
  split; [|split; [|done]].
  - unfold best_fit_free, best_fit_insert_to_tree.
    replace (b.1 + header_size - header_size) with b.1 by lia.
    by rewrite Hrun, bind_Done.
  - assert (Hperm : elems t1 ++ l1 ++ l2 ≡ₚ elems t ++ l1 ++ b :: l2).
    { unfold t1. rewrite elems_insert. destruct b as [ba bs]. simpl.
      rewrite <- !Permutation_middle. done. }
    split; cbn [heap with_tree free_head sys].
    + exact Hrep1.
    + by apply bst_insert.
    + by apply heights_pos_insert.
    + eapply blocks_ok_perm; [|exact Hblocks]. by rewrite Hperm.
    + intros x Hx.
      assert (Hx' : x ∈ l1 ++ b :: l2).
      { apply elem_of_app in Hx as [Hx|Hx]; apply elem_of_app; [auto|].
        right. apply elem_of_cons. auto. }
      rewrite Hout; [by apply Hlive|].
      rewrite elem_of_cons. intros [Heq|Hin]; [|by apply (Hlf x Hx')].
      destruct Hblocks as (Hndb & _).
      rewrite fmap_app, fmap_app in Hndb. simpl in Hndb.
      apply NoDup_app in Hndb as (_ & _ & Hndb).
      apply NoDup_app in Hndb as (_ & Hd1 & Hndb).
      apply NoDup_cons in Hndb as (Hd2 & _).
      apply elem_of_app in Hx as [Hx|Hx].
      * apply (Hd1 x.1); [by apply list_elem_of_fmap_2|].
        rewrite Heq. apply elem_of_cons. auto.
      * apply Hd2. rewrite <- Heq. by apply list_elem_of_fmap_2.
    + done.
Qed.

(** *** Requests no page can hold *)

Lemma search_oversize (st : state) (t : tree) (live : list (Z * Z)) (req : Z) :
  heap_inv st t live -> 4096 - header_size < req -> search_t req t = None.
Proof.
  intros Hinv Hreq. destruct (search_t req t) as [b|] eqn:Hs; [|done].
  destruct (search_in _ _ _ Hs) as [Hin Hle].
  destruct (inv_blocks _ _ _ Hinv) as (_ & Hbd & _).
  destruct (Hbd b) as (_ & Hb & _); [apply elem_of_app; auto|]. lia.
Qed.

(** A request larger than what a page can hold never returns: no block of
    the tree is large enough, the fresh page is not either, and the call
    retries. *)
Lemma malloc_oversize (st : state) (t : tree) (live : list (Z * Z)) (req : Z) :
  heap_inv st t live -> 4096 - header_size < req ->
  forall f, best_fit_malloc f st req = Timeout.
Proof.
  intros Hinv Hreq f. revert st t Hinv.
  induction f as [|f IH]; intros st t Hinv; [done|].
  cbn [best_fit_malloc].
  pose proof (search_oversize _ _ _ _ Hinv Hreq) as Hs.
  pose proof (search_refines (S (depth t)) _ req _ NULL t (inv_rep _ _ _ Hinv)) as Hrun.
  rewrite Hs in Hrun.
  destruct (finished_or_timeout
              (fun f => best_fit_search f (heap st) req (free_head st) NULL)
              (fun f f' r => search_mono f f' _ _ _ _ r) _ _ (Hrun ltac:(lia)) f)
    as [->| ->]; [done|].
  rewrite bind_Done. cbn [Z.eqb NULL].
  destruct (grow_inv st t live Hinv)
    as (f1 & s' & st1 & Hmap & Hbrk' & Hmm & Hins & Hsys1 & Hdum1 & Hinv1).
  rewrite Hmap, bind_Done.
  change (heap (with_sys st s')) with (heap st).
  destruct (finished_or_timeout _
              (fun f f' r => insert_to_tree_mono f f' _ _ r) _ _ Hins f)
    as [->| ->]; [done|].
  rewrite bind_Done. by eapply IH.
Qed.

(** *** Finished runs, whatever the fuel *)

(** What the search loop answers when it finishes. *)
Lemma search_Done (st : state) (t : tree) (f : nat) (req best : Z) :
  tree_rep (heap st) (free_head st) t ->
  best_fit_search f (heap st) req (free_head st) NULL = Done best ->
  best = match search_t req t with Some b => b.1 | None => NULL end.
Proof.
  intros Hrep Hrun.
  pose proof (search_refines (S (depth t)) _ req _ NULL t Hrep ltac:(lia)) as Hbig.
  apply (search_mono _ (Nat.max f (S (depth t)))) in Hrun; [|done|lia].
  apply (search_mono _ (Nat.max f (S (depth t)))) in Hbig; [|done|lia].
  congruence.
Qed.

Lemma search_Done_found (st : state) (t : tree) (live : list (Z * Z))
    (f : nat) (req best : Z) (md : best_fit_metadata_t) :
  heap_inv st t live ->
  best_fit_search f (heap st) req (free_head st) NULL = Done best ->
  best <> NULL -> heap st !! best = Some md ->
  search_t req t = Some (best, size md).
Proof.
  intros Hinv Hrun Hbest Hmd.
  pose proof (search_Done st t f req best (inv_rep _ _ _ Hinv) Hrun) as Heq.
  destruct (search_t req t) as [[b s]|] eqn:Hs; [|done]. simpl in Heq. subst b.
  destruct (search_in _ _ _ Hs) as [Hin _].
  destruct (tree_rep_size _ _ _ _ _ (inv_rep _ _ _ Hinv) Hin) as (md' & Hmd' & <-).
  congruence.
Qed.

Lemma take_t_addr (req b s : Z) (t t' : tree) (b' : Z * Z) :
  take_t req b s t = Some (t', b') -> b'.1 = b.
Proof.
  unfold take_t. destruct (remove_t b s t) as [t1|]; [|done]. simpl.
  destruct (header_size <? s - req); by intros [= <- <-].
Qed.

(** The block [malloc_t] hands out is the one the search chose when it found
    one, and the fresh page when it found none. *)
Lemma malloc_t_addr (top req : Z) (t t' : tree) (b : Z * Z) (top' : Z) :
  bst t -> malloc_t top req t = Some (t', b, top') ->
  match search_t req t with
  | Some c => b.1 = c.1 /\ top' = top
  | None => b.1 = top /\ top' = top + 4096
  end.
Proof.
  intros Hbst Hm. unfold malloc_t in Hm.
  destruct (search_t req t) as [[c s]|] eqn:Hs.
  - destruct (take_t req c s t) as [[t0 b0]|] eqn:Ht; [|done].
    simpl in Hm. injection Hm as <- <- <-.
    split; [|done]. by eapply take_t_addr.
  - set (t1 := insert_t top (4096 - header_size) 1 t) in *.
    destruct (search_t req t1) as [[c s]|] eqn:Hs1; [|done].
    destruct (take_t req c s t1) as [[t0 b0]|] eqn:Ht; [|done].
    simpl in Hm. injection Hm as <- <- <-.
    split; [|done]. rewrite (take_t_addr _ _ _ _ _ _ Ht).
    destruct (search_in _ _ _ Hs1) as [Hin Hle].
    apply elem_of_insert in Hin as [[= -> ->]|Hin]; [done|].
    pose proof (search_none _ _ Hbst Hs _ Hin). simpl in *. lia.
Qed.

(** A finished [best_fit_malloc] is the run [malloc_t] describes. *)
Lemma malloc_inv (st : state) (t : tree) (live : list (Z * Z)) (req : Z)
    (f : nat) (st' : state) (p : Z) :
  heap_inv st t live -> 0 <= req ->
  best_fit_malloc f st req = Done (st', p) ->
  exists t' b,
    malloc_t (brk (sys st)) req t = Some (t', b, brk (sys st')) /\
    heap_inv st' t' (b :: live) /\
    p = b.1 + header_size /\ req <= b.2 /\
    dummy st' = dummy st /\
    (sys st' = sys st \/
     (search_t req t = None /\
      brk (sys st') = brk (sys st) + 4096 /\
      mmap_size (sys st') = wrap (mmap_size (sys st) + 4096))).
Proof.
  intros Hinv Hreq Hrun.
  destruct (Z.le_gt_cases req (4096 - header_size)) as [Hfit|Hbig].
  - destruct (malloc_t_total (brk (sys st)) req t) as ([[t' b] top'] & Hm).
    { apply (inv_bst _ _ _ Hinv). }
    { by eapply heap_inv_NoDup. }
    { by eapply heap_inv_top_fresh. }
    { lia. }
    destruct (malloc_refines st t live req t' b top' Hinv Hreq Hm)
      as (f1 & st1 & Hrun1 & Hinv1 & Hle & Hdum & Hbrk & Hsys).
    pose proof (malloc_det _ _ _ _ _ _ Hrun Hrun1 ltac:(done) ltac:(done)) as Heq.
    injection Heq as -> ->.
    exists t', b. subst top'.
    split; [done|split; [done|split; [done|split; [done|split; done]]]].
  - rewrite (malloc_oversize st t live req Hinv) in Hrun by lia. done.
Qed.

(** A finished [best_fit_free] of a live block. *)
Lemma free_inv (st : state) (t : tree) (l1 l2 : list (Z * Z)) (b : Z * Z)
    (f : nat) (st' : state) :
  heap_inv st t (l1 ++ b :: l2) ->
  best_fit_free f st (b.1 + header_size) = Done st' ->
  heap_inv st' (insert_t b.1 b.2 1 t) (l1 ++ l2) /\
  same_sizes (heap st) (heap st') /\
  unchanged_outside (b.1 :: addrs t) (heap st) (heap st') /\
  sys st' = sys st /\ dummy st' = dummy st.
Proof.
  intros Hinv Hrun.
  destruct (free_ok st t l1 l2 b Hinv) as (f1 & st1 & Hrun1 & Hpost).
  unfold best_fit_free in Hrun, Hrun1.
  apply (insert_to_tree_mono _ (Nat.max f f1)) in Hrun; [|done|lia].
  apply (insert_to_tree_mono _ (Nat.max f f1)) in Hrun1; [|done|lia].
  assert (st' = st1) as -> by congruence. exact Hpost.
Qed.

(** Every state the allocator reaches satisfies the invariant, and the
    pointers handed out are the payloads of the live blocks. *)
Lemma reachable_inv (st : state) (ps : list Z) :
  reachable st ps ->
  exists t live, heap_inv st t live /\ ps = payload <$> live.
Proof.
  induction 1 as [st Hd Hb|st ps f sz st' p _ IH Hsz Hrun|st ps1 ps2 p f st' _ IH Hrun].
  - exists (T (dummy st) 0 E E 1), []. split; [by apply initialize_inv|done].
  - destruct IH as (t & live & Hinv & ->).
    destruct (malloc_inv st t live sz f st' p Hinv Hsz Hrun)
      as (t' & b & _ & Hinv' & -> & _).
    exists t', (b :: live). split; [done|done].
  - destruct IH as (t & live & Hinv & Hps).
    symmetry in Hps. apply fmap_app_inv in Hps as (k1 & k2' & -> & Hk2 & ->).
    symmetry in Hk2. apply fmap_cons_inv in Hk2 as (b & k2 & -> & -> & ->).
    destruct (free_inv st t k1 k2 b f st' Hinv Hrun) as (Hinv' & _).
    eexists _, (k1 ++ k2). split; [exact Hinv'|]. by rewrite fmap_app.
Qed.

(** *** The checker of the invariant is sound *)

Lemma tree_repb_sound (m : mem) (p : Z) (t : tree) :
  tree_repb m p t = true -> tree_rep m p t.
Proof.
  revert p. induction t as [|a sz l IHl r IHr h]; simpl; intros p H.
  - by apply Z.eqb_eq.
  - apply andb_true_iff in H as (H & Hm). apply andb_true_iff in H as (Hp & Ha).
    apply Z.eqb_eq in Hp. apply negb_true_iff, Z.eqb_neq in Ha.
    destruct (m !! a) as [md|] eqn:Hmd; [|done].
    apply andb_true_iff in Hm as (Hm & Hr). apply andb_true_iff in Hm as (Hm & Hl).
    apply andb_true_iff in Hm as (Hsz & Hh).
    apply Z.eqb_eq in Hsz, Hh. subst.
    split; [done|]. split; [done|]. exists (left md), (right md).
    split; [by destruct md|]. split; [by apply IHl|by apply IHr].
Qed.

Lemma heights_posb_sound (t : tree) : heights_posb t = true -> heights_pos t.
Proof.
  induction t as [|a sz l IHl r IHr h]; simpl; intros H; [done|].
  apply andb_true_iff in H as (H & Hr). apply andb_true_iff in H as (Hh & Hl).
  apply Z.leb_le in Hh. auto.
Qed.

Lemma sortedb_sound (l : list (Z * Z)) :
  sortedb l.*2 = true -> StronglySorted le_size l.
Proof.
  induction l as [|x l IH]; simpl; intros H; [constructor|].
  apply andb_true_iff in H as (Hx & Hl). constructor; [auto|].
  apply Forall_forall. intros y Hy.
  assert (Hy2 : y.2 ∈ l.*2) by (by apply list_elem_of_fmap_2).
  pose proof (forallb_elem_of _ _ _ Hx Hy2) as Hle. simpl in Hle.
  by apply Z.leb_le in Hle.
Qed.

Lemma heap_invb_sound (st : state) (t : tree) (live : list (Z * Z)) :
  heap_invb st t live = true -> heap_inv st t live.
Proof.
  unfold heap_invb. intros H.
  apply andb_true_iff in H as (H & Hbrk). apply andb_true_iff in H as (H & Hlive).
  apply andb_true_iff in H as (H & Hblocks). apply andb_true_iff in H as (H & Hhp).
  apply andb_true_iff in H as (Hrep & Hbst).
  split.
  - by apply tree_repb_sound.
  - by apply sortedb_sound.
  - by apply heights_posb_sound.
  - by apply blocks_okb_sound.
  - intros b Hb. pose proof (forallb_elem_of _ _ _ Hlive Hb) as Hf. simpl in Hf.
    unfold is_fresh_header in Hf. destruct (heap st !! b.1) as [md|]; [|done].
    apply andb_true_iff in Hf as (Hf & H4). apply andb_true_iff in Hf as (Hf & H3).
    apply andb_true_iff in Hf as (H1 & H2).
    apply Z.eqb_eq in H1, H2, H3, H4. destruct md. simpl in *. by subst.
  - by apply Z.ltb_lt.
Qed.

End BestFitTheory.

(** * Theory of the first-fit allocator *)

Module FirstFitTheory.
Import FirstFit.

Lemma ff_header_pos : 0 < header_size.
Proof. done. Qed.

Lemma ff_header_page : header_size <= 4096.
Proof. done. Qed.

Lemma ff_load_Some (m : mem) (p : Z) (t : first_fit_metadata_t) :
  p <> NULL -> m !! p = Some t -> load m p = Done t.
Proof.
  intros Hp Hm. unfold load.
  destruct (Z.eqb_spec p NULL) as [->|_]; [done|]. by rewrite Hm.
Qed.

Lemma ff_store_next_Some (m : mem) (p v : Z) (md : first_fit_metadata_t) :
  p <> NULL -> m !! p = Some md -> store_next m p v = Done (<[p := set_next md v]> m).
Proof. intros Hp Hm. unfold store_next. by rewrite (ff_load_Some _ _ _ Hp Hm). Qed.

Lemma ff_store_size_Some (m : mem) (p v : Z) (md : first_fit_metadata_t) :
  p <> NULL -> m !! p = Some md -> store_size m p v = Done (<[p := set_size md v]> m).
Proof. intros Hp Hm. unfold store_size. by rewrite (ff_load_Some _ _ _ Hp Hm). Qed.

Lemma ff_same_sizes_refl (m : mem) : same_sizes m m.
Proof. by intros x. Qed.

Lemma ff_same_sizes_trans (m1 m2 m3 : mem) :
  same_sizes m1 m2 -> same_sizes m2 m3 -> same_sizes m1 m3.
Proof. intros H1 H2 x. by rewrite H2, H1. Qed.

Lemma ff_same_sizes_insert (m : mem) (p : Z) (t t' : first_fit_metadata_t) :
  m !! p = Some t -> size t' = size t -> same_sizes m (<[p := t']> m).
Proof.
  intros Hm Hs x. destruct (decide (p = x)) as [->|Hne].
  - rewrite lookup_insert_eq, Hm. simpl. by rewrite Hs.
  - by rewrite lookup_insert_ne.
Qed.

(** *** Basic facts on [list_rep] *)

Lemma ff_list_rep_frame (m m' : mem) (p : Z) (l : list (Z * Z)) :
  list_rep m p l ->
  (forall x, x ∈ l.*1 -> m' !! x = m !! x) ->
  list_rep m' p l.
Proof.
  revert p. induction l as [|b l IH]; simpl; intros p Hrep Hsame; [done|].
  destruct Hrep as (-> & Hb & nx & Hm & Hl).
  split; [done|]. split; [done|]. exists nx. split.
  - rewrite Hsame; [done|]. apply elem_of_cons. auto.
  - apply IH; [done|]. intros x Hx. apply Hsame. apply elem_of_cons. auto.
Qed.

Lemma ff_list_rep_nonnull (m : mem) (p : Z) (l : list (Z * Z)) :
  list_rep m p l -> NULL ∉ l.*1.
Proof.
  revert p. induction l as [|b l IH]; simpl; intros p Hrep.
  - apply not_elem_of_nil.
  - destruct Hrep as (-> & Hb & nx & Hm & Hl).
    rewrite elem_of_cons. intros [H|H]; [done|]. by eapply IH.
Qed.

Lemma ff_list_rep_lookup (m : mem) (p : Z) (l : list (Z * Z)) (b : Z * Z) :
  list_rep m p l -> b ∈ l ->
  b.1 <> NULL /\ exists nx, m !! b.1 = Some {| size := b.2; next := nx |}.
Proof.
  revert p. induction l as [|x l IH]; simpl; intros p Hrep Hb.
  - by apply elem_of_nil in Hb.
  - destruct Hrep as (-> & Hx & nx & Hm & Hl).
    apply elem_of_cons in Hb as [->|Hb]; eauto.
Qed.

(** *** The scan *)

Lemma ff_split_first_spec (req : Z) (l l1 l2 : list (Z * Z)) (b : Z * Z) :
  split_first req l = Some (l1, b, l2) ->
  l = l1 ++ b :: l2 /\ (forall x, x ∈ l1 -> x.2 < req) /\ req <= b.2.
Proof.
  revert l1. induction l as [|x l IH]; simpl; intros l1 H; [done|].
  destruct (Z.ltb_spec x.2 req) as [Hlt|Hge].
  - destruct (split_first req l) as [[[k1 y] k2]|]; [|done].
    injection H as <- <- <-. destruct (IH k1 eq_refl) as (-> & Hsm & Hle).
    split; [done|]. split; [|done].
    intros z Hz. apply elem_of_cons in Hz as [->|Hz]; auto.
  - injection H as <- <- <-. split; [done|]. split; [|done].
    intros z Hz. by apply elem_of_nil in Hz.
Qed.

Lemma ff_split_first_none (req : Z) (l : list (Z * Z)) :
  split_first req l = None -> forall x, x ∈ l -> x.2 < req.
Proof.
  induction l as [|x l IH]; simpl; intros H z Hz.
  - by apply elem_of_nil in Hz.
  - destruct (Z.ltb_spec x.2 req) as [Hlt|Hge]; [|done].
    destruct (split_first req l) as [[[k1 y] k2]|]; [done|].
    apply elem_of_cons in Hz as [->|Hz]; auto.
Qed.

Lemma ff_split_first_head (req : Z) (b : Z * Z) (l : list (Z * Z)) :
  req <= b.2 -> split_first req (b :: l) = Some ([], b, l).
Proof. intros H. simpl. destruct (Z.ltb_spec b.2 req); [lia|done]. Qed.

Lemma ff_last_addr_snoc (l : list (Z * Z)) (b : Z * Z) (d : Z) :
  last_addr (l ++ [b]) d = b.1.
Proof. revert d. induction l as [|x l IH]; intros d; simpl; [done|apply IH]. Qed.

Lemma ff_scan_refines (fuel : nat) (m : mem) (req p prev : Z) (l : list (Z * Z)) :
  list_rep m p l -> (length l < fuel)%nat ->
  first_fit_scan fuel m req p prev
    = Done (match split_first req l with
            | Some (l1, b, _) => (b.1, last_addr l1 prev)
            | None => (NULL, last_addr l prev)
            end).
Proof.
  revert fuel p prev. induction l as [|x l IH]; intros fuel p prev Hrep Hfuel.
  - simpl in Hrep. subst p. destruct fuel; [simpl in Hfuel; lia|]. done.
  - simpl in Hrep. destruct Hrep as (-> & Hx & nx & Hm & Hl).
    destruct fuel as [|fuel]; [simpl in Hfuel; lia|]. simpl in Hfuel.
    cbn [first_fit_scan split_first].
    destruct (Z.eqb_spec x.1 NULL) as [|_]; [done|].
    rewrite (ff_load_Some _ _ _ Hx Hm), bind_Done. cbn [size next].
    destruct (x.2 <? req); [|done].
    rewrite (IH fuel nx x.1 Hl) by lia.
    by destruct (split_first req l) as [[[k1 y] k2]|].
Qed.

(** *** Unlinking and linking *)

Lemma ff_unlink (m : mem) (p nx : Z) (l1 l2 : list (Z * Z)) (pb b : Z * Z) :
  list_rep m p (l1 ++ pb :: b :: l2) ->
  NoDup (l1 ++ pb :: b :: l2).*1 ->
  m !! b.1 = Some {| size := b.2; next := nx |} ->
  list_rep (<[b.1 := fresh_header b.2]> (<[pb.1 := {| size := pb.2; next := nx |}]> m))
           p (l1 ++ pb :: l2).
Proof.
  revert p. induction l1 as [|x l1 IH]; intros p Hrep Hnd Hmb.
  - simpl in *. destruct Hrep as (-> & Hpb & nx1 & Hm1 & _ & Hb & nx2 & Hm2 & Hl2).
    assert (nx2 = nx) as -> by congruence.
    apply NoDup_cons in Hnd as (Hn1 & Hnd). apply NoDup_cons in Hnd as (Hn2 & Hnd).
    rewrite elem_of_cons in Hn1.
    split; [done|]. split; [done|]. exists nx. split.
    + rewrite lookup_insert_ne by (intros Heq; apply Hn1; auto).
      by rewrite lookup_insert_eq.
    + eapply ff_list_rep_frame; [exact Hl2|]. intros y Hy.
      rewrite !lookup_insert_ne; [done| |]; intros <-; [apply Hn1; auto|done].
  - simpl in Hrep, Hnd. destruct Hrep as (-> & Hx & nx1 & Hm1 & Hl).
    apply NoDup_cons in Hnd as (Hn1 & Hnd).
    rewrite fmap_app, elem_of_app in Hn1. simpl in Hn1. rewrite !elem_of_cons in Hn1.
    simpl. split; [done|]. split; [done|]. exists nx1. split.
    + rewrite !lookup_insert_ne; [done| |]; intros Heq; apply Hn1; auto.
    + by apply IH.
Qed.

Lemma ff_remove_refines (st : state) (l1 l2 : list (Z * Z)) (b : Z * Z) :
  list_rep (heap st) (free_head st) (l1 ++ b :: l2) ->
  NoDup (l1 ++ b :: l2).*1 ->
  exists st',
    first_fit_remove_from_free_list st b.1 (last_addr l1 NULL) = Done st' /\
    list_rep (heap st') (free_head st') (l1 ++ l2) /\
    heap st' !! b.1 = Some (fresh_header b.2) /\
    unchanged_outside (l1 ++ b :: l2).*1 (heap st) (heap st') /\
    same_sizes (heap st) (heap st') /\
    sys st' = sys st /\ dummy st' = dummy st.
Proof.
  intros Hrep Hnd.
  assert (Hbin : b ∈ l1 ++ b :: l2).
  { apply elem_of_app. right. apply elem_of_cons. auto. }
  destruct (ff_list_rep_lookup _ _ _ b Hrep Hbin) as (Hb & nx & Hmb).
  unfold first_fit_remove_from_free_list.
  rewrite (ff_load_Some _ _ _ Hb Hmb), bind_Done. cbn [next].
  destruct l1 as [|x l1 _] using rev_ind.
  - simpl in *. destruct Hrep as (_ & _ & nx' & Hm' & Hl2).
    assert (nx' = nx) as -> by congruence.
    apply NoDup_cons in Hnd as (Hn & Hnd).
    rewrite (ff_store_next_Some _ _ _ _ Hb Hmb), bind_Done.
    eexists. split; [done|]. cbn [heap with_heap with_head free_head sys dummy].
    split; [|split; [|split; [|split; [|done]]]].
    + eapply ff_list_rep_frame; [exact Hl2|]. intros y Hy.
      rewrite lookup_insert_ne; [done|]. by intros <-.
    + by rewrite lookup_insert_eq.
    + intros y Hy. rewrite lookup_insert_ne; [done|]. intros <-.
      apply Hy. apply elem_of_cons. auto.
    + eapply ff_same_sizes_insert; [exact Hmb|done].
  - rewrite ff_last_addr_snoc. rewrite <- app_assoc in Hrep, Hnd. simpl in Hrep, Hnd.
    assert (Hxin : x ∈ l1 ++ x :: b :: l2).
    { apply elem_of_app. right. apply elem_of_cons. auto. }
    destruct (ff_list_rep_lookup _ _ _ x Hrep Hxin) as (Hx & nx' & Hmx).
    assert (Hxb : x.1 <> b.1).
    { rewrite fmap_app in Hnd. apply NoDup_app in Hnd as (_ & _ & Hnd).
      simpl in Hnd. apply NoDup_cons in Hnd as (Hn & _).
      rewrite elem_of_cons in Hn. intros Heq. apply Hn. auto. }
    destruct (Z.eqb_spec x.1 NULL) as [|_]; [done|]. cbn [negb].
    rewrite (ff_store_next_Some _ _ _ _ Hx Hmx), !bind_Done. cbn [heap with_heap].
    rewrite (ff_store_next_Some _ _ _ {| size := b.2; next := nx |} Hb)
      by (by rewrite lookup_insert_ne).
    rewrite bind_Done.
    eexists. split; [done|]. cbn [heap with_heap with_head free_head sys dummy].
    unfold set_next. cbn [size next].
    split; [|split; [|split; [|split; [|done]]]].
    + rewrite <- app_assoc. simpl. by apply ff_unlink.
    + by rewrite lookup_insert_eq.
    + intros y Hy. rewrite <- app_assoc in Hy. simpl in Hy.
      rewrite fmap_app, elem_of_app in Hy. simpl in Hy. rewrite !elem_of_cons in Hy.
      rewrite !lookup_insert_ne; [done| |]; intros <-; apply Hy; auto.
    + apply (ff_same_sizes_trans _ (<[x.1 := {| size := x.2; next := nx |}]> (heap st))).
      * eapply ff_same_sizes_insert; [exact Hmx|done].
      * eapply ff_same_sizes_insert; [by rewrite lookup_insert_ne|done].
Qed.

Lemma ff_add_refines (st : state) (l : list (Z * Z)) (b : Z * Z) :
  list_rep (heap st) (free_head st) l ->
  b.1 <> NULL -> b.1 ∉ l.*1 ->
  heap st !! b.1 = Some (fresh_header b.2) ->
  first_fit_add_to_free_list st b.1
    = Done (with_head
              (with_heap st (<[b.1 := {| size := b.2; next := free_head st |}]> (heap st)))
              b.1) /\
  list_rep (<[b.1 := {| size := b.2; next := free_head st |}]> (heap st)) b.1 (b :: l).
Proof.
  intros Hrep Hb Hfresh Hm. split.
  - unfold first_fit_add_to_free_list.
    rewrite (ff_load_Some _ _ _ Hb Hm), bind_Done. cbn [next fresh_header Z.eqb NULL negb].
    by rewrite (ff_store_next_Some _ _ _ _ Hb Hm), bind_Done.
  - simpl. split; [done|]. split; [done|]. exists (free_head st).
    split; [by rewrite lookup_insert_eq|].
    eapply ff_list_rep_frame; [exact Hrep|]. intros y Hy.
    rewrite lookup_insert_ne; [done|]. by intros <-.
Qed.

(** *** More fuel never changes a finished run *)

Lemma ff_scan_mono (f f' : nat) (m : mem) (req p prev : Z) (r : outcome (Z * Z)) :
  first_fit_scan f m req p prev = r -> r <> Timeout -> (f <= f')%nat ->
  first_fit_scan f' m req p prev = r.
Proof.
  revert f' p prev. induction f as [|f IH]; intros f' p prev H Hr Hle; [by subst|].
  destruct f' as [|f']; [lia|]. cbn [first_fit_scan] in *.
  destruct (p =? NULL); [done|].
  replay H Hr IH. destruct (size _ <? req); [|done]. apply IH; (done || lia).
Qed.

Lemma ff_malloc_mono (f f' : nat) (st : state) (req : Z) (r : outcome (state * Z)) :
  first_fit_malloc f st req = r -> r <> Timeout -> (f <= f')%nat ->
  first_fit_malloc f' st req = r.
Proof.
  revert f' st r. induction f as [|f IH]; intros f' st r H Hr Hle; [by subst|].
  destruct f' as [|f']; [lia|]. cbn [first_fit_malloc] in *.
  replay H Hr ff_scan_mono.
  destruct (_ =? NULL).
  - replay H Hr IH. replay H Hr IH. apply IH; (done || lia).
  - exact H.
Qed.

(** Two finished runs of the same call agree. *)
Lemma ff_malloc_det (f f' : nat) (st : state) (req : Z) (x y : outcome (state * Z)) :
  first_fit_malloc f st req = x -> first_fit_malloc f' st req = y ->
  x <> Timeout -> y <> Timeout -> x = y.
Proof.
  intros Hx Hy Hxt Hyt.
  apply (ff_malloc_mono _ (Nat.max f f')) in Hx; [|done|lia].
  apply (ff_malloc_mono _ (Nat.max f f')) in Hy; [|done|lia]. congruence.
Qed.

(** *** The allocator keeps its invariant *)

Lemma ff_heap_inv_NoDup (st : state) (l live : list (Z * Z)) :
  heap_inv st l live -> NoDup l.*1.
Proof.
  intros [_ (Hnd & _) _ _]. rewrite fmap_app in Hnd.
  by apply NoDup_app in Hnd as (Hnd & _).
Qed.

Lemma ff_heap_inv_live_fresh (st : state) (l live : list (Z * Z)) (b : Z * Z) :
  heap_inv st l live -> b ∈ live -> b.1 ∉ l.*1.
Proof.
  intros [_ (Hnd & _) _ _] Hb. rewrite fmap_app in Hnd.
  apply NoDup_app in Hnd as (_ & Hdis & _). intros Hin.
  apply (Hdis _ Hin). by apply list_elem_of_fmap_2.
Qed.

Lemma ff_initialize_inv (st : state) :
  0 < dummy st -> dummy st + header_size <= brk (sys st) ->
  heap_inv (first_fit_initialize st) [(dummy st, 0)] [].
Proof.
  intros Hd Hb. unfold header_size in *. split; simpl.
  - split; [done|]. split; [unfold NULL; lia|]. exists NULL.
    by rewrite lookup_insert_eq.
  - split; [|split].
    + simpl. apply NoDup_singleton.
    + intros b Hin. apply list_elem_of_singleton in Hin as ->.
      unfold block_end, header_size. simpl. lia.
    + intros b1 b2 H1 H2. apply list_elem_of_singleton in H1 as ->.
      apply list_elem_of_singleton in H2 as ->. done.
  - intros b Hin. by apply elem_of_nil in Hin.
  - lia.
Qed.

(** The state [first_fit_malloc] leaves when the scan stopped at the block
    [b]: the list without that block, and, when the block is split, with the
    carved remainder pushed on its head. *)
Lemma ff_malloc_take (st : state) (l live l1 l2 : list (Z * Z)) (req : Z) (b : Z * Z) :
  heap_inv st l live -> 0 <= req -> split_first req l = Some (l1, b, l2) ->
  exists f st',
    first_fit_malloc f st req = Done (st', b.1 + header_size) /\
    sys st' = sys st /\ dummy st' = dummy st /\
    heap_inv st' (take_l req b.1 b.2 (l1 ++ l2)).1
                 ((take_l req b.1 b.2 (l1 ++ l2)).2 :: live).
Proof.
  intros Hinv Hreq Hs.
  pose proof (ff_heap_inv_NoDup _ _ _ Hinv) as Hnd.
  pose proof (fun x Hx => ff_heap_inv_live_fresh _ _ _ x Hinv Hx) as Hlf.
  destruct Hinv as [Hrep Hblocks Hlive Hbrk].
  destruct (ff_split_first_spec _ _ _ _ _ Hs) as (-> & Hsm & Hle).
  destruct b as [ba S]. cbn [fst snd] in *.
  assert (Hbin : (ba, S) ∈ l1 ++ (ba, S) :: l2).
  { apply elem_of_app. right. apply elem_of_cons. auto. }
  destruct (ff_list_rep_lookup _ _ _ _ Hrep Hbin) as (Hb & nx & Hmb).
  cbn [fst snd] in Hb, Hmb.
  assert (Hblocks1 : blocks_ok header_size (brk (sys st)) ((ba, S) :: (l1 ++ l2) ++ live)).
  { eapply blocks_ok_perm; [|exact Hblocks].
    by rewrite <- !app_assoc, <- app_comm_cons, <- Permutation_middle. }
  assert (HSb : 0 <= S <= 4096 - header_size).
  { destruct Hblocks1 as (_ & Hbd & _). apply (Hbd (ba, S)). apply elem_of_cons. auto. }
  destruct (ff_remove_refines st l1 l2 (ba, S) Hrep Hnd)
    as (st1 & Hrm & Hrep1 & Hm1b & Hout1 & Hsz1 & Hsys1 & Hdum1).
  cbn [fst snd] in Hrm, Hm1b.
  assert (Hsub : forall x, x ∈ (l1 ++ l2).*1 -> x ∈ (l1 ++ (ba, S) :: l2).*1).
  { intros x. rewrite !fmap_app, !elem_of_app. simpl. rewrite elem_of_cons. tauto. }
  assert (Hb1 : ba ∉ (l1 ++ l2).*1).
  { rewrite fmap_app in Hnd. apply NoDup_app in Hnd as (_ & Hd & Hnd).
    simpl in Hnd. apply NoDup_cons in Hnd as (Hn & _).
    rewrite fmap_app, elem_of_app. intros [Hin|Hin]; [|done].
    apply (Hd _ Hin). apply elem_of_cons. auto. }
  assert (Hlive1 : forall x, x ∈ live -> heap st1 !! x.1 = Some (fresh_header x.2)).
  { intros x Hx. rewrite Hout1; [by apply Hlive|]. by apply Hlf. }
  set (F := Datatypes.S (length (l1 ++ (ba, S) :: l2))).
  assert (Hprefix :
    first_fit_malloc (Datatypes.S F) st req
    = (if header_size <? S - req
       then m ← store_size (heap st1) ba req;
            st2 ← first_fit_add_to_free_list
                    (with_heap st1
                       (<[ba + header_size + req := fresh_header (S - req - header_size)]> m))
                    (ba + header_size + req);
            Done (st2, ba + header_size)
       else Done (st1, ba + header_size))).
  { cbn [first_fit_malloc].
    rewrite (ff_scan_refines F _ req _ NULL _ Hrep) by (unfold F; lia).
    rewrite Hs, bind_Done. cbn [fst].
    destruct (Z.eqb_spec ba NULL) as [|_]; [done|].
    rewrite (ff_load_Some _ _ _ Hb Hmb), bind_Done. cbn [size].
    rewrite Hrm, bind_Done.
    rewrite (wrap_small (S - req)) by (unfold size_max, header_size in *; lia).
    destruct (Z.ltb_spec header_size (S - req)) as [Hsplit|Hwhole]; [|done].
    by rewrite (wrap_small (S - req - header_size))
      by (unfold size_max, header_size in *; lia). }
  exists (Datatypes.S F). unfold take_l.
  destruct (Z.ltb_spec header_size (S - req)) as [Hsplit|Hwhole]; cbn [fst snd].
  - (* the block is split *)
    set (new := ba + header_size + req) in *.
    set (rest := S - req - header_size) in *.
    rewrite (ff_store_size_Some _ _ _ _ Hb Hm1b), bind_Done in Hprefix.
    change (set_size (fresh_header S) req) with (fresh_header req) in Hprefix.
    set (m3 := <[ba := fresh_header req]> (heap st1)) in *.
    set (m4 := <[new := fresh_header rest]> m3) in *.
    assert (Hfresh : forall x, x ∈ (l1 ++ l2) ++ live -> x.1 <> new).
    { intros x Hx. by apply (carve_fresh header_size ff_header_pos _ ba S req _ x Hblocks1). }
    assert (Hnewb : new <> ba) by (unfold new, header_size; lia).
    assert (Hnew0 : new <> NULL).
    { destruct Hblocks1 as (_ & Hbd & _).
      destruct (Hbd (ba, S)) as (? & _); [apply elem_of_cons; auto|].
      unfold new, header_size, NULL. simpl in *. lia. }
    assert (Hnew1 : new ∉ (l1 ++ l2).*1).
    { intros Hx. apply list_elem_of_fmap in Hx as (x & Hx1 & Hx).
      apply (Hfresh x); [|done]. apply elem_of_app. auto. }
    assert (Hrep4 : list_rep m4 (free_head st1) (l1 ++ l2)).
    { eapply ff_list_rep_frame; [exact Hrep1|]. intros x Hx. unfold m4, m3.
      rewrite !lookup_insert_ne; [done| |]; by intros ->. }
    destruct (ff_add_refines (with_heap st1 m4) (l1 ++ l2) (new, rest))
      as (Hadd & Hrep5); cbn [heap with_heap free_head fst snd]; try done.
    { unfold m4. by rewrite lookup_insert_eq. }
    cbn [heap with_heap free_head fst snd] in Hadd, Hrep5.
    rewrite Hadd, bind_Done in Hprefix.
    eexists. split; [exact Hprefix|].
    cbn [sys dummy with_head with_heap]. split; [done|]. split; [done|].
    split; cbn [heap with_head with_heap free_head sys].
    + exact Hrep5.
    + rewrite Hsys1.
      eapply blocks_ok_perm;
        [|apply (blocks_ok_split header_size ff_header_pos _ ba S req _ Hblocks1 Hreq Hsplit)].
      fold new. fold rest. simpl. by rewrite <- Permutation_middle.
    + intros x Hx. apply elem_of_cons in Hx as [->|Hx]; cbn [fst snd].
      * rewrite lookup_insert_ne by done. unfold m4, m3.
        rewrite lookup_insert_ne by done. by rewrite lookup_insert_eq.
      * assert (x.1 <> new).
        { apply Hfresh. apply elem_of_app. auto. }
        assert (x.1 <> ba).
        { intros Heq. apply (Hlf x Hx). rewrite Heq.
          apply list_elem_of_fmap. by exists (ba, S). }
        unfold m4, m3. rewrite !lookup_insert_ne by done. by apply Hlive1.
    + by rewrite Hsys1.
  - (* the block is handed out whole *)
    exists st1. split; [exact Hprefix|]. split; [done|]. split; [done|].
    split.
    + exact Hrep1.
    + rewrite Hsys1. eapply blocks_ok_perm; [|exact Hblocks1].
      by rewrite <- Permutation_middle.
    + intros x Hx. apply elem_of_cons in Hx as [->|Hx]; [done|]. by apply Hlive1.
    + by rewrite Hsys1.
Qed.

(** Mapping a page and pushing it on the free list as one free block. *)
Lemma ff_grow_inv (st : state) (l live : list (Z * Z)) :
  heap_inv st l live ->
  exists s' st',
    mmap_from_system (sys st) 4096 = Done (s', brk (sys st)) /\
    brk s' = brk (sys st) + 4096 /\
    mmap_size s' = wrap (mmap_size (sys st) + 4096) /\
    first_fit_add_to_free_list
      (with_heap (with_sys st s')
         (<[brk (sys st) := fresh_header (wrap (4096 - header_size))]> (heap st)))
      (brk (sys st)) = Done st' /\
    sys st' = s' /\ dummy st' = dummy st /\
    heap_inv st' ((brk (sys st), 4096 - header_size) :: l) live.
Proof.
  intros Hinv.
  pose proof (ff_heap_inv_NoDup _ _ _ Hinv) as Hnd.
  destruct Hinv as [Hrep Hblocks Hlive Hbrk].
  set (top := brk (sys st)) in *.
  assert (Hlow : forall x, x ∈ l ++ live -> x.1 < top).
  { intros x Hx. destruct Hblocks as (_ & Hbd & _). destruct (Hbd x Hx) as (? & ? & ?).
    unfold block_end, header_size in *. lia. }
  assert (Htop0 : top <> NULL) by (unfold NULL; lia).
  assert (Htop1 : top ∉ l.*1).
  { intros Hx. apply list_elem_of_fmap in Hx as (x & Hx1 & Hx).
    assert (x.1 < top) by (apply Hlow, elem_of_app; auto). lia. }
  set (s' := {| brk := top + 4096; mmap_size := wrap (mmap_size (sys st) + 4096) |}).
  assert (Hwrap : wrap (4096 - header_size) = 4096 - header_size) by reflexivity.
  rewrite Hwrap.
  set (m1 := <[top := fresh_header (4096 - header_size)]> (heap st)).
  assert (Hrep1 : list_rep m1 (free_head st) l).
  { eapply ff_list_rep_frame; [exact Hrep|]. intros x Hx. unfold m1.
    rewrite lookup_insert_ne; [done|]. by intros ->. }
  destruct (ff_add_refines (with_heap (with_sys st s') m1) l (top, 4096 - header_size))
    as (Hadd & Hrep2); cbn [heap with_heap with_sys free_head fst snd]; try done.
  { unfold m1. by rewrite lookup_insert_eq. }
  cbn [heap with_heap with_sys free_head fst snd] in Hadd, Hrep2.
  exists s'. eexists.
  split; [|split; [done|split; [done|split; [exact Hadd|split; [done|split; [done|]]]]]].
  - unfold mmap_from_system. fold top.
    destruct (Z.eqb_spec top NULL) as [|_]; [done|]. done.
  - split; cbn [heap with_head with_heap with_sys free_head sys brk s'].
    + exact Hrep2.
    + apply (blocks_ok_page header_size ff_header_pos ff_header_page _ _ Hblocks Hbrk).
    + intros x Hx. unfold m1. rewrite !lookup_insert_ne; [by apply Hlive| |];
        intros Heq; assert (x.1 < top) by (apply Hlow, elem_of_app; auto); lia.
    + lia.
Qed.

(** [first_fit_malloc] computes [malloc_l]: it returns the payload of the
    block [malloc_l] hands out and leaves a state whose free list is the list
    [malloc_l] answers. *)
Lemma ff_malloc_refines (st : state) (l live : list (Z * Z)) (req : Z)
    (l' : list (Z * Z)) (b : Z * Z) (top' : Z) :
  heap_inv st l live -> 0 <= req ->
  malloc_l (brk (sys st)) req l = Some (l', b, top') ->
  exists f st',
    first_fit_malloc f st req = Done (st', b.1 + header_size) /\
    heap_inv st' l' (b :: live) /\
    dummy st' = dummy st /\
    brk (sys st') = top' /\
    (sys st' = sys st \/
     (split_first req l = None /\
      brk (sys st') = brk (sys st) + 4096 /\
      mmap_size (sys st') = wrap (mmap_size (sys st) + 4096))).
Proof.
  intros Hinv Hreq Hm. unfold malloc_l in Hm.
  destruct (split_first req l) as [[[l1 b0] l2]|] eqn:Hs.
  - injection Hm as Ht <-.
    destruct (ff_malloc_take st l live l1 l2 req b0 Hinv Hreq Hs)
      as (f & st' & Hrun & Hsys & Hdum & Hinv').
    rewrite Ht in Hinv'. cbn [fst snd] in Hinv'.
    assert (Hb : b.1 = b0.1).
    { unfold take_l in Ht. destruct (header_size <? b0.2 - req); by injection Ht as <- <-. }
    rewrite Hb. exists f, st'.
    split; [done|split; [done|split; [done|split; [by rewrite Hsys|by left]]]].
  - destruct (Z.ltb_spec (4096 - header_size) req) as [|Hfit]; [done|].
    injection Hm as Ht <-.
    destruct (ff_grow_inv st l live Hinv)
      as (s' & st1 & Hmap & Hbrk' & Hmm & Hadd & Hsys1 & Hdum1 & Hinv1).
    set (top := brk (sys st)) in *.
    destruct (ff_malloc_take st1 _ live [] l req (top, 4096 - header_size) Hinv1 Hreq)
      as (f & st' & Hrun & Hsys & Hdum & Hinv').
    { by apply ff_split_first_head. }
    cbn [fst snd app] in Hinv', Hrun. rewrite Ht in Hinv'. cbn [fst snd] in Hinv'.
    assert (Hb : b.1 = top).
    { unfold take_l in Ht. destruct (header_size <? 4096 - header_size - req);
        by injection Ht as <- <-. }
    rewrite Hb.
    exists (Datatypes.S (Nat.max (Datatypes.S (length l)) f)), st'.
    split; [|split; [done|split; [congruence|split]]].
    + cbn [first_fit_malloc].
      rewrite (ff_scan_refines _ _ req _ NULL l (inv_rep _ _ _ Hinv)) by lia.
      rewrite Hs, bind_Done. cbn [Z.eqb NULL].
      rewrite Hmap, bind_Done. fold top.
      change (heap (with_sys st s')) with (heap st). rewrite Hadd, bind_Done.
      apply (ff_malloc_mono f); [done|done|lia].
    + rewrite Hsys, Hsys1. done.
    + right. rewrite Hsys, Hsys1. done.
Qed.

Lemma ff_malloc_l_total (top req : Z) (l : list (Z * Z)) :
  req <= 4096 - header_size -> is_Some (malloc_l top req l).
Proof.
  intros Hreq. unfold malloc_l.
  destruct (split_first req l) as [[[l1 b0] l2]|]; [eauto|].
  destruct (Z.ltb_spec (4096 - header_size) req); [lia|eauto].
Qed.

Lemma ff_take_l_size (req b s : Z) (rest : list (Z * Z)) :
  req <= s -> req <= (take_l req b s rest).2.2.
Proof. intros H. unfold take_l. destruct (header_size <? s - req); simpl; lia. Qed.

(** [first_fit_malloc] returns, maps at most one page, and keeps the
    invariant; the block it hands out joins the live blocks. *)
Lemma ff_malloc_ok (st : state) (l live : list (Z * Z)) (req : Z) :
  heap_inv st l live -> 0 <= req <= 4096 - header_size ->
  exists f st' l' b,
    first_fit_malloc f st req = Done (st', b.1 + header_size) /\
    req <= b.2 /\
    heap_inv st' l' (b :: live) /\
    dummy st' = dummy st /\
    (sys st' = sys st \/
     (split_first req l = None /\
      brk (sys st') = brk (sys st) + 4096 /\
      mmap_size (sys st') = wrap (mmap_size (sys st) + 4096))).
Proof.
  intros Hinv Hreq.
  destruct (ff_malloc_l_total (brk (sys st)) req l) as ([[l' b] top'] & Hm); [lia|].
  destruct (ff_malloc_refines st l live req l' b top' Hinv (proj1 Hreq) Hm)
    as (f & st' & Hrun & Hinv' & Hdum & _ & Hsys).
  exists f, st', l', b.
  split; [done|split; [|split; [done|split; done]]].
  unfold malloc_l in Hm.
  destruct (split_first req l) as [[[l1 b0] l2]|] eqn:Hs.
  - destruct (ff_split_first_spec _ _ _ _ _ Hs) as (_ & _ & Hle).
    injection Hm as Ht _. pose proof (ff_take_l_size req b0.1 b0.2 (l1 ++ l2) Hle) as H.
    by rewrite Ht in H.
  - destruct (4096 - header_size <? req); [done|].
    injection Hm as Ht _.
    pose proof (ff_take_l_size req (brk (sys st)) (4096 - header_size) l (proj2 Hreq)) as H.
    by rewrite Ht in H.
Qed.

(** [first_fit_free] returns and keeps the invariant; it writes the released
    header only, and no size field. *)
Lemma ff_free_ok (st : state) (l k1 k2 : list (Z * Z)) (b : Z * Z) :
  heap_inv st l (k1 ++ b :: k2) ->
  exists st',
    first_fit_free st (b.1 + header_size) = Done st' /\
    heap_inv st' (b :: l) (k1 ++ k2) /\
    same_sizes (heap st) (heap st') /\
    unchanged_outside [b.1] (heap st) (heap st') /\
    sys st' = sys st /\ dummy st' = dummy st.
Proof.
  intros Hinv.
  pose proof (fun x Hx => ff_heap_inv_live_fresh _ _ _ x Hinv Hx) as Hlf.
  destruct Hinv as [Hrep Hblocks Hlive Hbrk].
  assert (Hbin : b ∈ k1 ++ b :: k2).
  { apply elem_of_app. right. apply elem_of_cons. auto. }
  assert (Hb0 : b.1 <> NULL).
  { destruct Hblocks as (_ & Hbd & _). destruct (Hbd b) as (? & _).
    - apply elem_of_app. auto.
    - unfold NULL. lia. }
  destruct (ff_add_refines st l b Hrep Hb0 (Hlf b Hbin) (Hlive b Hbin)) as (Hadd & Hrep1).
  exists (with_head
            (with_heap st (<[b.1 := {| size := b.2; next := free_head st |}]> (heap st)))
            b.1).
  split; [|split; [|split; [|split; [|done]]]].
  - unfold first_fit_free.
    replace (b.1 + header_size - header_size) with b.1 by lia. exact Hadd.
  - split; cbn [heap with_head with_heap free_head sys].
    + exact Hrep1.
    + eapply blocks_ok_perm; [|exact Hblocks].
      simpl. by rewrite <- !Permutation_middle.
    + intros x Hx.
      assert (Hx' : x ∈ k1 ++ b :: k2).
      { apply elem_of_app in Hx as [Hx|Hx]; apply elem_of_app; [auto|].
        right. apply elem_of_cons. auto. }
      rewrite lookup_insert_ne; [by apply Hlive|].
      intros Heq.
      destruct Hblocks as (Hndb & _).
      rewrite fmap_app, fmap_app in Hndb. simpl in Hndb.
      apply NoDup_app in Hndb as (_ & _ & Hndb).
      apply NoDup_app in Hndb as (_ & Hd1 & Hndb).
      apply NoDup_cons in Hndb as (Hd2 & _).
      apply elem_of_app in Hx as [Hx|Hx].
      * apply (Hd1 x.1); [by apply list_elem_of_fmap_2|].
        rewrite <- Heq. apply elem_of_cons. auto.
      * apply Hd2. rewrite Heq. by apply list_elem_of_fmap_2.
    + done.
  - cbn [heap with_head with_heap].
    eapply ff_same_sizes_insert; [exact (Hlive b Hbin)|done].
  - cbn [heap with_head with_heap]. intros x Hx.
    rewrite lookup_insert_ne; [done|]. intros <-. apply Hx. apply elem_of_cons. auto.
Qed.

(** *** Requests no page can hold *)

Lemma ff_scan_oversize (st : state) (l live : list (Z * Z)) (req : Z) :
  heap_inv st l live -> 4096 - header_size < req -> split_first req l = None.
Proof.
  intros Hinv Hreq. destruct (split_first req l) as [[[l1 b] l2]|] eqn:Hs; [|done].
  destruct (ff_split_first_spec _ _ _ _ _ Hs) as (-> & _ & Hle).
  destruct (inv_blocks _ _ _ Hinv) as (_ & Hbd & _).
  destruct (Hbd b) as (_ & Hb & _); [|lia].
  apply elem_of_app. left. apply elem_of_app. right. apply elem_of_cons. auto.
Qed.

(** A request larger than what a page can hold never returns: no block of
    the list is large enough, the fresh page is not either, and the call
    retries. *)
Lemma ff_malloc_oversize (st : state) (l live : list (Z * Z)) (req : Z) :
  heap_inv st l live -> 4096 - header_size < req ->
  forall f, first_fit_malloc f st req = Timeout.
Proof.
  intros Hinv Hreq f. revert st l Hinv.
  induction f as [|f IH]; intros st l Hinv; [done|].
  cbn [first_fit_malloc].
  pose proof (ff_scan_oversize _ _ _ _ Hinv Hreq) as Hs.
  pose proof (ff_scan_refines (S (length l)) _ req _ NULL l (inv_rep _ _ _ Hinv)) as Hrun.
  rewrite Hs in Hrun.
  destruct (finished_or_timeout
              (fun f => first_fit_scan f (heap st) req (free_head st) NULL)
              (fun f f' r => ff_scan_mono f f' _ _ _ _ r) _ _ (Hrun ltac:(lia)) f)
    as [->| ->]; [done|].
  rewrite bind_Done. cbn [Z.eqb NULL].
  destruct (ff_grow_inv st l live Hinv)
    as (s' & st1 & Hmap & Hbrk' & Hmm & Hadd & Hsys1 & Hdum1 & Hinv1).
  rewrite Hmap, bind_Done.
  change (heap (with_sys st s')) with (heap st). rewrite Hadd, bind_Done.
  by eapply IH.
Qed.

(** *** Finished runs, whatever the fuel *)

(** What the scan loop answers when it finishes. *)
Lemma ff_scan_Done (st : state) (l : list (Z * Z)) (f : nat) (req : Z) (x : Z * Z) :
  list_rep (heap st) (free_head st) l ->
  first_fit_scan f (heap st) req (free_head st) NULL = Done x ->
  x = match split_first req l with
      | Some (l1, b, _) => (b.1, last_addr l1 NULL)
      | None => (NULL, last_addr l NULL)
      end.
Proof.
  intros Hrep Hrun.
  pose proof (ff_scan_refines (S (length l)) _ req _ NULL l Hrep ltac:(lia)) as Hbig.
  apply (ff_scan_mono _ (Nat.max f (S (length l)))) in Hrun; [|done|lia].
  apply (ff_scan_mono _ (Nat.max f (S (length l)))) in Hbig; [|done|lia].
  congruence.
Qed.

(** The converse of [ff_split_first_spec]: the scan stops at the first block
    that is large enough. *)
Lemma ff_split_first_intro (req : Z) (l1 l2 : list (Z * Z)) (b : Z * Z) :
  (forall x, x ∈ l1 -> x.2 < req) -> req <= b.2 ->
  split_first req (l1 ++ b :: l2) = Some (l1, b, l2).
Proof.
  intros Hsm Hle. induction l1 as [|x l1 IH]; simpl.
  - destruct (Z.ltb_spec b.2 req); [lia|done].
  - destruct (Z.ltb_spec x.2 req) as [_|Hge].
    + rewrite IH; [done|]. intros y Hy. apply Hsm. apply elem_of_cons. auto.
    + specialize (Hsm x). rewrite elem_of_cons in Hsm. specialize (Hsm (or_introl eq_refl)). lia.
Qed.

Lemma ff_take_l_addr (req b s : Z) (rest : list (Z * Z)) :
  (take_l req b s rest).2.1 = b.
Proof. unfold take_l. by destruct (header_size <? s - req). Qed.

(** A finished [first_fit_malloc] is the run [malloc_l] describes. *)
Lemma ff_malloc_inv (st : state) (l live : list (Z * Z)) (req : Z)
    (f : nat) (st' : state) (p : Z) :
  heap_inv st l live -> 0 <= req ->
  first_fit_malloc f st req = Done (st', p) ->
  exists l' b,
    malloc_l (brk (sys st)) req l = Some (l', b, brk (sys st')) /\
    heap_inv st' l' (b :: live) /\
    p = b.1 + header_size /\ req <= b.2 /\
    dummy st' = dummy st /\
    (sys st' = sys st \/
     (split_first req l = None /\
      brk (sys st') = brk (sys st) + 4096 /\
      mmap_size (sys st') = wrap (mmap_size (sys st) + 4096))).
Proof.
  intros Hinv Hreq Hrun.
  destruct (Z.le_gt_cases req (4096 - header_size)) as [Hfit|Hbig].
  - destruct (ff_malloc_l_total (brk (sys st)) req l) as ([[l' b] top'] & Hm); [lia|].
    destruct (ff_malloc_refines st l live req l' b top' Hinv Hreq Hm)
      as (f1 & st1 & Hrun1 & Hinv1 & Hdum & Hbrk & Hsys).
    pose proof (ff_malloc_det _ _ _ _ _ _ Hrun Hrun1 ltac:(done) ltac:(done)) as Heq.
    injection Heq as -> ->.
    exists l', b. subst top'.
    split; [done|split; [done|split; [done|split; [|split; done]]]].
    unfold malloc_l in Hm.
    destruct (split_first req l) as [[[l1 b0] l2]|] eqn:Hs.
    + destruct (ff_split_first_spec _ _ _ _ _ Hs) as (_ & _ & Hle).
      injection Hm as Ht _. pose proof (ff_take_l_size req b0.1 b0.2 (l1 ++ l2) Hle) as H.
      by rewrite Ht in H.
    + destruct (4096 - header_size <? req); [done|].
      injection Hm as Ht _.
      pose proof (ff_take_l_size req (brk (sys st)) (4096 - header_size) l Hfit) as H.
      by rewrite Ht in H.
  - rewrite (ff_malloc_oversize st l live req Hinv) in Hrun by lia. done.
Qed.

(** Every state the allocator reaches satisfies the invariant, and the
    pointers handed out are the payloads of the live blocks. *)
Lemma ff_reachable_inv (st : state) (ps : list Z) :
  reachable st ps ->
  exists l live, heap_inv st l live /\ ps = payload <$> live.
Proof.
  induction 1 as [st Hd Hb|st ps f sz st' p _ IH Hsz Hrun|st ps1 ps2 p st' _ IH Hrun].
  - exists [(dummy st, 0)], []. split; [by apply ff_initialize_inv|done].
  - destruct IH as (l & live & Hinv & ->).
    destruct (ff_malloc_inv st l live sz f st' p Hinv Hsz Hrun)
      as (l' & b & _ & Hinv' & -> & _).
    exists l', (b :: live). split; [done|done].
  - destruct IH as (l & live & Hinv & Hps).
    symmetry in Hps. apply fmap_app_inv in Hps as (k1 & k2' & -> & Hk2 & ->).
    symmetry in Hk2. apply fmap_cons_inv in Hk2 as (b & k2 & -> & -> & ->).
    destruct (ff_free_ok st l k1 k2 b Hinv) as (st1 & Hrun1 & Hinv' & _).
    assert (st' = st1) as -> by (unfold payload in Hrun; congruence).
    eexists _, (k1 ++ k2). split; [exact Hinv'|]. by rewrite fmap_app.
Qed.

(** *** The checker of the invariant is sound *)

Lemma ff_list_repb_sound (m : mem) (p : Z) (l : list (Z * Z)) :
  list_repb m p l = true -> list_rep m p l.
Proof.
  revert p. induction l as [|b l IH]; simpl; intros p H.
  - by apply Z.eqb_eq.
  - apply andb_true_iff in H as (H & Hm). apply andb_true_iff in H as (Hp & Hb).
    apply Z.eqb_eq in Hp. apply negb_true_iff, Z.eqb_neq in Hb.
    destruct (m !! b.1) as [md|] eqn:Hmd; [|done].
    apply andb_true_iff in Hm as (Hsz & Hl). apply Z.eqb_eq in Hsz.
    split; [done|]. split; [done|]. exists (next md).
    split; [destruct md; simpl in *; by subst|by apply IH].
Qed.

Lemma ff_heap_invb_sound (st : state) (l live : list (Z * Z)) :
  heap_invb st l live = true -> heap_inv st l live.
Proof.
  unfold heap_invb. intros H.
  apply andb_true_iff in H as (H & Hbrk). apply andb_true_iff in H as (H & Hlive).
  apply andb_true_iff in H as (Hrep & Hblocks).
  split.
  - by apply ff_list_repb_sound.
  - by apply blocks_okb_sound.
  - intros b Hb. pose proof (forallb_elem_of _ _ _ Hlive Hb) as Hf. simpl in Hf.
    unfold is_fresh_header in Hf. destruct (heap st !! b.1) as [md|]; [|done].
    apply andb_true_iff in Hf as (H1 & H2).
    apply Z.eqb_eq in H1, H2. destruct md. simpl in *. by subst.
  - by apply Z.ltb_lt.
Qed.

End FirstFitTheory.

(** * Theory of the workload harness *)

Module HarnessTheory.
Import Harness.

Lemma char_wrap_range (x : Z) : -128 <= char_wrap x <= 127.
Proof. unfold char_wrap. pose proof (Z.mod_pos_bound (x + 128) 256). lia. Qed.

(** After the first object, the rotation never produces the tag 0. *)
Lemma next_tag_nonzero (t : Z) : next_tag t <> 0.
Proof.
  unfold next_tag. destruct (Z.eqb_spec (char_wrap (t + 1)) 0) as [->|Hne]; [|done].
  by vm_compute.
Qed.

Lemma memset_lookup (m : memory) (p c n x : Z) :
  p <= x < p + n -> memset m p c n !! x = Some c.
Proof.
  unfold memset. intros Hx.
  assert (Hin : x - p ∈ seqZ 0 n) by (apply elem_of_seqZ; lia).
  induction (seqZ 0 n) as [|i l IH]; [by apply elem_of_nil in Hin|].
  simpl. apply elem_of_cons in Hin as [Heq|Hin].
  - replace (p + i) with x by lia. apply lookup_insert_eq.
  - destruct (decide (p + i = x)) as [->|Hne]; [apply lookup_insert_eq|].
    rewrite lookup_insert_ne by done. by apply IH.
Qed.

Section ChallengeFacts.
Variable A : Type.
Variable malloc_func : A -> Z -> outcome (A * Z).
Variable free_func : A -> Z -> outcome A.

(** The tag an allocation records is the current tag; the next current tag
    is never 0. *)
Lemma allocate_object_tag (h h' : harness A) (epoch : nat) (d : draw) :
  allocate_object A malloc_func h epoch d = Done h' ->
  exists o, created A h' = created A h ++ [o] /\
            tag o = cur_tag A h /\ size o = d_size d /\
            cur_tag A h' <> 0 /\
            (0 < d_size d < size_max ->
             byte_at (bytes A h') (ptr o) = tag o /\
             byte_at (bytes A h') (ptr o + wrap (size o - 1)) = tag o).
Proof.
  unfold allocate_object. intros H.
  apply bind_Done_inv in H as ([a p] & Hm & H). injection H as <-.
  eexists. cbn [created cur_tag bytes]. split; [done|].
  cbn [tag size ptr]. split; [done|]. split; [done|].
  split; [apply next_tag_nonzero|].
  intros Hsz. unfold byte_at.
  rewrite wrap_small by lia.
  rewrite !memset_lookup by lia. done.
Qed.

(** Every pointer handed to [free_func] belongs to an object whose two tag
    bytes were found intact. *)
Lemma release_checked (h : harness A) (v : list object_t) (tr : list Z)
    (r : outcome (harness A)) :
  release_objects A free_func h v = (tr, r) ->
  forall p, p ∈ tr ->
    exists o, o ∈ v /\ ptr o = p /\ tag_broken (bytes A h) o = false.
Proof.
  revert h tr r. induction v as [|o v IH]; intros h tr r H p Hp.
  - injection H as <- _. by apply elem_of_nil in Hp.
  - cbn [release_objects] in H.
    destruct (tag_broken (bytes A h) o) eqn:Hchk.
    { injection H as <- _. by apply elem_of_nil in Hp. }
    assert (Hhere : p = ptr o -> exists o', o' ∈ o :: v /\ ptr o' = p /\
                                 tag_broken (bytes A h) o' = false).
    { intros ->. exists o. split; [apply elem_of_cons; auto|done]. }
    destruct (free_func (alloc A h) (ptr o)) as [a| | |];
      try (injection H as <- _; apply list_elem_of_singleton in Hp; auto).
    match type of H with
    | (let '(_, _) := release_objects A free_func ?h1 v in _) = _ =>
      destruct (release_objects A free_func h1 v) as [tr' r'] eqn:Hrec
    end.
    injection H as <- <-.
    apply elem_of_cons in Hp as [->|Hp]; [auto|].
    destruct (IH _ _ _ Hrec p Hp) as (o' & Hin & Hptr & Hok).
    exists o'. split; [apply elem_of_cons; auto|done].
Qed.

(** A corrupted object stops the release loop before [free_func] sees it:
    the loop does not finish, and [free_func] was called, at most, on the
    objects before it. *)
Lemma release_broken (h : harness A) (v1 v2 : list object_t) (o : object_t)
    (tr : list Z) (r : outcome (harness A)) :
  release_objects A free_func h (v1 ++ o :: v2) = (tr, r) ->
  tag_broken (bytes A h) o = true ->
  (forall h', r <> Done h') /\ tr `prefix_of` (ptr <$> v1).
Proof.
  revert h tr r. induction v1 as [|x v1 IH]; intros h tr r H Hbad.
  - simpl in H. rewrite Hbad in H. injection H as <- <-.
    split; [done|]. apply prefix_nil.
  - cbn [app release_objects] in H.
    destruct (tag_broken (bytes A h) x) eqn:Hchk.
    { injection H as <- <-. split; [done|]. apply prefix_nil. }
    destruct (free_func (alloc A h) (ptr x)) as [a| | |];
      try (injection H as <- <-; split; [done|];
           simpl; apply prefix_cons, prefix_nil).
    match type of H with
    | (let '(_, _) := release_objects A free_func ?h1 _ in _) = _ =>
      destruct (release_objects A free_func h1 (v1 ++ o :: v2)) as [tr' r'] eqn:Hrec
    end.
    injection H as <- <-.
    destruct (IH _ _ _ Hrec Hbad) as (Hr & Hpre).
    split; [done|]. simpl. by apply prefix_cons.
Qed.

(** With the objects before it intact and released without failure, the
    run ends in the [assert(0)], [free_func] having seen exactly those
    objects. *)
Lemma release_aborts (h : harness A) (v1 v2 : list object_t) (o : object_t) :
  (forall x, x ∈ v1 -> tag_broken (bytes A h) x = false) ->
  (forall a x, x ∈ v1 -> exists a', free_func a (ptr x) = Done a') ->
  tag_broken (bytes A h) o = true ->
  release_objects A free_func h (v1 ++ o :: v2) = (ptr <$> v1, Abort).
Proof.
  revert h. induction v1 as [|x v1 IH]; intros h Hok Hfree Hbad.
  - simpl. by rewrite Hbad.
  - cbn [app release_objects].
    rewrite (Hok x) by (apply elem_of_cons; auto).
    destruct (Hfree (alloc A h) x) as (a' & ->); [apply elem_of_cons; auto|].
    rewrite IH; [done| | |done].
    + intros y Hy. apply Hok. apply elem_of_cons. auto.
    + intros a y Hy. apply Hfree. apply elem_of_cons. auto.
Qed.
End ChallengeFacts.

End HarnessTheory.

(** * The claims of the specification *)

Import Scenarios.

(** ** C1: AVL balance of the free-block tree *)

(** C1.  The specification says that after any sequence of inserts and
    removes every node of the best-fit tree satisfies
    |height(left) - height(right)| <= 1.  The code rotates once and never
    refreshes the heights afterwards: after
    [best_fit_initialize(); p = best_fit_malloc(8); best_fit_free(p);] the
    root has a left subtree of height 2 and no right subtree, and the stored
    height fields are off balance as well. *)
Theorem C1_tree_unbalanced_after_free :
  exists st,
    bf_malloc_free = Done st /\
    BestFit.tree_rep (BestFit.heap st) (BestFit.free_head st) unbalanced_tree /\
    ~ BestFit.avl unbalanced_tree /\
    ~ BestFit.avl_stored unbalanced_tree.
Proof.
  eexists. split; [vm_compute; reflexivity|]. split.
  - apply BestFitTheory.tree_repb_sound. vm_compute. reflexivity.
  - split; simpl; intros (H & _); lia.
Qed.

(** ** C2: best-fit minimality *)

(** C2.  Whenever the search of [best_fit_malloc] finds a candidate, the
    block handed out is that candidate, and its size is the least among the
    sizes of the free blocks of the tree that are at least the request.  With
    free blocks of sizes 24 and 40 (and the dummy of size 0), a request for 20
    takes the 24-sized block. *)
Theorem C2_best_fit_minimality :
  (forall (st : BestFit.state) (t : BestFit.tree) (live : list (Z * Z))
          (req : Z) (f0 : nat) (best : Z) (f : nat) (st' : BestFit.state) (p : Z),
      BestFit.heap_inv st t live -> 0 <= req ->
      BestFit.best_fit_search f0 (BestFit.heap st) req (BestFit.free_head st) NULL
        = Done best ->
      best <> NULL ->
      BestFit.best_fit_malloc f st req = Done (st', p) ->
      p = best + BestFit.header_size /\
      exists s,
        (best, s) ∈ BestFit.elems t /\ req <= s /\
        forall b, b ∈ BestFit.elems t -> req <= b.2 -> s <= b.2) /\
  (exists st st',
      bf_24_40 = Done st /\
      BestFit.tree_rep (BestFit.heap st) (BestFit.free_head st) tree_24_40 /\
      BestFit.sizes tree_24_40 = [0; 24; 40] /\
      (4096, 24) ∈ BestFit.elems tree_24_40 /\
      BestFit.best_fit_malloc 8 st 20 = Done (st', 4096 + BestFit.header_size)).
Proof.
  split.
  - intros st t live req f0 best f st' p Hinv Hreq Hsearch Hbest Hrun.
    pose proof (BestFitTheory.search_Done st t f0 req best
                  (BestFit.inv_rep _ _ _ Hinv) Hsearch) as Heq.
    destruct (BestFit.search_t req t) as [[b s]|] eqn:Hs; [|done].
    simpl in Heq. subst b.
    destruct (BestFitTheory.malloc_inv st t live req f st' p Hinv Hreq Hrun)
      as (t' & b' & Hm & _ & -> & _).
    pose proof (BestFitTheory.malloc_t_addr _ _ _ _ _ _ (BestFit.inv_bst _ _ _ Hinv) Hm)
      as Haddr.
    rewrite Hs in Haddr. destruct Haddr as (-> & _). split; [done|].
    exists s. destruct (BestFitTheory.search_in _ _ _ Hs) as [Hin Hle].
    split; [done|]. split; [done|].
    intros b Hb Hbreq.
    apply (BestFitTheory.search_min req t (best, s) (BestFit.inv_bst _ _ _ Hinv) Hs b Hb Hbreq).
  - eexists. eexists. split; [vm_compute; reflexivity|]. split.
    { apply BestFitTheory.tree_repb_sound. vm_compute. reflexivity. }
    split; [reflexivity|]. split.
    { vm_compute. apply elem_of_cons. right. apply elem_of_cons. auto. }
    vm_compute. reflexivity.
Qed.

Lemma C2_witness :
  BestFit.heap_inv (state_of bf_24_40) tree_24_40 [(4224, 3936)] /\
  0 <= 20 /\
  BestFit.best_fit_search 8 (BestFit.heap (state_of bf_24_40)) 20
    (BestFit.free_head (state_of bf_24_40)) NULL = Done 4096 /\
  4096 <> NULL /\
  BestFit.best_fit_malloc 8 (state_of bf_24_40) 20
    = Done (state_of ('(st, _) ← BestFit.best_fit_malloc 8 (state_of bf_24_40) 20; Done st),
            4128) /\
  (4128 = 4096 + BestFit.header_size /\
   exists s,
     (4096, s) ∈ BestFit.elems tree_24_40 /\ 20 <= s /\
     forall b, b ∈ BestFit.elems tree_24_40 -> 20 <= b.2 -> s <= b.2).
Proof.
  assert (H1 : BestFit.heap_inv (state_of bf_24_40) tree_24_40 [(4224, 3936)]).
  { apply BestFitTheory.heap_invb_sound. vm_compute. reflexivity. }
  assert (H2 : 0 <= 20) by lia.
  assert (H3 : BestFit.best_fit_search 8 (BestFit.heap (state_of bf_24_40)) 20
                 (BestFit.free_head (state_of bf_24_40)) NULL = Done 4096).
  { vm_compute. reflexivity. }
  assert (H4 : 4096 <> NULL) by (unfold NULL; lia).
  assert (H5 : BestFit.best_fit_malloc 8 (state_of bf_24_40) 20
    = Done (state_of ('(st, _) ← BestFit.best_fit_malloc 8 (state_of bf_24_40) 20; Done st),
            4128)).
  { vm_compute. reflexivity. }
  split; [exact H1|]. split; [exact H2|]. split; [exact H3|]. split; [exact H4|].
  split; [exact H5|].
  exact (proj1 C2_best_fit_minimality _ _ _ _ _ _ _ _ _ H1 H2 H3 H4 H5).
Defined.

(** ** C3: the splitting rule *)

(** C3.  In both allocators, when a free block of size S is chosen for a
    request of size R: if S - R > sizeof(header) the block keeps R bytes, a
    new header of size S - R - sizeof(header) is written right after its
    payload, at payload + R, and that new block is in the free collection
    afterwards; otherwise the whole block is handed out and its size field
    still reads S. *)
Theorem C3_split_rule :
  (forall (st : BestFit.state) (t : BestFit.tree) (live : list (Z * Z))
          (R : Z) (f0 : nat) (b : Z) (md : BestFit.best_fit_metadata_t),
      BestFit.heap_inv st t live -> 0 <= R ->
      BestFit.best_fit_search f0 (BestFit.heap st) R (BestFit.free_head st) NULL
        = Done b ->
      b <> NULL -> BestFit.heap st !! b = Some md ->
      R <= BestFit.size md /\
      exists f st',
        BestFit.best_fit_malloc f st R = Done (st', b + BestFit.header_size) /\
        if BestFit.header_size <? BestFit.size md - R then
          BestFit.size <$> (BestFit.heap st' !! b) = Some R /\
          BestFit.size <$> (BestFit.heap st' !! (b + BestFit.header_size + R))
            = Some (BestFit.size md - R - BestFit.header_size) /\
          exists t',
            BestFit.tree_rep (BestFit.heap st') (BestFit.free_head st') t' /\
            (b + BestFit.header_size + R, BestFit.size md - R - BestFit.header_size)
              ∈ BestFit.elems t'
        else BestFit.size <$> (BestFit.heap st' !! b) = Some (BestFit.size md)) /\
  (forall (st : FirstFit.state) (l live : list (Z * Z))
          (R : Z) (f0 : nat) (b prev : Z) (md : FirstFit.first_fit_metadata_t),
      FirstFit.heap_inv st l live -> 0 <= R ->
      FirstFit.first_fit_scan f0 (FirstFit.heap st) R (FirstFit.free_head st) NULL
        = Done (b, prev) ->
      b <> NULL -> FirstFit.heap st !! b = Some md ->
      R <= FirstFit.size md /\
      exists f st',
        FirstFit.first_fit_malloc f st R = Done (st', b + FirstFit.header_size) /\
        if FirstFit.header_size <? FirstFit.size md - R then
          FirstFit.size <$> (FirstFit.heap st' !! b) = Some R /\
          FirstFit.size <$> (FirstFit.heap st' !! (b + FirstFit.header_size + R))
            = Some (FirstFit.size md - R - FirstFit.header_size) /\
          exists l',
            FirstFit.list_rep (FirstFit.heap st') (FirstFit.free_head st') l' /\
            (b + FirstFit.header_size + R, FirstFit.size md - R - FirstFit.header_size)
              ∈ l'
        else FirstFit.size <$> (FirstFit.heap st' !! b) = Some (FirstFit.size md)).
Proof.
  split.
  - intros st t live R f0 b md Hinv HR Hsearch Hb Hmd.
    pose proof (BestFitTheory.search_Done_found st t live f0 R b md Hinv Hsearch Hb Hmd)
      as Hs.
    destruct (BestFitTheory.search_in _ _ _ Hs) as [Hin Hle]. simpl in Hle.
    split; [done|].
    destruct (BestFitTheory.malloc_take st t live R b (BestFit.size md) Hinv HR Hs)
      as (t1 & f & st' & Hrm & Hrun & _ & _ & Hpost).
    exists f, st'. split; [done|].
    destruct (BestFit.header_size <? BestFit.size md - R).
    + pose proof (BestFit.inv_live _ _ _ Hpost (b, R) ltac:(apply elem_of_cons; auto))
        as Hhead.
      cbn [fst snd] in Hhead. rewrite Hhead. split; [done|].
      set (new := b + BestFit.header_size + R) in *.
      set (rest := BestFit.size md - R - BestFit.header_size) in *.
      assert (Hnew : (new, rest) ∈ BestFit.elems (BestFit.insert_t new rest 1 t1)).
      { apply BestFitTheory.elem_of_insert. auto. }
      destruct (BestFitTheory.tree_rep_size _ _ _ _ _ (BestFit.inv_rep _ _ _ Hpost) Hnew)
        as (md' & Hmd' & Hsz).
      rewrite Hmd'. simpl. split; [by rewrite Hsz|].
      eexists. split; [exact (BestFit.inv_rep _ _ _ Hpost)|exact Hnew].
    + pose proof (BestFit.inv_live _ _ _ Hpost (b, BestFit.size md)
                    ltac:(apply elem_of_cons; auto)) as Hhead.
      cbn [fst snd] in Hhead. by rewrite Hhead.
  - intros st l live R f0 b prev md Hinv HR Hscan Hb Hmd.
    pose proof (FirstFitTheory.ff_scan_Done st l f0 R (b, prev)
                  (FirstFit.inv_rep _ _ _ Hinv) Hscan) as Heq.
    destruct (FirstFit.split_first R l) as [[[l1 b0] l2]|] eqn:Hs;
      [|by injection Heq as -> _].
    injection Heq as -> _.
    destruct (FirstFitTheory.ff_split_first_spec _ _ _ _ _ Hs) as (Hl & _ & Hle).
    assert (Hin : b0 ∈ l).
    { rewrite Hl. apply elem_of_app. right. apply elem_of_cons. auto. }
    destruct (FirstFitTheory.ff_list_rep_lookup _ _ _ _ (FirstFit.inv_rep _ _ _ Hinv) Hin)
      as (_ & nx & Hmd0).
    assert (Hsz : FirstFit.size md = b0.2) by (rewrite Hmd0 in Hmd; by injection Hmd as <-).
    rewrite Hsz. split; [done|].
    destruct (FirstFitTheory.ff_malloc_take st l live l1 l2 R b0 Hinv HR Hs)
      as (f & st' & Hrun & _ & _ & Hpost).
    exists f, st'. split; [done|]. unfold FirstFit.take_l in Hpost.
    destruct (FirstFit.header_size <? b0.2 - R); cbn [fst snd] in Hpost.
    + pose proof (FirstFit.inv_live _ _ _ Hpost (b0.1, R) ltac:(apply elem_of_cons; auto))
        as Hhead.
      cbn [fst snd] in Hhead. rewrite Hhead. split; [done|].
      pose proof (FirstFit.inv_rep _ _ _ Hpost) as Hrep.
      destruct (FirstFitTheory.ff_list_rep_lookup _ _ _
                  (b0.1 + FirstFit.header_size + R, b0.2 - R - FirstFit.header_size) Hrep)
        as (_ & nx' & Hnew); [apply elem_of_cons; auto|].
      cbn [fst snd] in Hnew. rewrite Hnew. split; [done|].
      eexists. split; [exact Hrep|]. apply elem_of_cons. auto.
    + pose proof (FirstFit.inv_live _ _ _ Hpost (b0.1, b0.2)
                    ltac:(apply elem_of_cons; auto)) as Hhead.
      cbn [fst snd] in Hhead. by rewrite Hhead.
Qed.

Lemma C3_witness :
  (BestFit.heap_inv (state_of bf_24_40) tree_24_40 [(4224, 3936)] /\
   0 <= 20 /\
   BestFit.best_fit_search 8 (BestFit.heap (state_of bf_24_40)) 20
     (BestFit.free_head (state_of bf_24_40)) NULL = Done 4096 /\
   4096 <> NULL /\
   BestFit.heap (state_of bf_24_40) !! 4096 = Some (BestFit.fresh_header 24) /\
   20 <= 24 /\
   exists f st',
     BestFit.best_fit_malloc f (state_of bf_24_40) 20
       = Done (st', 4096 + BestFit.header_size) /\
     BestFit.size <$> (BestFit.heap st' !! 4096) = Some 24) /\
  (FirstFit.heap_inv (ff_state_of ff_40_24) list_40_24 [(4192, 3984)] /\
   0 <= 20 /\
   FirstFit.first_fit_scan 4 (FirstFit.heap (ff_state_of ff_40_24)) 20
     (FirstFit.free_head (ff_state_of ff_40_24)) NULL = Done (4136, NULL) /\
   4136 <> NULL /\
   FirstFit.heap (ff_state_of ff_40_24) !! 4136
     = Some {| FirstFit.size := 40; FirstFit.next := 4096 |} /\
   20 <= 40 /\
   exists f st',
     FirstFit.first_fit_malloc f (ff_state_of ff_40_24) 20
       = Done (st', 4136 + FirstFit.header_size) /\
     FirstFit.size <$> (FirstFit.heap st' !! 4136) = Some 20 /\
     FirstFit.size <$> (FirstFit.heap st' !! (4136 + FirstFit.header_size + 20))
       = Some (40 - 20 - FirstFit.header_size) /\
     exists l',
       FirstFit.list_rep (FirstFit.heap st') (FirstFit.free_head st') l' /\
       (4136 + FirstFit.header_size + 20, 40 - 20 - FirstFit.header_size) ∈ l').
Proof.
  split.
  - assert (H1 : BestFit.heap_inv (state_of bf_24_40) tree_24_40 [(4224, 3936)]).
    { apply BestFitTheory.heap_invb_sound. vm_compute. reflexivity. }
    assert (H2 : 0 <= 20) by lia.
    assert (H3 : BestFit.best_fit_search 8 (BestFit.heap (state_of bf_24_40)) 20
                   (BestFit.free_head (state_of bf_24_40)) NULL = Done 4096).
    { vm_compute. reflexivity. }
    assert (H4 : 4096 <> NULL) by (unfold NULL; lia).
    assert (H5 : BestFit.heap (state_of bf_24_40) !! 4096
                 = Some (BestFit.fresh_header 24)).
    { vm_compute. reflexivity. }
    split; [exact H1|]. split; [exact H2|]. split; [exact H3|]. split; [exact H4|].
    split; [exact H5|].
    exact (proj1 C3_split_rule _ _ _ _ _ _ _ H1 H2 H3 H4 H5).
  - assert (H1 : FirstFit.heap_inv (ff_state_of ff_40_24) list_40_24 [(4192, 3984)]).
    { apply FirstFitTheory.ff_heap_invb_sound. vm_compute. reflexivity. }
    assert (H2 : 0 <= 20) by lia.
    assert (H3 : FirstFit.first_fit_scan 4 (FirstFit.heap (ff_state_of ff_40_24)) 20
                   (FirstFit.free_head (ff_state_of ff_40_24)) NULL = Done (4136, NULL)).
    { vm_compute. reflexivity. }
    assert (H4 : 4136 <> NULL) by (unfold NULL; lia).
    assert (H5 : FirstFit.heap (ff_state_of ff_40_24) !! 4136
                 = Some {| FirstFit.size := 40; FirstFit.next := 4096 |}).
    { vm_compute. reflexivity. }
    split; [exact H1|]. split; [exact H2|]. split; [exact H3|]. split; [exact H4|].
    split; [exact H5|].
    exact (proj2 C3_split_rule _ _ _ _ _ _ _ _ H1 H2 H3 H4 H5).
Defined.

(** ** C4: first fit *)

(** C4.  [first_fit_malloc] returns the payload of the first block of the
    free list, in list order, whose size is at least the request, however
    large that block is; every finished run returns it.  With the 40-sized
    block before the 24-sized block, a request for 20 returns the 40-sized
    block. *)
Theorem C4_first_fit :
  (forall (st : FirstFit.state) (live l1 l2 : list (Z * Z)) (b : Z * Z) (R : Z),
      FirstFit.heap_inv st (l1 ++ b :: l2) live -> 0 <= R ->
      (forall x, x ∈ l1 -> x.2 < R) -> R <= b.2 ->
      exists f st',
        FirstFit.first_fit_malloc f st R = Done (st', b.1 + FirstFit.header_size) /\
        forall f' r, FirstFit.first_fit_malloc f' st R = r -> r <> Timeout ->
                     r = Done (st', b.1 + FirstFit.header_size)) /\
  (exists st st',
      ff_40_24 = Done st /\
      FirstFit.list_rep (FirstFit.heap st) (FirstFit.free_head st) list_40_24 /\
      FirstFit.first_fit_malloc 4 st 20 = Done (st', 4136 + FirstFit.header_size)).
Proof.
  split.
  - intros st live l1 l2 b R Hinv HR Hsm Hle.
    pose proof (FirstFitTheory.ff_split_first_intro R l1 l2 b Hsm Hle) as Hs.
    destruct (FirstFitTheory.ff_malloc_take st _ live l1 l2 R b Hinv HR Hs)
      as (f & st' & Hrun & _).
    exists f, st'. split; [done|].
    intros f' r Hr Hfin.
    symmetry. eapply FirstFitTheory.ff_malloc_det; [exact Hrun|exact Hr|done|done].
  - eexists. eexists. split; [vm_compute; reflexivity|]. split.
    { apply FirstFitTheory.ff_list_repb_sound. vm_compute. reflexivity. }
    vm_compute. reflexivity.
Qed.

Lemma C4_witness :
  FirstFit.heap_inv (ff_state_of ff_40_24) ([] ++ (4136, 40) :: [(4096, 24); (64, 0)])
    [(4192, 3984)] /\
  0 <= 20 /\
  (forall x : Z * Z, x ∈ [] -> x.2 < 20) /\
  20 <= 40 /\
  exists f st',
    FirstFit.first_fit_malloc f (ff_state_of ff_40_24) 20
      = Done (st', 4136 + FirstFit.header_size) /\
    forall f' r, FirstFit.first_fit_malloc f' (ff_state_of ff_40_24) 20 = r ->
                 r <> Timeout -> r = Done (st', 4136 + FirstFit.header_size).
Proof.
  assert (H1 : FirstFit.heap_inv (ff_state_of ff_40_24)
                 ([] ++ (4136, 40) :: [(4096, 24); (64, 0)]) [(4192, 3984)]).
  { apply FirstFitTheory.ff_heap_invb_sound. vm_compute. reflexivity. }
  assert (H2 : 0 <= 20) by lia.
  assert (H3 : forall x : Z * Z, x ∈ [] -> x.2 < 20).
  { intros x Hx. by apply elem_of_nil in Hx. }
  assert (H4 : 20 <= 40) by lia.
  split; [exact H1|]. split; [exact H2|]. split; [exact H3|]. split; [exact H4|].
  exact (proj1 C4_first_fit _ _ _ _ (4136, 40) _ H1 H2 H3 H4).
Defined.

(** ** C5: requests larger than a page can hold *)

(** C5, as the specification states it, fails: on the freshly initialized
    allocators a request for 5000 bytes never finishes, neither with a
    pointer nor with an error, whatever the fuel. *)
Lemma C5_counterexample :
  ~ (exists f, BestFit.best_fit_malloc f bf_init 5000 <> Timeout) /\
  ~ (exists f, FirstFit.first_fit_malloc f ff_init 5000 <> Timeout).
Proof.
  split; intros (f & Hf); apply Hf.
  - eapply (BestFitTheory.malloc_oversize bf_init (BestFit.T 64 0 BestFit.E BestFit.E 1) []).
    + apply BestFitTheory.heap_invb_sound. vm_compute. reflexivity.
    + unfold BestFit.header_size. lia.
  - eapply (FirstFitTheory.ff_malloc_oversize ff_init [(64, 0)] []).
    + apply FirstFitTheory.ff_heap_invb_sound. vm_compute. reflexivity.
    + unfold FirstFit.header_size. lia.
Qed.

(** C5, amended.  A request larger than what a page can hold,
    4096 - sizeof(header), does not fail fast: no free block is large enough,
    the fresh page is not either, and the call retries, so it never returns;
    every request up to that capacity returns. *)
Theorem C5_oversize_never_returns :
  (forall (st : BestFit.state) (t : BestFit.tree) (live : list (Z * Z)),
      BestFit.heap_inv st t live ->
      (forall req, 4096 - BestFit.header_size < req ->
                   forall f, BestFit.best_fit_malloc f st req = Timeout) /\
      (forall req, 0 <= req <= 4096 - BestFit.header_size ->
                   exists f st' p, BestFit.best_fit_malloc f st req = Done (st', p))) /\
  (forall (st : FirstFit.state) (l live : list (Z * Z)),
      FirstFit.heap_inv st l live ->
      (forall req, 4096 - FirstFit.header_size < req ->
                   forall f, FirstFit.first_fit_malloc f st req = Timeout) /\
      (forall req, 0 <= req <= 4096 - FirstFit.header_size ->
                   exists f st' p, FirstFit.first_fit_malloc f st req = Done (st', p))).
Proof.
  split.
  - intros st t live Hinv. split.
    + intros req Hreq. by apply (BestFitTheory.malloc_oversize st t live).
    + intros req Hreq.
      destruct (BestFitTheory.malloc_ok st t live req Hinv Hreq)
        as (f & st' & t' & b & Hrun & _).
      eauto.
  - intros st l live Hinv. split.
    + intros req Hreq. by apply (FirstFitTheory.ff_malloc_oversize st l live).
    + intros req Hreq.
      destruct (FirstFitTheory.ff_malloc_ok st l live req Hinv Hreq)
        as (f & st' & l' & b & Hrun & _).
      eauto.
Qed.

Lemma C5_witness :
  (BestFit.heap_inv bf_init (BestFit.T 64 0 BestFit.E BestFit.E 1) [] /\
   (forall req, 4096 - BestFit.header_size < req ->
                forall f, BestFit.best_fit_malloc f bf_init req = Timeout) /\
   (forall req, 0 <= req <= 4096 - BestFit.header_size ->
                exists f st' p, BestFit.best_fit_malloc f bf_init req = Done (st', p))) /\
  (FirstFit.heap_inv ff_init [(64, 0)] [] /\
   (forall req, 4096 - FirstFit.header_size < req ->
                forall f, FirstFit.first_fit_malloc f ff_init req = Timeout) /\
   (forall req, 0 <= req <= 4096 - FirstFit.header_size ->
                exists f st' p, FirstFit.first_fit_malloc f ff_init req = Done (st', p))).
Proof.
  split.
  - assert (H1 : BestFit.heap_inv bf_init (BestFit.T 64 0 BestFit.E BestFit.E 1) []).
    { apply BestFitTheory.heap_invb_sound. vm_compute. reflexivity. }
    split; [exact H1|].
    exact (proj1 C5_oversize_never_returns _ _ _ H1).
  - assert (H1 : FirstFit.heap_inv ff_init [(64, 0)] []).
    { apply FirstFitTheory.ff_heap_invb_sound. vm_compute. reflexivity. }
    split; [exact H1|].
    exact (proj2 C5_oversize_never_returns _ _ _ H1).
Defined.

(** ** C6: supported request sizes *)

(** A run of [best_fit_malloc] that finds no block goes through the state in
    which the page just mapped is a node of the tree, and its result is that
    of the retried call. *)
Lemma bf_page_retry (st : BestFit.state) (t : BestFit.tree) (live : list (Z * Z))
    (req : Z) (f : nat) (st' : BestFit.state) (p : Z) :
  BestFit.heap_inv st t live -> BestFit.search_t req t = None ->
  BestFit.best_fit_malloc f st req = Done (st', p) ->
  exists fi s1 st1 fr,
    mmap_from_system (BestFit.sys st) 4096 = Done (s1, brk (BestFit.sys st)) /\
    BestFit.best_fit_insert_to_tree fi
      (BestFit.with_heap (BestFit.with_sys st s1)
         (<[brk (BestFit.sys st)
            := BestFit.fresh_header (wrap (4096 - BestFit.header_size))]> (BestFit.heap st)))
      (brk (BestFit.sys st)) = Done st1 /\
    BestFit.sys st1 = s1 /\
    BestFit.heap_inv st1
      (BestFit.insert_t (brk (BestFit.sys st)) (4096 - BestFit.header_size) 1 t) live /\
    BestFit.best_fit_malloc fr st1 req = Done (st', p).
Proof.
  intros Hinv Hs Hrun.
  destruct (BestFitTheory.grow_inv st t live Hinv)
    as (fi & s1 & st1 & Hmap & _ & _ & Hins & Hsys1 & _ & Hinv1).
  set (n := Nat.max f (Nat.max (S (BestFit.depth t)) fi)).
  apply (BestFitTheory.malloc_mono _ (S n)) in Hrun; [|done|lia].
  cbn [BestFit.best_fit_malloc] in Hrun.
  rewrite (BestFitTheory.search_refines _ _ req _ NULL t (BestFit.inv_rep _ _ _ Hinv))
    in Hrun by lia.
  rewrite Hs, bind_Done in Hrun. cbn [Z.eqb NULL] in Hrun.
  rewrite Hmap, bind_Done in Hrun.
  rewrite (BestFitTheory.insert_to_tree_mono fi _ _ _ _ Hins ltac:(done)) in Hrun by lia.
  rewrite bind_Done in Hrun.
  exists fi, s1, st1, n. done.
Qed.

(** The same for [first_fit_malloc]: the page just mapped is the head of the
    free list when the call is retried. *)
Lemma ff_page_retry (st : FirstFit.state) (l live : list (Z * Z))
    (req : Z) (f : nat) (st' : FirstFit.state) (p : Z) :
  FirstFit.heap_inv st l live -> FirstFit.split_first req l = None ->
  FirstFit.first_fit_malloc f st req = Done (st', p) ->
  exists s1 st1 fr,
    mmap_from_system (FirstFit.sys st) 4096 = Done (s1, brk (FirstFit.sys st)) /\
    FirstFit.first_fit_add_to_free_list
      (FirstFit.with_heap (FirstFit.with_sys st s1)
         (<[brk (FirstFit.sys st)
            := FirstFit.fresh_header (wrap (4096 - FirstFit.header_size))]>
            (FirstFit.heap st)))
      (brk (FirstFit.sys st)) = Done st1 /\
    FirstFit.sys st1 = s1 /\
    FirstFit.heap_inv st1
      ((brk (FirstFit.sys st), 4096 - FirstFit.header_size) :: l) live /\
    FirstFit.first_fit_malloc fr st1 req = Done (st', p).
Proof.
  intros Hinv Hs Hrun.
  destruct (FirstFitTheory.ff_grow_inv st l live Hinv)
    as (s1 & st1 & Hmap & _ & _ & Hadd & Hsys1 & _ & Hinv1).
  set (n := Nat.max f (S (length l))).
  apply (FirstFitTheory.ff_malloc_mono _ (S n)) in Hrun; [|done|lia].
  cbn [FirstFit.first_fit_malloc] in Hrun.
  rewrite (FirstFitTheory.ff_scan_refines _ _ req _ NULL l (FirstFit.inv_rep _ _ _ Hinv))
    in Hrun by lia.
  rewrite Hs, bind_Done in Hrun. cbn [Z.eqb NULL] in Hrun.
  rewrite Hmap, bind_Done in Hrun.
  change (FirstFit.heap (FirstFit.with_sys st s1)) with (FirstFit.heap st) in Hrun.
  rewrite Hadd, bind_Done in Hrun.
  exists s1, st1, n. done.
Qed.

(** C6.  For every size between 8 and 4000 that is a multiple of 8, both
    allocators return, and every finished run returns the same.  The pointer
    is not null: it is the payload of a block [b] whose header, in the state
    left, carries a size of at least the request, and the state left is a
    heap with [b] in use beside the blocks that were.  Either no page is
    mapped and [b] was cut from a free block that could hold the request; or
    no free block could hold it and exactly one page is mapped: the page is
    written as one header of size 4096 - sizeof(header) and linked into the
    free collection, which then holds that block beside the blocks it held,
    and the call retried in that state returns the result, the payload of the
    page, without mapping again. *)
Theorem C6_supported_sizes :
  (forall (st : BestFit.state) (t : BestFit.tree) (live : list (Z * Z)) (size : Z),
      BestFit.heap_inv st t live -> 8 <= size <= 4000 -> size mod 8 = 0 ->
      exists f st' p t' b,
        BestFit.best_fit_malloc f st size = Done (st', p) /\
        p <> NULL /\
        p = BestFit.payload b /\ size <= b.2 /\
        BestFit.heap st' !! b.1 = Some (BestFit.fresh_header b.2) /\
        BestFit.heap_inv st' t' (b :: live) /\
        ((BestFit.sys st' = BestFit.sys st /\
          exists x, x ∈ BestFit.elems t /\ x.1 = b.1 /\ size <= x.2) \/
         ((forall x, x ∈ BestFit.elems t -> x.2 < size) /\
          brk (BestFit.sys st') = brk (BestFit.sys st) + 4096 /\
          mmap_size (BestFit.sys st') = wrap (mmap_size (BestFit.sys st) + 4096) /\
          p = brk (BestFit.sys st) + BestFit.header_size /\
          exists fi s1 st1 fr,
            mmap_from_system (BestFit.sys st) 4096 = Done (s1, brk (BestFit.sys st)) /\
            BestFit.best_fit_insert_to_tree fi
              (BestFit.with_heap (BestFit.with_sys st s1)
                 (<[brk (BestFit.sys st)
                    := BestFit.fresh_header (wrap (4096 - BestFit.header_size))]>
                    (BestFit.heap st)))
              (brk (BestFit.sys st)) = Done st1 /\
            BestFit.heap_inv st1
              (BestFit.insert_t (brk (BestFit.sys st)) (4096 - BestFit.header_size) 1 t)
              live /\
            BestFit.elems
              (BestFit.insert_t (brk (BestFit.sys st)) (4096 - BestFit.header_size) 1 t)
              ≡ₚ (brk (BestFit.sys st), 4096 - BestFit.header_size) :: BestFit.elems t /\
            BestFit.best_fit_malloc fr st1 size = Done (st', p) /\
            BestFit.sys st' = BestFit.sys st1)) /\
        forall f' r, BestFit.best_fit_malloc f' st size = r -> r <> Timeout ->
                     r = Done (st', p)) /\
  (forall (st : FirstFit.state) (l live : list (Z * Z)) (size : Z),
      FirstFit.heap_inv st l live -> 8 <= size <= 4000 -> size mod 8 = 0 ->
      exists f st' p l' b,
        FirstFit.first_fit_malloc f st size = Done (st', p) /\
        p <> NULL /\
        p = FirstFit.payload b /\ size <= b.2 /\
        FirstFit.heap st' !! b.1 = Some (FirstFit.fresh_header b.2) /\
        FirstFit.heap_inv st' l' (b :: live) /\
        ((FirstFit.sys st' = FirstFit.sys st /\
          exists x, x ∈ l /\ x.1 = b.1 /\ size <= x.2) \/
         ((forall x, x ∈ l -> x.2 < size) /\
          brk (FirstFit.sys st') = brk (FirstFit.sys st) + 4096 /\
          mmap_size (FirstFit.sys st') = wrap (mmap_size (FirstFit.sys st) + 4096) /\
          p = brk (FirstFit.sys st) + FirstFit.header_size /\
          exists s1 st1 fr,
            mmap_from_system (FirstFit.sys st) 4096 = Done (s1, brk (FirstFit.sys st)) /\
            FirstFit.first_fit_add_to_free_list
              (FirstFit.with_heap (FirstFit.with_sys st s1)
                 (<[brk (FirstFit.sys st)
                    := FirstFit.fresh_header (wrap (4096 - FirstFit.header_size))]>
                    (FirstFit.heap st)))
              (brk (FirstFit.sys st)) = Done st1 /\
            FirstFit.heap_inv st1
              ((brk (FirstFit.sys st), 4096 - FirstFit.header_size) :: l) live /\
            FirstFit.first_fit_malloc fr st1 size = Done (st', p) /\
            FirstFit.sys st' = FirstFit.sys st1)) /\
        forall f' r, FirstFit.first_fit_malloc f' st size = r -> r <> Timeout ->
                     r = Done (st', p)).
Proof.
  split.
  - intros st t live size Hinv Hsize _.
    assert (Hreq : 0 <= size <= 4096 - BestFit.header_size)
      by (unfold BestFit.header_size; lia).
    destruct (BestFitTheory.malloc_ok st t live size Hinv Hreq)
      as (f & st' & t0 & b0 & Hrun & _).
    destruct (BestFitTheory.malloc_inv st t live size f st' _ Hinv (proj1 Hreq) Hrun)
      as (t' & b & Hm & Hinv' & Hp & Hle & _ & Hsys).
    rewrite Hp in Hrun. clear Hp t0 b0.
    pose proof (BestFitTheory.malloc_t_addr _ _ _ _ _ _ (BestFit.inv_bst _ _ _ Hinv) Hm)
      as Haddr.
    exists f, st', (b.1 + BestFit.header_size), t', b.
    split; [done|]. split; [|split; [done|split; [done|split; [|split; [done|split]]]]].
    + destruct (BestFit.inv_blocks _ _ _ Hinv') as (_ & Hbd & _).
      destruct (Hbd b) as (Hpos & _).
      { apply elem_of_app. right. apply elem_of_cons. auto. }
      unfold NULL, BestFit.header_size in *. lia.
    + apply (BestFit.inv_live _ _ _ Hinv'). apply elem_of_cons. auto.
    + destruct (BestFit.search_t size t) as [c|] eqn:Hs.
      * left. destruct Haddr as (Hb & Hbrk).
        destruct Hsys as [Hsys|(Hnone & _)]; [|done]. split; [done|].
        destruct (BestFitTheory.search_in _ _ _ Hs) as (Hin & Hfit).
        exists c. done.
      * right. destruct Haddr as (Hb & Hbrk).
        destruct Hsys as [Hsys|(_ & _ & Hmm)]; [rewrite Hsys in Hbrk; lia|].
        split; [by apply BestFitTheory.search_none; [apply (BestFit.inv_bst _ _ _ Hinv)|]|].
        split; [done|]. split; [done|]. split; [lia|].
        destruct (bf_page_retry st t live size f st' _ Hinv Hs Hrun)
          as (fi & s1 & st1 & fr & Hmap & Hins & Hsys1 & Hinv1 & Hretry).
        exists fi, s1, st1, fr.
        split; [done|]. split; [done|]. split; [done|].
        split; [apply BestFitTheory.elems_insert|]. split; [done|].
        destruct (BestFitTheory.malloc_inv st1 _ live size fr st' _ Hinv1 (proj1 Hreq) Hretry)
          as (_ & _ & _ & _ & _ & _ & _ & [Heq|(Hnone & _)]); [done|].
        destruct (BestFitTheory.search_some size
                    (BestFit.insert_t (brk (BestFit.sys st)) (4096 - BestFit.header_size) 1 t)
                    (brk (BestFit.sys st), 4096 - BestFit.header_size)
                    (BestFit.inv_bst _ _ _ Hinv1)) as (y & Hy).
        { apply BestFitTheory.elem_of_insert. auto. }
        { simpl. lia. }
        congruence.
    + intros f' r Hr Hfin. symmetry.
      eapply BestFitTheory.malloc_det; [exact Hrun|exact Hr|done|done].
  - intros st l live size Hinv Hsize _.
    assert (Hreq : 0 <= size <= 4096 - FirstFit.header_size)
      by (unfold FirstFit.header_size; lia).
    destruct (FirstFitTheory.ff_malloc_ok st l live size Hinv Hreq)
      as (f & st' & l0 & b0 & Hrun & _).
    destruct (FirstFitTheory.ff_malloc_inv st l live size f st' _ Hinv (proj1 Hreq) Hrun)
      as (l' & b & Hm & Hinv' & Hp & Hle & _ & Hsys).
    rewrite Hp in Hrun. clear Hp l0 b0.
    exists f, st', (b.1 + FirstFit.header_size), l', b.
    split; [done|]. split; [|split; [done|split; [done|split; [|split; [done|split]]]]].
    + destruct (FirstFit.inv_blocks _ _ _ Hinv') as (_ & Hbd & _).
      destruct (Hbd b) as (Hpos & _).
      { apply elem_of_app. right. apply elem_of_cons. auto. }
      unfold NULL, FirstFit.header_size in *. lia.
    + apply (FirstFit.inv_live _ _ _ Hinv'). apply elem_of_cons. auto.
    + unfold FirstFit.malloc_l in Hm.
      destruct (FirstFit.split_first size l) as [[[l1 c] l2]|] eqn:Hs.
      * left. injection Hm as Ht Hbrk.
        destruct Hsys as [Hsys|(Hnone & _)]; [|done]. split; [done|].
        destruct (FirstFitTheory.ff_split_first_spec _ _ _ _ _ Hs) as (-> & _ & Hfit).
        exists c. split; [apply elem_of_app; right; apply elem_of_cons; auto|].
        split; [|done].
        pose proof (FirstFitTheory.ff_take_l_addr size c.1 c.2 (l1 ++ l2)) as Haddr.
        rewrite Ht in Haddr. done.
      * right. destruct (4096 - FirstFit.header_size <? size); [done|].
        injection Hm as Ht Hbrk.
        destruct Hsys as [Hsys|(_ & _ & Hmm)]; [rewrite Hsys in Hbrk; lia|].
        split; [by apply FirstFitTheory.ff_split_first_none|].
        split; [done|]. split; [done|]. split.
        { pose proof (FirstFitTheory.ff_take_l_addr size (brk (FirstFit.sys st))
                        (4096 - FirstFit.header_size) l) as Haddr.
          rewrite Ht in Haddr. simpl in Haddr. lia. }
        destruct (ff_page_retry st l live size f st' _ Hinv Hs Hrun)
          as (s1 & st1 & fr & Hmap & Hadd & Hsys1 & Hinv1 & Hretry).
        exists s1, st1, fr.
        split; [done|]. split; [done|]. split; [done|]. split; [done|].
        destruct (FirstFitTheory.ff_malloc_inv st1 _ live size fr st' _ Hinv1
                    (proj1 Hreq) Hretry)
          as (_ & _ & _ & _ & _ & _ & _ & [Heq|(Hnone & _)]); [done|].
        pose proof (FirstFitTheory.ff_split_first_none _ _ Hnone
                      (brk (FirstFit.sys st), 4096 - FirstFit.header_size)) as Hsmall.
        rewrite elem_of_cons in Hsmall. specialize (Hsmall (or_introl eq_refl)).
        simpl in Hsmall. lia.
    + intros f' r Hr Hfin. symmetry.
      eapply FirstFitTheory.ff_malloc_det; [exact Hrun|exact Hr|done|done].
Qed.

Lemma C6_witness :
  (BestFit.heap_inv bf_init (BestFit.T 64 0 BestFit.E BestFit.E 1) [] /\
   8 <= 8 <= 4000 /\ 8 mod 8 = 0 /\
   exists f st' p t' b,
     BestFit.best_fit_malloc f bf_init 8 = Done (st', p) /\
     p <> NULL /\
     p = BestFit.payload b /\ 8 <= b.2 /\
     BestFit.heap st' !! b.1 = Some (BestFit.fresh_header b.2) /\
     BestFit.heap_inv st' t' (b :: []) /\
     ((BestFit.sys st' = BestFit.sys bf_init /\
       exists x, x ∈ BestFit.elems (BestFit.T 64 0 BestFit.E BestFit.E 1) /\
                 x.1 = b.1 /\ 8 <= x.2) \/
      ((forall x, x ∈ BestFit.elems (BestFit.T 64 0 BestFit.E BestFit.E 1) -> x.2 < 8) /\
       brk (BestFit.sys st') = brk (BestFit.sys bf_init) + 4096 /\
       mmap_size (BestFit.sys st') = wrap (mmap_size (BestFit.sys bf_init) + 4096) /\
       p = brk (BestFit.sys bf_init) + BestFit.header_size /\
       exists fi s1 st1 fr,
         mmap_from_system (BestFit.sys bf_init) 4096
           = Done (s1, brk (BestFit.sys bf_init)) /\
         BestFit.best_fit_insert_to_tree fi
           (BestFit.with_heap (BestFit.with_sys bf_init s1)
              (<[brk (BestFit.sys bf_init)
                 := BestFit.fresh_header (wrap (4096 - BestFit.header_size))]>
                 (BestFit.heap bf_init)))
           (brk (BestFit.sys bf_init)) = Done st1 /\
         BestFit.heap_inv st1
           (BestFit.insert_t (brk (BestFit.sys bf_init)) (4096 - BestFit.header_size) 1
              (BestFit.T 64 0 BestFit.E BestFit.E 1))
           [] /\
         BestFit.elems
           (BestFit.insert_t (brk (BestFit.sys bf_init)) (4096 - BestFit.header_size) 1
              (BestFit.T 64 0 BestFit.E BestFit.E 1))
           ≡ₚ (brk (BestFit.sys bf_init), 4096 - BestFit.header_size)
                :: BestFit.elems (BestFit.T 64 0 BestFit.E BestFit.E 1) /\
         BestFit.best_fit_malloc fr st1 8 = Done (st', p) /\
         BestFit.sys st' = BestFit.sys st1)) /\
     forall f' r, BestFit.best_fit_malloc f' bf_init 8 = r -> r <> Timeout ->
                  r = Done (st', p)) /\
  (FirstFit.heap_inv ff_init [(64, 0)] [] /\
   8 <= 4000 <= 4000 /\ 4000 mod 8 = 0 /\
   exists f st' p l' b,
     FirstFit.first_fit_malloc f ff_init 4000 = Done (st', p) /\
     p <> NULL /\
     p = FirstFit.payload b /\ 4000 <= b.2 /\
     FirstFit.heap st' !! b.1 = Some (FirstFit.fresh_header b.2) /\
     FirstFit.heap_inv st' l' (b :: []) /\
     ((FirstFit.sys st' = FirstFit.sys ff_init /\
       exists x, x ∈ [(64, 0)] /\ x.1 = b.1 /\ 4000 <= x.2) \/
      ((forall x, x ∈ [(64, 0)] -> x.2 < 4000) /\
       brk (FirstFit.sys st') = brk (FirstFit.sys ff_init) + 4096 /\
       mmap_size (FirstFit.sys st') = wrap (mmap_size (FirstFit.sys ff_init) + 4096) /\
       p = brk (FirstFit.sys ff_init) + FirstFit.header_size /\
       exists s1 st1 fr,
         mmap_from_system (FirstFit.sys ff_init) 4096
           = Done (s1, brk (FirstFit.sys ff_init)) /\
         FirstFit.first_fit_add_to_free_list
           (FirstFit.with_heap (FirstFit.with_sys ff_init s1)
              (<[brk (FirstFit.sys ff_init)
                 := FirstFit.fresh_header (wrap (4096 - FirstFit.header_size))]>
                 (FirstFit.heap ff_init)))
           (brk (FirstFit.sys ff_init)) = Done st1 /\
         FirstFit.heap_inv st1
           ((brk (FirstFit.sys ff_init), 4096 - FirstFit.header_size) :: [(64, 0)]) [] /\
         FirstFit.first_fit_malloc fr st1 4000 = Done (st', p) /\
         FirstFit.sys st' = FirstFit.sys st1)) /\
     forall f' r, FirstFit.first_fit_malloc f' ff_init 4000 = r -> r <> Timeout ->
                  r = Done (st', p)).
Proof.
  split.
  - assert (H1 : BestFit.heap_inv bf_init (BestFit.T 64 0 BestFit.E BestFit.E 1) []).
    { apply BestFitTheory.heap_invb_sound. vm_compute. reflexivity. }
    assert (H2 : 8 <= 8 <= 4000) by lia.
    assert (H3 : 8 mod 8 = 0) by reflexivity.
    split; [exact H1|]. split; [exact H2|]. split; [exact H3|].
    exact (proj1 C6_supported_sizes _ _ _ _ H1 H2 H3).
  - assert (H1 : FirstFit.heap_inv ff_init [(64, 0)] []).
    { apply FirstFitTheory.ff_heap_invb_sound. vm_compute. reflexivity. }
    assert (H2 : 8 <= 4000 <= 4000) by lia.
    assert (H3 : 4000 mod 8 = 0) by reflexivity.
    split; [exact H1|]. split; [exact H2|]. split; [exact H3|].
    exact (proj2 C6_supported_sizes _ _ _ _ H1 H2 H3).
Defined.

(** ** C7: release changes nothing but the linkage *)

(** C7.  In both allocators, releasing a live block returns exactly that
    block, at its address and with its size, to the free collection: the free
    collection afterwards holds the former free blocks and the released one,
    nothing is merged, the other live blocks stay as they are, and no size
    field in memory changes.  First fit writes the released header only. *)
Theorem C7_release_frame :
  (forall (st : BestFit.state) (t : BestFit.tree) (l1 l2 : list (Z * Z)) (b : Z * Z),
      BestFit.heap_inv st t (l1 ++ b :: l2) ->
      exists f st' t',
        BestFit.best_fit_free f st (b.1 + BestFit.header_size) = Done st' /\
        BestFit.heap_inv st' t' (l1 ++ l2) /\
        BestFit.elems t' ≡ₚ b :: BestFit.elems t /\
        BestFit.same_sizes (BestFit.heap st) (BestFit.heap st') /\
        forall f' r, BestFit.best_fit_free f' st (b.1 + BestFit.header_size) = r ->
                     r <> Timeout -> r = Done st') /\
  (forall (st : FirstFit.state) (l l1 l2 : list (Z * Z)) (b : Z * Z),
      FirstFit.heap_inv st l (l1 ++ b :: l2) ->
      exists st',
        FirstFit.first_fit_free st (b.1 + FirstFit.header_size) = Done st' /\
        FirstFit.heap_inv st' (b :: l) (l1 ++ l2) /\
        FirstFit.same_sizes (FirstFit.heap st) (FirstFit.heap st') /\
        FirstFit.unchanged_outside [b.1] (FirstFit.heap st) (FirstFit.heap st')).
Proof.
  split.
  - intros st t l1 l2 b Hinv.
    destruct (BestFitTheory.free_ok st t l1 l2 b Hinv)
      as (f & st' & Hrun & Hinv' & Hsz & _).
    exists f, st', (BestFit.insert_t b.1 b.2 1 t).
    split; [done|]. split; [done|]. split; [|split; [done|]].
    + rewrite BestFitTheory.elems_insert. by destruct b.
    + intros f' r Hr Hfin. unfold BestFit.best_fit_free in *.
      apply (BestFitTheory.insert_to_tree_mono _ (Nat.max f f')) in Hrun; [|done|lia].
      apply (BestFitTheory.insert_to_tree_mono _ (Nat.max f f')) in Hr; [|done|lia].
      congruence.
  - intros st l l1 l2 b Hinv.
    destruct (FirstFitTheory.ff_free_ok st l l1 l2 b Hinv)
      as (st' & Hrun & Hinv' & Hsz & Hout & _).
    exists st'. split; [done|]. split; [done|]. split; done.
Qed.

Lemma C7_witness :
  (BestFit.heap_inv (state_of bf_24_40) tree_24_40 ([] ++ (4224, 3936) :: []) /\
   exists f st' t',
     BestFit.best_fit_free f (state_of bf_24_40) ((4224, 3936).1 + BestFit.header_size)
       = Done st' /\
     BestFit.heap_inv st' t' ([] ++ []) /\
     BestFit.elems t' ≡ₚ (4224, 3936) :: BestFit.elems tree_24_40 /\
     BestFit.same_sizes (BestFit.heap (state_of bf_24_40)) (BestFit.heap st') /\
     forall f' r,
       BestFit.best_fit_free f' (state_of bf_24_40)
         ((4224, 3936).1 + BestFit.header_size) = r ->
       r <> Timeout -> r = Done st') /\
  (FirstFit.heap_inv (ff_state_of ff_40_24) list_40_24 ([] ++ (4192, 3984) :: []) /\
   exists st',
     FirstFit.first_fit_free (ff_state_of ff_40_24)
       ((4192, 3984).1 + FirstFit.header_size) = Done st' /\
     FirstFit.heap_inv st' ((4192, 3984) :: list_40_24) ([] ++ []) /\
     FirstFit.same_sizes (FirstFit.heap (ff_state_of ff_40_24)) (FirstFit.heap st') /\
     FirstFit.unchanged_outside [(4192, 3984).1]
       (FirstFit.heap (ff_state_of ff_40_24)) (FirstFit.heap st')).
Proof.
  split.
  - assert (H1 : BestFit.heap_inv (state_of bf_24_40) tree_24_40
                   ([] ++ (4224, 3936) :: [])).
    { apply BestFitTheory.heap_invb_sound. vm_compute. reflexivity. }
    split; [exact H1|].
    exact (proj1 C7_release_frame _ _ _ _ _ H1).
  - assert (H1 : FirstFit.heap_inv (ff_state_of ff_40_24) list_40_24
                   ([] ++ (4192, 3984) :: [])).
    { apply FirstFitTheory.ff_heap_invb_sound. vm_compute. reflexivity. }
    split; [exact H1|].
    exact (proj2 C7_release_frame _ _ _ _ _ H1).
Defined.

(** ** C8: the tag of an object is never 0 *)

(** C8.  The specification, and the comment in [run_challenge] (avoid 0 for
    tagging), say that every object is stamped with a tag that is not 0.
    [char tag = 0;] makes the first object of every challenge an exception:
    its record holds the tag 0 and its first and last payload byte are 0.
    From then on the current tag is never 0. *)
Theorem C8_first_object_has_tag_zero :
  exists h o,
    first_object = Done h /\
    Harness.created FirstFit.state h = [o] /\
    Harness.tag o = 0 /\
    Harness.byte_at (Harness.bytes FirstFit.state h) (Harness.ptr o) = 0 /\
    Harness.byte_at (Harness.bytes FirstFit.state h)
      (Harness.ptr o + wrap (Harness.size o - 1)) = 0 /\
    Harness.cur_tag FirstFit.state h <> 0.
Proof.
  eexists. eexists. split; [vm_compute; reflexivity|].
  split; [reflexivity|]. split; [reflexivity|].
  split; [vm_compute; reflexivity|]. split; [vm_compute; reflexivity|].
  vm_compute. discriminate.
Qed.

(** ** C9: the corruption check comes before the release *)

(** C9.  In the release loop, every pointer handed to the allocator's free
    function belongs to an object whose first and last payload byte were
    compared with its tag and found equal; an object that fails the
    comparison stops the loop in the abort, so that the loop does not
    finish and the free function is called, at most, on the objects before
    it; when those are intact and released without failure, the outcome is
    the abort exactly. *)
Theorem C9_check_before_free :
  forall (A : Type) (free_func : A -> Z -> outcome A),
    (forall (h : Harness.harness A) (v : list Harness.object_t) (tr : list Z)
            (r : outcome (Harness.harness A)),
        Harness.release_objects A free_func h v = (tr, r) ->
        forall p, p ∈ tr ->
          exists o, o ∈ v /\ Harness.ptr o = p /\
                    Harness.byte_at (Harness.bytes A h) (Harness.ptr o) = Harness.tag o /\
                    Harness.byte_at (Harness.bytes A h)
                      (Harness.ptr o + wrap (Harness.size o - 1)) = Harness.tag o) /\
    (forall (h : Harness.harness A) (v1 v2 : list Harness.object_t)
            (o : Harness.object_t) (tr : list Z) (r : outcome (Harness.harness A)),
        Harness.release_objects A free_func h (v1 ++ o :: v2) = (tr, r) ->
        (Harness.byte_at (Harness.bytes A h) (Harness.ptr o) <> Harness.tag o \/
         Harness.byte_at (Harness.bytes A h)
           (Harness.ptr o + wrap (Harness.size o - 1)) <> Harness.tag o) ->
        (forall h', r <> Done h') /\
        tr `prefix_of` (Harness.ptr <$> v1) /\
        ((forall x, x ∈ v1 -> Harness.tag_broken (Harness.bytes A h) x = false) ->
         (forall a x, x ∈ v1 -> exists a', free_func a (Harness.ptr x) = Done a') ->
         tr = Harness.ptr <$> v1 /\ r = Abort)).
Proof.
  intros A free_func. split.
  - intros h v tr r Hrun p Hp.
    destruct (HarnessTheory.release_checked A free_func h v tr r Hrun p Hp)
      as (o & Hin & Hptr & Hok).
    exists o. split; [done|]. split; [done|].
    unfold Harness.tag_broken in Hok. apply orb_false_iff in Hok as (H1 & H2).
    apply negb_false_iff, Z.eqb_eq in H1, H2. done.
  - intros h v1 v2 o tr r Hrun Hbad.
    assert (Hbroken : Harness.tag_broken (Harness.bytes A h) o = true).
    { unfold Harness.tag_broken. apply orb_true_iff.
      destruct Hbad as [Hbad|Hbad]; [left|right]; by apply negb_true_iff, Z.eqb_neq. }
    destruct (HarnessTheory.release_broken A free_func h v1 v2 o tr r Hrun Hbroken)
      as (Hr & Hpre).
    split; [done|]. split; [done|].
    intros Hok Hfree.
    rewrite (HarnessTheory.release_aborts A free_func h v1 v2 o Hok Hfree Hbroken) in Hrun.
    by injection Hrun as <- <-.
Qed.

Lemma C9_witness :
  (Harness.release_objects unit idle_free idle ([] ++ stale_object :: [])
     = ([], Abort) /\
   (Harness.byte_at (Harness.bytes unit idle) (Harness.ptr stale_object)
      <> Harness.tag stale_object \/
    Harness.byte_at (Harness.bytes unit idle)
      (Harness.ptr stale_object + wrap (Harness.size stale_object - 1))
      <> Harness.tag stale_object) /\
   ((forall h', @Abort (Harness.harness unit) <> Done h') /\
    [] `prefix_of` (Harness.ptr <$> []) /\
    ((forall x, x ∈ [] -> Harness.tag_broken (Harness.bytes unit idle) x = false) ->
     (forall (a : unit) (x : Harness.object_t),
         x ∈ [] -> exists a', idle_free a (Harness.ptr x) = Done a') ->
     [] = Harness.ptr <$> [] /\ @Abort (Harness.harness unit) = Abort))).
Proof.
  assert (H1 : Harness.release_objects unit idle_free idle ([] ++ stale_object :: [])
               = ([], Abort)) by reflexivity.
  assert (H2 : Harness.byte_at (Harness.bytes unit idle) (Harness.ptr stale_object)
                 <> Harness.tag stale_object \/
               Harness.byte_at (Harness.bytes unit idle)
                 (Harness.ptr stale_object + wrap (Harness.size stale_object - 1))
                 <> Harness.tag stale_object).
  { left. vm_compute. discriminate. }
  split; [exact H1|]. split; [exact H2|].
  exact (proj2 (C9_check_before_free unit idle_free) idle [] [] stale_object [] Abort H1 H2).
Defined.

(** ** C10: a handed-out header is detached *)



(** * Further properties of the allocators and the harness *)

Import MoreScenarios.

(** ** Blocks handed out never overlap *)

Lemma blocks_ok_new_disjoint (hdr top : Z) (bs live : list (Z * Z)) (b c : Z * Z) :
  blocks_ok hdr top (bs ++ b :: live) -> c ∈ bs ++ live ->
  disjoint_blocks hdr b c.
Proof.
  intros (Hnd & _ & Hd) Hc.
  assert (Hb : b ∈ bs ++ b :: live) by (apply elem_of_app; right; apply elem_of_cons; auto).
  assert (Hc' : c ∈ bs ++ b :: live).
  { apply elem_of_app in Hc as [Hc|Hc]; apply elem_of_app; [by left|right].
    apply elem_of_cons. auto. }
  apply Hd; [done|done|].
  rewrite fmap_app, fmap_cons in Hnd.
  apply NoDup_app in Hnd as (_ & Hcross & Hnd).
  apply NoDup_cons in Hnd as (Hnin & _).
  intros Heq. apply elem_of_app in Hc as [Hc|Hc].
  - apply (Hcross c.1); [by apply list_elem_of_fmap_2|].
    rewrite <- Heq. apply elem_of_cons. auto.
  - apply Hnin. rewrite Heq. by apply list_elem_of_fmap_2.
Qed.

(** X1.  A block handed out by [best_fit_malloc] lies in mapped memory (or is
    the dummy), is at least as large as the request, and its header and
    payload overlap no free block of the tree and no block handed out before
    and still in use. *)
Theorem X1_best_fit_no_overlap (st : BestFit.state) (ps : list Z) (req : Z)
    (f : nat) (st' : BestFit.state) (p : Z) :
  BestFit.reachable st ps -> 0 <= req ->
  BestFit.best_fit_malloc f st req = Done (st', p) ->
  exists t' s,
    BestFit.tree_rep (BestFit.heap st') (BestFit.free_head st') t' /\
    BestFit.heap st' !! (p - BestFit.header_size) = Some (BestFit.fresh_header s) /\
    req <= s /\ 0 < p - BestFit.header_size /\ p + s <= brk (BestFit.sys st') /\
    (forall c, c ∈ BestFit.elems t' ->
       disjoint_blocks BestFit.header_size (p - BestFit.header_size, s) c) /\
    (forall q, q ∈ ps -> exists sq,
       BestFit.heap st' !! (q - BestFit.header_size) = Some (BestFit.fresh_header sq) /\
       disjoint_blocks BestFit.header_size (p - BestFit.header_size, s)
                       (q - BestFit.header_size, sq)).
Proof.
  intros Hreach Hreq Hrun.
  destruct (BestFitTheory.reachable_inv st ps Hreach) as (t & live & Hinv & ->).
  destruct (BestFitTheory.malloc_inv st t live req f st' p Hinv Hreq Hrun)
    as (t' & b & _ & Hinv' & -> & Hle & _).
  pose proof (BestFit.inv_blocks _ _ _ Hinv') as Hok.
  replace (b.1 + BestFit.header_size - BestFit.header_size) with b.1 by lia.
  exists t', b.2. replace (b.1, b.2) with b by (by destruct b).
  split; [apply (BestFit.inv_rep _ _ _ Hinv')|].
  split; [apply (BestFit.inv_live _ _ _ Hinv'); apply elem_of_cons; auto|].
  split; [done|].
  destruct Hok as (Hnd & Hbd & Hd).
  destruct (Hbd b) as (Hpos & Hsz & Hend).
  { apply elem_of_app. right. apply elem_of_cons. auto. }
  unfold block_end in Hend.
  split; [done|]. split; [lia|]. split.
  - intros c Hc. apply (blocks_ok_new_disjoint _ _ _ _ _ _ (BestFit.inv_blocks _ _ _ Hinv')).
    apply elem_of_app. by left.
  - intros q Hq. apply list_elem_of_fmap in Hq as (c & -> & Hc).
    unfold BestFit.payload.
    replace (c.1 + BestFit.header_size - BestFit.header_size) with c.1 by lia.
    exists c.2. replace (c.1, c.2) with c by (by destruct c).
    split; [apply (BestFit.inv_live _ _ _ Hinv'); apply elem_of_cons; auto|].
    apply (blocks_ok_new_disjoint _ _ _ _ _ _ (BestFit.inv_blocks _ _ _ Hinv')).
    apply elem_of_app. by right.
Qed.

(** Two states the allocators reach. *)
Lemma bf_reach_one : BestFit.reachable bf_after_malloc [4128].
Proof.
  apply (BestFit.reachable_malloc bf_init [] 8 8 bf_after_malloc 4128).
  - apply (BestFit.reachable_initialize BestFit.boot); simpl; unfold BestFit.header_size; lia.
  - lia.
  - vm_compute. reflexivity.
Qed.

Lemma ff_reach_one : FirstFit.reachable ff_after_malloc [4112].
Proof.
  apply (FirstFit.reachable_malloc ff_init [] 8 8 ff_after_malloc 4112).
  - apply (FirstFit.reachable_initialize FirstFit.boot); simpl; unfold FirstFit.header_size; lia.
  - lia.
  - vm_compute. reflexivity.
Qed.

Lemma X1_witness :
  BestFit.reachable bf_after_malloc [4128] /\ 0 <= 8 /\
  BestFit.best_fit_malloc 8 bf_after_malloc 8 = Done (bf_after_two, 4168) /\
  exists t' s,
    BestFit.tree_rep (BestFit.heap bf_after_two) (BestFit.free_head bf_after_two) t' /\
    BestFit.heap bf_after_two !! (4168 - BestFit.header_size)
      = Some (BestFit.fresh_header s) /\
    8 <= s /\ 0 < 4168 - BestFit.header_size /\
    4168 + s <= brk (BestFit.sys bf_after_two) /\
    (forall c, c ∈ BestFit.elems t' ->
       disjoint_blocks BestFit.header_size (4168 - BestFit.header_size, s) c) /\
    (forall q, q ∈ [4128] -> exists sq,
       BestFit.heap bf_after_two !! (q - BestFit.header_size)
         = Some (BestFit.fresh_header sq) /\
       disjoint_blocks BestFit.header_size (4168 - BestFit.header_size, s)
                       (q - BestFit.header_size, sq)).
Proof.
  assert (H1 : BestFit.reachable bf_after_malloc [4128]) by exact bf_reach_one.
  assert (H2 : 0 <= 8) by lia.
  assert (H3 : BestFit.best_fit_malloc 8 bf_after_malloc 8 = Done (bf_after_two, 4168)).
  { vm_compute. reflexivity. }
  split; [exact H1|]. split; [exact H2|]. split; [exact H3|].
  exact (X1_best_fit_no_overlap _ _ _ _ _ _ H1 H2 H3).
Defined.

(** X2.  The same for [first_fit_malloc]: the block handed out lies in
    mapped memory (or is the dummy), is at least as large as the request,
    and overlaps no block of the free list and no block still in use. *)
Theorem X2_first_fit_no_overlap (st : FirstFit.state) (ps : list Z) (req : Z)
    (f : nat) (st' : FirstFit.state) (p : Z) :
  FirstFit.reachable st ps -> 0 <= req ->
  FirstFit.first_fit_malloc f st req = Done (st', p) ->
  exists l' s,
    FirstFit.list_rep (FirstFit.heap st') (FirstFit.free_head st') l' /\
    FirstFit.heap st' !! (p - FirstFit.header_size) = Some (FirstFit.fresh_header s) /\
    req <= s /\ 0 < p - FirstFit.header_size /\ p + s <= brk (FirstFit.sys st') /\
    (forall c, c ∈ l' ->
       disjoint_blocks FirstFit.header_size (p - FirstFit.header_size, s) c) /\
    (forall q, q ∈ ps -> exists sq,
       FirstFit.heap st' !! (q - FirstFit.header_size) = Some (FirstFit.fresh_header sq) /\
       disjoint_blocks FirstFit.header_size (p - FirstFit.header_size, s)
                       (q - FirstFit.header_size, sq)).
Proof.
  intros Hreach Hreq Hrun.
  destruct (FirstFitTheory.ff_reachable_inv st ps Hreach) as (l & live & Hinv & ->).
  destruct (FirstFitTheory.ff_malloc_inv st l live req f st' p Hinv Hreq Hrun)
    as (l' & b & _ & Hinv' & -> & Hle & _).
  pose proof (FirstFit.inv_blocks _ _ _ Hinv') as Hok.
  replace (b.1 + FirstFit.header_size - FirstFit.header_size) with b.1 by lia.
  exists l', b.2. replace (b.1, b.2) with b by (by destruct b).
  split; [apply (FirstFit.inv_rep _ _ _ Hinv')|].
  split; [apply (FirstFit.inv_live _ _ _ Hinv'); apply elem_of_cons; auto|].
  split; [done|].
  destruct Hok as (Hnd & Hbd & Hd).
  destruct (Hbd b) as (Hpos & Hsz & Hend).
  { apply elem_of_app. right. apply elem_of_cons. auto. }
  unfold block_end in Hend.
  split; [done|]. split; [lia|]. split.
  - intros c Hc. apply (blocks_ok_new_disjoint _ _ _ _ _ _ (FirstFit.inv_blocks _ _ _ Hinv')).
    apply elem_of_app. by left.
  - intros q Hq. apply list_elem_of_fmap in Hq as (c & -> & Hc).
    unfold FirstFit.payload.
    replace (c.1 + FirstFit.header_size - FirstFit.header_size) with c.1 by lia.
    exists c.2. replace (c.1, c.2) with c by (by destruct c).
    split; [apply (FirstFit.inv_live _ _ _ Hinv'); apply elem_of_cons; auto|].
    apply (blocks_ok_new_disjoint _ _ _ _ _ _ (FirstFit.inv_blocks _ _ _ Hinv')).
    apply elem_of_app. by right.
Qed.

Lemma X2_witness :
  FirstFit.reachable ff_after_malloc [4112] /\ 0 <= 8 /\
  FirstFit.first_fit_malloc 8 ff_after_malloc 8 = Done (ff_after_two, 4136) /\
  exists l' s,
    FirstFit.list_rep (FirstFit.heap ff_after_two) (FirstFit.free_head ff_after_two) l' /\
    FirstFit.heap ff_after_two !! (4136 - FirstFit.header_size)
      = Some (FirstFit.fresh_header s) /\
    8 <= s /\ 0 < 4136 - FirstFit.header_size /\
    4136 + s <= brk (FirstFit.sys ff_after_two) /\
    (forall c, c ∈ l' ->
       disjoint_blocks FirstFit.header_size (4136 - FirstFit.header_size, s) c) /\
    (forall q, q ∈ [4112] -> exists sq,
       FirstFit.heap ff_after_two !! (q - FirstFit.header_size)
         = Some (FirstFit.fresh_header sq) /\
       disjoint_blocks FirstFit.header_size (4136 - FirstFit.header_size, s)
                       (q - FirstFit.header_size, sq)).
Proof.
  assert (H1 : FirstFit.reachable ff_after_malloc [4112]) by exact ff_reach_one.
  assert (H2 : 0 <= 8) by lia.
  assert (H3 : FirstFit.first_fit_malloc 8 ff_after_malloc 8 = Done (ff_after_two, 4136)).
  { vm_compute. reflexivity. }
  split; [exact H1|]. split; [exact H2|]. split; [exact H3|].
  exact (X2_first_fit_no_overlap _ _ _ _ _ _ H1 H2 H3).
Defined.

(** ** The blocks of a heap, step by step

    Every call changes the blocks of the heap, free and in use together, in
    one of three ways: not at all (a block moves between the free collection
    and the blocks in use), by a fresh page that becomes one block, or by the
    split of one block in two. *)

Lemma pair_unique (l : list (Z * Z)) (a s1 s2 : Z) :
  NoDup l.*1 -> (a, s1) ∈ l -> (a, s2) ∈ l -> s1 = s2.
Proof.
  induction l as [|x l IH]; intros Hnd H1 H2; [by apply elem_of_nil in H1|].
  simpl in Hnd. apply NoDup_cons in Hnd as (Hnin & Hnd).
  apply elem_of_cons in H1 as [H1|H1]; apply elem_of_cons in H2 as [H2|H2].
  - congruence.
  - subst x. exfalso. apply Hnin. simpl.
    by apply (list_elem_of_fmap_2 fst l (a, s2)).
  - subst x. exfalso. apply Hnin. simpl.
    by apply (list_elem_of_fmap_2 fst l (a, s1)).
  - by apply IH.
Qed.

Lemma take_t_blocks (req b0 s : Z) (t t' : BestFit.tree) (b : Z * Z) :
  NoDup (BestFit.addrs t) -> (b0, s) ∈ BestFit.elems t ->
  BestFit.take_t req b0 s t = Some (t', b) ->
  exists rest,
    BestFit.elems t ≡ₚ (b0, s) :: rest /\ b.1 = b0 /\
    ((BestFit.header_size < s - req /\ b.2 = req /\
      BestFit.elems t'
        ≡ₚ (b0 + BestFit.header_size + req, s - req - BestFit.header_size) :: rest) \/
     (s - req <= BestFit.header_size /\ b.2 = s /\ BestFit.elems t' ≡ₚ rest)).
Proof.
  intros Hnd Hin Ht. unfold BestFit.take_t in Ht.
  destruct (BestFit.remove_t b0 s t) as [t1|] eqn:Hrm; [|done]. simpl in Ht.
  destruct (BestFitTheory.remove_perm _ _ _ _ Hnd Hrm) as (s' & Hperm).
  assert (s' = s) as ->.
  { apply (pair_unique (BestFit.elems t) b0); [done| |done].
    rewrite Hperm. apply elem_of_cons. auto. }
  exists (BestFit.elems t1). split; [done|].
  destruct (Z.ltb_spec BestFit.header_size (s - req)) as [Hlt|Hge];
    injection Ht as <- <-.
  - split; [done|]. left. split; [done|]. split; [done|].
    apply BestFitTheory.elems_insert.
  - split; [done|]. right. done.
Qed.

Lemma malloc_t_blocks (top req : Z) (t t' : BestFit.tree) (b : Z * Z) (top' : Z) :
  BestFit.bst t -> NoDup (BestFit.addrs t) -> top ∉ BestFit.addrs t ->
  BestFit.malloc_t top req t = Some (t', b, top') ->
  exists s rest,
    req <= s /\
    ((top' = top /\ BestFit.elems t ≡ₚ (b.1, s) :: rest) \/
     (top' = top + 4096 /\
      (top, 4096 - BestFit.header_size) :: BestFit.elems t ≡ₚ (b.1, s) :: rest)) /\
    ((BestFit.header_size < s - req /\ b.2 = req /\
      BestFit.elems t'
        ≡ₚ (b.1 + BestFit.header_size + req, s - req - BestFit.header_size) :: rest) \/
     (s - req <= BestFit.header_size /\ b.2 = s /\ BestFit.elems t' ≡ₚ rest)).
Proof.
  intros Hbst Hnd Htop Hm. unfold BestFit.malloc_t in Hm.
  destruct (BestFit.search_t req t) as [[b0 s]|] eqn:Hs.
  - destruct (BestFit.take_t req b0 s t) as [[t1 b1]|] eqn:Ht; [|done].
    injection Hm as <- <- <-.
    destruct (BestFitTheory.search_in _ _ _ Hs) as (Hin & Hle).
    destruct (take_t_blocks _ _ _ _ _ _ Hnd Hin Ht) as (rest & Hp & Hb & Hcase).
    exists s, rest. rewrite Hb. split; [done|]. split; [by left|done].
  - set (t1 := BestFit.insert_t top (4096 - BestFit.header_size) 1 t) in *.
    destruct (BestFit.search_t req t1) as [[b0 s]|] eqn:Hs1; [|done].
    destruct (BestFit.take_t req b0 s t1) as [[t2 b1]|] eqn:Ht; [|done].
    injection Hm as <- <- <-.
    destruct (BestFitTheory.search_in _ _ _ Hs1) as (Hin & Hle).
    assert (Hnd1 : NoDup (BestFit.addrs t1)).
    { unfold t1. rewrite BestFitTheory.addrs_insert. by apply NoDup_cons. }
    destruct (take_t_blocks _ _ _ _ _ _ Hnd1 Hin Ht) as (rest & Hp & Hb & Hcase).
    exists s, rest. rewrite Hb. split; [done|]. split; [|done].
    right. split; [done|]. rewrite <- Hp. unfold t1.
    symmetry. apply BestFitTheory.elems_insert.
Qed.

Lemma malloc_l_blocks (top req : Z) (l l' : list (Z * Z)) (b : Z * Z) (top' : Z) :
  FirstFit.malloc_l top req l = Some (l', b, top') ->
  exists s rest,
    req <= s /\
    ((top' = top /\ l ≡ₚ (b.1, s) :: rest) \/
     (top' = top + 4096 /\
      (top, 4096 - FirstFit.header_size) :: l ≡ₚ (b.1, s) :: rest)) /\
    ((FirstFit.header_size < s - req /\ b.2 = req /\
      l' ≡ₚ (b.1 + FirstFit.header_size + req, s - req - FirstFit.header_size) :: rest) \/
     (s - req <= FirstFit.header_size /\ b.2 = s /\ l' ≡ₚ rest)).
Proof.
  intros Hm. unfold FirstFit.malloc_l in Hm.
  destruct (FirstFit.split_first req l) as [[[l1 b0] l2]|] eqn:Hs.
  - injection Hm as Ht <-.
    destruct (FirstFitTheory.ff_split_first_spec _ _ _ _ _ Hs) as (-> & _ & Hle).
    exists b0.2, (l1 ++ l2). split; [done|].
    unfold FirstFit.take_l in Ht.
    destruct (Z.ltb_spec FirstFit.header_size (b0.2 - req)) as [Hlt|Hge];
      injection Ht as <- <-; simpl.
    + split; [left; split; [done|]; by rewrite <- Permutation_middle; destruct b0|].
      left. done.
    + split; [left; split; [done|]; by rewrite <- Permutation_middle; destruct b0|].
      right. done.
  - destruct (Z.ltb_spec (4096 - FirstFit.header_size) req) as [Hlt|Hge]; [done|].
    injection Hm as Ht <-.
    exists (4096 - FirstFit.header_size), l. split; [done|].
    unfold FirstFit.take_l in Ht.
    destruct (Z.ltb_spec FirstFit.header_size (4096 - FirstFit.header_size - req))
      as [Hlt|Hge']; injection Ht as <- <-; simpl.
    + split; [by right|]. left. done.
    + split; [by right|]. right. done.
Qed.

(** A property of the blocks of the heap and of the end of the mapped
    pages that fresh pages and splits keep holds in every state the allocator
    reaches. *)
Section BlockInvariant.
Variable hdr : Z.
Variable ok : Z -> Prop.
Variable P : Z -> list (Z * Z) -> Prop.
Hypothesis P_perm : forall top bs bs', bs ≡ₚ bs' -> P top bs -> P top bs'.
Hypothesis P_page : forall top bs, P top bs -> P (top + 4096) ((top, 4096 - hdr) :: bs).
Hypothesis P_split : forall top b s req rest,
  0 <= req -> ok req -> hdr < s - req ->
  P top ((b, s) :: rest) ->
  P top ((b + hdr + req, s - req - hdr) :: (b, req) :: rest).

Lemma blocks_step (top top' req s : Z) (free free' live rest : list (Z * Z)) (b : Z * Z) :
  0 <= req -> ok req ->
  ((top' = top /\ free ≡ₚ (b.1, s) :: rest) \/
   (top' = top + 4096 /\ (top, 4096 - hdr) :: free ≡ₚ (b.1, s) :: rest)) ->
  ((hdr < s - req /\ b.2 = req /\
    free' ≡ₚ (b.1 + hdr + req, s - req - hdr) :: rest) \/
   (s - req <= hdr /\ b.2 = s /\ free' ≡ₚ rest)) ->
  P top (free ++ live) -> P top' (free' ++ b :: live).
Proof.
  intros Hreq Hok Hfrom Hto HP.
  assert (Hmid : P top' ((b.1, s) :: rest ++ live)).
  { destruct Hfrom as [(-> & Hp)|(-> & Hp)].
    - apply (P_perm _ (free ++ live)); [|done]. by rewrite Hp.
    - apply (P_perm _ (((top, 4096 - hdr) :: free) ++ live)); [by rewrite Hp|].
      simpl. by apply P_page. }
  destruct Hto as [(Hlt & Hb & Hp)|(Hge & Hb & Hp)].
  - apply (P_split _ _ _ req) in Hmid; [|done|done|done].
    refine (P_perm _ _ _ _ Hmid).
    rewrite Hp. simpl. rewrite <- Permutation_middle.
    destruct b as [b1 b2]. simpl in *. by subst b2.
  - refine (P_perm _ _ _ _ Hmid).
    rewrite Hp. rewrite <- Permutation_middle.
    destruct b as [b1 b2]. simpl in *. by subst b2.
Qed.
End BlockInvariant.

Lemma bf_reachable_from_reachable (ok : Z -> Prop) (st0 st : BestFit.state) (ps : list Z) :
  bf_reachable_from ok st0 st ps -> BestFit.reachable st ps.
Proof.
  induction 1 as [Hd Hb|st ps f sz st' p _ IH Hsz _ Hrun|st ps1 ps2 p f st' _ IH Hrun].
  - by apply BestFit.reachable_initialize.
  - by apply (BestFit.reachable_malloc st ps f sz).
  - by apply (BestFit.reachable_free st ps1 ps2 p f).
Qed.

Lemma ff_reachable_from_reachable (ok : Z -> Prop) (st0 st : FirstFit.state) (ps : list Z) :
  ff_reachable_from ok st0 st ps -> FirstFit.reachable st ps.
Proof.
  induction 1 as [Hd Hb|st ps f sz st' p _ IH Hsz _ Hrun|st ps1 ps2 p st' _ IH Hrun].
  - by apply FirstFit.reachable_initialize.
  - by apply (FirstFit.reachable_malloc st ps f sz).
  - by apply (FirstFit.reachable_free st ps1 ps2 p).
Qed.

Section Invariants.
Variable ok : Z -> Prop.
Variable P : Z -> list (Z * Z) -> Prop.
Hypothesis P_perm : forall top bs bs', bs ≡ₚ bs' -> P top bs -> P top bs'.

Lemma bf_blocks_invariant (st0 st : BestFit.state) (ps : list Z) :
  (forall top bs, P top bs -> P (top + 4096) ((top, 4096 - BestFit.header_size) :: bs)) ->
  (forall top b s req rest,
      0 <= req -> ok req -> BestFit.header_size < s - req ->
      P top ((b, s) :: rest) ->
      P top ((b + BestFit.header_size + req, s - req - BestFit.header_size)
               :: (b, req) :: rest)) ->
  P (brk (BestFit.sys st0)) [(BestFit.dummy st0, 0)] ->
  bf_reachable_from ok st0 st ps ->
  exists t live,
    BestFit.heap_inv st t live /\ ps = BestFit.payload <$> live /\
    BestFit.dummy st = BestFit.dummy st0 /\
    P (brk (BestFit.sys st)) (BestFit.elems t ++ live).
Proof.
  intros P_page P_split Hinit.
  induction 1 as [Hd Hb|st ps f sz st' p _ IH Hsz Hok Hrun|st ps1 ps2 p f st' _ IH Hrun].
  - exists (BestFit.T (BestFit.dummy st0) 0 BestFit.E BestFit.E 1), [].
    split; [by apply BestFitTheory.initialize_inv|]. split; [done|]. split; [done|].
    exact Hinit.
  - destruct IH as (t & live & Hinv & -> & Hdum & HP).
    destruct (BestFitTheory.malloc_inv st t live sz f st' p Hinv Hsz Hrun)
      as (t' & b & Hm & Hinv' & -> & _ & Hdum' & _).
    exists t', (b :: live). split; [done|]. split; [done|]. split; [congruence|].
    destruct (malloc_t_blocks _ _ _ _ _ _ (BestFit.inv_bst _ _ _ Hinv)
                (BestFitTheory.heap_inv_NoDup _ _ _ Hinv)
                (BestFitTheory.heap_inv_top_fresh _ _ _ Hinv) Hm)
      as (s & rest & _ & Hfrom & Hto).
    by apply (blocks_step BestFit.header_size ok P P_perm P_page P_split
                (brk (BestFit.sys st)) _ sz s (BestFit.elems t) _ live rest b).
  - destruct IH as (t & live & Hinv & Hps & Hdum & HP).
    symmetry in Hps. apply fmap_app_inv in Hps as (k1 & k2' & -> & Hk2 & ->).
    symmetry in Hk2. apply fmap_cons_inv in Hk2 as (b & k2 & -> & -> & ->).
    destruct (BestFitTheory.free_inv st t k1 k2 b f st' Hinv Hrun)
      as (Hinv' & _ & _ & Hsys & Hdum').
    eexists _, (k1 ++ k2). split; [exact Hinv'|]. split; [by rewrite fmap_app|].
    split; [congruence|]. rewrite Hsys.
    refine (P_perm _ _ _ _ HP).
    rewrite BestFitTheory.elems_insert. rewrite <- !Permutation_middle.
    by destruct b.
Qed.

Lemma ff_blocks_invariant (st0 st : FirstFit.state) (ps : list Z) :
  (forall top bs, P top bs -> P (top + 4096) ((top, 4096 - FirstFit.header_size) :: bs)) ->
  (forall top b s req rest,
      0 <= req -> ok req -> FirstFit.header_size < s - req ->
      P top ((b, s) :: rest) ->
      P top ((b + FirstFit.header_size + req, s - req - FirstFit.header_size)
               :: (b, req) :: rest)) ->
  P (brk (FirstFit.sys st0)) [(FirstFit.dummy st0, 0)] ->
  ff_reachable_from ok st0 st ps ->
  exists l live,
    FirstFit.heap_inv st l live /\ ps = FirstFit.payload <$> live /\
    FirstFit.dummy st = FirstFit.dummy st0 /\
    P (brk (FirstFit.sys st)) (l ++ live).
Proof.
  intros P_page P_split Hinit.
  induction 1 as [Hd Hb|st ps f sz st' p _ IH Hsz Hok Hrun|st ps1 ps2 p st' _ IH Hrun].
  - exists [(FirstFit.dummy st0, 0)], [].
    split; [by apply FirstFitTheory.ff_initialize_inv|]. split; [done|]. split; [done|].
    exact Hinit.
  - destruct IH as (l & live & Hinv & -> & Hdum & HP).
    destruct (FirstFitTheory.ff_malloc_inv st l live sz f st' p Hinv Hsz Hrun)
      as (l' & b & Hm & Hinv' & -> & _ & Hdum' & _).
    exists l', (b :: live). split; [done|]. split; [done|]. split; [congruence|].
    destruct (malloc_l_blocks _ _ _ _ _ _ Hm) as (s & rest & _ & Hfrom & Hto).
    by apply (blocks_step FirstFit.header_size ok P P_perm P_page P_split
                (brk (FirstFit.sys st)) _ sz s l _ live rest b).
  - destruct IH as (l & live & Hinv & Hps & Hdum & HP).
    symmetry in Hps. apply fmap_app_inv in Hps as (k1 & k2' & -> & Hk2 & ->).
    symmetry in Hk2. apply fmap_cons_inv in Hk2 as (b & k2 & -> & -> & ->).
    destruct (FirstFitTheory.ff_free_ok st l k1 k2 b Hinv)
      as (st1 & Hrun1 & Hinv' & _ & _ & Hsys & Hdum').
    assert (st' = st1) as -> by (unfold FirstFit.payload in Hrun; congruence).
    exists (b :: l), (k1 ++ k2). split; [exact Hinv'|]. split; [by rewrite fmap_app|].
    split; [congruence|]. rewrite Hsys.
    refine (P_perm _ _ _ _ HP).
    simpl. by rewrite <- !Permutation_middle.
Qed.
End Invariants.

(** ** Alignment *)

Ltac mod8 := simpl in *; Z.div_mod_to_equations; lia.

Lemma aligned_invariant_page (hdr top : Z) (bs : list (Z * Z)) :
  hdr mod 8 = 0 ->
  top mod 8 = 0 /\ aligned bs ->
  (top + 4096) mod 8 = 0 /\ aligned ((top, 4096 - hdr) :: bs).
Proof.
  intros Hh (Ht & Ha). split; [mod8|].
  intros b Hb. apply elem_of_cons in Hb as [->|Hb]; [mod8|by apply Ha].
Qed.

Lemma aligned_invariant_split (hdr top b s req : Z) (rest : list (Z * Z)) :
  hdr mod 8 = 0 -> multiple_of_8 req ->
  top mod 8 = 0 /\ aligned ((b, s) :: rest) ->
  top mod 8 = 0 /\ aligned ((b + hdr + req, s - req - hdr) :: (b, req) :: rest).
Proof.
  unfold multiple_of_8. intros Hh Hr (Ht & Ha). split; [done|].
  destruct (Ha (b, s)) as (Hb1 & Hb2); [apply elem_of_cons; auto|]. simpl in *.
  intros x Hx. apply elem_of_cons in Hx as [->|Hx]; [mod8|].
  apply elem_of_cons in Hx as [->|Hx]; [mod8|].
  apply Ha. apply elem_of_cons. auto.
Qed.

Lemma aligned_invariant_perm (top : Z) (bs bs' : list (Z * Z)) :
  bs ≡ₚ bs' -> top mod 8 = 0 /\ aligned bs -> top mod 8 = 0 /\ aligned bs'.
Proof.
  intros Hperm (Ht & Ha). split; [done|].
  intros b Hin. apply Ha. by rewrite Hperm.
Qed.

Lemma aligned_invariant_init (top d : Z) :
  d mod 8 = 0 -> top mod 8 = 0 -> top mod 8 = 0 /\ aligned [(d, 0)].
Proof.
  intros Hd Ht. split; [done|].
  intros b Hin. apply list_elem_of_singleton in Hin as ->. done.
Qed.

(** X3.  When the dummy header and the first page are 8-byte aligned and
    every request is a multiple of 8, every pointer handed out by either
    allocator is a multiple of 8. *)
Theorem X3_pointers_aligned :
  (forall (st0 st : BestFit.state) (ps : list Z) (p : Z),
      BestFit.dummy st0 mod 8 = 0 -> brk (BestFit.sys st0) mod 8 = 0 ->
      bf_reachable_from multiple_of_8 st0 st ps -> p ∈ ps -> p mod 8 = 0) /\
  (forall (st0 st : FirstFit.state) (ps : list Z) (p : Z),
      FirstFit.dummy st0 mod 8 = 0 -> brk (FirstFit.sys st0) mod 8 = 0 ->
      ff_reachable_from multiple_of_8 st0 st ps -> p ∈ ps -> p mod 8 = 0).
Proof.
  split.
  - intros st0 st ps p Hd Hb Hreach Hp.
    destruct (bf_blocks_invariant multiple_of_8
                (fun top bs => top mod 8 = 0 /\ aligned bs)
                aligned_invariant_perm st0 st ps
                (fun top bs =>
                   aligned_invariant_page BestFit.header_size top bs eq_refl)
                (fun top b s req rest _ Hok _ =>
                   aligned_invariant_split BestFit.header_size top b s req rest eq_refl Hok)
                (aligned_invariant_init _ _ Hd Hb) Hreach)
      as (t & live & Hinv & -> & _ & _ & Hal).
    + apply list_elem_of_fmap in Hp as (b & -> & Hin).
      destruct (Hal b) as (H1 & _); [apply elem_of_app; by right|].
      unfold BestFit.payload, BestFit.header_size. mod8.
  - intros st0 st ps p Hd Hb Hreach Hp.
    destruct (ff_blocks_invariant multiple_of_8
                (fun top bs => top mod 8 = 0 /\ aligned bs)
                aligned_invariant_perm st0 st ps
                (fun top bs =>
                   aligned_invariant_page FirstFit.header_size top bs eq_refl)
                (fun top b s req rest _ Hok _ =>
                   aligned_invariant_split FirstFit.header_size top b s req rest eq_refl Hok)
                (aligned_invariant_init _ _ Hd Hb) Hreach)
      as (l & live & Hinv & -> & _ & _ & Hal).
    + apply list_elem_of_fmap in Hp as (b & -> & Hin).
      destruct (Hal b) as (H1 & _); [apply elem_of_app; by right|].
      unfold FirstFit.payload, FirstFit.header_size. mod8.
Qed.

Lemma bf_from_one (ok : Z -> Prop) :
  ok 8 -> bf_reachable_from ok BestFit.boot bf_after_malloc [4128].
Proof.
  intros Hok. apply (bf_from_malloc ok BestFit.boot bf_init [] 8 8 bf_after_malloc 4128).
  - apply bf_from_initialize; simpl; unfold BestFit.header_size; lia.
  - lia.
  - done.
  - vm_compute. reflexivity.
Qed.

Lemma ff_from_one (ok : Z -> Prop) :
  ok 8 -> ff_reachable_from ok FirstFit.boot ff_after_malloc [4112].
Proof.
  intros Hok. apply (ff_from_malloc ok FirstFit.boot ff_init [] 8 8 ff_after_malloc 4112).
  - apply ff_from_initialize; simpl; unfold FirstFit.header_size; lia.
  - lia.
  - done.
  - vm_compute. reflexivity.
Qed.

Lemma X3_witness :
  (BestFit.dummy BestFit.boot mod 8 = 0 /\ brk (BestFit.sys BestFit.boot) mod 8 = 0 /\
   bf_reachable_from multiple_of_8 BestFit.boot bf_after_malloc [4128] /\
   4128 ∈ [4128] /\ 4128 mod 8 = 0) /\
  (FirstFit.dummy FirstFit.boot mod 8 = 0 /\ brk (FirstFit.sys FirstFit.boot) mod 8 = 0 /\
   ff_reachable_from multiple_of_8 FirstFit.boot ff_after_malloc [4112] /\
   4112 ∈ [4112] /\ 4112 mod 8 = 0).
Proof.
  split.
  - assert (H1 : BestFit.dummy BestFit.boot mod 8 = 0) by reflexivity.
    assert (H2 : brk (BestFit.sys BestFit.boot) mod 8 = 0) by reflexivity.
    assert (H3 : bf_reachable_from multiple_of_8 BestFit.boot bf_after_malloc [4128]).
    { apply bf_from_one. reflexivity. }
    assert (H4 : 4128 ∈ [4128]) by (apply elem_of_cons; auto).
    split; [exact H1|]. split; [exact H2|]. split; [exact H3|]. split; [exact H4|].
    exact (proj1 X3_pointers_aligned _ _ _ _ H1 H2 H3 H4).
  - assert (H1 : FirstFit.dummy FirstFit.boot mod 8 = 0) by reflexivity.
    assert (H2 : brk (FirstFit.sys FirstFit.boot) mod 8 = 0) by reflexivity.
    assert (H3 : ff_reachable_from multiple_of_8 FirstFit.boot ff_after_malloc [4112]).
    { apply ff_from_one. reflexivity. }
    assert (H4 : 4112 ∈ [4112]) by (apply elem_of_cons; auto).
    split; [exact H1|]. split; [exact H2|]. split; [exact H3|]. split; [exact H4|].
    exact (proj2 X3_pointers_aligned _ _ _ _ H1 H2 H3 H4).
Defined.

(** ** The blocks tile the mapped pages *)

Lemma footprint_perm (hdr : Z) (bs bs' : list (Z * Z)) :
  bs ≡ₚ bs' -> footprint hdr bs = footprint hdr bs'.
Proof. induction 1; simpl; lia. Qed.

Lemma footprint_app (hdr : Z) (bs bs' : list (Z * Z)) :
  footprint hdr (bs ++ bs') = footprint hdr bs + footprint hdr bs'.
Proof. induction bs as [|b bs IH]; simpl; lia. Qed.

Lemma tiles_perm (hdr top0 d top : Z) (bs bs' : list (Z * Z)) :
  bs ≡ₚ bs' -> tiles hdr top0 d top bs -> tiles hdr top0 d top bs'.
Proof.
  intros Hperm (Hf & Hb). split; [by rewrite <- (footprint_perm _ _ _ Hperm)|].
  intros b Hin. apply Hb. by rewrite Hperm.
Qed.

Lemma tiles_page (hdr top0 d top : Z) (bs : list (Z * Z)) :
  top0 <= top ->
  tiles hdr top0 d top bs -> tiles hdr top0 d (top + 4096) ((top, 4096 - hdr) :: bs).
Proof.
  intros Hle (Hf & Hb). split; [simpl; lia|].
  intros b Hin. apply elem_of_cons in Hin as [->|Hin]; [by right|by apply Hb].
Qed.

Lemma tiles_split (hdr top0 d top b s req : Z) (rest : list (Z * Z)) :
  0 < hdr -> 0 <= req -> hdr < s - req ->
  tiles hdr top0 d top ((b, s) :: rest) ->
  tiles hdr top0 d top ((b + hdr + req, s - req - hdr) :: (b, req) :: rest).
Proof.
  intros Hh Hreq Hlt (Hf & Hb). split; [simpl in *; lia|].
  assert (Hbs : top0 <= b).
  { destruct (Hb (b, s)) as [Heq|Hle]; [apply elem_of_cons; auto| |done].
    injection Heq as -> ->. lia. }
  intros x Hin. apply elem_of_cons in Hin as [->|Hin]; [right; simpl; lia|].
  apply elem_of_cons in Hin as [->|Hin]; [by right|].
  apply Hb. apply elem_of_cons. auto.
Qed.

(** X4.  In every state either allocator reaches, the blocks of the heap,
    free and in use, take exactly the bytes mapped since [initialize] (and
    the header of the dummy): with the blocks overlapping nowhere and lying
    between the first page and the end of the last, the pages are tiled by
    the blocks, no byte of a page is lost to the allocator. *)
Theorem X4_blocks_tile_the_pages :
  (forall (st0 st : BestFit.state) (ps : list Z),
      bf_reachable_from (fun _ => True) st0 st ps ->
      exists t live,
        BestFit.heap_inv st t live /\ ps = BestFit.payload <$> live /\
        footprint BestFit.header_size (BestFit.elems t ++ live)
          = BestFit.header_size + (brk (BestFit.sys st) - brk (BestFit.sys st0)) /\
        forall b, b ∈ BestFit.elems t ++ live ->
          b = (BestFit.dummy st0, 0) \/
          (brk (BestFit.sys st0) <= b.1 /\
           b.1 + BestFit.header_size + b.2 <= brk (BestFit.sys st))) /\
  (forall (st0 st : FirstFit.state) (ps : list Z),
      ff_reachable_from (fun _ => True) st0 st ps ->
      exists l live,
        FirstFit.heap_inv st l live /\ ps = FirstFit.payload <$> live /\
        footprint FirstFit.header_size (l ++ live)
          = FirstFit.header_size + (brk (FirstFit.sys st) - brk (FirstFit.sys st0)) /\
        forall b, b ∈ l ++ live ->
          b = (FirstFit.dummy st0, 0) \/
          (brk (FirstFit.sys st0) <= b.1 /\
           b.1 + FirstFit.header_size + b.2 <= brk (FirstFit.sys st))).
Proof.
  split.
  - intros st0 st ps Hreach.
    destruct (bf_blocks_invariant (fun _ => True)
                (fun top bs => brk (BestFit.sys st0) <= top /\
                               tiles BestFit.header_size (brk (BestFit.sys st0))
                                     (BestFit.dummy st0) top bs))
      with (st0 := st0) (st := st) (ps := ps)
      as (t & live & Hinv & Hps & _ & _ & Hf & Hb).
    + intros top bs bs' Hperm (Hle & Ht). split; [done|]. by apply (tiles_perm _ _ _ _ bs).
    + intros top bs (Hle & Ht). split; [lia|]. by apply tiles_page.
    + intros top b s req rest Hreq _ Hlt (Hle & Ht). split; [done|].
      by apply tiles_split.
    + split; [done|]. split; [simpl; lia|].
      intros b Hin. apply list_elem_of_singleton in Hin as ->. by left.
    + done.
    + exists t, live. split; [done|]. split; [done|]. split; [done|].
      intros b Hin. destruct (Hb b Hin) as [Heq|Hle]; [by left|right].
      split; [done|].
      destruct (BestFit.inv_blocks _ _ _ Hinv) as (_ & Hbd & _).
      destruct (Hbd b Hin) as (_ & _ & Hend). exact Hend.
  - intros st0 st ps Hreach.
    destruct (ff_blocks_invariant (fun _ => True)
                (fun top bs => brk (FirstFit.sys st0) <= top /\
                               tiles FirstFit.header_size (brk (FirstFit.sys st0))
                                     (FirstFit.dummy st0) top bs))
      with (st0 := st0) (st := st) (ps := ps)
      as (l & live & Hinv & Hps & _ & _ & Hf & Hb).
    + intros top bs bs' Hperm (Hle & Ht). split; [done|]. by apply (tiles_perm _ _ _ _ bs).
    + intros top bs (Hle & Ht). split; [lia|]. by apply tiles_page.
    + intros top b s req rest Hreq _ Hlt (Hle & Ht). split; [done|].
      by apply tiles_split.
    + split; [done|]. split; [simpl; lia|].
      intros b Hin. apply list_elem_of_singleton in Hin as ->. by left.
    + done.
    + exists l, live. split; [done|]. split; [done|]. split; [done|].
      intros b Hin. destruct (Hb b Hin) as [Heq|Hle]; [by left|right].
      split; [done|].
      destruct (FirstFit.inv_blocks _ _ _ Hinv) as (_ & Hbd & _).
      destruct (Hbd b Hin) as (_ & _ & Hend). exact Hend.
Qed.

Lemma X4_witness :
  (bf_reachable_from (fun _ => True) BestFit.boot bf_after_malloc [4128] /\
   exists t live,
     BestFit.heap_inv bf_after_malloc t live /\ [4128] = BestFit.payload <$> live /\
     footprint BestFit.header_size (BestFit.elems t ++ live)
       = BestFit.header_size
         + (brk (BestFit.sys bf_after_malloc) - brk (BestFit.sys BestFit.boot)) /\
     forall b, b ∈ BestFit.elems t ++ live ->
       b = (BestFit.dummy BestFit.boot, 0) \/
       (brk (BestFit.sys BestFit.boot) <= b.1 /\
        b.1 + BestFit.header_size + b.2 <= brk (BestFit.sys bf_after_malloc))) /\
  (ff_reachable_from (fun _ => True) FirstFit.boot ff_after_malloc [4112] /\
   exists l live,
     FirstFit.heap_inv ff_after_malloc l live /\ [4112] = FirstFit.payload <$> live /\
     footprint FirstFit.header_size (l ++ live)
       = FirstFit.header_size
         + (brk (FirstFit.sys ff_after_malloc) - brk (FirstFit.sys FirstFit.boot)) /\
     forall b, b ∈ l ++ live ->
       b = (FirstFit.dummy FirstFit.boot, 0) \/
       (brk (FirstFit.sys FirstFit.boot) <= b.1 /\
        b.1 + FirstFit.header_size + b.2 <= brk (FirstFit.sys ff_after_malloc))).
Proof.
  split.
  - assert (H1 : bf_reachable_from (fun _ => True) BestFit.boot bf_after_malloc [4128]).
    { apply bf_from_one. exact I. }
    split; [exact H1|].
    exact (proj1 X4_blocks_tile_the_pages _ _ _ H1).
  - assert (H1 : ff_reachable_from (fun _ => True) FirstFit.boot ff_after_malloc [4112]).
    { apply ff_from_one. exact I. }
    split; [exact H1|].
    exact (proj2 X4_blocks_tile_the_pages _ _ _ H1).
Defined.

(** ** Releasing a block twice *)

Lemma ff_list_rep_middle (m : FirstFit.mem) (p : Z) (l1 l2 : list (Z * Z)) (b c : Z * Z) :
  FirstFit.list_rep m p (l1 ++ b :: c :: l2) ->
  b.1 <> NULL /\ c.1 <> NULL /\
  m !! b.1 = Some {| FirstFit.size := b.2; FirstFit.next := c.1 |}.
Proof.
  revert p. induction l1 as [|x l1 IH]; intros p H.
  - simpl in H. destruct H as (_ & Hb & nx & Hm & Hc & Hcn & _).
    subst nx. done.
  - simpl in H. destruct H as (_ & _ & nx & _ & Hrest). by apply (IH nx).
Qed.

(** X5.  [first_fit_free] on a block that is in the free list already, any
    but the last of the list, stops in the [assert] of
    [first_fit_add_to_free_list]; so does the second of two releases of a
    block in a row, the free list holding another block. *)
Theorem X5_first_fit_double_free_aborts :
  (forall (st : FirstFit.state) (l live l1 l2 : list (Z * Z)) (b c : Z * Z),
      FirstFit.heap_inv st l live -> l = l1 ++ b :: c :: l2 ->
      FirstFit.first_fit_free st (FirstFit.payload b) = Abort) /\
  (forall (st : FirstFit.state) (l k1 k2 : list (Z * Z)) (b : Z * Z),
      FirstFit.heap_inv st l (k1 ++ b :: k2) -> l <> [] ->
      exists st1,
        FirstFit.first_fit_free st (FirstFit.payload b) = Done st1 /\
        FirstFit.first_fit_free st1 (FirstFit.payload b) = Abort).
Proof.
  assert (Hfirst : forall (st : FirstFit.state) (l live l1 l2 : list (Z * Z)) (b c : Z * Z),
      FirstFit.heap_inv st l live -> l = l1 ++ b :: c :: l2 ->
      FirstFit.first_fit_free st (FirstFit.payload b) = Abort).
  { intros st l live l1 l2 b c Hinv ->.
    destruct (ff_list_rep_middle _ _ _ _ _ _ (FirstFit.inv_rep _ _ _ Hinv))
      as (Hb & Hc & Hm).
    unfold FirstFit.first_fit_free, FirstFit.payload, FirstFit.first_fit_add_to_free_list.
    replace (b.1 + FirstFit.header_size - FirstFit.header_size) with b.1 by lia.
    rewrite (FirstFitTheory.ff_load_Some _ _ _ Hb Hm). rewrite bind_Done.
    cbn [FirstFit.next]. apply Z.eqb_neq in Hc. by rewrite Hc. }
  split; [exact Hfirst|].
  intros st l k1 k2 b Hinv Hne.
  destruct (FirstFitTheory.ff_free_ok st l k1 k2 b Hinv) as (st1 & Hrun & Hinv1 & _).
  exists st1. split; [exact Hrun|].
  destruct l as [|c l']; [done|].
  by apply (Hfirst st1 (b :: c :: l') (k1 ++ k2) [] l' b c).
Qed.

Lemma X5_witness :
  (FirstFit.heap_inv (ff_state_of ff_40_24) list_40_24 [(4192, 3984)] /\
   list_40_24 = [] ++ (4136, 40) :: (4096, 24) :: [(64, 0)] /\
   FirstFit.first_fit_free (ff_state_of ff_40_24) (FirstFit.payload (4136, 40)) = Abort) /\
  (FirstFit.heap_inv ff_after_malloc [(4120, 4056); (64, 0)] ([] ++ (4096, 8) :: []) /\
   [(4120, 4056); (64, 0)] <> [] /\
   exists st1,
     FirstFit.first_fit_free ff_after_malloc (FirstFit.payload (4096, 8)) = Done st1 /\
     FirstFit.first_fit_free st1 (FirstFit.payload (4096, 8)) = Abort).
Proof.
  split.
  - assert (H1 : FirstFit.heap_inv (ff_state_of ff_40_24) list_40_24 [(4192, 3984)]).
    { apply FirstFitTheory.ff_heap_invb_sound. vm_compute. reflexivity. }
    assert (H2 : list_40_24 = [] ++ (4136, 40) :: (4096, 24) :: [(64, 0)]) by reflexivity.
    split; [exact H1|]. split; [exact H2|].
    exact (proj1 X5_first_fit_double_free_aborts _ _ _ _ _ _ _ H1 H2).
  - assert (H1 : FirstFit.heap_inv ff_after_malloc [(4120, 4056); (64, 0)]
                   ([] ++ (4096, 8) :: [])).
    { apply FirstFitTheory.ff_heap_invb_sound. vm_compute. reflexivity. }
    assert (H2 : [(4120, 4056); (64, 0)] <> ([] : list (Z * Z))) by discriminate.
    split; [exact H1|]. split; [exact H2|].
    exact (proj2 X5_first_fit_double_free_aborts _ _ _ _ _ H1 H2).
Defined.

(** ** Removing a header the walk does not find *)

Lemma remove_absent (fuel : nat) (m : BestFit.mem) (a p : Z) (t : BestFit.tree) :
  BestFit.tree_rep m p t -> a ∉ BestFit.addrs t ->
  (BestFit.depth t < fuel)%nat ->
  BestFit.best_fit_remove_recursive fuel m a p = Crash.
Proof.
  revert m p t. induction fuel as [|fuel IH]; intros m p t Hrep Hnin Hfuel; [lia|].
  destruct t as [|x sz l r h].
  - simpl in Hrep. subst p. cbn [BestFit.best_fit_remove_recursive].
    destruct (Z.eqb_spec a NULL) as [->|Hne]; done.
  - simpl in Hrep. destruct Hrep as (-> & Hx & lp & rp & Hm & Hl & Hr).
    rewrite BestFitTheory.elem_of_addrs_T in Hnin.
    assert (Hax : a <> x) by tauto.
    cbn [BestFit.best_fit_remove_recursive BestFit.depth] in *.
    apply Z.eqb_neq in Hax. rewrite Hax.
    rewrite (BestFitTheory.load_Some _ _ _ Hx Hm). rewrite bind_Done.
    assert (Hld : (exists md, BestFit.load m a = Done md) \/ BestFit.load m a = Crash).
    { unfold BestFit.load. destruct (a =? NULL); [by right|].
      destruct (m !! a); [left; eauto|by right]. }
    destruct Hld as [(md & ->)| ->]; [|done].
    rewrite bind_Done. cbn [BestFit.size BestFit.left BestFit.right].
    destruct (sz <? BestFit.size md).
    + rewrite (IH m rp r Hr); [done|tauto|lia].
    + rewrite (IH m lp l Hl); [done|tauto|lia].
Qed.

(** X6.  [best_fit_remove_from_tree] on a header that is not in the tree
    dereferences [NULL]; and it does not find a header that is in the tree
    to the right of its parent or of an ancestor of the same size: the walk
    turns left on equal sizes, where [best_fit_insert_recursive] turned
    right. *)
Theorem X6_best_fit_remove_misses :
  (forall (st : BestFit.state) (t : BestFit.tree) (live : list (Z * Z)) (a : Z) (f : nat),
      BestFit.heap_inv st t live -> a ∉ BestFit.addrs t ->
      (BestFit.depth t < f)%nat ->
      BestFit.best_fit_remove_from_tree f st a = Crash) /\
  (forall (st : BestFit.state) (x sz : Z) (l r : BestFit.tree) (h : Z)
          (live : list (Z * Z)) (b : Z) (f : nat),
      BestFit.heap_inv st (BestFit.T x sz l r h) live ->
      (b, sz) ∈ BestFit.elems r ->
      (BestFit.depth (BestFit.T x sz l r h) < f)%nat ->
      BestFit.best_fit_remove_from_tree f st b = Crash).
Proof.
  split.
  - intros st t live a f Hinv Hnin Hf. unfold BestFit.best_fit_remove_from_tree.
    by rewrite (remove_absent f _ a _ t (BestFit.inv_rep _ _ _ Hinv) Hnin Hf).
  - intros st x sz l r h live b f Hinv Hin Hf.
    unfold BestFit.best_fit_remove_from_tree.
    pose proof (BestFit.inv_rep _ _ _ Hinv) as Hrep.
    pose proof (BestFitTheory.heap_inv_NoDup _ _ _ Hinv) as Hnd.
    destruct (BestFitTheory.NoDup_addrs_T _ _ _ _ _ Hnd) as (_ & _ & _ & Hxr & Hlr).
    assert (Hbr : b ∈ BestFit.addrs r) by (by apply (BestFitTheory.elem_of_elems_addrs b sz)).
    assert (Hbx : b <> x) by (intros ->; done).
    assert (Hbl : b ∉ BestFit.addrs l) by (intros Hbl; by apply (Hlr b)).
    destruct (BestFitTheory.tree_rep_size _ _ _ b sz Hrep) as (md & Hmd & Hsz).
    { simpl. apply elem_of_app. right. apply elem_of_cons. auto. }
    assert (Hbn : b <> NULL).
    { intros ->. apply (BestFitTheory.tree_rep_nonnull _ _ _ Hrep).
      apply BestFitTheory.elem_of_addrs_T. auto. }
    simpl in Hrep. destruct Hrep as (Hp & Hx & lp & rp & Hm & Hl & Hr).
    destruct f as [|f]; [lia|].
    cbn [BestFit.best_fit_remove_recursive BestFit.depth] in *.
    rewrite Hp. apply Z.eqb_neq in Hbx. rewrite Hbx.
    rewrite (BestFitTheory.load_Some _ _ _ Hx Hm). rewrite bind_Done.
    rewrite (BestFitTheory.load_Some _ _ _ Hbn Hmd). rewrite bind_Done.
    cbn [BestFit.size BestFit.left]. rewrite Hsz, Z.ltb_irrefl.
    rewrite (remove_absent f _ b lp l Hl Hbl); [done|lia].
Qed.

Lemma X6_witness :
  (BestFit.heap_inv bf_after_malloc tree_after_malloc [(4096, 8)] /\
   (4096 ∉ BestFit.addrs tree_after_malloc) /\
   (BestFit.depth tree_after_malloc < 8)%nat /\
   BestFit.best_fit_remove_from_tree 8 bf_after_malloc 4096 = Crash) /\
  (BestFit.heap_inv (state_of bf_two_equal) tree_two_equal [] /\
   (4136, 8) ∈ BestFit.elems
                 (BestFit.T 4176 3984 (BestFit.T 4136 8 BestFit.E BestFit.E 1) BestFit.E 3) /\
   (BestFit.depth tree_two_equal < 8)%nat /\
   BestFit.best_fit_remove_from_tree 8 (state_of bf_two_equal) 4136 = Crash).
Proof.
  split.
  - assert (H1 : BestFit.heap_inv bf_after_malloc tree_after_malloc [(4096, 8)]).
    { apply BestFitTheory.heap_invb_sound. vm_compute. reflexivity. }
    assert (H2 : 4096 ∉ BestFit.addrs tree_after_malloc).
    { change (4096 ∉ [64; 4136]). rewrite !elem_of_cons, elem_of_nil. lia. }
    assert (H3 : (BestFit.depth tree_after_malloc < 8)%nat) by (simpl; lia).
    split; [exact H1|]. split; [exact H2|]. split; [exact H3|].
    exact (proj1 X6_best_fit_remove_misses _ _ _ _ _ H1 H2 H3).
  - assert (H1 : BestFit.heap_inv (state_of bf_two_equal) tree_two_equal []).
    { apply BestFitTheory.heap_invb_sound. vm_compute. reflexivity. }
    assert (H2 : (4136, 8) ∈ BestFit.elems
                 (BestFit.T 4176 3984 (BestFit.T 4136 8 BestFit.E BestFit.E 1)
                            BestFit.E 3)).
    { simpl. apply elem_of_cons. auto. }
    assert (H3 : (BestFit.depth tree_two_equal < 8)%nat) by (simpl; lia).
    split; [exact H1|]. split; [exact H2|]. split; [exact H3|].
    exact (proj2 X6_best_fit_remove_misses _ _ _ _ _ _ _ _ _ H1 H2 H3).
Defined.

(** ** Which block a request is served from after a release *)

(** X7.  First fit reuses last in, first out: after [first_fit_free(p)], a
    request that the released block can hold is served from that block,
    whatever else the free list holds. *)
Theorem X7_first_fit_reuses_last_released (st : FirstFit.state) (l k1 k2 : list (Z * Z))
    (b : Z * Z) (req : Z) :
  FirstFit.heap_inv st l (k1 ++ b :: k2) -> 0 <= req <= b.2 ->
  exists st1 f st2,
    FirstFit.first_fit_free st (FirstFit.payload b) = Done st1 /\
    FirstFit.first_fit_malloc f st1 req = Done (st2, FirstFit.payload b).
Proof.
  intros Hinv Hreq.
  destruct (FirstFitTheory.ff_free_ok st l k1 k2 b Hinv) as (st1 & Hrun & Hinv1 & _).
  destruct (FirstFitTheory.ff_malloc_take st1 (b :: l) (k1 ++ k2) [] l req b Hinv1)
    as (f & st2 & Hm & _); [lia|apply FirstFitTheory.ff_split_first_head; lia|].
  exists st1, f, st2. split; [exact Hrun|exact Hm].
Qed.

Lemma X7_witness :
  FirstFit.heap_inv ff_after_malloc [(4120, 4056); (64, 0)] ([] ++ (4096, 8) :: []) /\
  0 <= 8 <= (4096, 8).2 /\
  exists st1 f st2,
    FirstFit.first_fit_free ff_after_malloc (FirstFit.payload (4096, 8)) = Done st1 /\
    FirstFit.first_fit_malloc f st1 8 = Done (st2, FirstFit.payload (4096, 8)).
Proof.
  assert (H1 : FirstFit.heap_inv ff_after_malloc [(4120, 4056); (64, 0)]
                 ([] ++ (4096, 8) :: [])).
  { apply FirstFitTheory.ff_heap_invb_sound. vm_compute. reflexivity. }
  assert (H2 : 0 <= 8 <= (4096, 8).2) by (simpl; lia).
  split; [exact H1|]. split; [exact H2|].
  exact (X7_first_fit_reuses_last_released _ _ _ _ _ _ H1 H2).
Defined.

(** The search stops at the first block, in the order of the tree, that is
    large enough. *)
Lemma search_first (req : Z) (t : BestFit.tree) (b : Z * Z) :
  BestFit.bst t -> BestFit.search_t req t = Some b ->
  exists l1 l2, BestFit.elems t = l1 ++ b :: l2 /\ forall x, x ∈ l1 -> x.2 < req.
Proof.
  revert b. induction t as [|a sz l IHl r IHr h]; intros b Hbst Hs; [done|].
  apply BestFitTheory.bst_T in Hbst as (Hbl & Hbr & Hll & Hrr).
  simpl in Hs. destruct (Z.ltb_spec sz req) as [Hlt|Hge].
  - destruct (IHr b Hbr Hs) as (l1 & l2 & Hr & Hsmall).
    exists (BestFit.elems l ++ (a, sz) :: l1), l2. split.
    + simpl. rewrite Hr. by rewrite <- app_assoc.
    + intros x Hx. apply elem_of_app in Hx as [Hx|Hx]; [specialize (Hll x Hx); lia|].
      apply elem_of_cons in Hx as [->|Hx]; [done|by apply Hsmall].
  - destruct (BestFit.search_t req l) as [c|] eqn:Hsl.
    + injection Hs as ->. destruct (IHl b Hbl eq_refl) as (l1 & l2 & Hl & Hsmall).
      exists l1, (l2 ++ (a, sz) :: BestFit.elems r). split; [|done].
      simpl. rewrite Hl. by rewrite <- app_assoc.
    + injection Hs as <-. exists (BestFit.elems l), (BestFit.elems r). split; [done|].
      by apply BestFitTheory.search_none.
Qed.

(** The insertion puts a block after the blocks that are not larger and
    before the larger ones. *)
Lemma insert_elems_exact (a0 s0 h0 : Z) (t : BestFit.tree) :
  BestFit.bst t ->
  exists l1 l2,
    BestFit.elems t = l1 ++ l2 /\
    BestFit.elems (BestFit.insert_t a0 s0 h0 t) = l1 ++ (a0, s0) :: l2 /\
    (forall x, x ∈ l1 -> x.2 <= s0) /\ (forall x, x ∈ l2 -> s0 < x.2).
Proof.
  induction t as [|a sz l IHl r IHr h]; intros Hbst.
  - exists [], []. split; [done|]. split; [done|].
    split; intros x Hx; by apply elem_of_nil in Hx.
  - apply BestFitTheory.bst_T in Hbst as (Hbl & Hbr & Hll & Hrr).
    cbn [BestFit.insert_t]. destruct (Z.ltb_spec s0 sz) as [Hlt|Hge];
      rewrite BestFitTheory.elems_balance.
    + destruct (IHl Hbl) as (l1 & l2 & Hl & Hins & H1 & H2).
      exists l1, (l2 ++ (a, sz) :: BestFit.elems r). split; [|split; [|split]].
      * simpl. rewrite Hl. by rewrite <- app_assoc.
      * rewrite Hins. by rewrite <- app_assoc.
      * done.
      * intros x Hx. apply elem_of_app in Hx as [Hx|Hx]; [by apply H2|].
        apply elem_of_cons in Hx as [->|Hx]; [done|]. specialize (Hrr x Hx). lia.
    + destruct (IHr Hbr) as (l1 & l2 & Hr & Hins & H1 & H2).
      exists (BestFit.elems l ++ (a, sz) :: l1), l2. split; [|split; [|split]].
      * simpl. rewrite Hr. by rewrite <- app_assoc.
      * rewrite Hins. by rewrite <- app_assoc.
      * intros x Hx. apply elem_of_app in Hx as [Hx|Hx]; [specialize (Hll x Hx); lia|].
        apply elem_of_cons in Hx as [->|Hx]; [done|by apply H1].
      * done.
Qed.

(** Two ways to read the first block of a list that is large enough. *)
Lemma first_fit_unique (req : Z) (l1 l2 k1 k2 : list (Z * Z)) (b c : Z * Z) :
  l1 ++ b :: l2 = k1 ++ c :: k2 ->
  (forall x, x ∈ l1 -> x.2 < req) -> req <= b.2 ->
  (forall x, x ∈ k1 -> x.2 < req) -> req <= c.2 ->
  b = c /\ l1 = k1.
Proof.
  revert k1. induction l1 as [|x l1 IH]; intros k1 Heq Hl Hb Hk Hc.
  - destruct k1 as [|y k1]; simpl in Heq.
    + by injection Heq as ->.
    + injection Heq as -> _. specialize (Hk y ltac:(apply elem_of_cons; auto)). lia.
  - destruct k1 as [|y k1]; simpl in Heq.
    + injection Heq as -> _. specialize (Hl c ltac:(apply elem_of_cons; auto)). lia.
    + injection Heq as -> Heq.
      destruct (IH k1 Heq) as (-> & ->); try done.
      * intros z Hz. apply Hl. apply elem_of_cons. auto.
      * intros z Hz. apply Hk. apply elem_of_cons. auto.
Qed.

Lemma first_fit_before (req : Z) (l1 l2 m1 m2 : list (Z * Z)) (b c x : Z * Z) :
  l1 ++ b :: l2 = m1 ++ c :: m2 ->
  x ∈ l1 -> req <= x.2 -> (forall y, y ∈ m1 -> y.2 < req) -> c ∈ l1.
Proof.
  revert m1. induction l1 as [|y l1 IH]; intros m1 Heq Hx Hreq Hm.
  - by apply elem_of_nil in Hx.
  - destruct m1 as [|z m1]; simpl in Heq.
    + injection Heq as -> _. apply elem_of_cons. auto.
    + injection Heq as -> Heq. apply elem_of_cons. right.
      apply (IH m1 Heq); [|done|].
      * apply elem_of_cons in Hx as [->|Hx]; [|done].
        specialize (Hm z ltac:(apply elem_of_cons; auto)). lia.
      * intros w Hw. apply Hm. apply elem_of_cons. auto.
Qed.

(** X8.  Best fit, after [best_fit_free(p)]: a request that the released
    block can hold is served from that block when no block of the tree has a
    size between the request and the size of the released block; when one
    has, equal sizes included, the request is served from another block, so
    that among blocks of one size the one released first is reused first. *)
Theorem X8_best_fit_reuse_order (st : BestFit.state) (t : BestFit.tree)
    (k1 k2 : list (Z * Z)) (b : Z * Z) (req : Z) :
  BestFit.heap_inv st t (k1 ++ b :: k2) -> 0 <= req <= b.2 ->
  exists f st1,
    BestFit.best_fit_free f st (BestFit.payload b) = Done st1 /\
    ((forall x, x ∈ BestFit.elems t -> x.2 < req \/ b.2 < x.2) ->
     exists f' st2, BestFit.best_fit_malloc f' st1 req = Done (st2, BestFit.payload b)) /\
    (forall x f' st2 p,
        x ∈ BestFit.elems t -> req <= x.2 <= b.2 ->
        BestFit.best_fit_malloc f' st1 req = Done (st2, p) ->
        p <> BestFit.payload b).
Proof.
  intros Hinv Hreq.
  destruct (BestFitTheory.free_ok st t k1 k2 b Hinv) as (f & st1 & Hrun & Hinv1 & _).
  exists f, st1. split; [exact Hrun|].
  set (t1 := BestFit.insert_t b.1 b.2 1 t) in *.
  destruct (insert_elems_exact b.1 b.2 1 t (BestFit.inv_bst _ _ _ Hinv))
    as (l1 & l2 & Ht & Ht1 & Hl1 & Hl2).
  fold t1 in Ht1. replace (b.1, b.2) with b in Ht1 by (by destruct b).
  assert (Hbin : b ∈ BestFit.elems t1).
  { rewrite Ht1. apply elem_of_app. right. apply elem_of_cons. auto. }
  assert (Hsome : is_Some (BestFit.search_t req t1)).
  { apply (BestFitTheory.search_some req t1 b (BestFit.inv_bst _ _ _ Hinv1) Hbin). lia. }
  destruct Hsome as (c & Hc).
  destruct (BestFitTheory.search_in _ _ _ Hc) as (_ & Hcreq).
  destruct (search_first req t1 c (BestFit.inv_bst _ _ _ Hinv1) Hc)
    as (m1 & m2 & Hm & Hsmall).
  assert (Hwhich : forall f' st2 p,
             BestFit.best_fit_malloc f' st1 req = Done (st2, p) ->
             p = c.1 + BestFit.header_size).
  { intros f' st2 p Hm'.
    destruct (BestFitTheory.malloc_inv st1 t1 _ req f' st2 p Hinv1 (proj1 Hreq) Hm')
      as (t2 & b' & Hmt & _ & -> & _).
    pose proof (BestFitTheory.malloc_t_addr _ _ _ _ _ _ (BestFit.inv_bst _ _ _ Hinv1) Hmt)
      as Haddr.
    rewrite Hc in Haddr. destruct Haddr as (-> & _). done. }
  split.
  - intros Hnone.
    assert (Hbsz : b.2 <= 4096 - BestFit.header_size).
    { destruct (BestFit.inv_blocks _ _ _ Hinv) as (_ & Hbd & _).
      destruct (Hbd b) as (_ & Hsz & _); [|lia].
      apply elem_of_app. right. apply elem_of_app. right. apply elem_of_cons. auto. }
    destruct (BestFitTheory.malloc_ok st1 t1 (k1 ++ k2) req Hinv1)
      as (f' & st2 & t2 & b' & Hm' & _); [lia|].
    exists f', st2. rewrite Hm'. f_equal. f_equal.
    rewrite (Hwhich _ _ _ Hm').
    assert (Heq : b = c /\ l1 = m1).
    { apply (first_fit_unique req l1 l2 m1 m2 b c); [congruence| |lia|done|done].
      intros x Hx. specialize (Hl1 x Hx).
      destruct (Hnone x) as [Hlt|Hgt]; [|done|lia].
      rewrite Ht. apply elem_of_app. by left. }
    destruct Heq as (<- & _). done.
  - intros x f' st2 p Hx Hxsz Hm'.
    rewrite (Hwhich _ _ _ Hm'). unfold BestFit.payload.
    assert (Hxl1 : x ∈ l1).
    { rewrite Ht in Hx. apply elem_of_app in Hx as [Hx|Hx]; [done|].
      specialize (Hl2 x Hx). lia. }
    assert (Hcl1 : c ∈ l1).
    { apply (first_fit_before req l1 l2 m1 m2 b c x); [congruence|done|lia|done]. }
    assert (Hct : c.1 ∈ BestFit.addrs t).
    { unfold BestFit.addrs. rewrite Ht. apply list_elem_of_fmap_2.
      apply elem_of_app. by left. }
    assert (Hbt : b.1 ∉ BestFit.addrs t).
    { apply (BestFitTheory.heap_inv_live_fresh _ _ _ _ Hinv).
      apply elem_of_app. right. apply elem_of_cons. auto. }
    intros Heq. apply Hbt. replace b.1 with c.1 by lia. done.
Qed.

Lemma X8_witness :
  BestFit.heap_inv bf_after_two (BestFit.T 64 0 BestFit.E
                                   (BestFit.T 4176 3984 BestFit.E BestFit.E 1) 2)
    ([(4136, 8)] ++ (4096, 8) :: []) /\
  0 <= 8 <= (4096, 8).2 /\
  exists f st1,
    BestFit.best_fit_free f bf_after_two (BestFit.payload (4096, 8)) = Done st1 /\
    ((forall x, x ∈ BestFit.elems (BestFit.T 64 0 BestFit.E
                                     (BestFit.T 4176 3984 BestFit.E BestFit.E 1) 2) ->
                x.2 < 8 \/ (4096, 8).2 < x.2) ->
     exists f' st2,
       BestFit.best_fit_malloc f' st1 8 = Done (st2, BestFit.payload (4096, 8))) /\
    (forall x f' st2 p,
        x ∈ BestFit.elems (BestFit.T 64 0 BestFit.E
                             (BestFit.T 4176 3984 BestFit.E BestFit.E 1) 2) ->
        8 <= x.2 <= (4096, 8).2 ->
        BestFit.best_fit_malloc f' st1 8 = Done (st2, p) ->
        p <> BestFit.payload (4096, 8)).
Proof.
  assert (H1 : BestFit.heap_inv bf_after_two
                 (BestFit.T 64 0 BestFit.E (BestFit.T 4176 3984 BestFit.E BestFit.E 1) 2)
                 ([(4136, 8)] ++ (4096, 8) :: [])).
  { apply BestFitTheory.heap_invb_sound. vm_compute. reflexivity. }
  assert (H2 : 0 <= 8 <= (4096, 8).2) by (simpl; lia).
  split; [exact H1|]. split; [exact H2|].
  exact (X8_best_fit_reuse_order _ _ _ _ _ _ H1 H2).
Defined.

(** ** What [initialize] leaves of an earlier run *)

(** X9.  Whatever the heap held before, after [initialize] the first request
    of at least one byte finds no free block: it maps a page and is served
    from the start of that page.  The blocks that were free before
    [initialize] are not used again. *)
Theorem X9_initialize_forgets :
  (forall (st : BestFit.state) (req : Z),
      0 < BestFit.dummy st ->
      BestFit.dummy st + BestFit.header_size <= brk (BestFit.sys st) ->
      1 <= req <= 4096 - BestFit.header_size ->
      exists f st',
        BestFit.best_fit_malloc f (BestFit.best_fit_initialize st) req
          = Done (st', brk (BestFit.sys st) + BestFit.header_size) /\
        brk (BestFit.sys st') = brk (BestFit.sys st) + 4096) /\
  (forall (st : FirstFit.state) (req : Z),
      0 < FirstFit.dummy st ->
      FirstFit.dummy st + FirstFit.header_size <= brk (FirstFit.sys st) ->
      1 <= req <= 4096 - FirstFit.header_size ->
      exists f st',
        FirstFit.first_fit_malloc f (FirstFit.first_fit_initialize st) req
          = Done (st', brk (FirstFit.sys st) + FirstFit.header_size) /\
        brk (FirstFit.sys st') = brk (FirstFit.sys st) + 4096).
Proof.
  split.
  - intros st req Hd Hb Hreq.
    pose proof (BestFitTheory.initialize_inv st Hd Hb) as Hinv.
    destruct (BestFitTheory.malloc_ok _ _ _ req Hinv) as (f & st' & t' & b & Hm & _);
      [lia|].
    destruct (BestFitTheory.malloc_inv _ _ _ req f st' _ Hinv ltac:(lia) Hm)
      as (t2 & b2 & Hmt & _ & Hp & _ & _ & Hsys).
    pose proof (BestFitTheory.malloc_t_addr _ _ _ _ _ _ (BestFit.inv_bst _ _ _ Hinv) Hmt)
      as Haddr.
    assert (Hnone : BestFit.search_t req
                      (BestFit.T (BestFit.dummy st) 0 BestFit.E BestFit.E 1) = None).
    { simpl. destruct (Z.ltb_spec 0 req); [done|lia]. }
    rewrite Hnone in Haddr. destruct Haddr as (Hb2 & Htop).
    exists f, st'. split; [|exact Htop].
    rewrite Hm. f_equal. f_equal. simpl in Hb2. lia.
  - intros st req Hd Hb Hreq.
    pose proof (FirstFitTheory.ff_initialize_inv st Hd Hb) as Hinv.
    destruct (FirstFitTheory.ff_malloc_ok _ _ _ req Hinv) as (f & st' & l' & b & Hm & _);
      [lia|].
    destruct (FirstFitTheory.ff_malloc_inv _ _ _ req f st' _ Hinv ltac:(lia) Hm)
      as (l2 & b2 & Hml & _ & Hp & _ & _ & Hsys).
    unfold FirstFit.malloc_l in Hml. simpl in Hml.
    destruct (Z.ltb_spec 0 req); [|lia].
    destruct (Z.ltb_spec (4096 - FirstFit.header_size) req); [lia|].
    injection Hml as Ht Htop.
    pose proof (FirstFitTheory.ff_take_l_addr req (brk (FirstFit.sys st))
                  (4096 - FirstFit.header_size)
                  [(FirstFit.dummy st, 0)]) as Haddr.
    rewrite Ht in Haddr. simpl in Haddr.
    exists f, st'. split; [|simpl in Htop; lia].
    rewrite Hm. f_equal. f_equal. lia.
Qed.

Lemma X9_witness :
  (0 < BestFit.dummy (state_of bf_two_equal) /\
   BestFit.dummy (state_of bf_two_equal) + BestFit.header_size
     <= brk (BestFit.sys (state_of bf_two_equal)) /\
   1 <= 8 <= 4096 - BestFit.header_size /\
   exists f st',
     BestFit.best_fit_malloc f (BestFit.best_fit_initialize (state_of bf_two_equal)) 8
       = Done (st', brk (BestFit.sys (state_of bf_two_equal)) + BestFit.header_size) /\
     brk (BestFit.sys st') = brk (BestFit.sys (state_of bf_two_equal)) + 4096) /\
  (0 < FirstFit.dummy (ff_state_of ff_40_24) /\
   FirstFit.dummy (ff_state_of ff_40_24) + FirstFit.header_size
     <= brk (FirstFit.sys (ff_state_of ff_40_24)) /\
   1 <= 8 <= 4096 - FirstFit.header_size /\
   exists f st',
     FirstFit.first_fit_malloc f (FirstFit.first_fit_initialize (ff_state_of ff_40_24)) 8
       = Done (st', brk (FirstFit.sys (ff_state_of ff_40_24)) + FirstFit.header_size) /\
     brk (FirstFit.sys st') = brk (FirstFit.sys (ff_state_of ff_40_24)) + 4096).
Proof.
  split.
  - assert (H1 : 0 < BestFit.dummy (state_of bf_two_equal)) by (vm_compute; reflexivity).
    assert (H2 : BestFit.dummy (state_of bf_two_equal) + BestFit.header_size
                 <= brk (BestFit.sys (state_of bf_two_equal))).
    { vm_compute. discriminate. }
    assert (H3 : 1 <= 8 <= 4096 - BestFit.header_size) by (unfold BestFit.header_size; lia).
    split; [exact H1|]. split; [exact H2|]. split; [exact H3|].
    exact (proj1 X9_initialize_forgets _ _ H1 H2 H3).
  - assert (H1 : 0 < FirstFit.dummy (ff_state_of ff_40_24)) by (vm_compute; reflexivity).
    assert (H2 : FirstFit.dummy (ff_state_of ff_40_24) + FirstFit.header_size
                 <= brk (FirstFit.sys (ff_state_of ff_40_24))).
    { vm_compute. discriminate. }
    assert (H3 : 1 <= 8 <= 4096 - FirstFit.header_size)
      by (unfold FirstFit.header_size; lia).
    split; [exact H1|]. split; [exact H2|]. split; [exact H3|].
    exact (proj2 X9_initialize_forgets _ _ H1 H2 H3).
Defined.

(** ** A request of size 0 *)

(** X10.  Right after [initialize] a request of size 0 is served from the
    dummy header: the pointer handed out is the address just after the
    dummy, which lies in the allocator's global and in no mapped page, no
    page is mapped, and the free collection is left empty. *)
Theorem X10_zero_request_takes_the_dummy :
  (forall (st : BestFit.state),
      0 < BestFit.dummy st ->
      BestFit.dummy st + BestFit.header_size <= brk (BestFit.sys st) ->
      exists f st',
        BestFit.best_fit_malloc f (BestFit.best_fit_initialize st) 0
          = Done (st', BestFit.dummy st + BestFit.header_size) /\
        BestFit.free_head st' = NULL /\ BestFit.sys st' = BestFit.sys st) /\
  (forall (st : FirstFit.state),
      0 < FirstFit.dummy st ->
      FirstFit.dummy st + FirstFit.header_size <= brk (FirstFit.sys st) ->
      exists f st',
        FirstFit.first_fit_malloc f (FirstFit.first_fit_initialize st) 0
          = Done (st', FirstFit.dummy st + FirstFit.header_size) /\
        FirstFit.free_head st' = NULL /\ FirstFit.sys st' = FirstFit.sys st).
Proof.
  split.
  - intros st Hd Hb.
    pose proof (BestFitTheory.initialize_inv st Hd Hb) as Hinv.
    destruct (BestFitTheory.malloc_take _ _ _ 0 (BestFit.dummy st) 0 Hinv)
      as (t1 & f & st' & Hrm & Hm & Hsys & _ & Hpost); [lia|done|].
    simpl in Hrm. rewrite Z.eqb_refl in Hrm. injection Hrm as <-.
    exists f, st'. split; [exact Hm|]. split; [|exact Hsys].
    change (BestFit.header_size <? 0 - 0) with false in Hpost.
    exact (BestFit.inv_rep _ _ _ Hpost).
  - intros st Hd Hb.
    pose proof (FirstFitTheory.ff_initialize_inv st Hd Hb) as Hinv.
    destruct (FirstFitTheory.ff_malloc_take _ _ _ [] [] 0 (FirstFit.dummy st, 0) Hinv)
      as (f & st' & Hm & Hsys & _ & Hpost); [lia|done|].
    exists f, st'. split; [exact Hm|]. split; [|exact Hsys].
    exact (FirstFit.inv_rep _ _ _ Hpost).
Qed.

Lemma X10_witness :
  (0 < BestFit.dummy BestFit.boot /\
   BestFit.dummy BestFit.boot + BestFit.header_size <= brk (BestFit.sys BestFit.boot) /\
   exists f st',
     BestFit.best_fit_malloc f (BestFit.best_fit_initialize BestFit.boot) 0
       = Done (st', BestFit.dummy BestFit.boot + BestFit.header_size) /\
     BestFit.free_head st' = NULL /\ BestFit.sys st' = BestFit.sys BestFit.boot) /\
  (0 < FirstFit.dummy FirstFit.boot /\
   FirstFit.dummy FirstFit.boot + FirstFit.header_size <= brk (FirstFit.sys FirstFit.boot) /\
   exists f st',
     FirstFit.first_fit_malloc f (FirstFit.first_fit_initialize FirstFit.boot) 0
       = Done (st', FirstFit.dummy FirstFit.boot + FirstFit.header_size) /\
     FirstFit.free_head st' = NULL /\ FirstFit.sys st' = FirstFit.sys FirstFit.boot).
Proof.
  split.
  - assert (H1 : 0 < BestFit.dummy BestFit.boot) by (simpl; lia).
    assert (H2 : BestFit.dummy BestFit.boot + BestFit.header_size
                 <= brk (BestFit.sys BestFit.boot)).
    { simpl. unfold BestFit.header_size. lia. }
    split; [exact H1|]. split; [exact H2|].
    exact (proj1 X10_zero_request_takes_the_dummy _ H1 H2).
  - assert (H1 : 0 < FirstFit.dummy FirstFit.boot) by (simpl; lia).
    assert (H2 : FirstFit.dummy FirstFit.boot + FirstFit.header_size
                 <= brk (FirstFit.sys FirstFit.boot)).
    { simpl. unfold FirstFit.header_size. lia. }
    split; [exact H1|]. split; [exact H2|].
    exact (proj2 X10_zero_request_takes_the_dummy _ H1 H2).
Defined.

(** ** The order of the tree *)

(** X11.  In every state the best-fit allocator reaches, the free blocks
    form a binary search tree on their sizes, at distinct addresses, with
    every stored height at least 1, and no block in use is a node of it:
    the order survives the rotations although the balance does not. *)
Theorem X11_free_tree_is_a_search_tree (st : BestFit.state) (ps : list Z) :
  BestFit.reachable st ps ->
  exists t,
    BestFit.tree_rep (BestFit.heap st) (BestFit.free_head st) t /\
    BestFit.bst t /\ NoDup (BestFit.addrs t) /\ BestFit.heights_pos t /\
    forall p, p ∈ ps -> p - BestFit.header_size ∉ BestFit.addrs t.
Proof.
  intros Hreach.
  destruct (BestFitTheory.reachable_inv st ps Hreach) as (t & live & Hinv & ->).
  exists t. split; [apply (BestFit.inv_rep _ _ _ Hinv)|].
  split; [apply (BestFit.inv_bst _ _ _ Hinv)|].
  split; [apply (BestFitTheory.heap_inv_NoDup _ _ _ Hinv)|].
  split; [apply (BestFit.inv_heights _ _ _ Hinv)|].
  intros p Hp. apply list_elem_of_fmap in Hp as (b & -> & Hb).
  unfold BestFit.payload.
  replace (b.1 + BestFit.header_size - BestFit.header_size) with b.1 by lia.
  by apply (BestFitTheory.heap_inv_live_fresh _ _ _ _ Hinv).
Qed.

Lemma X11_witness :
  BestFit.reachable bf_after_malloc [4128] /\
  exists t,
    BestFit.tree_rep (BestFit.heap bf_after_malloc) (BestFit.free_head bf_after_malloc) t /\
    BestFit.bst t /\ NoDup (BestFit.addrs t) /\ BestFit.heights_pos t /\
    forall p, p ∈ [4128] -> p - BestFit.header_size ∉ BestFit.addrs t.
Proof.
  assert (H1 : BestFit.reachable bf_after_malloc [4128]) by exact bf_reach_one.
  split; [exact H1|].
  exact (X11_free_tree_is_a_search_tree _ _ H1).
Defined.

(** X12.  [best_fit_balance_tree] on a node whose subtrees are in place
    answers the root of a tree with the same nodes in the same order: a
    rotation loses no block and keeps the sizes ascending.  It writes no
    size field and no header outside the tree. *)
Theorem X12_balance_keeps_the_order (m : BestFit.mem) (a sz lp rp h : Z)
    (l r : BestFit.tree) :
  a <> NULL ->
  m !! a = Some {| BestFit.size := sz; BestFit.left := lp;
                   BestFit.right := rp; BestFit.height := h |} ->
  BestFit.tree_rep m lp l -> BestFit.tree_rep m rp r ->
  NoDup (BestFit.addrs (BestFit.T a sz l r h)) ->
  BestFit.heights_pos l -> BestFit.heights_pos r ->
  exists m' p' t',
    BestFit.best_fit_balance_tree m a = Done (m', p') /\
    BestFit.tree_rep m' p' t' /\
    BestFit.elems t' = BestFit.elems l ++ (a, sz) :: BestFit.elems r /\
    BestFit.same_sizes m m' /\
    BestFit.unchanged_outside (BestFit.addrs (BestFit.T a sz l r h)) m m'.
Proof.
  intros Ha Hm Hl Hr Hnd Hhl Hhr.
  destruct (BestFitTheory.balance_refines m a sz lp rp h l r Ha Hm Hl Hr Hnd)
    as (m' & Hrun & Hrep & Hout & Hsz).
  { by apply BestFitTheory.hgt_nonneg. }
  { by apply BestFitTheory.hgt_nonneg. }
  exists m', (BestFit.root_of (BestFit.balance_t a sz l r)), (BestFit.balance_t a sz l r).
  split; [done|]. split; [done|]. split; [apply BestFitTheory.elems_balance|]. done.
Qed.

Lemma X12_witness :
  100 <> NULL /\
  three_headers !! 100 = Some {| BestFit.size := 10; BestFit.left := NULL;
                                 BestFit.right := 200; BestFit.height := 3 |} /\
  BestFit.tree_rep three_headers NULL BestFit.E /\
  BestFit.tree_rep three_headers 200 tree_200 /\
  NoDup (BestFit.addrs (BestFit.T 100 10 BestFit.E tree_200 3)) /\
  BestFit.heights_pos BestFit.E /\ BestFit.heights_pos tree_200 /\
  exists m' p' t',
    BestFit.best_fit_balance_tree three_headers 100 = Done (m', p') /\
    BestFit.tree_rep m' p' t' /\
    BestFit.elems t' = BestFit.elems BestFit.E ++ (100, 10) :: BestFit.elems tree_200 /\
    BestFit.same_sizes three_headers m' /\
    BestFit.unchanged_outside (BestFit.addrs (BestFit.T 100 10 BestFit.E tree_200 3))
                              three_headers m'.
Proof.
  assert (H1 : 100 <> NULL) by (unfold NULL; lia).
  assert (H2 : three_headers !! 100
               = Some {| BestFit.size := 10; BestFit.left := NULL;
                         BestFit.right := 200; BestFit.height := 3 |}).
  { vm_compute. reflexivity. }
  assert (H3 : BestFit.tree_rep three_headers NULL BestFit.E) by reflexivity.
  assert (H4 : BestFit.tree_rep three_headers 200 tree_200).
  { apply BestFitTheory.tree_repb_sound. vm_compute. reflexivity. }
  assert (H5 : NoDup (BestFit.addrs (BestFit.T 100 10 BestFit.E tree_200 3))).
  { apply nodupb_sound. vm_compute. reflexivity. }
  assert (H6 : BestFit.heights_pos BestFit.E) by exact I.
  assert (H7 : BestFit.heights_pos tree_200) by (simpl; lia).
  split; [exact H1|]. split; [exact H2|]. split; [exact H3|]. split; [exact H4|].
  split; [exact H5|]. split; [exact H6|]. split; [exact H7|].
  exact (X12_balance_keeps_the_order _ _ _ _ _ _ _ _ H1 H2 H3 H4 H5 H6 H7).
Defined.

(** * The vector of [main.c] *)

Lemma vector_at_rep (v : Vector.vector_t) (l : list Harness.object_t) (i : Z) :
  Vector.vector_rep v l -> 0 <= i ->
  Vector.vector_at v i = match l !! Z.to_nat i with
                         | Some o => Done o
                         | None => Abort
                         end.
Proof.
  intros (Hsz & _ & _ & Hslots) Hi. unfold Vector.vector_at.
  destruct (Z.ltb_spec i (Vector.size v)) as [Hlt|Hge]; simpl.
  - destruct (lookup_lt_is_Some_2 l (Z.to_nat i)) as (o & Ho); [lia|].
    rewrite Ho. by rewrite (Hslots _ _ Ho).
  - rewrite lookup_ge_None_2; [done|lia].
Qed.

Lemma vector_push_rep (v : Vector.vector_t) (l : list Harness.object_t)
    (o : Harness.object_t) :
  Vector.vector_rep v l ->
  (Vector.capacity v * 2 + 128) * Vector.object_size < size_max ->
  exists v',
    Vector.vector_push v o = Done v' /\ Vector.vector_rep v' (l ++ [o]) /\
    Vector.capacity v' = (if Vector.capacity v <=? Vector.size v
                          then Vector.capacity v * 2 + 128
                          else Vector.capacity v).
Proof.
  intros (Hsz & Hcap & Hbuf & Hslots) Hsmall.
  unfold Vector.object_size, size_max in Hsmall.
  assert (Hl : 0 <= Z.of_nat (length l)) by lia.
  unfold Vector.vector_push.
  destruct (Z.leb_spec (Vector.capacity v) (Vector.size v)) as [Hfull|Hroom];
    cbn [Vector.size Vector.capacity Vector.buffer].
  - set (c := Vector.capacity v * 2 + 128) in *.
    rewrite (wrap_small c) by (unfold size_max; lia).
    rewrite (wrap_small (c * Vector.object_size))
      by (unfold size_max, Vector.object_size; lia).
    unfold Vector.realloc. rewrite Z.div_mul by done.
    rewrite length_resize.
    destruct (Nat.ltb_spec (Z.to_nat (Vector.size v)) (Z.to_nat c)) as [Hin|]; [|lia].
    rewrite (wrap_small (Vector.size v + 1)) by (unfold size_max; lia).
    eexists. split; [done|]. split; [|done].
    split; [|split; [|split]]; cbn [Vector.size Vector.capacity Vector.buffer].
    + rewrite length_app. simpl. lia.
    + lia.
    + rewrite length_insert, length_resize. lia.
    + intros i x Hx. apply lookup_app_Some in Hx as [Hx|(Hge & Hx)].
      * pose proof (lookup_lt_Some _ _ _ Hx) as Hlt.
        rewrite list_lookup_insert_ne by lia.
        pose proof (Hslots _ _ Hx) as Hb.
        rewrite lookup_resize; [done|lia|by eapply lookup_lt_Some].
      * apply list_lookup_singleton_Some in Hx as (Hi & <-).
        replace i with (Z.to_nat (Vector.size v)) by lia.
        apply list_lookup_insert_eq. rewrite length_resize. lia.
  - destruct (Nat.ltb_spec (Z.to_nat (Vector.size v)) (length (Vector.buffer v)))
      as [Hin|]; [|lia].
    rewrite (wrap_small (Vector.size v + 1)) by (unfold size_max; lia).
    eexists. split; [done|]. split; [|done].
    split; [|split; [|split]]; cbn [Vector.size Vector.capacity Vector.buffer].
    + rewrite length_app. simpl. lia.
    + lia.
    + rewrite length_insert. lia.
    + intros i x Hx. apply lookup_app_Some in Hx as [Hx|(Hge & Hx)].
      * pose proof (lookup_lt_Some _ _ _ Hx) as Hlt.
        rewrite list_lookup_insert_ne by lia. by apply Hslots.
      * apply list_lookup_singleton_Some in Hx as (Hi & <-).
        replace i with (Z.to_nat (Vector.size v)) by lia.
        by apply list_lookup_insert_eq.
Qed.

(** X13.  A vector that holds the objects [l]: [vector_push] appends the
    object at the end, and [vector_at] answers the [i]-th object for [i]
    below [vector_size] and stops in its [assert] for every other index, also
    on a vector just created or cleared. *)
Theorem X13_vector_push_then_at (v : Vector.vector_t) (l : list Harness.object_t)
    (o : Harness.object_t) :
  Vector.vector_rep v l ->
  (Vector.capacity v * 2 + 128) * Vector.object_size < size_max ->
  exists v',
    Vector.vector_push v o = Done v' /\
    Vector.vector_size v' = Z.of_nat (length l) + 1 /\
    Vector.vector_at v' (Z.of_nat (length l)) = Done o /\
    (forall (i : nat) (x : Harness.object_t),
        l !! i = Some x -> Vector.vector_at v' (Z.of_nat i) = Done x) /\
    (forall i, Vector.vector_size v' <= i -> Vector.vector_at v' i = Abort) /\
    (forall i, 0 <= i -> Vector.vector_at (Vector.vector_clear v') i = Abort) /\
    (forall i, 0 <= i -> Vector.vector_at Vector.vector_create i = Abort).
Proof.
  intros Hrep Hsmall.
  destruct (vector_push_rep v l o Hrep Hsmall) as (v' & Hpush & Hrep' & _).
  exists v'. split; [done|].
  assert (Hsize : Vector.vector_size v' = Z.of_nat (length l) + 1).
  { destruct Hrep' as (Hsz & _). unfold Vector.vector_size. rewrite Hsz, length_app.
    simpl. lia. }
  split; [done|]. split; [|split; [|split; [|split]]].
  - rewrite (vector_at_rep v' _ _ Hrep') by lia. rewrite Nat2Z.id.
    rewrite lookup_app_r by lia. by rewrite Nat.sub_diag.
  - intros i x Hx. rewrite (vector_at_rep v' _ _ Hrep') by lia. rewrite Nat2Z.id.
    by rewrite (lookup_app_l_Some _ _ _ _ Hx).
  - intros i Hi. rewrite (vector_at_rep v' _ _ Hrep') by lia.
    rewrite lookup_ge_None_2; [done|]. rewrite length_app. simpl. lia.
  - intros i Hi. unfold Vector.vector_at, Vector.vector_clear. simpl.
    destruct (Z.ltb_spec i 0); [lia|done].
  - intros i Hi. unfold Vector.vector_at, Vector.vector_create. simpl.
    destruct (Z.ltb_spec i 0); [lia|done].
Qed.

Lemma vector_rep_create : Vector.vector_rep Vector.vector_create [].
Proof.
  split; [done|]. split; [done|]. split; [done|]. intros i o Hi. done.
Qed.

Lemma X13_witness :
  Vector.vector_rep Vector.vector_create [] /\
  (Vector.capacity Vector.vector_create * 2 + 128) * Vector.object_size < size_max /\
  exists v',
    Vector.vector_push Vector.vector_create (obj 4112 0) = Done v' /\
    Vector.vector_size v' = Z.of_nat (length ([] : list Harness.object_t)) + 1 /\
    Vector.vector_at v' (Z.of_nat (length ([] : list Harness.object_t)))
      = Done (obj 4112 0) /\
    (forall (i : nat) (x : Harness.object_t),
        [] !! i = Some x -> Vector.vector_at v' (Z.of_nat i) = Done x) /\
    (forall i, Vector.vector_size v' <= i -> Vector.vector_at v' i = Abort) /\
    (forall i, 0 <= i -> Vector.vector_at (Vector.vector_clear v') i = Abort) /\
    (forall i, 0 <= i -> Vector.vector_at Vector.vector_create i = Abort).
Proof.
  assert (H1 : Vector.vector_rep Vector.vector_create []) by exact vector_rep_create.
  assert (H2 : (Vector.capacity Vector.vector_create * 2 + 128) * Vector.object_size
               < size_max) by reflexivity.
  split; [exact H1|]. split; [exact H2|].
  exact (X13_vector_push_then_at _ _ (obj 4112 0) H1 H2).
Defined.

(** The growth of the capacity. *)
Lemma capacity_after_S (k : nat) :
  Vector.capacity_after (S k) = Vector.capacity_after k * 2 + 128.
Proof.
  unfold Vector.capacity_after. rewrite Nat2Z.inj_succ, Z.pow_succ_r by lia. lia.
Qed.

Lemma capacity_after_mono (j k : nat) :
  (j <= k)%nat -> Vector.capacity_after j <= Vector.capacity_after k.
Proof.
  induction 1 as [|k _ IH]; [lia|]. rewrite capacity_after_S.
  assert (0 <= Vector.capacity_after j).
  { unfold Vector.capacity_after. assert (0 < 2 ^ Z.of_nat j) by (apply Z.pow_pos_nonneg; lia).
    lia. }
  lia.
Qed.

Lemma push_all_grows (v : Vector.vector_t) (l1 l2 : list Harness.object_t) (k : nat) :
  Vector.vector_rep v l1 ->
  Vector.capacity v = Vector.capacity_after k ->
  (forall j, (j < k)%nat -> Vector.capacity_after j < Z.of_nat (length l1)) ->
  Z.of_nat (length (l1 ++ l2)) < 2 ^ 56 ->
  exists v' k',
    Vector.push_all v l2 = Done v' /\ Vector.vector_rep v' (l1 ++ l2) /\
    Vector.capacity v' = Vector.capacity_after k' /\
    forall j, (j < k')%nat -> Vector.capacity_after j < Z.of_nat (length (l1 ++ l2)).
Proof.
  revert v l1 k. induction l2 as [|o l2 IH]; intros v l1 k Hrep Hcap Hleast Hlen.
  - exists v, k. rewrite app_nil_r. done.
  - assert (Hfit : Z.of_nat (length l1) <= Vector.capacity_after k).
    { destruct Hrep as (Hsz & Hle & _). lia. }
    assert (Hsmall : (Vector.capacity v * 2 + 128) * Vector.object_size < size_max).
    { rewrite length_app in Hlen. simpl in Hlen.
      assert (Vector.capacity v <= 2 ^ 57 + 128); [|unfold Vector.object_size, size_max; lia].
      rewrite Hcap. destruct k as [|k]; [unfold Vector.capacity_after; simpl; lia|].
      rewrite capacity_after_S. specialize (Hleast k ltac:(lia)). lia. }
    destruct (vector_push_rep v l1 o Hrep Hsmall) as (v1 & Hpush & Hrep1 & Hcap1).
    assert (Hk1 : exists k1,
               Vector.capacity v1 = Vector.capacity_after k1 /\
               forall j, (j < k1)%nat ->
                         Vector.capacity_after j < Z.of_nat (length (l1 ++ [o]))).
    { rewrite length_app. simpl. destruct Hrep as (Hsz & Hle & _).
      destruct (Z.leb_spec (Vector.capacity v) (Vector.size v)) as [Hfull|Hroom].
      - exists (S k). split; [by rewrite Hcap1, capacity_after_S, Hcap|].
        intros j Hj. pose proof (capacity_after_mono j k ltac:(lia)). lia.
      - exists k. split; [by rewrite Hcap1|].
        intros j Hj. specialize (Hleast j Hj). lia. }
    destruct Hk1 as (k1 & Hcapk1 & Hleast1).
    destruct (IH v1 (l1 ++ [o]) k1 Hrep1 Hcapk1 Hleast1) as (v' & k' & Hrun & Hrep' & Hc' & Hl').
    { by rewrite <- app_assoc. }
    exists v', k'. cbn [Vector.push_all]. rewrite Hpush, bind_Done.
    rewrite <- app_assoc in Hrep', Hl'. done.
Qed.

(** X14.  Pushing the objects of a list on a vector just created never
    writes outside the block of the vector.  The vector then has the size
    of the list and gives back its objects, each at its index, and its
    capacity is the least of 0, 128, 384, 896, ... (each twice the one
    before plus 128) that holds the list: the block is reallocated once for
    each step of that sequence. *)
Theorem X14_vector_capacity (l : list Harness.object_t) :
  Z.of_nat (length l) < 2 ^ 56 ->
  exists v k,
    Vector.push_all Vector.vector_create l = Done v /\
    Vector.vector_size v = Z.of_nat (length l) /\
    (forall (i : nat) (o : Harness.object_t),
        l !! i = Some o -> Vector.vector_at v (Z.of_nat i) = Done o) /\
    Vector.capacity v = Vector.capacity_after k /\
    Z.of_nat (length l) <= Vector.capacity_after k /\
    forall j, (j < k)%nat -> Vector.capacity_after j < Z.of_nat (length l).
Proof.
  intros Hlen.
  destruct (push_all_grows Vector.vector_create [] l 0 vector_rep_create)
    as (v & k & Hrun & Hrep & Hcap & Hleast); [done|intros j Hj; lia|done|].
  exists v, k. simpl in Hrep, Hleast. split; [done|].
  split; [by destruct Hrep as (Hsz & _)|]. split.
  { intros i o Ho. rewrite (vector_at_rep v l _ Hrep) by lia.
    by rewrite Nat2Z.id, Ho. }
  split; [done|].
  split; [|done]. destruct Hrep as (Hsz & Hle & _). lia.
Qed.

Lemma X14_witness :
  Z.of_nat (length three_objects) < 2 ^ 56 /\
  exists v k,
    Vector.push_all Vector.vector_create three_objects = Done v /\
    Vector.vector_size v = Z.of_nat (length three_objects) /\
    (forall (i : nat) (o : Harness.object_t),
        three_objects !! i = Some o -> Vector.vector_at v (Z.of_nat i) = Done o) /\
    Vector.capacity v = Vector.capacity_after k /\
    Z.of_nat (length three_objects) <= Vector.capacity_after k /\
    forall j, (j < k)%nat -> Vector.capacity_after j < Z.of_nat (length three_objects).
Proof.
  assert (H1 : Z.of_nat (length three_objects) < 2 ^ 56) by (simpl; lia).
  split; [exact H1|].
  exact (X14_vector_capacity three_objects H1).
Defined.

(** * The sizes of the objects *)

Lemma get_object_size_value (mn mx scaled : Z) :
  0 <= mn <= mx -> mx < size_max -> mn mod 8 = 0 -> 0 <= scaled <= mx - mn ->
  get_object_size mn mx scaled = Done (mn + 8 * (scaled / 8)).
Proof.
  intros Hmn Hmx Hal Hsc. unfold get_object_size.
  destruct (Z.leb_spec mn mx); [|lia]. simpl.
  rewrite Hal. simpl.
  rewrite (wrap_small (scaled + mn)) by lia.
  assert (Hdiv : (scaled + mn) / 8 * 8 = mn + 8 * (scaled / 8)).
  { Z.div_mod_to_equations. lia. }
  rewrite Hdiv.
  assert (Hr : mn <= mn + 8 * (scaled / 8) <= mx).
  { Z.div_mod_to_equations. lia. }
  rewrite (wrap_small (mn + 8 * (scaled / 8))) by lia.
  destruct (Z.leb_spec mn (mn + 8 * (scaled / 8))); [|lia]. simpl.
  destruct (Z.leb_spec (mn + 8 * (scaled / 8)) mx); [|lia]. done.
Qed.

Lemma get_object_size_range (mn mx scaled : Z) :
  0 <= mn <= mx -> mx < size_max -> mn mod 8 = 0 -> 0 <= scaled <= mx - mn ->
  exists r,
    get_object_size mn mx scaled = Done r /\
    r = mn + 8 * (scaled / 8) /\ mn <= r <= mx /\ r mod 8 = 0.
Proof.
  intros Hmn Hmx Hal Hsc.
  exists (mn + 8 * (scaled / 8)).
  split; [by apply get_object_size_value|]. split; [done|].
  split; Z.div_mod_to_equations; lia.
Qed.

(** X15.  [get_object_size]: with [min_size] a multiple of 8 and not above
    [max_size], and the scaled draw between 0 and their difference, the
    result is [min_size] plus the draw rounded down to a multiple of 8; it
    is a multiple of 8 between [min_size] and [max_size], and none of the
    four [assert]s fails.  With [min_size] above [max_size], or not a
    multiple of 8, the function stops in an [assert]. *)
Theorem X15_get_object_size :
  (forall mn mx scaled,
      0 <= mn <= mx -> mx < size_max -> mn mod 8 = 0 -> 0 <= scaled <= mx - mn ->
      exists r,
        get_object_size mn mx scaled = Done r /\
        r = mn + 8 * (scaled / 8) /\ mn <= r <= mx /\ r mod 8 = 0) /\
  (forall mn mx scaled, mx < mn -> get_object_size mn mx scaled = Abort) /\
  (forall mn mx scaled, mn mod 8 <> 0 -> get_object_size mn mx scaled = Abort).
Proof.
  split; [|split].
  - exact get_object_size_range.
  - intros mn mx scaled Hlt. unfold get_object_size.
    destruct (Z.leb_spec mn mx); [lia|done].
  - intros mn mx scaled Hne. unfold get_object_size.
    destruct (mn <=? mx); [|done]. simpl.
    apply Z.eqb_neq in Hne. by rewrite Hne.
Qed.

Lemma X15_witness :
  (0 <= 16 <= 128 /\ 128 < size_max /\ 16 mod 8 = 0 /\ 0 <= 45 <= 128 - 16 /\
   exists r,
     get_object_size 16 128 45 = Done r /\
     r = 16 + 8 * (45 / 8) /\ 16 <= r <= 128 /\ r mod 8 = 0) /\
  (8 < 16 /\ get_object_size 16 8 0 = Abort) /\
  (12 mod 8 <> 0 /\ get_object_size 12 128 0 = Abort).
Proof.
  split; [|split].
  - assert (H1 : 0 <= 16 <= 128) by lia.
    assert (H2 : 128 < size_max) by reflexivity.
    assert (H3 : 16 mod 8 = 0) by reflexivity.
    assert (H4 : 0 <= 45 <= 128 - 16) by lia.
    split; [exact H1|]. split; [exact H2|]. split; [exact H3|]. split; [exact H4|].
    exact (proj1 X15_get_object_size _ _ _ H1 H2 H3 H4).
  - assert (H1 : 8 < 16) by lia.
    split; [exact H1|].
    exact (proj1 (proj2 X15_get_object_size) 16 8 0 H1).
  - assert (H1 : 12 mod 8 <> 0) by (vm_compute; discriminate).
    split; [exact H1|].
    exact (proj2 (proj2 X15_get_object_size) 12 128 0 H1).
Defined.

(** X16.  For the warm-up run and for each of the five challenges of
    [run_challenges], every size [get_object_size] produces is a multiple
    of 8 between 8 and 4000, the sizes the allocators are written for, and
    both allocators serve a request of that size from any heap they have
    reached. *)
Theorem X16_challenge_sizes_are_served (mm : Z * Z) (scaled : Z) :
  mm ∈ challenge_sizes -> 0 <= scaled <= mm.2 - mm.1 ->
  exists r,
    get_object_size mm.1 mm.2 scaled = Done r /\
    8 <= r <= 4000 /\ r mod 8 = 0 /\
    (forall st ps, BestFit.reachable st ps ->
       exists f st' p, BestFit.best_fit_malloc f st r = Done (st', p) /\ p <> NULL) /\
    (forall st ps, FirstFit.reachable st ps ->
       exists f st' p, FirstFit.first_fit_malloc f st r = Done (st', p) /\ p <> NULL).
Proof.
  intros Hin Hsc.
  assert (Hmm : 8 <= mm.1 <= mm.2 /\ mm.2 <= 4000 /\ mm.1 mod 8 = 0).
  { unfold challenge_sizes in Hin.
    repeat (apply elem_of_cons in Hin as [->|Hin];
            [simpl; repeat split; (lia || reflexivity)|]).
    by apply elem_of_nil in Hin. }
  destruct Hmm as (Hmn & Hmx & Hal).
  destruct (get_object_size_range mm.1 mm.2 scaled) as (r & Hr & _ & Hrange & Hr8);
    [lia|unfold size_max; lia|done|done|].
  exists r. split; [done|]. split; [lia|]. split; [done|]. split.
  - intros st ps Hreach.
    destruct (BestFitTheory.reachable_inv st ps Hreach) as (t & live & Hinv & _).
    destruct (BestFitTheory.malloc_ok st t live r Hinv) as (f & st' & t' & b & Hm & _ & Hinv' & _).
    { unfold BestFit.header_size. lia. }
    exists f, st', (b.1 + BestFit.header_size). split; [done|].
    destruct (BestFit.inv_blocks _ _ _ Hinv') as (_ & Hbd & _).
    destruct (Hbd b) as (Hpos & _); [apply elem_of_app; right; apply elem_of_cons; auto|].
    unfold NULL, BestFit.header_size. lia.
  - intros st ps Hreach.
    destruct (FirstFitTheory.ff_reachable_inv st ps Hreach) as (l & live & Hinv & _).
    destruct (FirstFitTheory.ff_malloc_ok st l live r Hinv)
      as (f & st' & l' & b & Hm & _ & Hinv' & _).
    { unfold FirstFit.header_size. lia. }
    exists f, st', (b.1 + FirstFit.header_size). split; [done|].
    destruct (FirstFit.inv_blocks _ _ _ Hinv') as (_ & Hbd & _).
    destruct (Hbd b) as (Hpos & _); [apply elem_of_app; right; apply elem_of_cons; auto|].
    unfold NULL, FirstFit.header_size. lia.
Qed.

(** * The harness on the allocators *)

(** ** Fuel that is always enough *)

Lemma addresses_le_size {V : Type} (m : gmap Z V) (l : list Z) :
  NoDup l -> (forall x, x ∈ l -> is_Some (m !! x)) -> (length l <= size m)%nat.
Proof.
  intros Hnd Hdom.
  rewrite <- (size_list_to_set (C := gset Z) l Hnd), <- size_dom.
  apply subseteq_size. intros x Hx. apply elem_of_list_to_set in Hx.
  apply elem_of_dom. by apply Hdom.
Qed.

Lemma ff_free_list_le_size (st : FirstFit.state) (l live : list (Z * Z)) :
  FirstFit.heap_inv st l live -> (length l <= size (FirstFit.heap st))%nat.
Proof.
  intros Hinv. rewrite <- (length_fmap fst l).
  apply addresses_le_size; [by apply (FirstFitTheory.ff_heap_inv_NoDup _ _ _ Hinv)|].
  intros x Hx. apply list_elem_of_fmap in Hx as (b & -> & Hb).
  destruct (FirstFitTheory.ff_list_rep_lookup _ _ _ _ (FirstFit.inv_rep _ _ _ Hinv) Hb)
    as (_ & nx & Hm).
  by rewrite Hm.
Qed.

(** Once the scan has room for the whole free list and the request is one
    that a block of the list holds, more fuel changes nothing. *)
Lemma ff_found_stable (st : FirstFit.state) (l live : list (Z * Z)) (req : Z)
    (f F : nat) :
  FirstFit.heap_inv st l live -> is_Some (FirstFit.split_first req l) ->
  (length l < f)%nat -> (length l < F)%nat ->
  FirstFit.first_fit_malloc (S f) st req = FirstFit.first_fit_malloc (S F) st req.
Proof.
  intros Hinv ([[l1 b] l2] & Hs) Hf HF.
  pose proof (FirstFit.inv_rep _ _ _ Hinv) as Hrep.
  cbn [FirstFit.first_fit_malloc].
  rewrite (FirstFitTheory.ff_scan_refines f _ req _ NULL l Hrep Hf).
  rewrite (FirstFitTheory.ff_scan_refines F _ req _ NULL l Hrep HF).
  rewrite Hs, !bind_Done.
  destruct (FirstFitTheory.ff_split_first_spec _ _ _ _ _ Hs) as (-> & _).
  destruct (FirstFitTheory.ff_list_rep_lookup _ _ _ b Hrep) as (Hb & _).
  { apply elem_of_app. right. apply elem_of_cons. auto. }
  cbn [fst]. apply Z.eqb_neq in Hb. by rewrite Hb.
Qed.

Lemma ff_run_stable (st : FirstFit.state) (l live : list (Z * Z)) (req : Z) (f F : nat) :
  FirstFit.heap_inv st l live -> 0 <= req <= 4096 - FirstFit.header_size ->
  (length l + 4 <= f)%nat -> (f <= F)%nat ->
  FirstFit.first_fit_malloc f st req = FirstFit.first_fit_malloc F st req.
Proof.
  intros Hinv Hreq Hf HF.
  destruct f as [|f]; [lia|]. destruct F as [|F]; [lia|].
  destruct (FirstFit.split_first req l) as [x|] eqn:Hs.
  { apply (ff_found_stable st l live); [done|by rewrite Hs|lia|lia]. }
  pose proof (FirstFit.inv_rep _ _ _ Hinv) as Hrep.
  cbn [FirstFit.first_fit_malloc].
  rewrite (FirstFitTheory.ff_scan_refines f _ req _ NULL l Hrep) by lia.
  rewrite (FirstFitTheory.ff_scan_refines F _ req _ NULL l Hrep) by lia.
  rewrite Hs, !bind_Done. cbn [fst Z.eqb NULL].
  destruct (FirstFitTheory.ff_grow_inv st l live Hinv)
    as (s' & st1 & Hmap & _ & _ & Hadd & _ & _ & Hinv1).
  rewrite Hmap, !bind_Done.
  change (FirstFit.heap (FirstFit.with_sys st s')) with (FirstFit.heap st).
  rewrite Hadd, !bind_Done.
  destruct f as [|f]; [lia|]. destruct F as [|F]; [lia|].
  apply (ff_found_stable st1 ((brk (FirstFit.sys st), 4096 - FirstFit.header_size) :: l)
           live); [done| |simpl; lia|simpl; lia].
  rewrite FirstFitTheory.ff_split_first_head; [done|simpl; lia].
Qed.

Lemma ff_run_ok (st : FirstFit.state) (l live : list (Z * Z)) (req : Z) :
  FirstFit.heap_inv st l live -> 0 <= req <= 4096 - FirstFit.header_size ->
  exists st' l' b,
    first_fit_run st req = Done (st', b.1 + FirstFit.header_size) /\
    req <= b.2 /\ FirstFit.heap_inv st' l' (b :: live).
Proof.
  intros Hinv Hreq.
  destruct (FirstFitTheory.ff_malloc_ok st l live req Hinv Hreq)
    as (F & st' & l' & b & Hrun & Hle & Hinv' & _).
  exists st', l', b. split; [|done].
  unfold first_fit_run.
  pose proof (ff_free_list_le_size _ _ _ Hinv) as Hlen.
  rewrite (ff_run_stable st l live req (ff_fuel st) (Nat.max (ff_fuel st) F) Hinv Hreq);
    [|unfold ff_fuel; lia|lia].
  apply (FirstFitTheory.ff_malloc_mono F); [done|done|lia].
Qed.

Lemma bf_store_frame (m m' : BestFit.mem) (p v : Z) :
  BestFit.store_left m p v = Done m' \/ BestFit.store_right m p v = Done m' \/
  BestFit.store_height m p v = Done m' \/ BestFit.store_size m p v = Done m' ->
  forall x, x <> p -> m' !! x = m !! x.
Proof.
  intros H x Hx.
  destruct H as [H|[H|[H|H]]];
    apply bind_Done_inv in H as (t & _ & H); injection H as <-;
    by rewrite lookup_insert_ne.
Qed.

Lemma depth_le_nodes (t : BestFit.tree) : (BestFit.depth t <= length (BestFit.elems t))%nat.
Proof.
  induction t as [|a sz l IHl r IHr h]; [done|].
  simpl. rewrite length_app. simpl. lia.
Qed.

Lemma bf_nodes_le_size (st : BestFit.state) (t : BestFit.tree) (live : list (Z * Z)) :
  BestFit.heap_inv st t live -> (length (BestFit.elems t) <= size (BestFit.heap st))%nat.
Proof.
  intros Hinv. rewrite <- (length_fmap fst (BestFit.elems t)).
  apply addresses_le_size; [by apply (BestFitTheory.heap_inv_NoDup _ _ _ Hinv)|].
  intros x Hx.
  destruct (BestFitTheory.tree_rep_dom _ _ _ x (BestFit.inv_rep _ _ _ Hinv) Hx) as (md & Hmd).
  by rewrite Hmd.
Qed.

(** Once the walks have room for every node of the tree and the request is
    one that a block of the tree holds, more fuel changes nothing. *)
Lemma bf_found_stable (st : BestFit.state) (t : BestFit.tree) (live : list (Z * Z))
    (req : Z) (f F : nat) :
  BestFit.heap_inv st t live -> 0 <= req -> is_Some (BestFit.search_t req t) ->
  (length (BestFit.elems t) < f)%nat -> (f <= F)%nat ->
  BestFit.best_fit_malloc (S f) st req = BestFit.best_fit_malloc (S F) st req.
Proof.
  intros Hinv Hreq ([b S0] & Hs) Hf HF.
  pose proof (BestFitTheory.heap_inv_NoDup _ _ _ Hinv) as Hnd.
  destruct Hinv as [Hrep Hbst Hhp Hblocks Hlive Hbrk].
  destruct (BestFitTheory.search_in _ _ _ Hs) as [Hin Hle]. simpl in Hle.
  destruct (BestFitTheory.remove_search_some req t b S0 Hbst Hnd Hs) as (t1 & Hrm).
  destruct (BestFitTheory.tree_rep_size _ _ _ _ _ Hrep Hin) as (md & Hmd & HS).
  assert (Hb : b <> NULL).
  { intros ->. eapply BestFitTheory.tree_rep_nonnull; [exact Hrep|].
    by eapply BestFitTheory.elem_of_elems_addrs. }
  destruct (BestFitTheory.remove_perm _ _ _ _ Hnd Hrm) as (s' & Hperm).
  assert (s' = S0) as ->.
  { apply (pair_unique (BestFit.elems t) b); [done| |done].
    rewrite Hperm. apply elem_of_cons. auto. }
  assert (Hblocks1 : blocks_ok BestFit.header_size (brk (BestFit.sys st))
                       ((b, S0) :: BestFit.elems t1 ++ live)).
  { eapply blocks_ok_perm; [|exact Hblocks]. by rewrite Hperm. }
  assert (HSb : 0 <= S0 <= 4096 - BestFit.header_size).
  { destruct Hblocks1 as (_ & Hbd & _). apply (Hbd (b, S0)). apply elem_of_cons. auto. }
  destruct (BestFitTheory.remove_NoDup _ _ _ _ Hnd Hrm) as (Hnd1 & Hb1).
  pose proof (BestFitTheory.remove_heights_pos _ _ _ _ Hrm Hhp) as Hhp1.
  assert (Hn1 : (length (BestFit.elems t1) < f)%nat).
  { apply Permutation_length in Hperm. simpl in Hperm. lia. }
  pose proof (depth_le_nodes t) as Hd. pose proof (depth_le_nodes t1) as Hd1.
  rewrite <- HS in Hrm.
  destruct (BestFitTheory.remove_refines f (BestFit.heap st) b md (BestFit.free_head st)
              t t1 Hrep Hnd Hhp Hb Hmd Hrm)
    as (m1 & Hrun1 & Hrep1 & Hout1 & _); [lia|].
  pose proof (BestFitTheory.remove_mono f F _ _ _ _ Hrun1 ltac:(done) HF) as Hrun1'.
  cbn [BestFit.best_fit_malloc].
  rewrite (BestFitTheory.search_refines f _ req _ NULL t Hrep) by lia.
  rewrite (BestFitTheory.search_refines F _ req _ NULL t Hrep) by lia.
  rewrite Hs. cbn [fst]. rewrite !bind_Done.
  destruct (Z.eqb_spec b NULL) as [|_]; [done|].
  rewrite (BestFitTheory.load_Some _ _ _ Hb Hmd), !bind_Done.
  unfold BestFit.best_fit_remove_from_tree. rewrite Hrun1, Hrun1', !bind_Done.
  cbn [BestFit.heap BestFit.with_tree].
  destruct (BestFit.store_left m1 b NULL) as [m2| | |] eqn:E2; [|done..].
  rewrite !bind_Done.
  destruct (BestFit.store_right m2 b NULL) as [m3| | |] eqn:E3; [|done..].
  rewrite !bind_Done.
  destruct (BestFit.store_height m3 b 1) as [m4| | |] eqn:E4; [|done..].
  rewrite !bind_Done. cbn [BestFit.heap BestFit.with_heap].
  rewrite HS. rewrite (wrap_small (S0 - req))
    by (unfold size_max, BestFit.header_size in *; lia).
  destruct (Z.ltb_spec BestFit.header_size (S0 - req)) as [Hsplit|]; [|done].
  destruct (BestFit.store_size m4 b req) as [m5| | |] eqn:E5; [|done..].
  rewrite !bind_Done.
  rewrite (wrap_small (S0 - req - BestFit.header_size))
    by (unfold size_max, BestFit.header_size in *; lia).
  set (new := b + BestFit.header_size + req).
  set (m6 := <[new := BestFit.fresh_header (S0 - req - BestFit.header_size)]> m5).
  assert (Hnew1 : new ∉ BestFit.addrs t1).
  { intros Hx. apply list_elem_of_fmap in Hx as (x & Hx1 & Hx).
    apply (carve_fresh BestFit.header_size BestFitTheory.header_pos _ b S0 req _ x
             Hblocks1 Hreq Hsplit); [|done].
    apply elem_of_app. by left. }
  assert (Hnew0 : new <> NULL).
  { destruct Hblocks1 as (_ & Hbd & _).
    destruct (Hbd (b, S0)) as (? & _); [apply elem_of_cons; auto|].
    unfold new, BestFit.header_size, NULL. simpl in *. lia. }
  assert (Hrep6 : BestFit.tree_rep m6 (BestFit.root_of t1) t1).
  { eapply BestFitTheory.tree_rep_frame; [exact Hrep1|]. intros x Hx.
    assert (x <> b) by (by intros ->). assert (x <> new) by (by intros ->).
    unfold m6. rewrite lookup_insert_ne by done.
    rewrite (bf_store_frame m4 m5 b req) by auto.
    rewrite (bf_store_frame m3 m4 b 1) by auto.
    rewrite (bf_store_frame m2 m3 b NULL) by auto.
    by rewrite (bf_store_frame m1 m2 b NULL) by auto. }
  destruct (BestFitTheory.insert_refines f m6 new
              (BestFit.fresh_header (S0 - req - BestFit.header_size))
              (BestFit.root_of t1) t1 Hrep6 Hnd1 Hhp1 Hnew0 Hnew1)
    as (m7 & Hins & _); [by unfold m6; rewrite lookup_insert_eq|done|done|simpl; lia|lia|].
  pose proof (BestFitTheory.insert_mono f F _ _ _ _ Hins ltac:(done) HF) as Hins'.
  unfold BestFit.best_fit_insert_to_tree.
  cbn [BestFit.heap BestFit.with_heap BestFit.with_tree BestFit.free_head].
  fold new. fold m6. by rewrite Hins, Hins'.
Qed.

Lemma bf_insert_to_tree_at (f0 f : nat) (st st1 : BestFit.state) (t : BestFit.tree)
    (meta : Z) (md : BestFit.best_fit_metadata_t) :
  BestFit.best_fit_insert_to_tree f0 st meta = Done st1 ->
  BestFit.tree_rep (BestFit.heap st) (BestFit.free_head st) t ->
  NoDup (BestFit.addrs t) -> BestFit.heights_pos t ->
  meta <> NULL -> meta ∉ BestFit.addrs t -> BestFit.heap st !! meta = Some md ->
  BestFit.left md = NULL -> BestFit.right md = NULL -> 1 <= BestFit.height md ->
  (length (BestFit.elems t) < f)%nat ->
  BestFit.best_fit_insert_to_tree f st meta = Done st1.
Proof.
  intros H0 Hrep Hnd Hhp Hm0 Hm1 Hmd Hl Hr Hh Hf.
  pose proof (depth_le_nodes t) as Hd.
  destruct (BestFitTheory.insert_refines f _ meta md _ t Hrep Hnd Hhp Hm0 Hm1 Hmd Hl Hr Hh)
    as (m' & Hins & _); [lia|].
  assert (Hrun : BestFit.best_fit_insert_to_tree f st meta
                 = Done (BestFit.with_tree st m'
                           (BestFit.root_of (BestFit.insert_t meta (BestFit.size md)
                                               (BestFit.height md) t)))).
  { unfold BestFit.best_fit_insert_to_tree. by rewrite Hins, bind_Done. }
  rewrite Hrun.
  apply (BestFitTheory.insert_to_tree_mono _ (Nat.max f f0)) in Hrun; [|done|lia].
  apply (BestFitTheory.insert_to_tree_mono _ (Nat.max f f0)) in H0; [|done|lia].
  congruence.
Qed.

Lemma bf_run_stable (st : BestFit.state) (t : BestFit.tree) (live : list (Z * Z))
    (req : Z) (f F : nat) :
  BestFit.heap_inv st t live -> 0 <= req <= 4096 - BestFit.header_size ->
  (length (BestFit.elems t) + 4 <= f)%nat -> (f <= F)%nat ->
  BestFit.best_fit_malloc f st req = BestFit.best_fit_malloc F st req.
Proof.
  intros Hinv Hreq Hf HF.
  destruct f as [|f]; [lia|]. destruct F as [|F]; [lia|].
  destruct (BestFit.search_t req t) as [x|] eqn:Hs.
  { apply (bf_found_stable st t live); [done|lia|by rewrite Hs|lia|lia]. }
  pose proof (BestFit.inv_rep _ _ _ Hinv) as Hrep.
  pose proof (depth_le_nodes t) as Hd.
  cbn [BestFit.best_fit_malloc].
  rewrite (BestFitTheory.search_refines f _ req _ NULL t Hrep) by lia.
  rewrite (BestFitTheory.search_refines F _ req _ NULL t Hrep) by lia.
  rewrite Hs, !bind_Done. cbn [Z.eqb NULL].
  destruct (BestFitTheory.grow_inv st t live Hinv)
    as (f0 & s' & st1 & Hmap & _ & _ & Hins & _ & _ & Hinv1).
  rewrite Hmap, !bind_Done.
  change (BestFit.heap (BestFit.with_sys st s')) with (BestFit.heap st).
  set (top := brk (BestFit.sys st)) in *.
  set (st0 := BestFit.with_heap (BestFit.with_sys st s')
                (<[top := BestFit.fresh_header (wrap (4096 - BestFit.header_size))]>
                   (BestFit.heap st))) in *.
  assert (Htop1 : top ∉ BestFit.addrs t) by apply (BestFitTheory.heap_inv_top_fresh _ _ _ Hinv).
  assert (Htop0 : top <> NULL).
  { pose proof (BestFit.inv_brk _ _ _ Hinv). unfold top, NULL. lia. }
  assert (Hrep0 : BestFit.tree_rep (BestFit.heap st0) (BestFit.free_head st0) t).
  { eapply BestFitTheory.tree_rep_frame; [exact Hrep|]. intros x Hx.
    unfold st0. cbn [BestFit.heap BestFit.with_heap].
    rewrite lookup_insert_ne; [done|]. by intros ->. }
  assert (Hat : forall g, (length (BestFit.elems t) < g)%nat ->
                          BestFit.best_fit_insert_to_tree g st0 top = Done st1).
  { intros g Hg.
    apply (bf_insert_to_tree_at f0 g st0 st1 t top
             (BestFit.fresh_header (wrap (4096 - BestFit.header_size))));
      try done.
    - apply (BestFitTheory.heap_inv_NoDup _ _ _ Hinv).
    - apply (BestFit.inv_heights _ _ _ Hinv).
    - unfold st0. cbn [BestFit.heap BestFit.with_heap]. apply lookup_insert_eq. }
  rewrite (Hat f) by lia. rewrite (Hat F) by lia. rewrite !bind_Done.
  destruct f as [|f]; [lia|]. destruct F as [|F]; [lia|].
  apply (bf_found_stable st1 (BestFit.insert_t top (4096 - BestFit.header_size) 1 t) live);
    [done|lia| | |lia].
  - apply (BestFitTheory.search_some req _ (top, 4096 - BestFit.header_size)
             (BestFit.inv_bst _ _ _ Hinv1)); [|simpl; lia].
    apply BestFitTheory.elem_of_insert. by left.
  - rewrite BestFitTheory.elems_insert. simpl. lia.
Qed.

Lemma bf_run_ok (st : BestFit.state) (t : BestFit.tree) (live : list (Z * Z)) (req : Z) :
  BestFit.heap_inv st t live -> 0 <= req <= 4096 - BestFit.header_size ->
  exists st' t' b,
    best_fit_run st req = Done (st', b.1 + BestFit.header_size) /\
    req <= b.2 /\ BestFit.heap_inv st' t' (b :: live).
Proof.
  intros Hinv Hreq.
  destruct (BestFitTheory.malloc_ok st t live req Hinv Hreq)
    as (F & st' & t' & b & Hrun & Hle & Hinv' & _).
  exists st', t', b. split; [|done].
  unfold best_fit_run.
  pose proof (bf_nodes_le_size _ _ _ Hinv) as Hlen.
  rewrite (bf_run_stable st t live req (bf_fuel st) (Nat.max (bf_fuel st) F) Hinv Hreq);
    [|unfold bf_fuel; lia|lia].
  apply (BestFitTheory.malloc_mono F); [done|done|lia].
Qed.

Lemma bf_release_ok (st : BestFit.state) (t : BestFit.tree) (k1 k2 : list (Z * Z))
    (b : Z * Z) :
  BestFit.heap_inv st t (k1 ++ b :: k2) ->
  exists st',
    best_fit_release st (b.1 + BestFit.header_size) = Done st' /\
    BestFit.heap_inv st' (BestFit.insert_t b.1 b.2 1 t) (k1 ++ k2).
Proof.
  intros Hinv.
  destruct (BestFitTheory.free_ok st t k1 k2 b Hinv) as (f0 & st' & Hrun & Hinv' & _).
  exists st'. split; [|done].
  assert (Hbin : b ∈ k1 ++ b :: k2) by (apply elem_of_app; right; apply elem_of_cons; auto).
  unfold best_fit_release, BestFit.best_fit_free in *.
  replace (b.1 + BestFit.header_size - BestFit.header_size) with b.1 in * by lia.
  apply (bf_insert_to_tree_at f0 _ st st' t b.1 (BestFit.fresh_header b.2)); try done.
  - apply (BestFit.inv_rep _ _ _ Hinv).
  - apply (BestFitTheory.heap_inv_NoDup _ _ _ Hinv).
  - apply (BestFit.inv_heights _ _ _ Hinv).
  - destruct (BestFit.inv_blocks _ _ _ Hinv) as (_ & Hbd & _).
    destruct (Hbd b) as (Hpos & _); [apply elem_of_app; by right|]. unfold NULL. lia.
  - by apply (BestFitTheory.heap_inv_live_fresh _ _ _ _ Hinv).
  - by apply (BestFit.inv_live _ _ _ Hinv).
  - pose proof (bf_nodes_le_size _ _ _ Hinv). unfold bf_fuel. lia.
Qed.

(** ** The allocators meet what the harness needs *)

Lemma payload_blocks_split (hdr : Z) (blocks : list (Z * Z)) (l1 l2 : list (Z * Z))
    (b : Z * Z) :
  (fun c : Z * Z => (c.1 + hdr, c.2)) <$> blocks = l1 ++ b :: l2 ->
  exists k1 k2 c,
    blocks = k1 ++ c :: k2 /\ b.1 = c.1 + hdr /\
    l1 ++ l2 = (fun c : Z * Z => (c.1 + hdr, c.2)) <$> (k1 ++ k2).
Proof.
  intros H. apply fmap_app_inv in H as (k1 & k2' & -> & Hk2 & ->).
  symmetry in Hk2. apply fmap_cons_inv in Hk2 as (c & k2 & -> & -> & ->).
  exists k1, k2, c. split; [done|]. split; [done|]. by rewrite fmap_app.
Qed.

Lemma ff_contract :
  allocator_contract first_fit_run FirstFit.first_fit_free
                     (4096 - FirstFit.header_size) ff_inv.
Proof.
  split.
  - done.
  - intros a live sz (l & blocks & Hinv & ->) Hsz.
    destruct (ff_run_ok a l blocks sz Hinv) as (a' & l' & b & Hrun & Hle & Hinv'); [lia|].
    exists a', (b.1 + FirstFit.header_size), b.2.
    split; [done|]. split; [done|]. split.
    + exists l', (b :: blocks). split; [done|]. done.
    + intros c Hc. apply list_elem_of_fmap in Hc as (c0 & -> & Hc0). simpl.
      pose proof (blocks_ok_new_disjoint _ _ _ _ b c0 (FirstFit.inv_blocks _ _ _ Hinv')
                    ltac:(apply elem_of_app; by right)) as Hd.
      unfold disjoint_blocks, block_end in Hd.
      pose proof FirstFitTheory.ff_header_pos. lia.
  - intros a l1 l2 b (l & blocks & Hinv & Hlive).
    symmetry in Hlive.
    destruct (payload_blocks_split _ _ _ _ _ Hlive) as (k1 & k2 & c & -> & Hb & Hrest).
    destruct (FirstFitTheory.ff_free_ok a l k1 k2 c Hinv) as (a' & Hrun & Hinv' & _).
    exists a'. rewrite Hb. split; [done|].
    exists (c :: l), (k1 ++ k2). done.
Qed.

Lemma bf_contract :
  allocator_contract best_fit_run best_fit_release
                     (4096 - BestFit.header_size) bf_inv.
Proof.
  split.
  - done.
  - intros a live sz (t & blocks & Hinv & ->) Hsz.
    destruct (bf_run_ok a t blocks sz Hinv) as (a' & t' & b & Hrun & Hle & Hinv'); [lia|].
    exists a', (b.1 + BestFit.header_size), b.2.
    split; [done|]. split; [done|]. split.
    + exists t', (b :: blocks). split; [done|]. done.
    + intros c Hc. apply list_elem_of_fmap in Hc as (c0 & -> & Hc0). simpl.
      pose proof (blocks_ok_new_disjoint _ _ _ _ b c0 (BestFit.inv_blocks _ _ _ Hinv')
                    ltac:(apply elem_of_app; by right)) as Hd.
      unfold disjoint_blocks, block_end in Hd.
      pose proof BestFitTheory.header_pos. lia.
  - intros a l1 l2 b (t & blocks & Hinv & Hlive).
    symmetry in Hlive.
    destruct (payload_blocks_split _ _ _ _ _ Hlive) as (k1 & k2 & c & -> & Hb & Hrest).
    destruct (bf_release_ok a t k1 k2 c Hinv) as (a' & Hrun & Hinv').
    exists a'. rewrite Hb. split; [done|].
    exists (BestFit.insert_t c.1 c.2 1 t), (k1 ++ k2). done.
Qed.

(** ** The loops of [run_challenge], for any allocator *)

Lemma wrap_wrap_add (a b : Z) : wrap (wrap a + b) = wrap (a + b).
Proof. unfold wrap. apply Zplus_mod_idemp_l. Qed.

Lemma wrap_wrap (a : Z) : wrap (wrap a) = wrap a.
Proof. unfold wrap. apply Zmod_mod. Qed.

Lemma wrap_eq_add (a a' b : Z) : wrap a = wrap a' -> wrap (a + b) = wrap (a' + b).
Proof. intros H. by rewrite <- (wrap_wrap_add a), H, wrap_wrap_add. Qed.

Lemma total_size_app (l k : list Harness.object_t) :
  total_size (l ++ k) = total_size l + total_size k.
Proof. induction l as [|o l IH]; simpl; lia. Qed.

Lemma total_size_perm (l k : list Harness.object_t) :
  l ≡ₚ k -> total_size l = total_size k.
Proof. induction 1; simpl; lia. Qed.

Lemma concat_vector_push (vs : list (list Harness.object_t)) (i : nat)
    (o : Harness.object_t) :
  (i < length vs)%nat -> concat (Harness.vector_push vs i o) ≡ₚ o :: concat vs.
Proof.
  intros Hi. unfold Harness.vector_push.
  destruct (lookup_lt_is_Some_2 vs i Hi) as (v & Hv). rewrite Hv.
  rewrite <- (take_drop_middle vs i v Hv) at 2.
  rewrite insert_take_drop by done.
  rewrite !concat_app. simpl.
  rewrite <- (app_assoc v [o]). simpl.
  rewrite (Permutation_middle (concat (take i vs)) _ o).
  rewrite (Permutation_middle v _ o). done.
Qed.

Lemma length_vector_push (vs : list (list Harness.object_t)) (i : nat)
    (o : Harness.object_t) :
  length (Harness.vector_push vs i o) = length vs.
Proof.
  unfold Harness.vector_push. destruct (vs !! i); [|done]. by rewrite length_insert.
Qed.

Lemma concat_clear (vs : list (list Harness.object_t)) (e : nat)
    (v : list Harness.object_t) :
  vs !! e = Some v -> concat vs ≡ₚ v ++ concat (<[e := []]> vs).
Proof.
  intros Hv. pose proof (lookup_lt_Some _ _ _ Hv) as He.
  rewrite <- (take_drop_middle vs e v Hv) at 1.
  rewrite insert_take_drop by done.
  rewrite !concat_app. simpl.
  by rewrite (Permutation_app_swap_app (concat (take e vs)) v).
Qed.

Lemma vector_push_prefix (vs : list (list Harness.object_t)) (i k : nat)
    (o : Harness.object_t) (v : list Harness.object_t) :
  vs !! k = Some v ->
  exists more, Harness.vector_push vs i o !! k = Some (v ++ more).
Proof.
  intros Hv. unfold Harness.vector_push.
  destruct (vs !! i) as [w|] eqn:Hw; [|exists []; by rewrite app_nil_r].
  destruct (decide (i = k)) as [->|Hne].
  - exists [o]. rewrite list_lookup_insert_eq by (by eapply lookup_lt_Some).
    congruence.
  - exists []. rewrite list_lookup_insert_ne by done. by rewrite app_nil_r.
Qed.

Lemma slot_of_lt (epoch : nat) (d : Harness.draw) :
  (slot_of epoch d < S Harness.epochs_per_cycle)%nat.
Proof.
  unfold slot_of. destruct (Harness.d_permanent d); [lia|].
  pose proof (Z.mod_pos_bound (Z.of_nat epoch + Harness.d_lifetime d)
                (Z.of_nat Harness.epochs_per_cycle) ltac:(done)).
  lia.
Qed.

Lemma memset_lookup_other (m : Harness.memory) (p c n x : Z) :
  ~ (p <= x < p + n) -> Harness.memset m p c n !! x = m !! x.
Proof.
  unfold Harness.memset. intros Hx.
  assert (Hout : forall i, i ∈ seqZ 0 n -> p + i <> x).
  { intros i Hi. apply elem_of_seqZ in Hi. lia. }
  induction (seqZ 0 n) as [|i l IH]; [done|].
  simpl. rewrite lookup_insert_ne.
  - apply IH. intros j Hj. apply Hout. apply elem_of_cons. auto.
  - apply Hout. apply elem_of_cons. auto.
Qed.

Section Runs.
Variable A : Type.
Variable initialize_func : A -> A.
Variable malloc_func : A -> Z -> outcome (A * Z).
Variable free_func : A -> Z -> outcome A.
Variable finalize_func : A -> A.
Variable draws : nat -> nat -> nat -> Harness.draw.

(** What one iteration of the allocation loop does to the harness. *)
Lemma allocate_object_Done (h h' : Harness.harness A) (epoch : nat) (d : Harness.draw) :
  Harness.allocate_object A malloc_func h epoch d = Done h' ->
  exists a p,
    malloc_func (Harness.alloc A h) (Harness.d_size d) = Done (a, p) /\
    h' = {| Harness.alloc := a;
            Harness.bytes := Harness.memset (Harness.bytes A h) p (Harness.cur_tag A h)
                               (Harness.d_size d);
            Harness.cur_tag := Harness.next_tag (Harness.cur_tag A h);
            Harness.objects :=
              Harness.vector_push (Harness.objects A h) (slot_of epoch d)
                {| Harness.ptr := p; Harness.size := Harness.d_size d;
                   Harness.tag := Harness.cur_tag A h |};
            Harness.allocated_size :=
              wrap (Harness.allocated_size A h + Harness.d_size d);
            Harness.freed_size := Harness.freed_size A h;
            Harness.created :=
              Harness.created A h
              ++ [{| Harness.ptr := p; Harness.size := Harness.d_size d;
                     Harness.tag := Harness.cur_tag A h |}] |}.
Proof.
  unfold Harness.allocate_object. intros H.
  apply bind_Done_inv in H as ([a p] & Hm & H). injection H as <-.
  exists a, p. split; [done|]. done.
Qed.

(** What a finished release loop does to the harness. *)
Lemma release_objects_Done (h h' : Harness.harness A) (v : list Harness.object_t)
    (tr : list Z) :
  Harness.release_objects A free_func h v = (tr, Done h') ->
  tr = Harness.ptr <$> v /\
  Harness.bytes A h' = Harness.bytes A h /\
  Harness.cur_tag A h' = Harness.cur_tag A h /\
  Harness.objects A h' = Harness.objects A h /\
  Harness.allocated_size A h' = Harness.allocated_size A h /\
  Harness.created A h' = Harness.created A h /\
  wrap (Harness.freed_size A h') = wrap (Harness.freed_size A h + total_size v).
Proof.
  revert h tr. induction v as [|o v IH]; intros h tr H.
  - injection H as <- <-. rewrite Z.add_0_r. done.
  - cbn [Harness.release_objects] in H.
    destruct (Harness.tag_broken (Harness.bytes A h) o); [done|].
    destruct (free_func (Harness.alloc A h) (Harness.ptr o)) as [a| | |]; try done.
    match type of H with
    | (let '(_, _) := Harness.release_objects A free_func ?h1 v in _) = _ =>
      destruct (Harness.release_objects A free_func h1 v) as [tr' r'] eqn:Hrec
    end.
    injection H as <- ->.
    destruct (IH _ _ Hrec) as (-> & Hb & Ht & Ho & Ha & Hc & Hf).
    cbn [Harness.bytes Harness.cur_tag Harness.objects Harness.allocated_size
         Harness.created Harness.freed_size] in *.
    split; [done|]. split; [done|]. split; [done|]. split; [done|]. split; [done|].
    split; [done|].
    rewrite Hf. simpl. rewrite wrap_wrap_add. f_equal. lia.
Qed.

(** Every step keeps the statistics in agreement with the vectors. *)
Lemma allocate_object_stats (h h' : Harness.harness A) (epoch : nat) (d : Harness.draw) :
  Harness.allocate_object A malloc_func h epoch d = Done h' ->
  stats_ok h -> stats_ok h'.
Proof.
  intros H (Hlen & Hall & Hdiff).
  destruct (allocate_object_Done _ _ _ _ H) as (a & p & _ & ->).
  unfold stats_ok.
  cbn [Harness.objects Harness.allocated_size Harness.freed_size Harness.created].
  split; [by rewrite length_vector_push|]. split.
  - rewrite wrap_wrap, total_size_app. simpl. rewrite Z.add_0_r.
    by apply wrap_eq_add.
  - rewrite (total_size_perm _ _ (concat_vector_push _ _ _
               ltac:(rewrite Hlen; apply slot_of_lt))).
    simpl.
    replace (wrap (Harness.allocated_size A h + Harness.d_size d) - Harness.freed_size A h)
      with (wrap (Harness.allocated_size A h + Harness.d_size d)
            + (- Harness.freed_size A h)) by lia.
    rewrite wrap_wrap_add.
    replace (Harness.allocated_size A h + Harness.d_size d + - Harness.freed_size A h)
      with (Harness.allocated_size A h - Harness.freed_size A h + Harness.d_size d) by lia.
    rewrite (wrap_eq_add _ _ _ Hdiff). f_equal. lia.
Qed.

Lemma allocate_object_tags (h h' : Harness.harness A) (epoch : nat) (d : Harness.draw) :
  Harness.allocate_object A malloc_func h epoch d = Done h' ->
  tag_state h -> tag_state h'.
Proof.
  intros H (Htags & Hfirst & Hlater).
  destruct (allocate_object_Done _ _ _ _ H) as (a & p & _ & ->).
  unfold tag_state. cbn [Harness.created Harness.cur_tag].
  split; [|split].
  - destruct (Harness.created A h) as [|o rest] eqn:Hc.
    + simpl. split; [by apply Hfirst|constructor].
    + simpl in *. destruct Htags as (Ho & Hrest). split; [done|].
      apply Forall_app. split; [done|]. constructor; [|constructor].
      simpl. by apply Hlater.
  - intros Hnil. by apply app_eq_nil in Hnil as (_ & Hnil).
  - intros _. apply HarnessTheory.next_tag_nonzero.
Qed.

Lemma allocate_objects_facts (h h' : Harness.harness A) (cycle epoch i n : nat) :
  Harness.allocate_objects A malloc_func draws h cycle epoch i n = Done h' ->
  (stats_ok h -> stats_ok h') /\ (tag_state h -> tag_state h') /\
  length (Harness.created A h') = (length (Harness.created A h) + n)%nat /\
  (forall k v, Harness.objects A h !! k = Some v ->
     exists more, Harness.objects A h' !! k = Some (v ++ more)).
Proof.
  revert h i. induction n as [|n IH]; intros h i H.
  - injection H as <-. split; [done|]. split; [done|]. split; [lia|].
    intros k v Hv. exists []. by rewrite app_nil_r.
  - cbn [Harness.allocate_objects] in H.
    apply bind_Done_inv in H as (h1 & H1 & H).
    destruct (IH _ _ H) as (Hs & Ht & Hl & Hp).
    split; [|split; [|split]].
    + intros Hok. apply Hs. by apply (allocate_object_stats _ _ _ _ H1).
    + intros Hok. apply Ht. by apply (allocate_object_tags _ _ _ _ H1).
    + rewrite Hl. destruct (allocate_object_Done _ _ _ _ H1) as (a & p & _ & ->).
      cbn [Harness.created]. rewrite length_app. simpl. lia.
    + intros k v Hv.
      destruct (allocate_object_Done _ _ _ _ H1) as (a & p & _ & Heq).
      destruct (vector_push_prefix (Harness.objects A h)
                  (slot_of epoch (draws cycle epoch i)) k
                  {| Harness.ptr := p; Harness.size := Harness.d_size (draws cycle epoch i);
                     Harness.tag := Harness.cur_tag A h |} v Hv) as (m1 & Hm1).
      destruct (Hp k (v ++ m1)) as (m2 & Hm2); [by rewrite Heq|].
      exists (m1 ++ m2). by rewrite app_assoc.
Qed.

Lemma run_epoch_facts (h h' : Harness.harness A) (cycle epoch : nat) :
  Harness.run_epoch A malloc_func free_func draws h cycle epoch = Done h' ->
  (epoch < Harness.epochs_per_cycle)%nat ->
  (stats_ok h -> stats_ok h') /\ (tag_state h -> tag_state h') /\
  length (Harness.created A h')
    = (length (Harness.created A h) + epoch_objects epoch)%nat /\
  (forall v, Harness.objects A h !! Harness.epochs_per_cycle = Some v ->
     exists more, Harness.objects A h' !! Harness.epochs_per_cycle = Some (v ++ more)).
Proof.
  unfold Harness.run_epoch. intros H He.
  apply bind_Done_inv in H as (h1 & H1 & H).
  apply bind_Done_inv in H as (h2 & H2 & H). injection H as <-.
  destruct (allocate_objects_facts _ _ _ _ _ _ H1) as (Hs & Ht & Hl & Hp).
  destruct (Harness.release_objects A free_func h1
              (default [] (Harness.objects A h1 !! epoch))) as [tr r] eqn:Hrel.
  simpl in H2. subst r.
  destruct (release_objects_Done _ _ _ _ Hrel) as (_ & Hb & Hct & Ho & Ha & Hc & Hf).
  split; [|split; [|split]].
  - intros Hok. destruct (Hs Hok) as (Hlen & Hall & Hdiff).
    unfold stats_ok.
    cbn [Harness.objects Harness.allocated_size Harness.freed_size Harness.created].
    rewrite Ho, Ha, Hc. split; [by rewrite length_insert|]. split; [done|].
    destruct (lookup_lt_is_Some_2 (Harness.objects A h1) epoch) as (v & Hv); [lia|].
    rewrite Hv in Hf. simpl in Hf.
    rewrite (total_size_perm _ _ (concat_clear _ _ _ Hv)), total_size_app in Hdiff.
    replace (Harness.allocated_size A h1 - Harness.freed_size A h2)
      with (- Harness.freed_size A h2 + Harness.allocated_size A h1) by lia.
    rewrite <- wrap_wrap_add.
    replace (wrap (- Harness.freed_size A h2))
      with (wrap (- (Harness.freed_size A h1 + total_size v))).
    2:{ unfold wrap in *. rewrite <- (Z.sub_0_l (Harness.freed_size A h2)).
        rewrite <- (Z.sub_0_l (_ + _)). rewrite Zminus_mod, <- Hf, <- Zminus_mod. done. }
    rewrite wrap_wrap_add.
    replace (- (Harness.freed_size A h1 + total_size v) + Harness.allocated_size A h1)
      with (Harness.allocated_size A h1 - Harness.freed_size A h1 + - total_size v) by lia.
    rewrite (wrap_eq_add _ _ _ Hdiff). f_equal. lia.
  - intros Hok. destruct (Ht Hok) as (H1' & H2' & H3').
    unfold tag_state. cbn [Harness.created Harness.cur_tag]. rewrite Hc, Hct. done.
  - cbn [Harness.created]. rewrite Hc. done.
  - intros v Hv. cbn [Harness.objects]. rewrite Ho.
    rewrite list_lookup_insert_ne by lia. by apply Hp.
Qed.

Lemma run_epochs_facts (h h' : Harness.harness A) (cycle epoch n : nat) :
  Harness.run_epochs A malloc_func free_func draws h cycle epoch n = Done h' ->
  (epoch + n <= Harness.epochs_per_cycle)%nat ->
  (stats_ok h -> stats_ok h') /\ (tag_state h -> tag_state h') /\
  length (Harness.created A h')
    = (length (Harness.created A h) + epochs_total epoch n)%nat /\
  (forall v, Harness.objects A h !! Harness.epochs_per_cycle = Some v ->
     exists more, Harness.objects A h' !! Harness.epochs_per_cycle = Some (v ++ more)).
Proof.
  revert h epoch. induction n as [|n IH]; intros h epoch H He.
  - injection H as <-. split; [done|]. split; [done|]. split; [simpl; lia|].
    intros v Hv. exists []. by rewrite app_nil_r.
  - cbn [Harness.run_epochs] in H.
    apply bind_Done_inv in H as (h1 & H1 & H).
    destruct (run_epoch_facts _ _ _ _ H1) as (Hs1 & Ht1 & Hl1 & Hp1); [lia|].
    destruct (IH _ _ H) as (Hs & Ht & Hl & Hp); [lia|].
    split; [auto|]. split; [auto|]. split; [rewrite Hl, Hl1; simpl; lia|].
    intros v Hv. destruct (Hp1 v Hv) as (m1 & Hm1).
    destruct (Hp _ Hm1) as (m2 & Hm2). exists (m1 ++ m2). by rewrite app_assoc.
Qed.

Lemma run_cycles_facts (h h' : Harness.harness A) (cycle n : nat) :
  Harness.run_cycles A malloc_func free_func draws h cycle n = Done h' ->
  (stats_ok h -> stats_ok h') /\ (tag_state h -> tag_state h') /\
  length (Harness.created A h')
    = (length (Harness.created A h) + n * epochs_total 0 Harness.epochs_per_cycle)%nat /\
  (forall v, Harness.objects A h !! Harness.epochs_per_cycle = Some v ->
     exists more, Harness.objects A h' !! Harness.epochs_per_cycle = Some (v ++ more)).
Proof.
  revert h cycle. induction n as [|n IH]; intros h cycle H.
  - injection H as <-. split; [done|]. split; [done|]. split; [lia|].
    intros v Hv. exists []. by rewrite app_nil_r.
  - cbn [Harness.run_cycles] in H.
    apply bind_Done_inv in H as (h1 & H1 & H).
    destruct (run_epochs_facts _ _ _ _ _ H1) as (Hs1 & Ht1 & Hl1 & Hp1); [lia|].
    destruct (IH _ _ H) as (Hs & Ht & Hl & Hp).
    split; [auto|]. split; [auto|]. split; [rewrite Hl, Hl1; lia|].
    intros v Hv. destruct (Hp1 v Hv) as (m1 & Hm1).
    destruct (Hp _ Hm1) as (m2 & Hm2). exists (m1 ++ m2). by rewrite app_assoc.
Qed.

Lemma concat_replicate_nil {B : Type} (n : nat) : concat (replicate n ([] : list B)) = [].
Proof. induction n as [|n IH]; [done|]. simpl. done. Qed.

Lemma run_challenge_facts (a : A) (m : Harness.memory) (h : Harness.harness A) :
  Harness.run_challenge A initialize_func malloc_func free_func finalize_func draws a m
    = Done h ->
  stats_ok h /\ tag_state h /\
  Z.of_nat (length (Harness.created A h)) = 119000.
Proof.
  unfold Harness.run_challenge. intros H.
  apply bind_Done_inv in H as (h1 & H1 & H). injection H as <-.
  destruct (run_cycles_facts _ _ _ _ H1) as (Hs & Ht & Hl & _).
  assert (Hs0 : stats_ok (Harness.start A initialize_func a m)).
  { unfold stats_ok, Harness.start.
    cbn [Harness.objects Harness.allocated_size Harness.freed_size Harness.created].
    rewrite length_replicate, concat_replicate_nil. done. }
  assert (Ht0 : tag_state (Harness.start A initialize_func a m)).
  { split; [done|]. split; [done|]. intros Hne. by destruct Hne. }
  split; [exact (Hs Hs0)|]. split; [exact (Ht Ht0)|].
  cbn [Harness.created]. rewrite Hl. simpl Harness.created.
  vm_compute. reflexivity.
Qed.

(** ** The loops of [run_challenge], for an allocator that meets the
    contract *)

Section Forward.
Variable inv : A -> list (Z * Z) -> Prop.
Variable max_request : Z.
Hypothesis contract : allocator_contract malloc_func free_func max_request inv.
Hypothesis draws_ok : forall c e i, 1 <= Harness.d_size (draws c e i) <= max_request.

Lemma harness_inv_perm (h : Harness.harness A) (objs objs' : list Harness.object_t) :
  objs ≡ₚ objs' -> harness_inv inv h objs -> harness_inv inv h objs'.
Proof.
  intros Hperm (o' & live & Hp & Hown & Hinv & Hst).
  exists o', live. split; [by rewrite Hp|]. split; [done|]. split; [done|].
  by rewrite <- Hperm.
Qed.

Lemma harness_inv_owner (h : Harness.harness A) (objs : list Harness.object_t)
    (o : Harness.object_t) :
  harness_inv inv h objs -> o ∈ objs ->
  1 <= Harness.size o < size_max /\ stamped (Harness.bytes A h) o.
Proof.
  intros (o' & live & Hp & Hown & Hinv & Hst) Hin.
  split; [|by apply (proj1 (Forall_forall _ _) Hst)].
  rewrite <- Hp in Hin. apply list_elem_of_lookup in Hin as (i & Hi).
  destruct (Forall2_lookup_l _ _ _ _ _ Hown Hi) as (b & _ & _ & Hsz & Hmax). lia.
Qed.

Lemma allocate_object_ok (h : Harness.harness A) (epoch : nat) (d : Harness.draw) :
  harness_ok inv h -> 1 <= Harness.d_size d <= max_request ->
  exists h', Harness.allocate_object A malloc_func h epoch d = Done h' /\
             harness_ok inv h'.
Proof.
  intros (Hlen & o' & live & Hp & Hown & Hinv & Hst) Hsz.
  destruct (contract_malloc _ _ _ _ contract _ _ _ Hinv Hsz)
    as (a' & p & s & Hm & Hle & Hinv' & Hdis).
  pose proof (contract_max _ _ _ _ contract) as Hmax.
  unfold Harness.allocate_object. rewrite Hm, bind_Done.
  eexists. split; [reflexivity|].
  fold (slot_of epoch d).
  set (o := {| Harness.ptr := p; Harness.size := Harness.d_size d;
               Harness.tag := Harness.cur_tag A h |}).
  assert (Hpush : concat (Harness.vector_push (Harness.objects A h) (slot_of epoch d) o)
                  ≡ₚ o :: concat (Harness.objects A h)).
  { apply concat_vector_push. rewrite Hlen. apply slot_of_lt. }
  split; cbn [Harness.objects Harness.alloc Harness.bytes].
  { by rewrite length_vector_push. }
  exists (o :: o'), ((p, s) :: live).
  cbn [Harness.objects Harness.alloc Harness.bytes].
  split; [by rewrite Hpush, Hp|]. split.
  { constructor; [|done]. unfold owns, o. simpl. lia. }
  split; [done|].
  rewrite Hpush. constructor.
  - intros x Hx. unfold o in *. simpl in *. by apply HarnessTheory.memset_lookup.
  - apply Forall_forall. intros x Hx y Hy.
    assert (Hold : stamped (Harness.bytes A h) x)
      by (by apply (proj1 (Forall_forall _ _) Hst)).
    rewrite <- Hp in Hx. apply list_elem_of_lookup in Hx as (i & Hi).
    destruct (Forall2_lookup_l _ _ _ _ _ Hown Hi) as (b & Hb & Hptr & Hsize & _).
    apply list_elem_of_lookup_2 in Hb.
    specialize (Hdis b Hb).
    rewrite memset_lookup_other; [by apply Hold|]. lia.
Qed.

Lemma allocate_objects_ok (h : Harness.harness A) (cycle epoch i n : nat) :
  harness_ok inv h ->
  exists h', Harness.allocate_objects A malloc_func draws h cycle epoch i n = Done h' /\
             harness_ok inv h'.
Proof.
  revert h i. induction n as [|n IH]; intros h i Hok.
  - exists h. done.
  - destruct (allocate_object_ok h epoch (draws cycle epoch i) Hok (draws_ok _ _ _))
      as (h1 & H1 & Hok1).
    destruct (IH h1 (S i) Hok1) as (h' & H' & Hok').
    exists h'. cbn [Harness.allocate_objects]. rewrite H1, bind_Done. done.
Qed.

Lemma release_objects_ok (h : Harness.harness A) (v rest : list Harness.object_t) :
  harness_inv inv h (v ++ rest) ->
  exists h', Harness.release_objects A free_func h v = (Harness.ptr <$> v, Done h') /\
             harness_inv inv h' rest /\
             Harness.objects A h' = Harness.objects A h.
Proof.
  revert h. induction v as [|o v IH]; intros h Hinv.
  - exists h. done.
  - destruct (harness_inv_owner h _ o Hinv) as (Hsz & Hst); [apply elem_of_cons; auto|].
    assert (Hchk : Harness.tag_broken (Harness.bytes A h) o = false).
    { unfold Harness.tag_broken, Harness.byte_at.
      rewrite (wrap_small (Harness.size o - 1)) by lia.
      rewrite !Hst by lia. simpl. by rewrite Z.eqb_refl. }
    destruct Hinv as (o' & live & Hp & Hown & Hinv & Hstamped).
    assert (Hin : o ∈ o') by (rewrite Hp; apply elem_of_cons; auto).
    apply list_elem_of_split in Hin as (o1 & o2 & ->).
    apply Forall2_app_inv_l in Hown as (l1 & l2' & Hown1 & Hown2 & ->).
    apply Forall2_cons_inv_l in Hown2 as (b & l2 & Hob & Hown2 & ->).
    destruct (contract_free _ _ _ _ contract _ _ _ _ Hinv) as (a' & Hfree & Hinv').
    destruct Hob as (Hptr & _).
    set (h1 := {| Harness.alloc := a'; Harness.bytes := Harness.bytes A h;
                  Harness.cur_tag := Harness.cur_tag A h;
                  Harness.objects := Harness.objects A h;
                  Harness.allocated_size := Harness.allocated_size A h;
                  Harness.freed_size := wrap (Harness.freed_size A h + Harness.size o);
                  Harness.created := Harness.created A h |}).
    destruct (IH h1) as (h' & Hrel & Hinv'' & Hobj).
    { exists (o1 ++ o2), (l1 ++ l2). split.
      - apply (Permutation_cons_inv (a := o)).
        rewrite Permutation_middle. done.
      - split; [by apply Forall2_app|]. split; [done|].
        simpl in Hstamped. by apply Forall_cons_1 in Hstamped as (_ & Hstamped). }
    rewrite <- Hptr in Hfree.
    exists h'. cbn [Harness.release_objects]. rewrite Hchk, Hfree.
    unfold h1 in Hrel. rewrite Hrel. done.
Qed.

Lemma run_epoch_ok (h : Harness.harness A) (cycle epoch : nat) :
  harness_ok inv h -> (epoch < Harness.epochs_per_cycle)%nat ->
  exists h', Harness.run_epoch A malloc_func free_func draws h cycle epoch = Done h' /\
             harness_ok inv h'.
Proof.
  intros Hok He. unfold Harness.run_epoch.
  destruct (allocate_objects_ok h cycle epoch 0
              (if (epoch =? 0)%nat then Harness.objects_per_epoch_large
               else Harness.objects_per_epoch_small) Hok) as (h1 & H1 & Hlen & Hinv1).
  rewrite H1, bind_Done.
  destruct (lookup_lt_is_Some_2 (Harness.objects A h1) epoch) as (v & Hv); [lia|].
  rewrite Hv. simpl default.
  destruct (release_objects_ok h1 v (concat (<[epoch := []]> (Harness.objects A h1))))
    as (h2 & H2 & Hinv2 & Hobj).
  { apply (harness_inv_perm _ _ _ (concat_clear _ _ _ Hv) Hinv1). }
  rewrite H2. simpl. eexists. split; [reflexivity|].
  split; cbn [Harness.objects].
  - rewrite length_insert. congruence.
  - rewrite Hobj. destruct Hinv2 as (o' & live & Hp & Hown & Hinv & Hst).
    exists o', live. done.
Qed.

Lemma run_epochs_ok (h : Harness.harness A) (cycle epoch n : nat) :
  harness_ok inv h -> (epoch + n <= Harness.epochs_per_cycle)%nat ->
  exists h', Harness.run_epochs A malloc_func free_func draws h cycle epoch n = Done h' /\
             harness_ok inv h'.
Proof.
  revert h epoch. induction n as [|n IH]; intros h epoch Hok He.
  - exists h. done.
  - destruct (run_epoch_ok h cycle epoch Hok) as (h1 & H1 & Hok1); [lia|].
    destruct (IH h1 (S epoch) Hok1) as (h' & H' & Hok'); [lia|].
    exists h'. cbn [Harness.run_epochs]. rewrite H1, bind_Done. done.
Qed.

Lemma run_cycles_ok (h : Harness.harness A) (cycle n : nat) :
  harness_ok inv h ->
  exists h', Harness.run_cycles A malloc_func free_func draws h cycle n = Done h' /\
             harness_ok inv h'.
Proof.
  revert h cycle. induction n as [|n IH]; intros h cycle Hok.
  - exists h. done.
  - destruct (run_epochs_ok h cycle 0 Harness.epochs_per_cycle Hok) as (h1 & H1 & Hok1);
      [lia|].
    destruct (IH h1 (S cycle) Hok1) as (h' & H' & Hok').
    exists h'. cbn [Harness.run_cycles]. rewrite H1, bind_Done. done.
Qed.

Lemma run_challenge_ok (a : A) (m : Harness.memory) :
  inv (initialize_func a) [] ->
  exists h,
    Harness.run_challenge A initialize_func malloc_func free_func finalize_func draws a m
      = Done h.
Proof.
  intros Hinit. unfold Harness.run_challenge.
  destruct (run_cycles_ok (Harness.start A initialize_func a m) 0 Harness.cycles)
    as (h1 & H1 & _).
  { unfold harness_ok, harness_inv, Harness.start.
    cbn [Harness.objects Harness.alloc Harness.bytes].
    rewrite length_replicate, concat_replicate_nil. split; [done|].
    exists [], []. done. }
  rewrite H1, bind_Done. eexists. reflexivity.
Qed.
End Forward.
End Runs.

Lemma X16_witness :
  (16, 128) ∈ challenge_sizes /\ 0 <= 45 <= (16, 128).2 - (16, 128).1 /\
  exists r,
    get_object_size (16, 128).1 (16, 128).2 45 = Done r /\
    8 <= r <= 4000 /\ r mod 8 = 0 /\
    (forall st ps, BestFit.reachable st ps ->
       exists f st' p, BestFit.best_fit_malloc f st r = Done (st', p) /\ p <> NULL) /\
    (forall st ps, FirstFit.reachable st ps ->
       exists f st' p, FirstFit.first_fit_malloc f st r = Done (st', p) /\ p <> NULL).
Proof.
  assert (H1 : (16, 128) ∈ challenge_sizes).
  { unfold challenge_sizes. rewrite !elem_of_cons. auto. }
  assert (H2 : 0 <= 45 <= (16, 128).2 - (16, 128).1) by (simpl; lia).
  split; [exact H1|]. split; [exact H2|].
  exact (X16_challenge_sizes_are_served _ _ H1 H2).
Defined.

(** ** The challenge on the two allocators *)

Lemma ff_challenge_runs (draws : nat -> nat -> nat -> Harness.draw)
    (a : FirstFit.state) (m : Harness.memory) :
  0 < FirstFit.dummy a ->
  FirstFit.dummy a + FirstFit.header_size <= brk (FirstFit.sys a) ->
  (forall c e i, 1 <= Harness.d_size (draws c e i) <= 4096 - FirstFit.header_size) ->
  exists h,
    Harness.run_challenge FirstFit.state FirstFit.first_fit_initialize first_fit_run
      FirstFit.first_fit_free first_fit_finalize draws a m = Done h.
Proof.
  intros Hd Hb Hdraws.
  apply (run_challenge_ok _ _ _ _ _ _ ff_inv _ ff_contract Hdraws).
  exists [(FirstFit.dummy a, 0)], []. split; [|done].
  by apply FirstFitTheory.ff_initialize_inv.
Qed.

Lemma bf_challenge_runs (draws : nat -> nat -> nat -> Harness.draw)
    (a : BestFit.state) (m : Harness.memory) :
  0 < BestFit.dummy a ->
  BestFit.dummy a + BestFit.header_size <= brk (BestFit.sys a) ->
  (forall c e i, 1 <= Harness.d_size (draws c e i) <= 4096 - BestFit.header_size) ->
  exists h,
    Harness.run_challenge BestFit.state BestFit.best_fit_initialize best_fit_run
      best_fit_release best_fit_finalize draws a m = Done h.
Proof.
  intros Hd Hb Hdraws.
  apply (run_challenge_ok _ _ _ _ _ _ bf_inv _ bf_contract Hdraws).
  exists (BestFit.T (BestFit.dummy a) 0 BestFit.E BestFit.E 1), []. split; [|done].
  by apply BestFitTheory.initialize_inv.
Qed.

(** X17.  [run_challenge] on the first-fit allocator, the sizes drawn
    between 1 and 4080 and the lifetimes and the permanent marks drawn in any
    way: all 119000 objects are allocated, no release finds a tag byte
    changed, no [assert] fails and no header is missing, and the challenge
    ends after [first_fit_finalize].  The fuel the allocator is run with is
    enough: more of it changes no result. *)
Theorem X17_first_fit_passes_the_challenge :
  (forall (draws : nat -> nat -> nat -> Harness.draw) (a : FirstFit.state)
          (m : Harness.memory),
      0 < FirstFit.dummy a ->
      FirstFit.dummy a + FirstFit.header_size <= brk (FirstFit.sys a) ->
      (forall c e i, 1 <= Harness.d_size (draws c e i) <= 4096 - FirstFit.header_size) ->
      exists h,
        Harness.run_challenge FirstFit.state FirstFit.first_fit_initialize first_fit_run
          FirstFit.first_fit_free first_fit_finalize draws a m = Done h /\
        Z.of_nat (length (Harness.created FirstFit.state h)) = 119000) /\
  (forall (st : FirstFit.state) (ps : list Z) (req : Z) (f : nat),
      FirstFit.reachable st ps -> 0 <= req <= 4096 - FirstFit.header_size ->
      (ff_fuel st <= f)%nat ->
      FirstFit.first_fit_malloc f st req = first_fit_run st req).
Proof.
  split.
  - intros draws a m Hd Hb Hdraws.
    destruct (ff_challenge_runs draws a m Hd Hb Hdraws) as (h & Hrun).
    exists h. split; [done|].
    by destruct (run_challenge_facts _ _ _ _ _ _ _ _ _ Hrun) as (_ & _ & Hlen).
  - intros st ps req f Hreach Hreq Hf.
    destruct (FirstFitTheory.ff_reachable_inv st ps Hreach) as (l & live & Hinv & _).
    pose proof (ff_free_list_le_size _ _ _ Hinv).
    symmetry. apply (ff_run_stable st l live); [done|done|unfold ff_fuel; lia|done].
Qed.

Lemma X17_witness :
  (0 < FirstFit.dummy FirstFit.boot /\
   FirstFit.dummy FirstFit.boot + FirstFit.header_size <= brk (FirstFit.sys FirstFit.boot) /\
   (forall c e i : nat,
       1 <= Harness.d_size (steady c e i) <= 4096 - FirstFit.header_size) /\
   exists h,
     Harness.run_challenge FirstFit.state FirstFit.first_fit_initialize first_fit_run
       FirstFit.first_fit_free first_fit_finalize steady FirstFit.boot ∅ = Done h /\
     Z.of_nat (length (Harness.created FirstFit.state h)) = 119000) /\
  (FirstFit.reachable ff_after_malloc [4112] /\
   0 <= 8 <= 4096 - FirstFit.header_size /\
   (ff_fuel ff_after_malloc <= 8)%nat /\
   FirstFit.first_fit_malloc 8 ff_after_malloc 8 = first_fit_run ff_after_malloc 8).
Proof.
  split.
  - assert (H1 : 0 < FirstFit.dummy FirstFit.boot) by (simpl; lia).
    assert (H2 : FirstFit.dummy FirstFit.boot + FirstFit.header_size
                 <= brk (FirstFit.sys FirstFit.boot)).
    { simpl. unfold FirstFit.header_size. lia. }
    assert (H3 : forall c e i : nat,
               1 <= Harness.d_size (steady c e i) <= 4096 - FirstFit.header_size).
    { intros c e i. simpl. unfold FirstFit.header_size. lia. }
    split; [exact H1|]. split; [exact H2|]. split; [exact H3|].
    exact (proj1 X17_first_fit_passes_the_challenge steady FirstFit.boot ∅ H1 H2 H3).
  - assert (H1 : FirstFit.reachable ff_after_malloc [4112]) by exact ff_reach_one.
    assert (H2 : 0 <= 8 <= 4096 - FirstFit.header_size)
      by (unfold FirstFit.header_size; lia).
    assert (H3 : (ff_fuel ff_after_malloc <= 8)%nat) by (vm_compute; lia).
    split; [exact H1|]. split; [exact H2|]. split; [exact H3|].
    exact (proj2 X17_first_fit_passes_the_challenge _ _ _ _ H1 H2 H3).
Defined.

(** X18.  The same for the best-fit allocator, the sizes drawn between 1
    and 4064: [run_challenge] allocates all 119000 objects and ends without
    a failed check, [assert] or missing header, and the fuel the allocator
    is run with is enough. *)
Theorem X18_best_fit_passes_the_challenge :
  (forall (draws : nat -> nat -> nat -> Harness.draw) (a : BestFit.state)
          (m : Harness.memory),
      0 < BestFit.dummy a ->
      BestFit.dummy a + BestFit.header_size <= brk (BestFit.sys a) ->
      (forall c e i, 1 <= Harness.d_size (draws c e i) <= 4096 - BestFit.header_size) ->
      exists h,
        Harness.run_challenge BestFit.state BestFit.best_fit_initialize best_fit_run
          best_fit_release best_fit_finalize draws a m = Done h /\
        Z.of_nat (length (Harness.created BestFit.state h)) = 119000) /\
  (forall (st : BestFit.state) (ps : list Z) (req : Z) (f : nat),
      BestFit.reachable st ps -> 0 <= req <= 4096 - BestFit.header_size ->
      (bf_fuel st <= f)%nat ->
      BestFit.best_fit_malloc f st req = best_fit_run st req) /\
  (forall (st : BestFit.state) (ps1 ps2 : list Z) (p : Z) (f : nat),
      BestFit.reachable st (ps1 ++ p :: ps2) -> (bf_fuel st <= f)%nat ->
      BestFit.best_fit_free f st p = best_fit_release st p).
Proof.
  split; [|split].
  - intros draws a m Hd Hb Hdraws.
    destruct (bf_challenge_runs draws a m Hd Hb Hdraws) as (h & Hrun).
    exists h. split; [done|].
    by destruct (run_challenge_facts _ _ _ _ _ _ _ _ _ Hrun) as (_ & _ & Hlen).
  - intros st ps req f Hreach Hreq Hf.
    destruct (BestFitTheory.reachable_inv st ps Hreach) as (t & live & Hinv & _).
    pose proof (bf_nodes_le_size _ _ _ Hinv).
    symmetry. apply (bf_run_stable st t live); [done|done|unfold bf_fuel; lia|done].
  - intros st ps1 ps2 p f Hreach Hf.
    destruct (BestFitTheory.reachable_inv st _ Hreach) as (t & live & Hinv & Hps).
    symmetry in Hps. apply fmap_app_inv in Hps as (k1 & k2' & -> & Hk2 & ->).
    symmetry in Hk2. apply fmap_cons_inv in Hk2 as (b & k2 & -> & -> & ->).
    destruct (bf_release_ok st t k1 k2 b Hinv) as (st' & Hrel & _).
    unfold BestFit.payload. rewrite Hrel.
    unfold best_fit_release, BestFit.best_fit_free in *.
    by apply (BestFitTheory.insert_to_tree_mono (bf_fuel st)).
Qed.

Lemma X18_witness :
  (0 < BestFit.dummy BestFit.boot /\
   BestFit.dummy BestFit.boot + BestFit.header_size <= brk (BestFit.sys BestFit.boot) /\
   (forall c e i : nat,
       1 <= Harness.d_size (steady c e i) <= 4096 - BestFit.header_size) /\
   exists h,
     Harness.run_challenge BestFit.state BestFit.best_fit_initialize best_fit_run
       best_fit_release best_fit_finalize steady BestFit.boot ∅ = Done h /\
     Z.of_nat (length (Harness.created BestFit.state h)) = 119000) /\
  (BestFit.reachable bf_after_malloc [4128] /\
   0 <= 8 <= 4096 - BestFit.header_size /\
   (bf_fuel bf_after_malloc <= 8)%nat /\
   BestFit.best_fit_malloc 8 bf_after_malloc 8 = best_fit_run bf_after_malloc 8) /\
  (BestFit.reachable bf_after_malloc ([] ++ 4128 :: []) /\
   (bf_fuel bf_after_malloc <= 8)%nat /\
   BestFit.best_fit_free 8 bf_after_malloc 4128 = best_fit_release bf_after_malloc 4128).
Proof.
  split; [|split].
  - assert (H1 : 0 < BestFit.dummy BestFit.boot) by (simpl; lia).
    assert (H2 : BestFit.dummy BestFit.boot + BestFit.header_size
                 <= brk (BestFit.sys BestFit.boot)).
    { simpl. unfold BestFit.header_size. lia. }
    assert (H3 : forall c e i : nat,
               1 <= Harness.d_size (steady c e i) <= 4096 - BestFit.header_size).
    { intros c e i. simpl. unfold BestFit.header_size. lia. }
    split; [exact H1|]. split; [exact H2|]. split; [exact H3|].
    exact (proj1 X18_best_fit_passes_the_challenge steady BestFit.boot ∅ H1 H2 H3).
  - assert (H1 : BestFit.reachable bf_after_malloc [4128]) by exact bf_reach_one.
    assert (H2 : 0 <= 8 <= 4096 - BestFit.header_size)
      by (unfold BestFit.header_size; lia).
    assert (H3 : (bf_fuel bf_after_malloc <= 8)%nat) by (vm_compute; lia).
    split; [exact H1|]. split; [exact H2|]. split; [exact H3|].
    exact (proj1 (proj2 X18_best_fit_passes_the_challenge) _ _ _ _ H1 H2 H3).
  - assert (H1 : BestFit.reachable bf_after_malloc ([] ++ 4128 :: []))
      by exact bf_reach_one.
    assert (H3 : (bf_fuel bf_after_malloc <= 8)%nat) by (vm_compute; lia).
    split; [exact H1|]. split; [exact H3|].
    exact (proj2 (proj2 X18_best_fit_passes_the_challenge) _ _ _ _ _ H1 H3).
Defined.

(** ** What every finished challenge has done *)

(** X19.  Whatever the allocator: a challenge that ends has made 119000
    objects; the first carries the tag 0, every other one a tag that is not
    0. *)
Theorem X19_tags_of_a_challenge (A : Type) (initialize_func : A -> A)
    (malloc_func : A -> Z -> outcome (A * Z)) (free_func : A -> Z -> outcome A)
    (finalize_func : A -> A) (draws : nat -> nat -> nat -> Harness.draw)
    (a : A) (m : Harness.memory) (h : Harness.harness A) :
  Harness.run_challenge A initialize_func malloc_func free_func finalize_func draws a m
    = Done h ->
  Z.of_nat (length (Harness.created A h)) = 119000 /\
  exists o rest,
    Harness.created A h = o :: rest /\ Harness.tag o = 0 /\
    forall x, x ∈ rest -> Harness.tag x <> 0.
Proof.
  intros Hrun.
  destruct (run_challenge_facts _ _ _ _ _ _ _ _ _ Hrun) as (_ & (Htags & _) & Hlen).
  split; [done|].
  destruct (Harness.created A h) as [|o rest]; [simpl in Hlen; lia|].
  exists o, rest. destruct Htags as (Ho & Hrest). split; [done|]. split; [done|].
  by apply Forall_forall.
Qed.

Lemma X19_witness :
  exists h,
    Harness.run_challenge FirstFit.state FirstFit.first_fit_initialize first_fit_run
      FirstFit.first_fit_free first_fit_finalize steady FirstFit.boot ∅ = Done h /\
    Z.of_nat (length (Harness.created FirstFit.state h)) = 119000 /\
    exists o rest,
      Harness.created FirstFit.state h = o :: rest /\ Harness.tag o = 0 /\
      forall x, x ∈ rest -> Harness.tag x <> 0.
Proof.
  destruct (ff_challenge_runs steady FirstFit.boot ∅) as (h & Hrun).
  - simpl. lia.
  - simpl. unfold FirstFit.header_size. lia.
  - intros c e i. simpl. unfold FirstFit.header_size. lia.
  - exists h. split; [exact Hrun|].
    exact (X19_tags_of_a_challenge _ _ _ _ _ _ _ _ _ Hrun).
Defined.

(** X20.  Whatever the allocator: when a challenge ends, the bytes counted
    in [stats.allocated_size] are those of all the objects made, and the
    bytes allocated and not freed are those of the objects that are still in
    the vectors, which the harness never releases (modulo 2^64, as the
    counters are [size_t]). *)
Theorem X20_statistics_of_a_challenge (A : Type) (initialize_func : A -> A)
    (malloc_func : A -> Z -> outcome (A * Z)) (free_func : A -> Z -> outcome A)
    (finalize_func : A -> A) (draws : nat -> nat -> nat -> Harness.draw)
    (a : A) (m : Harness.memory) (h : Harness.harness A) :
  Harness.run_challenge A initialize_func malloc_func free_func finalize_func draws a m
    = Done h ->
  wrap (Harness.allocated_size A h) = wrap (total_size (Harness.created A h)) /\
  wrap (Harness.allocated_size A h - Harness.freed_size A h)
    = wrap (total_size (concat (Harness.objects A h))).
Proof.
  intros Hrun.
  by destruct (run_challenge_facts _ _ _ _ _ _ _ _ _ Hrun) as ((_ & Hs) & _).
Qed.

Lemma X20_witness :
  exists h,
    Harness.run_challenge FirstFit.state FirstFit.first_fit_initialize first_fit_run
      FirstFit.first_fit_free first_fit_finalize steady FirstFit.boot ∅ = Done h /\
    wrap (Harness.allocated_size FirstFit.state h)
      = wrap (total_size (Harness.created FirstFit.state h)) /\
    wrap (Harness.allocated_size FirstFit.state h - Harness.freed_size FirstFit.state h)
      = wrap (total_size (concat (Harness.objects FirstFit.state h))).
Proof.
  destruct (ff_challenge_runs steady FirstFit.boot ∅) as (h & Hrun).
  - simpl. lia.
  - simpl. unfold FirstFit.header_size. lia.
  - intros c e i. simpl. unfold FirstFit.header_size. lia.
  - exists h. split; [exact Hrun|].
    exact (X20_statistics_of_a_challenge _ _ _ _ _ _ _ _ _ Hrun).
Defined.

(** X21.  Whatever the allocator: over any number of cycles the last
    vector, the one of the objects marked as never freed, only grows; no
    epoch releases or clears it. *)
Theorem X21_permanent_objects_stay (A : Type)
    (malloc_func : A -> Z -> outcome (A * Z)) (free_func : A -> Z -> outcome A)
    (draws : nat -> nat -> nat -> Harness.draw)
    (h h' : Harness.harness A) (cycle n : nat) (v : list Harness.object_t) :
  Harness.run_cycles A malloc_func free_func draws h cycle n = Done h' ->
  Harness.objects A h !! Harness.epochs_per_cycle = Some v ->
  exists more, Harness.objects A h' !! Harness.epochs_per_cycle = Some (v ++ more).
Proof.
  intros Hrun Hv.
  destruct (run_cycles_facts _ _ _ _ h h' cycle n Hrun) as (_ & _ & _ & Hp).
  by apply Hp.
Qed.

Lemma start_ok (A : Type) (initialize_func : A -> A) (inv : A -> list (Z * Z) -> Prop)
    (a : A) (m : Harness.memory) :
  inv (initialize_func a) [] -> harness_ok inv (Harness.start A initialize_func a m).
Proof.
  intros Hinit. unfold harness_ok, harness_inv, Harness.start.
  cbn [Harness.objects Harness.alloc Harness.bytes].
  rewrite length_replicate, concat_replicate_nil. split; [done|].
  exists [], []. done.
Qed.

Lemma mixed_sizes (c e i : nat) :
  1 <= Harness.d_size (mixed c e i) <= 4096 - FirstFit.header_size.
Proof. simpl. unfold FirstFit.header_size. lia. Qed.

Lemma X21_witness :
  exists h',
    Harness.run_cycles FirstFit.state first_fit_run FirstFit.first_fit_free mixed
      (Harness.start FirstFit.state FirstFit.first_fit_initialize FirstFit.boot ∅)
      0 Harness.cycles = Done h' /\
    Harness.objects FirstFit.state
      (Harness.start FirstFit.state FirstFit.first_fit_initialize FirstFit.boot ∅)
      !! Harness.epochs_per_cycle = Some [] /\
    exists more,
      Harness.objects FirstFit.state h' !! Harness.epochs_per_cycle = Some ([] ++ more).
Proof.
  destruct (run_cycles_ok FirstFit.state first_fit_run FirstFit.first_fit_free mixed
              ff_inv _ ff_contract mixed_sizes
              (Harness.start FirstFit.state FirstFit.first_fit_initialize FirstFit.boot ∅)
              0 Harness.cycles) as (h' & Hrun & _).
  - apply start_ok. exists [(64, 0)], []. split; [|done].
    apply FirstFitTheory.ff_heap_invb_sound. vm_compute. reflexivity.
  - assert (Hv : Harness.objects FirstFit.state
                   (Harness.start FirstFit.state FirstFit.first_fit_initialize
                                  FirstFit.boot ∅)
                 !! Harness.epochs_per_cycle = Some []) by reflexivity.
    exists h'. split; [exact Hrun|]. split; [exact Hv|].
    exact (X21_permanent_objects_stay _ _ _ _ _ _ _ _ _ Hrun Hv).
Defined.

Section SharedRuns.
Variable A : Type.
Variable initialize_func : A -> Harness.memory -> A * Harness.memory.
Variable malloc_func : A -> Harness.memory -> Z -> outcome (A * Harness.memory * Z).
Variable free_func : A -> Harness.memory -> Z -> outcome (A * Harness.memory).
Variable finalize_func : A -> Harness.memory -> A * Harness.memory.
Variable draws : nat -> nat -> nat -> Harness.draw.
Variable inv : A -> Harness.memory -> list (Z * Z) -> Prop.
Variable max_request : Z.
Hypothesis contract : shared_contract malloc_func free_func max_request inv.
Hypothesis draws_ok : forall c e i, 1 <= Harness.d_size (draws c e i) <= max_request.

(** Stamping an object writes bytes of its block only. *)
Lemma shared_memset_inv (a : A) (m : Harness.memory) (live : list (Z * Z))
    (p s c n : Z) :
  inv a m live -> (p, s) ∈ live -> n <= s -> inv a (Harness.memset m p c n) live.
Proof.
  intros Hinv Hin Hn. unfold Harness.memset.
  assert (Hl : forall i, i ∈ seqZ 0 n -> 0 <= i < n).
  { intros i Hi. apply elem_of_seqZ in Hi. lia. }
  induction (seqZ 0 n) as [|i l IH]; [done|].
  simpl. apply (shared_write _ _ _ _ contract _ _ _ (p, s)).
  - apply IH. intros j Hj. apply Hl. apply elem_of_cons. auto.
  - done.
  - simpl. specialize (Hl i). rewrite elem_of_cons in Hl.
    specialize (Hl (or_introl eq_refl)). lia.
Qed.

Lemma shared_inv_perm (h : Harness.harness A) (objs objs' : list Harness.object_t) :
  objs ≡ₚ objs' -> shared_inv inv h objs -> shared_inv inv h objs'.
Proof.
  intros Hperm (o' & live & Hp & Hown & Hinv & Hst).
  exists o', live. split; [by rewrite Hp|]. split; [done|]. split; [done|].
  by rewrite <- Hperm.
Qed.

Lemma shared_inv_owner (h : Harness.harness A) (objs : list Harness.object_t)
    (o : Harness.object_t) :
  shared_inv inv h objs -> o ∈ objs ->
  1 <= Harness.size o < size_max /\ stamped (Harness.bytes A h) o.
Proof.
  intros (o' & live & Hp & Hown & Hinv & Hst) Hin.
  split; [|by apply (proj1 (Forall_forall _ _) Hst)].
  rewrite <- Hp in Hin. apply list_elem_of_lookup in Hin as (i & Hi).
  destruct (Forall2_lookup_l _ _ _ _ _ Hown Hi) as (b & _ & _ & Hsz & Hmax). lia.
Qed.

Lemma shared_allocate_object_ok (h : Harness.harness A) (epoch : nat) (d : Harness.draw) :
  shared_ok inv h -> 1 <= Harness.d_size d <= max_request ->
  exists h', Shared.allocate_object A malloc_func h epoch d = Done h' /\
             shared_ok inv h'.
Proof.
  intros (Hlen & o' & live & Hp & Hown & Hinv & Hst) Hsz.
  destruct (shared_malloc _ _ _ _ contract _ _ _ _ Hinv Hsz)
    as (a' & m' & p & s & Hm & Hle & Hinv' & Hdis & Hframe).
  pose proof (shared_max _ _ _ _ contract) as Hmax.
  unfold Shared.allocate_object. rewrite Hm, bind_Done.
  eexists. split; [reflexivity|].
  fold (slot_of epoch d).
  set (o := {| Harness.ptr := p; Harness.size := Harness.d_size d;
               Harness.tag := Harness.cur_tag A h |}).
  assert (Hpush : concat (Harness.vector_push (Harness.objects A h) (slot_of epoch d) o)
                  ≡ₚ o :: concat (Harness.objects A h)).
  { apply concat_vector_push. rewrite Hlen. apply slot_of_lt. }
  split; cbn [Harness.objects Harness.alloc Harness.bytes].
  { by rewrite length_vector_push. }
  exists (o :: o'), ((p, s) :: live).
  cbn [Harness.objects Harness.alloc Harness.bytes].
  split; [by rewrite Hpush, Hp|]. split.
  { constructor; [|done]. unfold owns, o. simpl. lia. }
  split.
  { apply (shared_memset_inv _ _ _ p s); [done|apply elem_of_cons; auto|done]. }
  rewrite Hpush. constructor.
  - intros x Hx. unfold o in *. simpl in *. by apply HarnessTheory.memset_lookup.
  - apply Forall_forall. intros x Hx y Hy.
    assert (Hold : stamped (Harness.bytes A h) x)
      by (by apply (proj1 (Forall_forall _ _) Hst)).
    rewrite <- Hp in Hx. apply list_elem_of_lookup in Hx as (i & Hi).
    destruct (Forall2_lookup_l _ _ _ _ _ Hown Hi) as (b & Hb & Hptr & Hsize & _).
    apply list_elem_of_lookup_2 in Hb.
    specialize (Hdis b Hb).
    rewrite memset_lookup_other by lia.
    rewrite (Hframe b y Hb) by lia. by apply Hold.
Qed.

Lemma shared_allocate_objects_ok (h : Harness.harness A) (cycle epoch i n : nat) :
  shared_ok inv h ->
  exists h', Shared.allocate_objects A malloc_func draws h cycle epoch i n = Done h' /\
             shared_ok inv h'.
Proof.
  revert h i. induction n as [|n IH]; intros h i Hok.
  - exists h. done.
  - destruct (shared_allocate_object_ok h epoch (draws cycle epoch i) Hok (draws_ok _ _ _))
      as (h1 & H1 & Hok1).
    destruct (IH h1 (S i) Hok1) as (h' & H' & Hok').
    exists h'. cbn [Shared.allocate_objects]. rewrite H1, bind_Done. done.
Qed.

Lemma shared_release_objects_ok (h : Harness.harness A) (v rest : list Harness.object_t) :
  shared_inv inv h (v ++ rest) ->
  exists h', Shared.release_objects A free_func h v = Done h' /\
             shared_inv inv h' rest /\
             Harness.objects A h' = Harness.objects A h.
Proof.
  revert h. induction v as [|o v IH]; intros h Hinv.
  - exists h. done.
  - destruct (shared_inv_owner h _ o Hinv) as (Hsz & Hst); [apply elem_of_cons; auto|].
    assert (Hchk : Harness.tag_broken (Harness.bytes A h) o = false).
    { unfold Harness.tag_broken, Harness.byte_at.
      rewrite (wrap_small (Harness.size o - 1)) by lia.
      rewrite !Hst by lia. simpl. by rewrite Z.eqb_refl. }
    destruct Hinv as (o' & live & Hp & Hown & Hinv & Hstamped).
    assert (Hin : o ∈ o') by (rewrite Hp; apply elem_of_cons; auto).
    apply list_elem_of_split in Hin as (o1 & o2 & ->).
    apply Forall2_app_inv_l in Hown as (l1 & l2' & Hown1 & Hown2 & ->).
    apply Forall2_cons_inv_l in Hown2 as (b & l2 & Hob & Hown2 & ->).
    destruct (shared_free _ _ _ _ contract _ _ _ _ _ Hinv)
      as (a' & m' & Hfree & Hinv' & Hframe).
    destruct Hob as (Hptr & _).
    assert (Hperm : o1 ++ o2 ≡ₚ v ++ rest).
    { apply (Permutation_cons_inv (a := o)). rewrite Permutation_middle. done. }
    set (h1 := {| Harness.alloc := a'; Harness.bytes := m';
                  Harness.cur_tag := Harness.cur_tag A h;
                  Harness.objects := Harness.objects A h;
                  Harness.allocated_size := Harness.allocated_size A h;
                  Harness.freed_size := wrap (Harness.freed_size A h + Harness.size o);
                  Harness.created := Harness.created A h |}).
    destruct (IH h1) as (h' & Hrel & Hinv'' & Hobj).
    { exists (o1 ++ o2), (l1 ++ l2). split; [done|].
      split; [by apply Forall2_app|]. split; [done|].
      cbn [h1 Harness.bytes].
      simpl in Hstamped. apply Forall_cons_1 in Hstamped as (_ & Hstamped).
      apply Forall_forall. intros x Hx y Hy.
      assert (Hold : stamped (Harness.bytes A h) x)
        by (by apply (proj1 (Forall_forall _ _) Hstamped)).
      rewrite <- Hperm in Hx. apply list_elem_of_lookup in Hx as (i & Hi).
      destruct (Forall2_lookup_l _ _ _ _ _ (Forall2_app Hown1 Hown2) Hi)
        as (c & Hc & Hcp & Hcs & _).
      apply list_elem_of_lookup_2 in Hc.
      rewrite (Hframe c y Hc) by lia. by apply Hold. }
    rewrite <- Hptr in Hfree.
    exists h'. cbn [Shared.release_objects]. rewrite Hchk, Hfree, bind_Done.
    unfold h1 in Hrel. rewrite Hrel. done.
Qed.

Lemma shared_run_epoch_ok (h : Harness.harness A) (cycle epoch : nat) :
  shared_ok inv h -> (epoch < Harness.epochs_per_cycle)%nat ->
  exists h', Shared.run_epoch A malloc_func free_func draws h cycle epoch = Done h' /\
             shared_ok inv h'.
Proof.
  intros Hok He. unfold Shared.run_epoch.
  destruct (shared_allocate_objects_ok h cycle epoch 0
              (if (epoch =? 0)%nat then Harness.objects_per_epoch_large
               else Harness.objects_per_epoch_small) Hok) as (h1 & H1 & Hlen & Hinv1).
  rewrite H1, bind_Done.
  destruct (lookup_lt_is_Some_2 (Harness.objects A h1) epoch) as (v & Hv); [lia|].
  rewrite Hv. simpl default.
  destruct (shared_release_objects_ok h1 v
              (concat (<[epoch := []]> (Harness.objects A h1))))
    as (h2 & H2 & Hinv2 & Hobj).
  { apply (shared_inv_perm _ _ _ (concat_clear _ _ _ Hv) Hinv1). }
  rewrite H2, bind_Done. eexists. split; [reflexivity|].
  split; cbn [Harness.objects].
  - rewrite length_insert. congruence.
  - rewrite Hobj. destruct Hinv2 as (o' & live & Hp & Hown & Hinv & Hst).
    exists o', live. done.
Qed.

Lemma shared_run_epochs_ok (h : Harness.harness A) (cycle epoch n : nat) :
  shared_ok inv h -> (epoch + n <= Harness.epochs_per_cycle)%nat ->
  exists h', Shared.run_epochs A malloc_func free_func draws h cycle epoch n = Done h' /\
             shared_ok inv h'.
Proof.
  revert h epoch. induction n as [|n IH]; intros h epoch Hok He.
  - exists h. done.
  - destruct (shared_run_epoch_ok h cycle epoch Hok) as (h1 & H1 & Hok1); [lia|].
    destruct (IH h1 (S epoch) Hok1) as (h' & H' & Hok'); [lia|].
    exists h'. cbn [Shared.run_epochs]. rewrite H1, bind_Done. done.
Qed.

Lemma shared_run_cycles_ok (h : Harness.harness A) (cycle n : nat) :
  shared_ok inv h ->
  exists h', Shared.run_cycles A malloc_func free_func draws h cycle n = Done h' /\
             shared_ok inv h'.
Proof.
  revert h cycle. induction n as [|n IH]; intros h cycle Hok.
  - exists h. done.
  - destruct (shared_run_epochs_ok h cycle 0 Harness.epochs_per_cycle Hok)
      as (h1 & H1 & Hok1); [lia|].
    destruct (IH h1 (S cycle) Hok1) as (h' & H' & Hok').
    exists h'. cbn [Shared.run_cycles]. rewrite H1, bind_Done. done.
Qed.

Lemma shared_run_challenge_ok (a : A) (m : Harness.memory) :
  inv (initialize_func a m).1 (initialize_func a m).2 [] ->
  exists h,
    Shared.run_challenge A initialize_func malloc_func free_func finalize_func draws a m
      = Done h /\
    length (Harness.objects A h) = S Harness.epochs_per_cycle.
Proof.
  intros Hinit. unfold Shared.run_challenge.
  destruct (shared_run_cycles_ok (Shared.start A initialize_func a m) 0 Harness.cycles)
    as (h1 & H1 & Hlen & _).
  { unfold shared_ok, shared_inv, Shared.start.
    destruct (initialize_func a m) as [a0 m0].
    cbn [Harness.objects Harness.alloc Harness.bytes].
    rewrite length_replicate, concat_replicate_nil. split; [done|].
    exists [], []. done. }
  rewrite H1, bind_Done.
  destruct (finalize_func _ _) as [a1 m1]. eexists. split; [reflexivity|]. done.
Qed.
End SharedRuns.

(** Functions that keep apart from the shared memory: the run is the one of
    [Harness], and a contract for them is one for the shared memory. *)
Section Apart.
Variable A : Type.
Variable initialize_func : A -> A.
Variable malloc_func : A -> Z -> outcome (A * Z).
Variable free_func : A -> Z -> outcome A.
Variable finalize_func : A -> A.
Variable draws : nat -> nat -> nat -> Harness.draw.

Lemma apart_allocate_object (h : Harness.harness A) (epoch : nat) (d : Harness.draw) :
  Shared.allocate_object A (Shared.apart_malloc malloc_func) h epoch d
    = Harness.allocate_object A malloc_func h epoch d.
Proof.
  unfold Shared.allocate_object, Harness.allocate_object, Shared.apart_malloc.
  by destruct (malloc_func _ _) as [[a p]| | |].
Qed.

Lemma apart_allocate_objects (h : Harness.harness A) (cycle epoch i n : nat) :
  Shared.allocate_objects A (Shared.apart_malloc malloc_func) draws h cycle epoch i n
    = Harness.allocate_objects A malloc_func draws h cycle epoch i n.
Proof.
  revert h i. induction n as [|n IH]; intros h i; [done|].
  cbn [Shared.allocate_objects Harness.allocate_objects].
  rewrite apart_allocate_object.
  destruct (Harness.allocate_object _ _ _ _ _) as [h1| | |]; [|done..].
  rewrite !bind_Done. apply IH.
Qed.

Lemma apart_release_objects (h : Harness.harness A) (v : list Harness.object_t) :
  Shared.release_objects A (Shared.apart_free free_func) h v
    = (Harness.release_objects A free_func h v).2.
Proof.
  revert h. induction v as [|o v IH]; intros h; [done|].
  cbn [Shared.release_objects Harness.release_objects].
  destruct (Harness.tag_broken _ _); [done|].
  unfold Shared.apart_free.
  destruct (free_func _ _) as [a| | |]; [|done..].
  rewrite !bind_Done. rewrite IH.
  by destruct (Harness.release_objects _ _ _ _).
Qed.

Lemma apart_run_epoch (h : Harness.harness A) (cycle epoch : nat) :
  Shared.run_epoch A (Shared.apart_malloc malloc_func) (Shared.apart_free free_func)
    draws h cycle epoch
    = Harness.run_epoch A malloc_func free_func draws h cycle epoch.
Proof.
  unfold Shared.run_epoch, Harness.run_epoch.
  rewrite apart_allocate_objects.
  destruct (Harness.allocate_objects _ _ _ _ _ _ _ _) as [h1| | |]; [|done..].
  rewrite !bind_Done. by rewrite apart_release_objects.
Qed.

Lemma apart_run_epochs (h : Harness.harness A) (cycle epoch n : nat) :
  Shared.run_epochs A (Shared.apart_malloc malloc_func) (Shared.apart_free free_func)
    draws h cycle epoch n
    = Harness.run_epochs A malloc_func free_func draws h cycle epoch n.
Proof.
  revert h epoch. induction n as [|n IH]; intros h epoch; [done|].
  cbn [Shared.run_epochs Harness.run_epochs]. rewrite apart_run_epoch.
  destruct (Harness.run_epoch _ _ _ _ _ _ _) as [h1| | |]; [|done..].
  rewrite !bind_Done. apply IH.
Qed.

Lemma apart_run_cycles (h : Harness.harness A) (cycle n : nat) :
  Shared.run_cycles A (Shared.apart_malloc malloc_func) (Shared.apart_free free_func)
    draws h cycle n
    = Harness.run_cycles A malloc_func free_func draws h cycle n.
Proof.
  revert h cycle. induction n as [|n IH]; intros h cycle; [done|].
  cbn [Shared.run_cycles Harness.run_cycles]. rewrite apart_run_epochs.
  destruct (Harness.run_epochs _ _ _ _ _ _ _ _) as [h1| | |]; [|done..].
  rewrite !bind_Done. apply IH.
Qed.

Lemma apart_run_challenge (a : A) (m : Harness.memory) :
  Shared.run_challenge A (Shared.apart_step initialize_func)
    (Shared.apart_malloc malloc_func) (Shared.apart_free free_func)
    (Shared.apart_step finalize_func) draws a m
    = Harness.run_challenge A initialize_func malloc_func free_func finalize_func
        draws a m.
Proof.
  unfold Shared.run_challenge, Harness.run_challenge.
  change (Shared.start A (Shared.apart_step initialize_func) a m)
    with (Harness.start A initialize_func a m).
  rewrite apart_run_cycles.
  by destruct (Harness.run_cycles _ _ _ _ _ _ _) as [h1| | |].
Qed.

Lemma apart_contract (max_request : Z) (inv : A -> list (Z * Z) -> Prop) :
  allocator_contract malloc_func free_func max_request inv ->
  shared_contract (Shared.apart_malloc malloc_func) (Shared.apart_free free_func)
                  max_request (fun a _ live => inv a live).
Proof.
  intros Hc. split.
  - apply (contract_max _ _ _ _ Hc).
  - intros a m live sz Hinv Hsz.
    destruct (contract_malloc _ _ _ _ Hc _ _ _ Hinv Hsz)
      as (a' & p & s & Hm & Hle & Hinv' & Hdis).
    exists a', m, p, s. unfold Shared.apart_malloc. rewrite Hm. done.
  - intros a m l1 l2 b Hinv.
    destruct (contract_free _ _ _ _ Hc _ _ _ _ Hinv) as (a' & Hf & Hinv').
    exists a', m. unfold Shared.apart_free. rewrite Hf. done.
  - done.
Qed.
End Apart.

(** X22.  The harness needs no more of the functions it is handed than a
    contract, whatever they write to the memory they share with it:
    [run_challenge] ends, no tag check failing, with an allocator that serves
    every request of 1 to [max_request] bytes by a block that overlaps no
    block in use, that can release every block in use, that in both leaves
    the bytes of the blocks remaining in use as they are, and that does not
    depend on the bytes of a block in use; the sizes are drawn in that range.
    Functions that write no byte of that memory, as the two allocators with
    their headers in a store of their own, give the run of the harness with
    the payload bytes kept apart. *)
Theorem X22_any_allocator_within_the_contract :
  (forall (A : Type) (initialize_func : A -> Harness.memory -> A * Harness.memory)
          (malloc_func : A -> Harness.memory -> Z -> outcome (A * Harness.memory * Z))
          (free_func : A -> Harness.memory -> Z -> outcome (A * Harness.memory))
          (finalize_func : A -> Harness.memory -> A * Harness.memory)
          (draws : nat -> nat -> nat -> Harness.draw)
          (inv : A -> Harness.memory -> list (Z * Z) -> Prop) (max_request : Z)
          (a : A) (m : Harness.memory),
      shared_contract malloc_func free_func max_request inv ->
      (forall c e i, 1 <= Harness.d_size (draws c e i) <= max_request) ->
      inv (initialize_func a m).1 (initialize_func a m).2 [] ->
      exists h,
        Shared.run_challenge A initialize_func malloc_func free_func finalize_func
          draws a m = Done h) /\
  (forall (A : Type) (initialize_func : A -> A)
          (malloc_func : A -> Z -> outcome (A * Z)) (free_func : A -> Z -> outcome A)
          (finalize_func : A -> A) (draws : nat -> nat -> nat -> Harness.draw)
          (a : A) (m : Harness.memory),
      Shared.run_challenge A (Shared.apart_step initialize_func)
        (Shared.apart_malloc malloc_func) (Shared.apart_free free_func)
        (Shared.apart_step finalize_func) draws a m
      = Harness.run_challenge A initialize_func malloc_func free_func finalize_func
          draws a m).
Proof.
  split.
  - intros A initialize_func malloc_func free_func finalize_func draws inv max_request
           a m Hc Hdraws Hinit.
    destruct (shared_run_challenge_ok A initialize_func malloc_func free_func
                finalize_func draws inv max_request Hc Hdraws a m Hinit) as (h & Hrun & _).
    by exists h.
  - intros. apply apart_run_challenge.
Qed.

Lemma X22_witness :
  shared_contract (Shared.apart_malloc first_fit_run)
                  (Shared.apart_free FirstFit.first_fit_free)
                  (4096 - FirstFit.header_size) (fun a _ live => ff_inv a live) /\
  (forall c e i : nat,
      1 <= Harness.d_size (mixed c e i) <= 4096 - FirstFit.header_size) /\
  ff_inv (Shared.apart_step FirstFit.first_fit_initialize FirstFit.boot ∅).1 [] /\
  exists h,
    Shared.run_challenge FirstFit.state (Shared.apart_step FirstFit.first_fit_initialize)
      (Shared.apart_malloc first_fit_run) (Shared.apart_free FirstFit.first_fit_free)
      (Shared.apart_step first_fit_finalize) mixed FirstFit.boot ∅ = Done h.
Proof.
  assert (H1 : shared_contract (Shared.apart_malloc first_fit_run)
                 (Shared.apart_free FirstFit.first_fit_free)
                 (4096 - FirstFit.header_size) (fun a _ live => ff_inv a live)).
  { apply apart_contract. exact ff_contract. }
  assert (H2 : forall c e i : nat,
             1 <= Harness.d_size (mixed c e i) <= 4096 - FirstFit.header_size).
  { intros c e i. simpl. unfold FirstFit.header_size. lia. }
  assert (H3 : ff_inv (Shared.apart_step FirstFit.first_fit_initialize FirstFit.boot ∅).1
                 []).
  { exists [(64, 0)], []. split; [|done].
    apply FirstFitTheory.ff_heap_invb_sound. vm_compute. reflexivity. }
  split; [exact H1|]. split; [exact H2|]. split; [exact H3|].
  exact (proj1 X22_any_allocator_within_the_contract FirstFit.state
           (Shared.apart_step FirstFit.first_fit_initialize) _ _
           (Shared.apart_step first_fit_finalize) mixed
           (fun a _ live => ff_inv a live) _ FirstFit.boot ∅ H1 H2 H3).
Defined.

(** ** Where an object is scheduled *)

(** X23.  An object that is not marked as never freed, with a lifetime
    from [get_object_lifetime(1, epochs_per_cycle)], is pushed at the end of
    one of the vectors that the epochs release, never of the last one.  With
    the longest lifetime, [epochs_per_cycle], that vector is the one of the
    epoch that allocates the object, which releases it in its own release
    loop; with any shorter lifetime it is the vector of another epoch. *)
Theorem X23_where_an_object_is_scheduled (A : Type)
    (malloc_func : A -> Z -> outcome (A * Z)) (h h' : Harness.harness A)
    (epoch : nat) (d : Harness.draw) (value : Z) :
  get_object_lifetime 1 (Z.of_nat Harness.epochs_per_cycle) value
    = Done (Harness.d_lifetime d) ->
  Harness.d_permanent d = false ->
  (epoch < Harness.epochs_per_cycle)%nat ->
  length (Harness.objects A h) = S Harness.epochs_per_cycle ->
  Harness.allocate_object A malloc_func h epoch d = Done h' ->
  exists o v,
    Harness.created A h' = Harness.created A h ++ [o] /\
    Harness.objects A h !! slot_of epoch d = Some v /\
    Harness.objects A h' !! slot_of epoch d = Some (v ++ [o]) /\
    (slot_of epoch d < Harness.epochs_per_cycle)%nat /\
    (Harness.d_lifetime d = Z.of_nat Harness.epochs_per_cycle -> slot_of epoch d = epoch) /\
    (Harness.d_lifetime d < Z.of_nat Harness.epochs_per_cycle -> slot_of epoch d <> epoch).
Proof.
  intros Hlt Hperm He Hlen Hrun.
  assert (Hrange : 1 <= Harness.d_lifetime d <= 100).
  { unfold get_object_lifetime in Hlt.
    destruct (Z.leb_spec 1 value); [|done]. simpl in Hlt.
    destruct (Z.leb_spec value (Z.of_nat Harness.epochs_per_cycle)); [|done].
    simpl in Hlt. injection Hlt as <-. unfold Harness.epochs_per_cycle in *. lia. }
  assert (Hslot : slot_of epoch d
                  = Z.to_nat ((Z.of_nat epoch + Harness.d_lifetime d) mod 100)).
  { unfold slot_of. by rewrite Hperm. }
  unfold Harness.epochs_per_cycle in *.
  assert (Hk : (slot_of epoch d < 100)%nat).
  { rewrite Hslot. pose proof (Z.mod_pos_bound (Z.of_nat epoch + Harness.d_lifetime d) 100).
    lia. }
  destruct (allocate_object_Done _ _ _ _ _ _ Hrun) as (a & p & _ & ->).
  destruct (lookup_lt_is_Some_2 (Harness.objects A h) (slot_of epoch d)) as (v & Hv);
    [lia|].
  eexists _, v. cbn [Harness.created Harness.objects].
  split; [reflexivity|]. split; [done|]. split; [|split; [done|split]].
  - unfold Harness.vector_push. rewrite Hv.
    apply list_lookup_insert_eq. lia.
  - intros Heq. rewrite Hslot.
    replace ((Z.of_nat epoch + Harness.d_lifetime d) mod 100) with (Z.of_nat epoch);
      [lia|].
    Z.div_mod_to_equations. lia.
  - intros Hless. rewrite Hslot. intros Heq.
    assert ((Z.of_nat epoch + Harness.d_lifetime d) mod 100 = Z.of_nat epoch) as Hm.
    { pose proof (Z.mod_pos_bound (Z.of_nat epoch + Harness.d_lifetime d) 100). lia. }
    revert Hm. Z.div_mod_to_equations. lia.
Qed.

Lemma X23_witness :
  get_object_lifetime 1 (Z.of_nat Harness.epochs_per_cycle) 100
    = Done (Harness.d_lifetime longest) /\
  Harness.d_permanent longest = false /\
  (5 < Harness.epochs_per_cycle)%nat /\
  length (Harness.objects FirstFit.state fresh_harness) = S Harness.epochs_per_cycle /\
  Harness.allocate_object FirstFit.state ff_malloc_func fresh_harness 5 longest
    = Done after_longest /\
  exists o v,
    Harness.created FirstFit.state after_longest
      = Harness.created FirstFit.state fresh_harness ++ [o] /\
    Harness.objects FirstFit.state fresh_harness !! slot_of 5 longest = Some v /\
    Harness.objects FirstFit.state after_longest !! slot_of 5 longest = Some (v ++ [o]) /\
    (slot_of 5 longest < Harness.epochs_per_cycle)%nat /\
    (Harness.d_lifetime longest = Z.of_nat Harness.epochs_per_cycle ->
     slot_of 5 longest = 5%nat) /\
    (Harness.d_lifetime longest < Z.of_nat Harness.epochs_per_cycle ->
     slot_of 5 longest <> 5%nat).
Proof.
  assert (H1 : get_object_lifetime 1 (Z.of_nat Harness.epochs_per_cycle) 100
               = Done (Harness.d_lifetime longest)) by reflexivity.
  assert (H2 : Harness.d_permanent longest = false) by reflexivity.
  assert (H3 : (5 < Harness.epochs_per_cycle)%nat) by (unfold Harness.epochs_per_cycle; lia).
  assert (H4 : length (Harness.objects FirstFit.state fresh_harness)
               = S Harness.epochs_per_cycle) by reflexivity.
  assert (H5 : Harness.allocate_object FirstFit.state ff_malloc_func fresh_harness 5 longest
               = Done after_longest).
  { vm_compute. reflexivity. }
  split; [exact H1|]. split; [exact H2|]. split; [exact H3|]. split; [exact H4|].
  split; [exact H5|].
  exact (X23_where_an_object_is_scheduled _ _ _ _ _ _ _ H1 H2 H3 H4 H5).
Defined.

(** ** Linking and unlinking at the head of the free list *)

(** X24.  [first_fit_add_to_free_list] on a header whose [next] is [NULL]
    makes it the head of the list, and [first_fit_remove_from_free_list] of
    that header with no predecessor undoes it: the state is again the one
    before.  On a header whose [next] is not [NULL] the former stops in its
    [assert]. *)
Theorem X24_add_then_remove (st : FirstFit.state) (metadata : Z)
    (md : FirstFit.first_fit_metadata_t) :
  metadata <> NULL -> FirstFit.heap st !! metadata = Some md ->
  (FirstFit.next md = NULL ->
   exists st1,
     FirstFit.first_fit_add_to_free_list st metadata = Done st1 /\
     FirstFit.free_head st1 = metadata /\
     FirstFit.first_fit_remove_from_free_list st1 metadata NULL = Done st) /\
  (FirstFit.next md <> NULL ->
   FirstFit.first_fit_add_to_free_list st metadata = Abort).
Proof.
  intros Hm Hmd. split.
  - intros Hnext. unfold FirstFit.first_fit_add_to_free_list.
    rewrite (FirstFitTheory.ff_load_Some _ _ _ Hm Hmd), bind_Done.
    rewrite Hnext. cbn [Z.eqb NULL negb].
    rewrite (FirstFitTheory.ff_store_next_Some _ _ _ _ Hm Hmd), bind_Done.
    eexists. split; [reflexivity|]. split; [reflexivity|].
    unfold FirstFit.first_fit_remove_from_free_list.
    cbn [FirstFit.heap FirstFit.with_head FirstFit.with_heap].
    rewrite (FirstFitTheory.ff_load_Some _ _ (FirstFit.set_next md (FirstFit.free_head st))
               Hm) by apply lookup_insert_eq.
    rewrite bind_Done. cbn [Z.eqb NULL negb]. rewrite bind_Done.
    cbn [FirstFit.heap FirstFit.with_head FirstFit.with_heap].
    rewrite (FirstFitTheory.ff_store_next_Some _ _ _
               (FirstFit.set_next md (FirstFit.free_head st)) Hm)
      by apply lookup_insert_eq.
    rewrite bind_Done. rewrite insert_insert_eq.
    destruct st as [fh dm hp sy]. destruct md as [sz nx].
    unfold FirstFit.with_heap, FirstFit.with_head, FirstFit.set_next. simpl in *.
    subst nx. by rewrite (insert_id hp metadata _ Hmd).
  - intros Hnext. unfold FirstFit.first_fit_add_to_free_list.
    rewrite (FirstFitTheory.ff_load_Some _ _ _ Hm Hmd), bind_Done.
    apply Z.eqb_neq in Hnext. by rewrite Hnext.
Qed.

Lemma X24_witness :
  4096 <> NULL /\
  FirstFit.heap ff_after_malloc !! 4096 = Some (FirstFit.fresh_header 8) /\
  (FirstFit.next (FirstFit.fresh_header 8) = NULL ->
   exists st1,
     FirstFit.first_fit_add_to_free_list ff_after_malloc 4096 = Done st1 /\
     FirstFit.free_head st1 = 4096 /\
     FirstFit.first_fit_remove_from_free_list st1 4096 NULL = Done ff_after_malloc) /\
  (FirstFit.next (FirstFit.fresh_header 8) <> NULL ->
   FirstFit.first_fit_add_to_free_list ff_after_malloc 4096 = Abort).
Proof.
  assert (H1 : 4096 <> NULL) by (unfold NULL; lia).
  assert (H2 : FirstFit.heap ff_after_malloc !! 4096 = Some (FirstFit.fresh_header 8)).
  { vm_compute. reflexivity. }
  split; [exact H1|]. split; [exact H2|].
  exact (X24_add_then_remove _ _ _ H1 H2).
Defined.

(** ** Pages are mapped on need only *)

(** X25.  Neither allocator maps a page while a free block can hold the
    request: a call of [malloc] that returns leaves the system untouched
    when some free block is large enough, and maps exactly one page of 4096
    bytes when every free block is smaller than the request. *)
Theorem X25_pages_on_need_only :
  (forall (st : BestFit.state) (ps : list Z) (req : Z) (f : nat)
          (st' : BestFit.state) (p : Z),
      BestFit.reachable st ps -> 0 <= req ->
      BestFit.best_fit_malloc f st req = Done (st', p) ->
      exists t,
        BestFit.tree_rep (BestFit.heap st) (BestFit.free_head st) t /\
        ((exists b, b ∈ BestFit.elems t /\ req <= b.2) ->
         BestFit.sys st' = BestFit.sys st) /\
        ((forall b, b ∈ BestFit.elems t -> b.2 < req) ->
         brk (BestFit.sys st') = brk (BestFit.sys st) + 4096 /\
         mmap_size (BestFit.sys st') = wrap (mmap_size (BestFit.sys st) + 4096))) /\
  (forall (st : FirstFit.state) (ps : list Z) (req : Z) (f : nat)
          (st' : FirstFit.state) (p : Z),
      FirstFit.reachable st ps -> 0 <= req ->
      FirstFit.first_fit_malloc f st req = Done (st', p) ->
      exists l,
        FirstFit.list_rep (FirstFit.heap st) (FirstFit.free_head st) l /\
        ((exists b, b ∈ l /\ req <= b.2) ->
         FirstFit.sys st' = FirstFit.sys st) /\
        ((forall b, b ∈ l -> b.2 < req) ->
         brk (FirstFit.sys st') = brk (FirstFit.sys st) + 4096 /\
         mmap_size (FirstFit.sys st') = wrap (mmap_size (FirstFit.sys st) + 4096))).
Proof.
  split.
  - intros st ps req f st' p Hreach Hreq Hrun.
    destruct (BestFitTheory.reachable_inv st ps Hreach) as (t & live & Hinv & _).
    destruct (BestFitTheory.malloc_inv st t live req f st' p Hinv Hreq Hrun)
      as (t' & b & Hm & _ & _ & _ & _ & Hsys).
    exists t. split; [apply (BestFit.inv_rep _ _ _ Hinv)|]. split.
    + intros (x & Hx & Hle).
      destruct Hsys as [Hsys|(Hnone & _)]; [done|].
      destruct (BestFitTheory.search_some req t x (BestFit.inv_bst _ _ _ Hinv) Hx Hle)
        as (y & Hy). congruence.
    + intros Hsmall.
      destruct (BestFit.search_t req t) as [[x s]|] eqn:Hs.
      { destruct (BestFitTheory.search_in _ _ _ Hs) as [Hx Hle].
        specialize (Hsmall _ Hx). simpl in *. lia. }
      destruct Hsys as [Hsys|(_ & Hbrk & Hmm)]; [|done].
      unfold BestFit.malloc_t in Hm. rewrite Hs in Hm.
      destruct (BestFit.search_t req _) as [[x s]|]; [|done].
      destruct (BestFit.take_t req x s _) as [r|]; [|done].
      simpl in Hm. injection Hm as _ Htop. rewrite Hsys in Htop. lia.
  - intros st ps req f st' p Hreach Hreq Hrun.
    destruct (FirstFitTheory.ff_reachable_inv st ps Hreach) as (l & live & Hinv & _).
    destruct (FirstFitTheory.ff_malloc_inv st l live req f st' p Hinv Hreq Hrun)
      as (l' & b & Hm & _ & _ & _ & _ & Hsys).
    exists l. split; [apply (FirstFit.inv_rep _ _ _ Hinv)|]. split.
    + intros (x & Hx & Hle).
      destruct Hsys as [Hsys|(Hnone & _)]; [done|].
      pose proof (FirstFitTheory.ff_split_first_none _ _ Hnone x Hx). lia.
    + intros Hsmall.
      destruct (FirstFit.split_first req l) as [[[l1 x] l2]|] eqn:Hs.
      { destruct (FirstFitTheory.ff_split_first_spec _ _ _ _ _ Hs) as (-> & _ & Hle).
        specialize (Hsmall x). rewrite elem_of_app, elem_of_cons in Hsmall.
        specialize (Hsmall (or_intror (or_introl eq_refl))). lia. }
      destruct Hsys as [Hsys|(_ & Hbrk & Hmm)]; [|done].
      unfold FirstFit.malloc_l in Hm. rewrite Hs in Hm.
      destruct (4096 - FirstFit.header_size <? req); [done|].
      injection Hm as _ Htop. rewrite Hsys in Htop. lia.
Qed.

Lemma X25_witness :
  (BestFit.reachable bf_after_malloc [4128] /\ 0 <= 8 /\
   BestFit.best_fit_malloc 8 bf_after_malloc 8 = Done (bf_after_two, 4168) /\
   exists t,
     BestFit.tree_rep (BestFit.heap bf_after_malloc) (BestFit.free_head bf_after_malloc) t /\
     ((exists b, b ∈ BestFit.elems t /\ 8 <= b.2) ->
      BestFit.sys bf_after_two = BestFit.sys bf_after_malloc) /\
     ((forall b, b ∈ BestFit.elems t -> b.2 < 8) ->
      brk (BestFit.sys bf_after_two) = brk (BestFit.sys bf_after_malloc) + 4096 /\
      mmap_size (BestFit.sys bf_after_two)
        = wrap (mmap_size (BestFit.sys bf_after_malloc) + 4096))) /\
  (FirstFit.reachable ff_init [] /\ 0 <= 8 /\
   FirstFit.first_fit_malloc 8 ff_init 8 = Done (ff_after_malloc, 4112) /\
   exists l,
     FirstFit.list_rep (FirstFit.heap ff_init) (FirstFit.free_head ff_init) l /\
     ((exists b, b ∈ l /\ 8 <= b.2) ->
      FirstFit.sys ff_after_malloc = FirstFit.sys ff_init) /\
     ((forall b, b ∈ l -> b.2 < 8) ->
      brk (FirstFit.sys ff_after_malloc) = brk (FirstFit.sys ff_init) + 4096 /\
      mmap_size (FirstFit.sys ff_after_malloc)
        = wrap (mmap_size (FirstFit.sys ff_init) + 4096))).
Proof.
  split.
  - assert (H1 : BestFit.reachable bf_after_malloc [4128]) by exact bf_reach_one.
    assert (H2 : 0 <= 8) by lia.
    assert (H3 : BestFit.best_fit_malloc 8 bf_after_malloc 8 = Done (bf_after_two, 4168)).
    { vm_compute. reflexivity. }
    split; [exact H1|]. split; [exact H2|]. split; [exact H3|].
    exact (proj1 X25_pages_on_need_only _ _ _ _ _ _ H1 H2 H3).
  - assert (H1 : FirstFit.reachable ff_init []).
    { apply (FirstFit.reachable_initialize FirstFit.boot);
        simpl; unfold FirstFit.header_size; lia. }
    assert (H2 : 0 <= 8) by lia.
    assert (H3 : FirstFit.first_fit_malloc 8 ff_init 8 = Done (ff_after_malloc, 4112)).
    { vm_compute. reflexivity. }
    split; [exact H1|]. split; [exact H2|]. split; [exact H3|].
    exact (proj2 X25_pages_on_need_only _ _ _ _ _ _ H1 H2 H3).
Defined.

(** ** Blocks never grow over a page *)

Lemma paged_perm (hdr base d top : Z) (bs bs' : list (Z * Z)) :
  bs ≡ₚ bs' -> paged hdr base d top bs -> paged hdr base d top bs'.
Proof.
  intros Hperm (Ht & Hb). split; [done|].
  intros b Hin. apply Hb. by rewrite Hperm.
Qed.

Lemma paged_page (hdr base d top : Z) (bs : list (Z * Z)) :
  paged hdr base d top bs -> paged hdr base d (top + 4096) ((top, 4096 - hdr) :: bs).
Proof.
  intros ((n & Hn & ->) & Hb). split; [exists (n + 1); lia|].
  intros b Hin. apply elem_of_cons in Hin as [->|Hin]; [|by apply Hb].
  right. exists n. simpl. lia.
Qed.

Lemma paged_split (hdr base d top b s req : Z) (rest : list (Z * Z)) :
  0 < hdr -> 0 <= req -> hdr < s - req ->
  paged hdr base d top ((b, s) :: rest) ->
  paged hdr base d top ((b + hdr + req, s - req - hdr) :: (b, req) :: rest).
Proof.
  intros Hh Hreq Hlt (Ht & Hb). split; [done|].
  assert (Hpage : in_one_page hdr base (b, s)).
  { destruct (Hb (b, s)) as [Heq|Hin]; [apply elem_of_cons; auto| |done].
    injection Heq as -> ->. lia. }
  destruct Hpage as (k & Hk & Hlo & Hhi). simpl in Hlo, Hhi.
  intros x Hin. apply elem_of_cons in Hin as [->|Hin]; [right; exists k; simpl; lia|].
  apply elem_of_cons in Hin as [->|Hin]; [right; exists k; simpl; lia|].
  apply Hb. apply elem_of_cons. auto.
Qed.

(** X26.  No block ever spans two pages.  In every state either allocator
    reaches, every block, free or in use, the dummy apart, lies within one
    of the pages mapped since [initialize], so its size is at most 4096
    minus the size of a header: free blocks of neighbouring pages are never
    joined into a larger one. *)
Theorem X26_blocks_stay_within_a_page :
  (forall (st0 st : BestFit.state) (ps : list Z),
      bf_reachable_from (fun _ => True) st0 st ps ->
      exists t live,
        BestFit.heap_inv st t live /\ ps = BestFit.payload <$> live /\
        forall b, b ∈ BestFit.elems t ++ live ->
          b = (BestFit.dummy st0, 0) \/
          (in_one_page BestFit.header_size (brk (BestFit.sys st0)) b /\
           b.2 <= 4096 - BestFit.header_size)) /\
  (forall (st0 st : FirstFit.state) (ps : list Z),
      ff_reachable_from (fun _ => True) st0 st ps ->
      exists l live,
        FirstFit.heap_inv st l live /\ ps = FirstFit.payload <$> live /\
        forall b, b ∈ l ++ live ->
          b = (FirstFit.dummy st0, 0) \/
          (in_one_page FirstFit.header_size (brk (FirstFit.sys st0)) b /\
           b.2 <= 4096 - FirstFit.header_size)).
Proof.
  split.
  - intros st0 st ps Hreach.
    destruct (bf_blocks_invariant (fun _ => True)
                (paged BestFit.header_size (brk (BestFit.sys st0)) (BestFit.dummy st0)))
      with (st0 := st0) (st := st) (ps := ps)
      as (t & live & Hinv & Hps & _ & _ & Hb).
    + intros top bs bs'. apply paged_perm.
    + intros top bs. apply paged_page.
    + intros top b s req rest Hreq _ Hlt. by apply paged_split.
    + split; [exists 0; lia|].
      intros b Hin. apply list_elem_of_singleton in Hin as ->. by left.
    + done.
    + exists t, live. split; [done|]. split; [done|].
      intros b Hin. destruct (Hb b Hin) as [Heq|Hpage]; [by left|right].
      split; [done|]. destruct Hpage as (k & Hk & Hlo & Hhi). lia.
  - intros st0 st ps Hreach.
    destruct (ff_blocks_invariant (fun _ => True)
                (paged FirstFit.header_size (brk (FirstFit.sys st0)) (FirstFit.dummy st0)))
      with (st0 := st0) (st := st) (ps := ps)
      as (l & live & Hinv & Hps & _ & _ & Hb).
    + intros top bs bs'. apply paged_perm.
    + intros top bs. apply paged_page.
    + intros top b s req rest Hreq _ Hlt. by apply paged_split.
    + split; [exists 0; lia|].
      intros b Hin. apply list_elem_of_singleton in Hin as ->. by left.
    + done.
    + exists l, live. split; [done|]. split; [done|].
      intros b Hin. destruct (Hb b Hin) as [Heq|Hpage]; [by left|right].
      split; [done|]. destruct Hpage as (k & Hk & Hlo & Hhi). lia.
Qed.

Lemma X26_witness :
  (bf_reachable_from (fun _ => True) BestFit.boot bf_after_malloc [4128] /\
   exists t live,
     BestFit.heap_inv bf_after_malloc t live /\ [4128] = BestFit.payload <$> live /\
     forall b, b ∈ BestFit.elems t ++ live ->
       b = (BestFit.dummy BestFit.boot, 0) \/
       (in_one_page BestFit.header_size (brk (BestFit.sys BestFit.boot)) b /\
        b.2 <= 4096 - BestFit.header_size)) /\
  (ff_reachable_from (fun _ => True) FirstFit.boot ff_after_malloc [4112] /\
   exists l live,
     FirstFit.heap_inv ff_after_malloc l live /\ [4112] = FirstFit.payload <$> live /\
     forall b, b ∈ l ++ live ->
       b = (FirstFit.dummy FirstFit.boot, 0) \/
       (in_one_page FirstFit.header_size (brk (FirstFit.sys FirstFit.boot)) b /\
        b.2 <= 4096 - FirstFit.header_size)).
Proof.
  split.
  - assert (H1 : bf_reachable_from (fun _ => True) BestFit.boot bf_after_malloc [4128]).
    { apply bf_from_one. exact I. }
    split; [exact H1|].
    exact (proj1 X26_blocks_stay_within_a_page _ _ _ H1).
  - assert (H1 : ff_reachable_from (fun _ => True) FirstFit.boot ff_after_malloc [4112]).
    { apply ff_from_one. exact I. }
    split; [exact H1|].
    exact (proj2 X26_blocks_stay_within_a_page _ _ _ H1).
Defined.
